(** * a11y-mermaid-studio: the narrative and accessibility core of app.js

    A shallow embedding of the functions of [app.js] that classify a Mermaid
    source, extract and complete its accessibility annotations, build the
    flowchart and pie narratives and rewrite the rendered SVG, followed by
    the properties of that code.

    JavaScript strings are sequences of UTF-16 code units: a code unit is an
    [N], a string a [list N].  Regular expressions are run by a small
    backtracking matcher that follows the ECMAScript semantics of the
    constructs the program uses.  Numbers are IEEE 754 doubles: every
    arithmetic result is the exact result rounded to the nearest double,
    as ECMAScript defines it.  The DOM is a rose tree of elements, text
    and comment nodes; the browser services the program calls (the XML
    parser and serializer, the clock and the random source) are inputs of
    the functions that use them. *)

From Stdlib Require Import String Ascii.
From Stdlib Require Import NArith ZArith QArith Qround Qabs Qpower Bool Btauto Lia Lqa Arith List.
From Stdlib Require Import Permutation Sorted.
Import ListNotations.

Close Scope Q_scope.
Set Implicit Arguments.
Set Warnings "-register-all".

(* ================================================================== *)
(** * Part I: definitions *)
(* ================================================================== *)

(** ** JavaScript strings *)

Definition char := N.
Bind Scope N_scope with char.
Definition jsstring := list char.

(** [js "..."] is the JavaScript string with the code units of an ASCII
    literal. *)
Definition js (s : string) : jsstring :=
  map N_of_ascii (list_ascii_of_string s).

Definition LF : char := 10%N.

(** LineTerminator: LF, CR, LS, PS. *)
Definition isLineTerminator (c : char) : bool :=
  ((c =? 10) || (c =? 13) || (c =? 8232) || (c =? 8233))%N.

(** WhiteSpace and LineTerminator code units, the set removed by
    [String.prototype.trim] and matched by [\s]. *)
Definition isWhiteSpace (c : char) : bool :=
  ((c =? 9) || (c =? 10) || (c =? 11) || (c =? 12) || (c =? 13) || (c =? 32)
   || (c =? 160) || (c =? 5760) || ((8192 <=? c) && (c <=? 8202))
   || (c =? 8232) || (c =? 8233) || (c =? 8239) || (c =? 8287)
   || (c =? 12288) || (c =? 65279))%N.

Fixpoint str_eqb (a b : jsstring) : bool :=
  match a, b with
  | [], [] => true
  | x :: a', y :: b' => (x =? y)%N && str_eqb a' b'
  | _, _ => false
  end.

Fixpoint trimStart (s : jsstring) : jsstring :=
  match s with
  | [] => []
  | c :: t => if isWhiteSpace c then trimStart t else s
  end.

Fixpoint trimEnd (s : jsstring) : jsstring :=
  match s with
  | [] => []
  | c :: t =>
      match trimEnd t with
      | [] => if isWhiteSpace c then [] else [c]
      | t' => c :: t'
      end
  end.

Definition trim (s : jsstring) : jsstring := trimEnd (trimStart s).

(** [s.split('\n')]: never empty, [''.split('\n')] is [['']]. *)
Fixpoint split_nl (s : jsstring) : list jsstring :=
  match s with
  | [] => [[]]
  | c :: t =>
      if (c =? LF)%N then [] :: split_nl t
      else match split_nl t with
           | l :: ls => (c :: l) :: ls
           | [] => [[c]]
           end
  end.

(** [lines.join('\n')]. *)
Fixpoint join_nl (ls : list jsstring) : jsstring :=
  match ls with
  | [] => []
  | [l] => l
  | l :: ls' => l ++ LF :: join_nl ls'
  end.

Fixpoint startsWith (s p : jsstring) {struct p} : bool :=
  match p, s with
  | [], _ => true
  | x :: p', y :: s' => (x =? y)%N && startsWith s' p'
  | _ :: _, [] => false
  end.

Definition endsWith (s p : jsstring) : bool :=
  startsWith (rev s) (rev p).

(** ** Frontmatter (FRONTMATTER_SUPPORT.md, [skipFrontmatter]) *)

Definition fence : jsstring := js "---".

(** [line.trim() === '---'] *)
Definition isFence (line : jsstring) : bool := str_eqb (trim line) fence.

(** The [for] loop over [lines[1..]]: the lines after the first closing
    fence, if there is one. *)
Fixpoint afterClosing (ls : list jsstring) : option (list jsstring) :=
  match ls with
  | [] => None
  | l :: ls' => if isFence l then Some ls' else afterClosing ls'
  end.

Definition skipFrontmatter (source : jsstring) : jsstring :=
  match split_nl (trim source) with
  | l0 :: rest =>
      if isFence l0 then
        match afterClosing rest with
        | Some r => join_nl r
        | None => source
        end
      else source
  | [] => source
  end.

(** The number of fence lines among the lines of a text. *)
Definition fenceLines (ls : list jsstring) : nat := length (filter isFence ls).

(** A source with two fenced blocks in a row. *)
Definition twoBlocks : jsstring :=
  join_nl (map js ["---"; "a"; "---"; "---"; "b"; "---"; "c"])%string.

(** ** Diagram type ([detectDiagramType]) *)

Definition firstLineOf (source : jsstring) : jsstring :=
  trim (hd [] (split_nl (trim source))).

Definition detectDiagramType (source : jsstring) : jsstring :=
  let firstLine := firstLineOf source in
  if startsWith firstLine (js "flowchart") || startsWith firstLine (js "graph")
  then js "flowchart"
  else if startsWith firstLine (js "pie") then js "pie"
  else if startsWith firstLine (js "classDiagram") then js "classDiagram"
  else if startsWith firstLine (js "sequenceDiagram") then js "sequenceDiagram"
  else if startsWith firstLine (js "gantt") then js "gantt"
  else if startsWith firstLine (js "journey") then js "journey"
  else if startsWith firstLine (js "mindmap") then js "mindmap"
  else if startsWith firstLine (js "timeline") then js "timeline"
  else if startsWith firstLine (js "xychart") then js "xychart"
  else if startsWith firstLine (js "stateDiagram") then js "stateDiagram"
  else js "unknown".

(** The first-line keywords the classifier recognises, with the type it
    returns for each. *)
Definition recognised : list (jsstring * jsstring) :=
  map (fun kv => (js (fst kv), js (snd kv)))
    [("flowchart", "flowchart"); ("graph", "flowchart"); ("pie", "pie");
     ("classDiagram", "classDiagram"); ("sequenceDiagram", "sequenceDiagram");
     ("gantt", "gantt"); ("journey", "journey"); ("mindmap", "mindmap");
     ("timeline", "timeline"); ("xychart", "xychart");
     ("stateDiagram", "stateDiagram")]%string.

(** An entity-relationship diagram (tests/generic-narrative). *)
Definition erDiagramSource : jsstring :=
  join_nl (map js ["erDiagram"; "        CUSTOMER ||--o{ ORDER : places"])%string.

(** A pie chart behind a frontmatter block. *)
Definition frontmatterPie : jsstring :=
  join_nl [js "---"; js "config:"; js "  theme: dark"; js "---"; []; js "pie";
           [34%N] ++ js "Dogs" ++ [34%N] ++ js ":1"].

(** A flowchart whose only edge line declares both of its nodes. *)
Definition minimalFlowchart : jsstring :=
  join_nl (map js ["flowchart TD"; "A[Start]-->B[End]"; "%%accTitle T";
                   "%%accDescr D"])%string.

(** ** Regular expressions

    The constructs used by the program's patterns: literal code units,
    character classes, sequence, alternation, the greedy quantifiers [*],
    [+] and [?] (the first two only ever applied to a character class),
    capturing groups and the start anchor.  The matcher is the usual
    backtracking one in continuation-passing style: a quantifier tries the
    longest repetition first and gives characters back when what follows
    fails, an alternation tries its left branch first. *)

Inductive regex : Type :=
| REps
| RChar (c : char)
| RClass (p : char -> bool)
| RSeq (r1 r2 : regex)
| RAlt (r1 r2 : regex)
| RStar (p : char -> bool)
| RPlus (p : char -> bool)
| ROpt (r : regex)
| RGroup (i : nat) (r : regex)
| RBol.

Record mstate : Type := MState {
  pos : nat;                       (* index of the next code unit *)
  rest : jsstring;                 (* input from [pos] on *)
  caps : list (nat * jsstring)     (* captures set so far *)
}.

Definition cont := mstate -> option mstate.

Fixpoint setCap (i : nat) (v : jsstring) (cs : list (nat * jsstring))
  : list (nat * jsstring) :=
  match cs with
  | [] => [(i, v)]
  | (j, w) :: cs' => if Nat.eqb i j then (i, v) :: cs' else (j, w) :: setCap i v cs'
  end.

Fixpoint getCap (i : nat) (cs : list (nat * jsstring)) : option jsstring :=
  match cs with
  | [] => None
  | (j, w) :: cs' => if Nat.eqb i j then Some w else getCap i cs'
  end.

(** Greedy repetition of a character class followed by [k]. *)
Fixpoint star (p : char -> bool) (k : cont) (ps : nat)
  (cs : list (nat * jsstring)) (s : jsstring) {struct s} : option mstate :=
  match s with
  | c :: t =>
      if p c then
        match star p k (S ps) cs t with
        | Some r => Some r
        | None => k (MState ps s cs)
        end
      else k (MState ps s cs)
  | [] => k (MState ps [] cs)
  end.

Fixpoint rmatch (r : regex) (k : cont) (st : mstate) {struct r} : option mstate :=
  match r with
  | REps => k st
  | RChar c =>
      match rest st with
      | x :: t => if (x =? c)%N then k (MState (S (pos st)) t (caps st)) else None
      | [] => None
      end
  | RClass p =>
      match rest st with
      | x :: t => if p x then k (MState (S (pos st)) t (caps st)) else None
      | [] => None
      end
  | RSeq r1 r2 => rmatch r1 (rmatch r2 k) st
  | RAlt r1 r2 =>
      match rmatch r1 k st with
      | Some x => Some x
      | None => rmatch r2 k st
      end
  | RStar p => star p k (pos st) (caps st) (rest st)
  | RPlus p =>
      match rest st with
      | x :: t => if p x then star p k (S (pos st)) (caps st) t else None
      | [] => None
      end
  | ROpt r1 =>
      match rmatch r1 k st with
      | Some x => Some x
      | None => k st
      end
  | RGroup i r1 =>
      rmatch r1
        (fun st' =>
           k (MState (pos st') (rest st')
                (setCap i (firstn (pos st' - pos st) (rest st)) (caps st'))))
        st
  | RBol => if Nat.eqb (pos st) 0 then k st else None
  end.

(** Length of the longest prefix of [s] made of [p] code units. *)
Fixpoint spanLen (p : char -> bool) (s : jsstring) : nat :=
  match s with
  | c :: t => if p c then S (spanLen p t) else 0
  | [] => 0
  end.

(** The result of [str.match(re)] for a pattern without the [g] flag. *)
Record Match : Type := MkMatch {
  index : nat;
  matched : jsstring;
  groups : list (nat * jsstring)
}.

Definition group (i : nat) (mt : Match) : option jsstring := getCap i (groups mt).

(** Try the pattern at the current position, then at each later one: the
    leftmost match wins. *)
Fixpoint search (r : regex) (ps : nat) (s : jsstring) {struct s} : option Match :=
  match rmatch r (fun st => Some st) (MState ps s []) with
  | Some st => Some (MkMatch ps (firstn (pos st - ps) s) (caps st))
  | None =>
      match s with
      | [] => None
      | _ :: t => search r (S ps) t
      end
  end.

Definition exec (r : regex) (s : jsstring) : option Match := search r 0 s.

Fixpoint lit (s : jsstring) : regex :=
  match s with
  | [] => REps
  | c :: t => RSeq (RChar c) (lit t)
  end.

Fixpoint seq (rs : list regex) : regex :=
  match rs with
  | [] => REps
  | [r] => r
  | r :: rs' => RSeq r (seq rs')
  end.

(** [.] without the [s] flag: anything but a line terminator. *)
Definition dot (c : char) : bool := negb (isLineTerminator c).

(** [\d] *)
Definition isDigit (c : char) : bool := ((48 <=? c) && (c <=? 57))%N.

(** ** Accessibility annotations ([parseMermaidMetadata], [ensureMetadata]) *)

(** [/%%\s*KEYWORD\s*(.+)/] *)
Definition annotationRe (keyword : jsstring) : regex :=
  seq [lit (js "%%"); RStar isWhiteSpace; lit keyword; RStar isWhiteSpace;
       RGroup 1 (RPlus dot)].

Definition accTitle : jsstring := js "accTitle".
Definition accDescr : jsstring := js "accDescr".

(** [m ? m[1].trim() : null] *)
Definition annotation (keyword source : jsstring) : option jsstring :=
  match exec (annotationRe keyword) source with
  | Some mt =>
      match group 1 mt with
      | Some g => Some (trim g)
      | None => None
      end
  | None => None
  end.

Definition pct : jsstring := js "%%".

Definition allWs (w : jsstring) : Prop := Forall (fun c => isWhiteSpace c = true) w.

(** [u] starts with an occurrence of the annotation [keyword]: two percent
    signs, white space, the keyword, white space and a code unit that is
    not a line terminator. *)
Definition annotationAt (keyword u : jsstring) : Prop :=
  exists w w2 c r, u = pct ++ w ++ keyword ++ w2 ++ c :: r /\ allWs w /\ allWs w2
                   /\ dot c = true.

(** [s] holds an occurrence of the annotation somewhere. *)
Definition hasAnnotation (keyword s : jsstring) : Prop :=
  exists pre u, s = pre ++ u /\ annotationAt keyword u.

(** [u] is an annotation keyword with nothing but white space behind it. *)
Definition blankAnnotation (keyword u : jsstring) : Prop :=
  exists w w2, u = pct ++ w ++ keyword ++ w2 /\ allWs w /\ allWs w2.

Record Metadata : Type := MkMetadata {
  title : option jsstring;
  description : option jsstring
}.

Definition parseMermaidMetadata (mermaidSource : jsstring) : Metadata :=
  MkMetadata (annotation accTitle mermaidSource)
             (annotation accDescr mermaidSource).

(** JavaScript truthiness of a [string | null] value: neither [null] nor
    the empty string. *)
Definition truthy (v : option jsstring) : bool :=
  match v with
  | Some (_ :: _) => true
  | _ => false
  end.

Definition defaultTitleLine : jsstring := js "%%accTitle Untitled Diagram".
Definition defaultDescrLine : jsstring :=
  js "%%accDescr Auto-generated description for accessibility. Please customize.".

Record Ensured : Type := MkEnsured {
  source : jsstring;
  metadata : Metadata;
  added : bool
}.

(** The annotation lines [ensureMetadata] pushes for a parsed [current]. *)
Definition missingLines (current : Metadata) : list jsstring :=
  (if truthy (title current) then [] else [defaultTitleLine])
  ++ (if truthy (description current) then [] else [defaultDescrLine]).

Definition ensureMetadata (src : jsstring) : Ensured :=
  let current := parseMermaidMetadata src in
  let lines := missingLines current in
  let added := negb (truthy (title current)) || negb (truthy (description current)) in
  let updated :=
    if added then
      src ++ (if endsWith src [LF] then [] else [LF]) ++ join_nl lines ++ [LF]
    else src in
  MkEnsured updated (parseMermaidMetadata updated) added.

(** ** Text helpers of the narrative generators *)

(** [escapeHtml]: the text is stored in a [div] and read back as
    [innerHTML], which serializes a text node by escaping ampersand,
    no-break space, less-than and greater-than. *)
Fixpoint escapeHtml (text : jsstring) : jsstring :=
  match text with
  | [] => []
  | c :: t =>
      (if (c =? 38)%N then js "&amp;"
       else if (c =? 160)%N then js "&nbsp;"
       else if (c =? 60)%N then js "&lt;"
       else if (c =? 62)%N then js "&gt;"
       else [c]) ++ escapeHtml t
  end.

Fixpoint digitsOf (fuel : nat) (n : N) (acc : jsstring) : jsstring :=
  match fuel with
  | O => acc
  | S f =>
      let acc' := (48 + n mod 10)%N :: acc in
      if (n <? 10)%N then acc' else digitsOf f (n / 10)%N acc'
  end.

(** Decimal numeral of a non-negative integer, as template literals print
    it. *)
Definition NToString (n : N) : jsstring := digitsOf (S (N.to_nat (N.log2 n))) n [].

Definition natToString (n : nat) : jsstring := NToString (N.of_nat n).

(** [n !== 1 ? 's' : ''] *)
Definition plural (n : nat) : jsstring := if Nat.eqb n 1 then [] else js "s".

(** [source.split('\n')] without comment lines and blank lines, minus the
    first remaining line (the declaration). *)
Definition contentLines (src : jsstring) : list jsstring :=
  tl (filter (fun line => negb (Nat.eqb (length (trim line)) 0))
        (filter (fun line => negb (startsWith (trim line) (js "%%")))
           (split_nl src))).

(** [a || b] on values that are strings or undefined. *)
Definition orElse (a b : option jsstring) : option jsstring :=
  if truthy a then a else b.

(** A capture that took part in the match. *)
Definition text_of (v : option jsstring) : jsstring :=
  match v with Some s => s | None => [] end.

(** ** Flowchart narrative ([generateFlowchartNarrative]) *)

Module Flow.

Record node : Type := MkNode { text : jsstring; isQuestion : bool }.

Record edge : Type := MkEdge {
  from : jsstring;
  to : jsstring;
  label : option jsstring
}.

(** [nodes] is a [Map]: keys keep the order of their first insertion. *)
Definition nodeMap := list (jsstring * node).

Fixpoint set (k : jsstring) (v : node) (m : nodeMap) : nodeMap :=
  match m with
  | [] => [(k, v)]
  | (k', v') :: m' => if str_eqb k k' then (k, v) :: m' else (k', v') :: set k v m'
  end.

Fixpoint get (k : jsstring) (m : nodeMap) : option node :=
  match m with
  | [] => None
  | (k', v') :: m' => if str_eqb k k' then Some v' else get k m'
  end.

Definition isIdChar (c : char) : bool :=
  (((65 <=? c) && (c <=? 90)) || ((48 <=? c) && (c <=? 57)))%N.

Definition isNot (x : char) (c : char) : bool := negb (c =? x)%N.

(** [/^([A-Z0-9]+)\[([^\]]+)\]|^([A-Z0-9]+)\{([^}]+)\}/] *)
Definition nodeRe : regex :=
  RAlt
    (seq [RBol; RGroup 1 (RPlus isIdChar); RChar 91;
          RGroup 2 (RPlus (isNot 93)); RChar 93])
    (seq [RBol; RGroup 3 (RPlus isIdChar); RChar 123;
          RGroup 4 (RPlus (isNot 125)); RChar 125]).

(** [/([A-Z0-9]+)\s*-->\s*\|([^|]+)\|\s*([A-Z0-9]+)/] *)
Definition edgeLabelRe : regex :=
  seq [RGroup 1 (RPlus isIdChar); RStar isWhiteSpace; lit (js "-->");
       RStar isWhiteSpace; RChar 124; RGroup 2 (RPlus (isNot 124)); RChar 124;
       RStar isWhiteSpace; RGroup 3 (RPlus isIdChar)].

(** [/([A-Z0-9]+)\s*-->\s*([A-Z0-9]+)/] *)
Definition edgeRe : regex :=
  seq [RGroup 1 (RPlus isIdChar); RStar isWhiteSpace; lit (js "-->");
       RStar isWhiteSpace; RGroup 2 (RPlus isIdChar)].

Record model : Type := MkModel { nodes : nodeMap; edges : list edge }.

(** The body of [lines.forEach(line => ...)]. *)
Definition parseLine (md : model) (line0 : jsstring) : model :=
  let line := trim line0 in
  let nodes1 :=
    match exec nodeRe line with
    | Some nodeMatch =>
        let id := orElse (group 1 nodeMatch) (group 3 nodeMatch) in
        let text := orElse (group 2 nodeMatch) (group 4 nodeMatch) in
        set (text_of id) (MkNode (text_of text) (truthy (group 4 nodeMatch)))
          (nodes md)
    | None => nodes md
    end in
  let edges1 :=
    match exec edgeLabelRe line with
    | Some edgeLabelMatch =>
        edges md ++ [MkEdge (text_of (group 1 edgeLabelMatch))
                       (text_of (group 3 edgeLabelMatch))
                       (group 2 edgeLabelMatch)]
    | None =>
        match exec edgeRe line with
        | Some edgeMatch =>
            edges md ++ [MkEdge (text_of (group 1 edgeMatch))
                           (text_of (group 2 edgeMatch)) None]
        | None => edges md
        end
    end in
  MkModel nodes1 edges1.

Definition parse (src : jsstring) : model :=
  fold_left parseLine (contentLines src) (MkModel [] []).

(** The arrow of the edge sentences, the three code units that stand
    in the template literals of the file. *)
Definition arrow : jsstring := [226%N; 8224%N; 8217%N].

Definition strong (s : jsstring) : jsstring :=
  js "<strong>" ++ escapeHtml s ++ js "</strong>".

Definition em (s : jsstring) : jsstring :=
  js "<em>" ++ escapeHtml s ++ js "</em>".

(** The list item of one edge, empty when an endpoint is not a known
    node. *)
Definition edgeItem (ns : nodeMap) (e : edge) : jsstring :=
  match get (from e) ns, get (to e) ns with
  | Some fromNode, Some toNode =>
      if isQuestion fromNode then
        if truthy (label e) then
          js "<li>If " ++ em (text fromNode) ++ js " is "
            ++ strong (text_of (label e)) ++ js ", then " ++ arrow ++ js " "
            ++ strong (text toNode) ++ js "</li>" ++ [LF]
        else
          js "<li>From " ++ em (text fromNode) ++ js " " ++ arrow ++ js " "
            ++ strong (text toNode) ++ js "</li>" ++ [LF]
      else
        if truthy (label e) then
          js "<li>After " ++ strong (text fromNode) ++ js ", "
            ++ em (text_of (label e)) ++ js " " ++ arrow ++ js " "
            ++ strong (text toNode) ++ js "</li>" ++ [LF]
        else
          js "<li>" ++ strong (text fromNode) ++ js " " ++ arrow ++ js " "
            ++ strong (text toNode) ++ js "</li>" ++ [LF]
  | _, _ => []
  end.

Definition steps (md : model) : jsstring :=
  match nodes md with
  | firstNode :: _ =>
      js "<li>Start at: " ++ strong (text (snd firstNode)) ++ js "</li>" ++ [LF]
        ++ concat (map (edgeItem (nodes md)) (edges md))
  | [] => js "<li>No flowchart steps detected.</li>" ++ [LF]
  end.

Definition summary (md : model) : jsstring :=
  let size := length (nodes md) in
  let n := length (edges md) in
  let questions := length (filter (fun kv => isQuestion (snd kv)) (nodes md)) in
  js "<strong>Structure:</strong> " ++ natToString size ++ js " node"
    ++ plural size ++ js ", " ++ natToString n ++ js " connection" ++ plural n
    ++ (if Nat.ltb 0 questions
        then js ", " ++ natToString questions ++ js " decision point"
               ++ plural questions
        else []).

Definition generateFlowchartNarrative (src : jsstring) : jsstring :=
  let md := parse src in
  js "<p><strong>Flow:</strong></p>" ++ [LF] ++ js "<ol>" ++ [LF]
    ++ steps md
    ++ js "</ol>" ++ [LF]
    ++ js "<p style=" ++ [34%N]
    ++ js "color: #666; font-size: 0.9em; margin-top: 1rem;" ++ [34%N] ++ js ">"
    ++ summary md ++ js "</p>".

End Flow.

(** ** Numbers

    A Number is a double: a finite value, kept as the rational it
    denotes, an infinity or NaN.  The two zeros are not told apart: the
    program below never divides by a zero and never prints a negative
    one. *)

Inductive number : Type :=
| Finite (q : Q)
| PosInfinity
| NegInfinity
| NaN.

Definition pow2 (k : Z) : Q := (2 ^ k)%Q.

(** The binary logarithm of a positive rational, rounded down. *)
Definition ilog2 (a : Q) : Z :=
  let k := (Z.log2 (Qnum a) - Z.log2 (Z.pos (Qden a)))%Z in
  if Qle_bool (pow2 k) a then k else (k - 1)%Z.

(** The nearest integer, the even one on a tie. *)
Definition roundHalfEven (x : Q) : Z :=
  let f := Qfloor x in
  match (x - inject_Z f ?= 1 # 2)%Q with
  | Lt => f
  | Gt => (f + 1)%Z
  | Eq => if Z.even f then f else (f + 1)%Z
  end.

(** The exponent of the last bit of the doubles around [a]: 53 bits of
    significand, and no exponent below that of the subnormal doubles. *)
Definition quantum (a : Q) : Z := Z.max (ilog2 a - 52) (-1074).

(** The rounding of a positive rational to the nearest multiple of its
    quantum, ties to the even multiple. *)
Definition roundPos (a : Q) : Q :=
  (inject_Z (roundHalfEven (a / pow2 (quantum a))) * pow2 (quantum a))%Q.

(** The Number value for [x]: the double nearest to [x], the one with the
    even significand on a tie, and an infinity when that is [2^1024] in
    absolute value. *)
Definition numberValue (x : Q) : number :=
  if Qeq_bool x 0 then Finite 0
  else
    let v := roundPos (Qabs x) in
    if Qle_bool (pow2 1024) v then (if Qle_bool 0 x then PosInfinity else NegInfinity)
    else Finite (Qred (if Qle_bool 0 x then v else - v)).

Definition numNeg (a : number) : number :=
  match a with
  | Finite x => Finite (- x)
  | PosInfinity => NegInfinity
  | NegInfinity => PosInfinity
  | NaN => NaN
  end.

(** [a + b] *)
Definition numAdd (a b : number) : number :=
  match a, b with
  | NaN, _ | _, NaN => NaN
  | PosInfinity, NegInfinity | NegInfinity, PosInfinity => NaN
  | PosInfinity, _ | _, PosInfinity => PosInfinity
  | NegInfinity, _ | _, NegInfinity => NegInfinity
  | Finite x, Finite y => numberValue (x + y)
  end.

(** [a - b] *)
Definition numSub (a b : number) : number := numAdd a (numNeg b).

(** The infinity with the sign of [x] times the sign of [pos]. *)
Definition signedInfinity (pos : bool) (x : Q) : number :=
  if Qeq_bool x 0 then NaN
  else if Bool.eqb pos (Qle_bool 0 x) then PosInfinity else NegInfinity.

(** [a * b] *)
Definition numMul (a b : number) : number :=
  match a, b with
  | NaN, _ | _, NaN => NaN
  | Finite x, Finite y => numberValue (x * y)
  | Finite x, PosInfinity | PosInfinity, Finite x => signedInfinity true x
  | Finite x, NegInfinity | NegInfinity, Finite x => signedInfinity false x
  | PosInfinity, PosInfinity | NegInfinity, NegInfinity => PosInfinity
  | PosInfinity, NegInfinity | NegInfinity, PosInfinity => NegInfinity
  end.

(** [a / b]; a zero divisor is taken as the positive zero. *)
Definition numDiv (a b : number) : number :=
  match a, b with
  | NaN, _ | _, NaN => NaN
  | Finite x, Finite y =>
      if Qeq_bool y 0 then signedInfinity true x else numberValue (x / y)
  | Finite _, _ => Finite 0
  | PosInfinity, Finite y => if Qle_bool 0 y then PosInfinity else NegInfinity
  | NegInfinity, Finite y => if Qle_bool 0 y then NegInfinity else PosInfinity
  | _, _ => NaN
  end.

(** [a > b] *)
Definition numGt (a b : number) : bool :=
  match a, b with
  | NaN, _ | _, NaN => false
  | PosInfinity, PosInfinity => false
  | PosInfinity, _ => true
  | _, PosInfinity => false
  | NegInfinity, _ => false
  | _, NegInfinity => true
  | Finite x, Finite y => negb (Qle_bool x y)
  end.

(** The rational a finite double denotes. *)
Definition exactValue (a : number) : Q :=
  match a with
  | Finite x => x
  | _ => 0%Q
  end.

(** Half the relative spacing of the doubles, and half the smallest
    positive double. *)
Definition ulp : Q := pow2 (-53).
Definition tiny : Q := pow2 (-1075).

(** A multiple of the smallest positive double. *)
Definition onGrid (q : Q) : Prop := exists k : Z, (q == inject_Z k * pow2 (-1074))%Q.

(** ** Pie narrative ([generatePieNarrative]) *)

Module Pie.

Record item : Type := MkItem { label : jsstring; value : number }.

Definition isQuote (c : char) : bool := ((c =? 34) || (c =? 39))%N.

Definition isLabelChar (c : char) : bool :=
  negb ((c =? 34) || (c =? 39) || (c =? 58))%N.

(** [/[Q']?([^Q':]+)[Q']?\s*:\s*(\d+(?:\.\d+)?)/], with Q standing for the
    double quote character. *)
Definition dataRe : regex :=
  seq [ROpt (RClass isQuote); RGroup 1 (RPlus isLabelChar); ROpt (RClass isQuote);
       RStar isWhiteSpace; RChar 58; RStar isWhiteSpace;
       RGroup 2 (RSeq (RPlus isDigit) (ROpt (RSeq (RChar 46) (RPlus isDigit))))].

Fixpoint takeDigits (s : jsstring) : jsstring :=
  match s with
  | c :: t => if isDigit c then c :: takeDigits t else []
  | [] => []
  end.

Fixpoint dropDigits (s : jsstring) : jsstring :=
  match s with
  | c :: t => if isDigit c then dropDigits t else s
  | [] => []
  end.

(** Value of a string of decimal digits. *)
Definition digitsValue (ds : jsstring) : N :=
  fold_left (fun acc d => (acc * 10 + (d - 48))%N) ds 0%N.

(** The mathematical value of a numeral of the shape [\d+(\.\d+)?]. *)
Definition numeral (s : jsstring) : Q :=
  let ip := takeDigits s in
  match dropDigits s with
  | 46%N :: f =>
      let fd := takeDigits f in
      Qmake (Z.of_N (digitsValue (ip ++ fd)))
            (Z.to_pos (10 ^ Z.of_nat (length fd)))
  | _ => inject_Z (Z.of_N (digitsValue ip))
  end.

(** [parseFloat] on such a numeral: the Number value for it (engines
    convert a numeral of any length exactly, although the standard would
    let them round it to twenty significant digits first). *)
Definition parseFloat (s : jsstring) : number := numberValue (numeral s).

(** The body of [lines.forEach(line => ...)]: a matching line pushes one
    segment. *)
Definition parseLine (data : list item) (line : jsstring) : list item :=
  match exec dataRe (trim line) with
  | Some mt =>
      data ++ [MkItem (trim (text_of (group 1 mt)))
                      (parseFloat (text_of (group 2 mt)))]
  | None => data
  end.

Definition segments (src : jsstring) : list item :=
  fold_left parseLine (contentLines src) [].

(** [total += value] over the segments in source order, from [0]. *)
Definition total (data : list item) : number :=
  fold_left (fun t it => numAdd t (value it)) data (Finite 0).

(** The comparator [(a, b) => b.value - a.value]. *)
Definition compare (a b : item) : number := numSub (value b) (value a).

(** One step of the stable sort: [x], which came before the elements of
    [l], stays in front of [y] unless the comparator is positive on
    [(x, y)]; a comparator that is NaN counts as zero. *)
Fixpoint insert (x : item) (l : list item) : list item :=
  match l with
  | [] => [x]
  | y :: l' =>
      if numGt (compare x y) (Finite 0) then y :: insert x l' else x :: l
  end.

(** [data.sort((a, b) => b.value - a.value)] *)
Fixpoint sort (data : list item) : list item :=
  match data with
  | [] => []
  | x :: l => insert x (sort l)
  end.

(** The integer [n] of [x.toFixed(1)]: the number of tenths nearest to
    [x], the larger one on a tie. *)
Definition tenths (x : Q) : Z := Qfloor (x * 10 + (1 # 2))%Q.

(** The digits of [toFixed(1)] for a number of tenths. *)
Definition showTenths (z : Z) : jsstring :=
  let n := Z.to_N z in
  NToString (n / 10)%N ++ js "." ++ NToString (n mod 10)%N.

(** [x.toFixed(1)]; [show] prints a number the way a template literal
    does, which is what [toFixed] falls back on from [10^21] on. *)
Definition toFixed1 (show : number -> jsstring) (x : number) : jsstring :=
  match x with
  | Finite q =>
      if Qle_bool (inject_Z (10 ^ 21)) (Qabs q) then show x
      else if Qle_bool 0 q then showTenths (tenths q)
      else js "-" ++ showTenths (tenths (- q))
  | PosInfinity => js "Infinity"
  | NegInfinity => js "-Infinity"
  | NaN => js "NaN"
  end.

(** [(value / total) * 100] *)
Definition percentageNumber (tot v : number) : number :=
  numMul (numDiv v tot) (Finite 100).

(** [total > 0 ? ((value / total) * 100).toFixed(1) : 0], as interpolated
    in the template literal. *)
Definition percentage (show : number -> jsstring) (tot v : number) : jsstring :=
  if numGt tot (Finite 0) then toFixed1 show (percentageNumber tot v) else js "0".

(** The number of tenths of a percent reported for one segment. *)
Definition percentageTenths (tot v : number) : Z :=
  if numGt tot (Finite 0) then tenths (exactValue (percentageNumber tot v)) else 0%Z.

(** The sum of the reported percentages of a list of segments, in tenths
    of a percent. *)
Definition reportedTenths (tot : number) (l : list item) : Z :=
  fold_right (fun it acc => (percentageTenths tot (value it) + acc)%Z) 0%Z l.

(** A chart whose only segment has the value zero. *)
Definition zeroPie : jsstring := join_nl (map js ["pie"; "A : 0"])%string.

(** A chart of three segments: A and B one each, C two. *)
Definition threePie : jsstring :=
  join_nl (map js ["pie"; "A : 1"; "B : 1"; "C : 2"])%string.

(** A chart in which 23 of 80 is a quotient that no double holds. *)
Definition unevenPie : jsstring :=
  join_nl (map js ["pie"; "A : 23"; "B : 57"])%string.

(** A chart whose only value, a one followed by four hundred zeros, is
    too large for a double. *)
Definition hugePie : jsstring :=
  join_nl [js "pie"; js "A : 1" ++ repeat 48%N 400].

(** The narrative; [show] prints a number the way a template literal
    does. *)
Definition generatePieNarrative (show : number -> jsstring) (src : jsstring)
  : jsstring :=
  let data := segments src in
  let tot := total data in
  js "<p><strong>Data breakdown:</strong></p>" ++ [LF] ++ js "<ul>" ++ [LF]
    ++ concat (map (fun it =>
                 js "<li><strong>" ++ escapeHtml (label it) ++ js "</strong>: "
                   ++ show (value it) ++ js " ("
                   ++ percentage show tot (value it)
                   ++ js "%)</li>" ++ [LF]) (sort data))
    ++ js "</ul>" ++ [LF]
    ++ js "<p style=" ++ [34%N] ++ js "color: #666; font-size: 0.9em;" ++ [34%N]
    ++ js "><strong>Total:</strong> " ++ show tot ++ js "</p>".

End Pie.

(** [a <= b] on numbers that are not NaN. *)
Definition numLe (a b : number) : Prop :=
  match a, b with
  | NaN, _ | _, NaN => False
  | NegInfinity, _ | _, PosInfinity => True
  | Finite x, Finite y => (x <= y)%Q
  | _, _ => False
  end.

(** [a] may come before [b] in the narrated order. *)
Definition descending (a b : Pie.item) : Prop := numLe (Pie.value b) (Pie.value a).

(** Two segments of the same value. *)
Definition sameValue (a b : Pie.item) : bool :=
  match Pie.value a, Pie.value b with
  | Finite x, Finite y => Qeq_bool x y
  | PosInfinity, PosInfinity => true
  | NegInfinity, NegInfinity => true
  | _, _ => false
  end.

(** A value the pie parser can record: a finite double that is not
    negative, or the positive infinity of a numeral too long for a
    double. *)
Definition unsignedValue (a : number) : Prop :=
  a = PosInfinity \/ exists x, a = Finite x /\ (0 <= x)%Q /\ onGrid x.

(** The exact sum of the values of a list of segments. *)
Definition sumValues (l : list Pie.item) : Q :=
  fold_right (fun it acc => (exactValue (Pie.value it) + acc)%Q) 0%Q l.

(** ** The document tree

    An element has a local name, attributes (unique names, in document
    order) and child nodes.  A node reference obtained from a query is
    modelled by the path of child indices that leads to it from the element
    the query was run on. *)

Inductive Node : Type :=
| Element (tagName : jsstring) (attributes : list (jsstring * jsstring))
    (childNodes : list Node)
| Text (data : jsstring)
| Comment (data : jsstring).

Definition path := list nat.

Definition children (n : Node) : list Node :=
  match n with
  | Element _ _ cs => cs
  | _ => []
  end.

Fixpoint lookupAttr (name : jsstring) (attrs : list (jsstring * jsstring))
  : option jsstring :=
  match attrs with
  | [] => None
  | (k, v) :: attrs' => if str_eqb name k then Some v else lookupAttr name attrs'
  end.

Fixpoint setAttr (name value : jsstring) (attrs : list (jsstring * jsstring))
  : list (jsstring * jsstring) :=
  match attrs with
  | [] => [(name, value)]
  | (k, v) :: attrs' =>
      if str_eqb name k then (k, value) :: attrs' else (k, v) :: setAttr name value attrs'
  end.

Definition getAttribute (name : jsstring) (n : Node) : option jsstring :=
  match n with
  | Element _ attrs _ => lookupAttr name attrs
  | _ => None
  end.

Definition setAttribute (name value : jsstring) (n : Node) : Node :=
  match n with
  | Element t attrs cs => Element t (setAttr name value attrs) cs
  | _ => n
  end.

(** [node.textContent]: the text of all text-node descendants, in
    document order. *)
Fixpoint textContent (n : Node) : jsstring :=
  match n with
  | Element _ _ cs => concat (map textContent cs)
  | Text d => d
  | Comment _ => []
  end.

(** The descendants of a node in document order. *)
Fixpoint descendants (n : Node) : list Node :=
  match n with
  | Element _ _ cs => flat_map (fun c => c :: descendants c) cs
  | _ => []
  end.

(** *** Selectors *)

Definition isTag (t : jsstring) (n : Node) : bool :=
  match n with
  | Element t' _ _ => str_eqb t t'
  | _ => false
  end.

(** The separators of a class list: tab, LF, FF, CR and space. *)
Definition isAsciiSpace (c : char) : bool :=
  ((c =? 9) || (c =? 10) || (c =? 12) || (c =? 13) || (c =? 32))%N.

Fixpoint tokensFrom (cur : jsstring) (s : jsstring) : list jsstring :=
  match s with
  | [] => match cur with [] => [] | _ => [rev cur] end
  | c :: t =>
      if isAsciiSpace c then
        match cur with
        | [] => tokensFrom [] t
        | _ => rev cur :: tokensFrom [] t
        end
      else tokensFrom (c :: cur) t
  end.

Definition tokens (s : jsstring) : list jsstring := tokensFrom [] s.

Definition hasClass (c : jsstring) (n : Node) : bool :=
  match getAttribute (js "class") n with
  | Some v => existsb (str_eqb c) (tokens v)
  | None => false
  end.

(** [title], [desc], [text], [parsererror] *)
Definition isTitle : Node -> bool := isTag (js "title").
Definition isDesc : Node -> bool := isTag (js "desc").
Definition isTextElement : Node -> bool := isTag (js "text").
Definition isParserError : Node -> bool := isTag (js "parsererror").

(** [[id^="flowchart-"]] *)
Definition isFlowchartMarker (n : Node) : bool :=
  match getAttribute (js "id") n with
  | Some v => startsWith v (js "flowchart-")
  | None => false
  end.

(** [g.node] *)
Definition isNodeGroup (n : Node) : bool :=
  isTag (js "g") n && hasClass (js "node") n.

(** [rect, circle, ellipse, polygon, path] *)
Definition isShape (n : Node) : bool :=
  isTag (js "rect") n || isTag (js "circle") n || isTag (js "ellipse") n
  || isTag (js "polygon") n || isTag (js "path") n.

(** [g.edgePath, g.edgeLabel, g.edgePaths] *)
Definition isEdgeGroup (n : Node) : bool :=
  isTag (js "g") n
  && (hasClass (js "edgePath") n || hasClass (js "edgeLabel") n
      || hasClass (js "edgePaths") n).

Definition querySelectorAll (sel : Node -> bool) (n : Node) : list Node :=
  filter sel (descendants n).

(** *** Node references *)

(** A path below the next sibling's position. *)
Definition shift (p : path) : path :=
  match p with
  | i :: p' => S i :: p'
  | [] => []
  end.

(** The path of the first descendant of [n], in document order, that
    matches [sel]: what [n.querySelector] refers to. *)
Fixpoint findFirst (sel : Node -> bool) (n : Node) : option path :=
  match n with
  | Element _ _ cs =>
      (fix go (cs : list Node) {struct cs} : option path :=
         match cs with
         | [] => None
         | c :: cs' =>
             if sel c then Some [0]
             else match findFirst sel c with
                  | Some p => Some (0 :: p)
                  | None => option_map shift (go cs')
                  end
         end) cs
  | _ => None
  end.

Fixpoint removeNth (i : nat) (cs : list Node) {struct cs} : list Node :=
  match cs, i with
  | [], _ => []
  | _ :: cs', O => cs'
  | c :: cs', S j => c :: removeNth j cs'
  end.

Fixpoint updateNth (i : nat) (f : Node -> Node) (cs : list Node) {struct cs}
  : list Node :=
  match cs, i with
  | [], _ => []
  | c :: cs', O => f c :: cs'
  | c :: cs', S j => c :: updateNth j f cs'
  end.

(** [ref.remove()] for the node at path [p] below [n]. *)
Fixpoint removeAt (p : path) (n : Node) {struct p} : Node :=
  match p, n with
  | [i], Element t a cs => Element t a (removeNth i cs)
  | i :: p', Element t a cs => Element t a (updateNth i (removeAt p') cs)
  | _, _ => n
  end.

(** Whether the node at path [p] below [n] has a next sibling. *)
Fixpoint hasNextSibling (p : path) (n : Node) {struct p} : bool :=
  match p, n with
  | [i], Element _ _ cs => Nat.ltb (S i) (length cs)
  | i :: p', Element _ _ cs =>
      match nth_error cs i with
      | Some c => hasNextSibling p' c
      | None => false
      end
  | _, _ => false
  end.

(** [p] is a proper prefix of [q]: the node at [q] lies inside the node at
    [p]. *)
Fixpoint inside (p q : path) : bool :=
  match p, q with
  | [], _ :: _ => true
  | i :: p', j :: q' => Nat.eqb i j && inside p' q'
  | _, _ => false
  end.

Definition insertAt (i : nat) (x : Node) (cs : list Node) : list Node :=
  firstn i cs ++ x :: skipn i cs.

(** [parent.insertBefore(x, parent.childNodes[i])], an append when there
    is no such child. *)
Definition insertChild (i : nat) (x : Node) (n : Node) : Node :=
  match n with
  | Element t a cs => Element t a (insertAt i x cs)
  | _ => n
  end.

(** [sel]-matching nodes of the subtree of [n], [n] included, get the
    attribute. *)
Fixpoint markAll (sel : Node -> bool) (name value : jsstring) (n : Node) : Node :=
  match n with
  | Element t a cs =>
      let n' := Element t a (map (markAll sel name value) cs) in
      if sel n then setAttribute name value n' else n'
  | _ => n
  end.

(** [n.querySelectorAll(sel).forEach(e => e.setAttribute(name, value))] *)
Definition markDescendants (sel : Node -> bool) (name value : jsstring) (n : Node)
  : Node :=
  match n with
  | Element t a cs => Element t a (map (markAll sel name value) cs)
  | _ => n
  end.

Definition ariaHidden : jsstring := js "aria-hidden".
Definition true_ : jsstring := js "true".

(** [marker] elements below [n] that have a [defs] ancestor, [inDefs]
    telling whether [n] itself is inside one: what
    [querySelectorAll('defs marker')] returns. *)
Fixpoint queryDefsMarkers (inDefs : bool) (n : Node) : list Node :=
  match n with
  | Element _ _ cs =>
      let below := inDefs || isTag (js "defs") n in
      flat_map (fun c =>
                  (if below && isTag (js "marker") c then [c] else [])
                  ++ queryDefsMarkers below c) cs
  | _ => []
  end.

(** Hidden from the accessibility tree. *)
Definition hidden (n : Node) : Prop := getAttribute ariaHidden n = Some true_.

(** A selector that looks at the name and the attributes of an element
    only. *)
Definition shallow (sel : Node -> bool) : Prop :=
  (forall t a cs cs', sel (Element t a cs) = sel (Element t a cs')) /\
  (forall d, sel (Text d) = false) /\ (forall d, sel (Comment d) = false).

(** [n'] is [n] up to [aria-hidden="true"] attributes set on some of its
    elements. *)
Inductive hiddenMore : Node -> Node -> Prop :=
| HM_same t a cs cs' :
    Forall2 hiddenMore cs cs' -> hiddenMore (Element t a cs) (Element t a cs')
| HM_hide t a cs cs' :
    Forall2 hiddenMore cs cs' ->
    hiddenMore (Element t a cs) (Element t (setAttr ariaHidden true_ a) cs')
| HM_text d : hiddenMore (Text d) (Text d)
| HM_comment d : hiddenMore (Comment d) (Comment d).

(** A selector that does not look at [aria-hidden]. *)
Definition stable (sel : Node -> bool) : Prop :=
  forall x y, hiddenMore x y -> sel y = sel x.

(** No node group lies inside another one. *)
Definition noNestedGroups (svg : Node) : Prop :=
  Forall (fun g => querySelectorAll isNodeGroup g = [])
         (querySelectorAll isNodeGroup svg).

(** ** Flowchart semantics ([applyFlowchartSemantics]) *)

(** The accessible name of a node group: the trimmed text of its [text]
    elements, separated by spaces. *)
Definition nodeTextOf (node : Node) : jsstring :=
  trim (concat (map (fun textEl => trim (textContent textEl) ++ js " ")
                  (querySelectorAll isTextElement node))).

(** Walk the subtree of [n] in document order and hide its [text]
    elements, sparing the first one met while [keep] holds.  The flag
    returned tells whether the first one is still to come. *)
Fixpoint hideTexts (keep : bool) (n : Node) {struct n} : bool * Node :=
  match n with
  | Element t a cs =>
      let keep1 := if isTextElement n then false else keep in
      let hide := isTextElement n && negb keep in
      let '(keep2, cs') :=
        (fix go (cs : list Node) (k : bool) {struct cs} : bool * list Node :=
           match cs with
           | [] => (k, [])
           | c :: cs0 =>
               let '(k1, c') := hideTexts k c in
               let '(k2, cs1) := go cs0 k1 in
               (k2, c' :: cs1)
           end) cs keep1 in
      (keep2, if hide then Element t (setAttr ariaHidden true_ a) cs'
              else Element t a cs')
  | _ => (keep, n)
  end.

Definition titleElement (attrs : list (jsstring * jsstring)) (content : jsstring)
  : Node :=
  Element (js "title") attrs [Text content].

(** The first half of the body of [nodeGroups.forEach((node, index) =>
    ...)]: the node group gets its role, loses the first title below it
    and gets a new title with its text, when it has a text. *)
Definition retitle (node : Node) : Node :=
  let n1 := setAttribute (js "role") (js "listitem") node in
  let nodeText := nodeTextOf n1 in
  let existingTitle := findFirst isTitle n1 in
  let n2 := match existingTitle with
            | Some p => removeAt p n1
            | None => n1
            end in
  match nodeText with
  | [] => n2
  | _ => insertChild 0 (titleElement [] nodeText) n2
  end.

(** The whole body, as a function of the subtree of the node group: the
    shapes are hidden, and so are the [text] elements that come after the
    first one. *)
Definition processNode (node : Node) : Node :=
  let n1 := setAttribute (js "role") (js "listitem") node in
  let textElements := querySelectorAll isTextElement n1 in
  let n4 := markDescendants isShape ariaHidden true_ (retitle node) in
  if Nat.ltb 1 (length textElements) then
    (* textElements[0] stays visible, unless it went away with the title *)
    let firstDetached :=
      match findFirst isTitle n1, findFirst isTextElement n1 with
      | Some pt, Some px => inside pt px
      | _, _ => false
      end in
    snd (hideTexts (negb firstDetached) n4)
  else n4.

Fixpoint height (n : Node) : nat :=
  match n with
  | Element _ _ cs => S (fold_right (fun c h => Nat.max (height c) h) 0 cs)
  | _ => 0
  end.

(** [nodeGroups.forEach]: the node groups are visited in document order,
    so a group is processed before the groups nested in it, which are then
    processed as their ancestor left them.  [fuel] bounds the depth
    visited. *)
Fixpoint forEachNodeGroup (fuel : nat) (n : Node) {struct fuel} : Node :=
  match fuel with
  | O => n
  | S f =>
      match n with
      | Element t a cs =>
          Element t a
            (map (fun c =>
                    forEachNodeGroup f (if isNodeGroup c then processNode c else c))
               cs)
      | _ => n
      end
  end.

(** [defs marker]: [marker] elements with a [defs] ancestor. *)
Fixpoint hideMarkers (inDefs : bool) (n : Node) : Node :=
  match n with
  | Element t a cs =>
      let cs' := map (hideMarkers (inDefs || isTag (js "defs") n)) cs in
      if inDefs && isTag (js "marker") n
      then Element t (setAttr ariaHidden true_ a) cs'
      else Element t a cs'
  | _ => n
  end.

Definition hideMarkersBelow (svg : Node) : Node :=
  match svg with
  | Element t a cs => Element t a (map (hideMarkers (isTag (js "defs") svg)) cs)
  | _ => svg
  end.

Definition applyFlowchartSemantics (svg : Node) : Node :=
  match findFirst isFlowchartMarker svg with
  | None => svg
  | Some _ =>
      if Nat.eqb (length (querySelectorAll isNodeGroup svg)) 0 then svg
      else
        let s1 := forEachNodeGroup (height svg) svg in
        let s2 := markDescendants isEdgeGroup ariaHidden true_ s1 in
        hideMarkersBelow s2
  end.

(** [[role="listitem"]] *)
Definition isListItem (n : Node) : bool :=
  match getAttribute (js "role") n with
  | Some v => str_eqb v (js "listitem")
  | None => false
  end.

(** What the pass owes to a node group [g], read on the group [g'] it has
    become: the list-item role, hidden shapes and, when the group has a
    text, a first child that is a title with that text; no other child is
    a title when [g] held at most one title. *)
Definition nodeGroupDone (g g' : Node) : Prop :=
  getAttribute (js "role") g' = Some (js "listitem") /\
  Forall hidden (querySelectorAll isShape g') /\
  (nodeTextOf g <> [] ->
   exists c0 rest,
     children g' = c0 :: rest /\ isTitle c0 = true /\
     textContent c0 = nodeTextOf g /\
     (length (querySelectorAll isTitle g) <= 1 ->
      Forall (fun c => isTitle c = false) rest)) /\
  (nodeTextOf g = [] -> length (querySelectorAll isTitle g) <= 1 ->
   Forall (fun c => isTitle c = false) (children g')).

(** Sample documents. *)
Definition elem (t : string) (a : list (string * string)) (cs : list Node) : Node :=
  Element (js t) (map (fun kv => (js (fst kv), js (snd kv))) a) cs.

(** A rendered node: a shape and a label. *)
Definition renderedNode (id label : string) : Node :=
  elem "g" [("class", "node default"); ("id", id)]%string
    [elem "rect" [("class", "basic label-container")]%string [];
     elem "g" [("class", "label")]%string
       [elem "text" [] [elem "tspan" [] [Text (js label)]]]].

(** The rendering of a flowchart with two nodes and one edge. *)
Definition renderedFlowchart : Node :=
  elem "svg" [("id", "mermaid-diagram")]%string
    [elem "style" [] [Text (js "css")];
     elem "g" []
       [elem "defs" [] [elem "marker" [("id", "flowchart-pointEnd")]%string
                          [elem "path" [] []]];
        elem "g" [("class", "edgePaths")]%string
          [elem "path" [("class", "flowchart-link")]%string []];
        elem "g" [("class", "nodes")]%string
          [renderedNode "flowchart-A-0" "Start";
           renderedNode "flowchart-B-1" "End"]]].

(** A node rendered with an HTML label, the default of Mermaid: the text
    of the label is in a [foreignObject], not in a [text] element. *)
Definition htmlNode (id label : string) : Node :=
  elem "g" [("class", "node default"); ("id", id)]%string
    [elem "rect" [("class", "basic label-container")]%string [];
     elem "g" [("class", "label")]%string
       [elem "foreignObject" []
          [elem "div" []
             [elem "span" [("class", "nodeLabel")]%string [Text (js label)]]]]].

(** The rendering of the same flowchart with HTML labels. *)
Definition htmlFlowchart : Node :=
  elem "svg" [("id", "mermaid-diagram")]%string
    [elem "style" [] [Text (js "css")];
     elem "g" []
       [elem "defs" [] [elem "marker" [("id", "flowchart-pointEnd")]%string
                          [elem "path" [] []]];
        elem "g" [("class", "edgePaths")]%string
          [elem "path" [("class", "flowchart-link")]%string []];
        elem "g" [("class", "nodes")]%string
          [htmlNode "flowchart-A-0" "Start";
           htmlNode "flowchart-B-1" "End"]]].

(** A flowchart rendering with an arrowhead marker and an edge group but
    no node group. *)
Definition nodelessFlowchart : Node :=
  elem "svg" [("id", "mermaid-diagram")]%string
    [elem "g" []
       [elem "defs" [] [elem "marker" [("id", "flowchart-pointEnd")]%string []];
        elem "g" [("class", "edgePaths")]%string []]].

(** ** The accessibility transformer ([applyAccessibilityTransformations]) *)

Inductive outcome (A : Type) : Type :=
| Returned (a : A)
| Thrown (error : jsstring).

Arguments Returned {A} a.
Arguments Thrown {A} error.

(** What one call of [generateUniqueId] reads from its environment:
    [Date.now()] and [Math.random().toString(36).substr(2, 9)]. *)
Record Entropy : Type := MkEntropy { now : N; random : jsstring }.

Definition generateUniqueId (prefix : jsstring) (e : Entropy) : jsstring :=
  prefix ++ js "-" ++ NToString (now e) ++ js "-" ++ random e.

Definition NotFoundError : jsstring := js "NotFoundError".

(** [svg.insertBefore(desc, svg.querySelector('title')?.nextSibling ||
    svg.firstChild)].  The reference node must be a child of [svg]. *)
Definition insertDesc (desc : Node) (svg : Node) : outcome Node :=
  match findFirst isTitle svg with
  | Some [i] =>
      if hasNextSibling [i] svg then Returned (insertChild (S i) desc svg)
      else Returned (insertChild 0 desc svg)
  | Some p =>
      if hasNextSibling p svg then Thrown NotFoundError
      else Returned (insertChild 0 desc svg)
  | None => Returned (insertChild 0 desc svg)
  end.

Definition svgNS : jsstring := js "http://www.w3.org/2000/svg".

(** [existingTitle.remove(); existingDesc.remove()] for the first title
    and the first desc below [svg], both looked up before either is
    removed. *)
Definition removeExisting (svg : Node) : Node :=
  let existingTitle := findFirst isTitle svg in
  let existingDesc := findFirst isDesc svg in
  let svg2 := match existingTitle with
              | Some p => removeAt p svg
              | None => svg
              end in
  match existingDesc with
  | Some q =>
      (* a desc inside the title just removed is detached already;
         otherwise it is still the first desc of the document *)
      if match existingTitle with Some p => inside p q | None => false end
      then svg2
      else match findFirst isDesc svg2 with
           | Some q' => removeAt q' svg2
           | None => svg2
           end
  | None => svg2
  end.

Definition descElement (attrs : list (jsstring * jsstring)) (content : jsstring)
  : Node :=
  Element (js "desc") attrs [Text content].

Definition labelledby : jsstring := js "aria-labelledby".

(** The number of elements named [s] in a list of nodes. *)
Definition countTag (s : jsstring) (cs : list Node) : nat :=
  length (filter (isTag s) cs).

(** The ids of one run of the transformer. *)
Definition titleIdOf (e : Entropy) : jsstring := generateUniqueId (js "title") e.
Definition descIdOf (e : Entropy) : jsstring := generateUniqueId (js "desc") e.

(** The value of [aria-labelledby] after a run with a title. *)
Definition labelOf (e1 e2 : Entropy) (metadata : Metadata) : jsstring :=
  if truthy (description metadata)
  then titleIdOf e1 ++ js " " ++ descIdOf e2
  else titleIdOf e1.

(** The transformer on the parsed document, given by its root element. *)
Definition transformRoot (e1 e2 : Entropy) (root : Node) (metadata : Metadata)
  : outcome Node :=
  let svg1 := setAttribute (js "role") (js "img") root in
  let titleId := generateUniqueId (js "title") e1 in
  let descId := generateUniqueId (js "desc") e2 in
  let svg3 := removeExisting svg1 in
  let svg4 :=
    if truthy (title metadata)
    then insertChild 0
           (titleElement [(js "id", titleId)] (text_of (title metadata))) svg3
    else svg3 in
  match (if truthy (description metadata)
         then insertDesc
                (descElement [(js "id", descId)] (text_of (description metadata)))
                svg4
         else Returned svg4) with
  | Thrown e => Thrown e
  | Returned svg5 =>
      let svg6 :=
        if truthy (title metadata) && truthy (description metadata)
        then setAttribute labelledby (titleId ++ js " " ++ descId) svg5
        else if truthy (title metadata)
             then setAttribute labelledby titleId svg5
             else svg5 in
      Returned (setAttribute (js "xmlns") svgNS (applyFlowchartSemantics svg6))
  end.

(** The browser's XML parser and serializer.  [parseFromString] never
    throws: for input that is not well-formed it returns a document that
    contains a [parsererror] element. *)
Record Browser : Type := MkBrowser {
  parseFromString : jsstring -> Node;
  serializeToString : Node -> jsstring
}.

Definition applyAccessibilityTransformations (B : Browser) (e1 e2 : Entropy)
  (svgString : jsstring) (metadata : Metadata) : outcome jsstring :=
  match transformRoot e1 e2 (parseFromString B svgString) metadata with
  | Returned svg => Returned (serializeToString B svg)
  | Thrown e => Thrown e
  end.

(** [parseSvgSafely] *)
Record ParseCheck : Type := MkParseCheck { ok : bool; error : option jsstring }.

Definition parseSvgSafely (B : Browser) (svgString : jsstring) : ParseCheck :=
  let doc := parseFromString B svgString in
  match filter isParserError (doc :: descendants doc) with
  | err :: _ => MkParseCheck false (Some (textContent err))
  | [] => MkParseCheck true None
  end.

(** *** Sample inputs *)

Definition sampleEntropy1 : Entropy := MkEntropy 1767225600000 (js "k3j9x2q7a").
Definition sampleEntropy2 : Entropy := MkEntropy 1767225600001 (js "p0m4z8c1b").
Definition sampleEntropy3 : Entropy := MkEntropy 1767225600450 (js "w7t1n5e2d").
Definition sampleEntropy4 : Entropy := MkEntropy 1767225600451 (js "b6y3r9u4f").

Definition sampleMetadata : Metadata :=
  MkMetadata (Some (js "Login flow")) (Some (js "From start to end.")).

(** Metadata whose title is the empty string: not null, yet falsy. *)
Definition emptyTitleMetadata : Metadata :=
  MkMetadata (Some []) (Some (js "From start to end.")).

(** Markup that is not well-formed, the document a parser returns for it,
    and a browser that, whatever it is given, reports that parse error and
    serializes a document by its text. *)
Definition brokenMarkup : jsstring := js "<svg><g></svg>".

Definition parserErrorDocument : Node :=
  elem "parsererror" []
    [Text (js "error on line 1 at column 13: Opening and ending tag mismatch")].

Definition failingBrowser : Browser :=
  MkBrowser (fun _ => parserErrorDocument) textContent.


(* ------------------------------------------------------------------ *)
(** ** Further definitions *)

(** What follows an ampersand that starts one of the four entities of the
    serializer. *)
Definition entityTail (post : jsstring) : Prop :=
  startsWith post (js "amp;") = true \/ startsWith post (js "nbsp;") = true \/
  startsWith post (js "lt;") = true \/ startsWith post (js "gt;") = true.

(** The code units [escapeHtml] replaces. *)
Definition escaped (c : char) : bool :=
  ((c =? 38) || (c =? 160) || (c =? 60) || (c =? 62))%N.


(** [t] is the value of an annotation line of [s]: [s] holds two percent
    signs, white space, the keyword, white space and then, up to the end
    of the line, a text [g] of which [t] is the trimmed form. *)
Definition annotationValue (kw s t : jsstring) : Prop :=
  exists pre w w2 g post,
    s = pre ++ pct ++ w ++ kw ++ w2 ++ g ++ post /\ allWs w /\ allWs w2 /\
    g <> [] /\ Forall (fun c => dot c = true) g /\
    (post = [] \/ exists c r, post = c :: r /\ dot c = false) /\
    t = trim g.

(** When a text [x] put behind [s] cannot lengthen a line of [s]: [x] is
    empty or starts with a line terminator, or [s] ends with one. *)
Definition closesLine (s x : jsstring) : Prop :=
  x = [] \/ (exists c r, x = c :: r /\ dot c = false) \/
  (exists s0 e, s = s0 ++ [e] /\ dot e = false).

(** The text captured by the first match of a pattern, before trimming. *)
Definition captured (r : regex) (ps : nat) (s : jsstring) : option jsstring :=
  match search r ps s with
  | Some mt => group 1 mt
  | None => None
  end.

(** ** What a pattern can match

    [denotes r st st'] holds when [r] can take the matcher from [st] to
    [st']: the relation of which the backtracking matcher picks, for each
    pattern, the first member that lets the rest of the pattern through. *)
Fixpoint denotes (r : regex) (st st' : mstate) : Prop :=
  match r with
  | REps => st' = st
  | RChar c =>
      rest st = c :: rest st' /\ pos st' = S (pos st) /\ caps st' = caps st
  | RClass p =>
      exists x, p x = true /\ rest st = x :: rest st' /\
                pos st' = S (pos st) /\ caps st' = caps st
  | RSeq r1 r2 => exists m, denotes r1 st m /\ denotes r2 m st'
  | RAlt r1 r2 => denotes r1 st st' \/ denotes r2 st st'
  | RStar p =>
      exists w, Forall (fun c => p c = true) w /\ rest st = w ++ rest st' /\
                pos st' = pos st + length w /\ caps st' = caps st
  | RPlus p =>
      exists w, w <> [] /\ Forall (fun c => p c = true) w /\
                rest st = w ++ rest st' /\
                pos st' = pos st + length w /\ caps st' = caps st
  | ROpt r1 => denotes r1 st st' \/ st' = st
  | RGroup i r1 =>
      exists m, denotes r1 st m /\
                st' = MState (pos m) (rest m)
                        (setCap i (firstn (pos m - pos st) (rest st)) (caps m))
  | RBol => pos st = 0 /\ st' = st
  end.

(** A non-empty text of capital letters and digits, the only identifiers
    the flowchart patterns accept. *)
Definition idText (s : jsstring) : Prop :=
  s <> [] /\ Forall (fun c => Flow.isIdChar c = true) s.

(** A recorded connection joins two identifiers, and its label, when it
    has one, is not empty and holds no bar. *)
Definition goodEdge (e : Flow.edge) : Prop :=
  idText (Flow.from e) /\ idText (Flow.to e) /\
  forall l, Flow.label e = Some l -> l <> [] /\ ~ In 124%N l.

(** A recorded node has an identifier as its key and a text. *)
Definition goodNode (kv : jsstring * Flow.node) : Prop :=
  idText (fst kv) /\ Flow.text (snd kv) <> [].

(** A flowchart whose nodes have no bracketed text. *)
Definition bareFlowchart : jsstring :=
  join_nl (map js ["flowchart TD"; "A --> B"; "B --> C"])%string.




(** ** Class diagram narrative ([generateClassDiagramNarrative]) *)

(** [s.includes(sub)] *)
Fixpoint includes (s sub : jsstring) : bool :=
  startsWith s sub ||
  match s with
  | [] => false
  | _ :: t => includes t sub
  end.

(** [list.join(sep)] *)
Fixpoint joinWith (sep : jsstring) (ls : list jsstring) : jsstring :=
  match ls with
  | [] => []
  | [l] => l
  | l :: ls' => l ++ sep ++ joinWith sep ls'
  end.

Module Class.

(** [\w] *)
Definition isWord (c : char) : bool :=
  (((65 <=? c) && (c <=? 90)) || ((97 <=? c) && (c <=? 122))
   || ((48 <=? c) && (c <=? 57)) || (c =? 95))%N.

(** [[+\-#~]] *)
Definition isVisibility (c : char) : bool :=
  ((c =? 43) || (c =? 45) || (c =? 35) || (c =? 126))%N.

(** [/class\s+(\w+)/] *)
Definition classRe : regex :=
  seq [lit (js "class"); RPlus isWhiteSpace; RGroup 1 (RPlus isWord)].

(** [/(\w+)\s*:\s*([+\-#~])?(.+)/] *)
Definition memberRe : regex :=
  seq [RGroup 1 (RPlus isWord); RStar isWhiteSpace; RChar 58; RStar isWhiteSpace;
       ROpt (RGroup 2 (RClass isVisibility)); RGroup 3 (RPlus dot)].

(** The alternatives of the second group of the relationship pattern, in
    the order of the source: [<\|], [--\|], [--], [\.\.], [<\.\.], [o--]. *)
Definition arrows : list jsstring :=
  map js ["<|"; "--|"; "--"; ".."; "<.."; "o--"]%string.

(** [/(\w+)\s*(<\||--\||--|\.\.|<\.\.|o--)\s*(\w+)/] *)
Definition relRe : regex :=
  seq [RGroup 1 (RPlus isWord); RStar isWhiteSpace;
       RGroup 2
         (RAlt (lit (js "<|"))
            (RAlt (lit (js "--|"))
               (RAlt (lit (js "--"))
                  (RAlt (lit (js ".."))
                     (RAlt (lit (js "<..")) (lit (js "o--")))))));
       RStar isWhiteSpace; RGroup 3 (RPlus isWord)].

Record classData : Type := MkClassData {
  methods : list jsstring;
  properties : list jsstring
}.

(** [classes] is a [Map]: its entries keep the order in which their keys
    were first set. *)
Definition classMap := list (jsstring * classData).

Fixpoint has (k : jsstring) (m : classMap) : bool :=
  match m with
  | [] => false
  | (k', _) :: m' => str_eqb k k' || has k m'
  end.

(** [classes.get(k).methods.push(member)] or
    [classes.get(k).properties.push(member)]: the entry of [k] is changed
    in place. *)
Fixpoint pushMember (k member : jsstring) (m : classMap) : classMap :=
  match m with
  | [] => []
  | (k', d) :: m' =>
      if str_eqb k k' then
        (k', if includes member (js "()")
             then MkClassData (methods d ++ [member]) (properties d)
             else MkClassData (methods d) (properties d ++ [member])) :: m'
      else (k', d) :: pushMember k member m'
  end.

Record relationship : Type := MkRelationship {
  from : jsstring;
  type : jsstring;
  to : jsstring
}.

Record model : Type := MkModel {
  classes : classMap;
  relationships : list relationship
}.

(** The body of [lines.forEach(line => ...)]. *)
Definition parseLine (md : model) (line0 : jsstring) : model :=
  let line := trim line0 in
  let classes1 :=
    match exec classRe line with
    | Some classMatch =>
        let className := text_of (group 1 classMatch) in
        if has className (classes md) then classes md
        else classes md ++ [(className, MkClassData [] [])]
    | None => classes md
    end in
  let classes2 :=
    match exec memberRe line with
    | Some memberMatch =>
        let className := text_of (group 1 memberMatch) in
        let member := text_of (group 3 memberMatch) in
        if has className classes1 then pushMember className member classes1
        else classes1
    | None => classes1
    end in
  let relationships1 :=
    match exec relRe line with
    | Some relMatch =>
        relationships md
          ++ [MkRelationship (text_of (group 1 relMatch))
                (text_of (group 2 relMatch)) (text_of (group 3 relMatch))]
    | None => relationships md
    end in
  MkModel classes2 relationships1.

Definition parse (src : jsstring) : model :=
  fold_left parseLine (contentLines src) (MkModel [] []).

(** [rel.type === '<|--' ? 'inherits from' : rel.type === '-->' ? 'uses' :
    'relates to'] *)
Definition relType (rel : relationship) : jsstring :=
  if str_eqb (type rel) (js "<|--") then js "inherits from"
  else if str_eqb (type rel) (js "-->") then js "uses"
  else js "relates to".

Definition classItem (entry : jsstring * classData) : jsstring :=
  js "<li><strong>" ++ escapeHtml (fst entry) ++ js "</strong>"
    ++ (if Nat.ltb 0 (length (methods (snd entry)))
        then js " with methods: "
               ++ joinWith (js ", ") (map escapeHtml (methods (snd entry)))
        else [])
    ++ js "</li>" ++ [LF].

Definition relItem (rel : relationship) : jsstring :=
  js "<li><strong>" ++ escapeHtml (from rel) ++ js "</strong> " ++ relType rel
    ++ js " <strong>" ++ escapeHtml (to rel) ++ js "</strong></li>" ++ [LF].

Definition generateClassDiagramNarrative (src : jsstring) : jsstring :=
  let md := parse src in
  js "<p><strong>Class structure:</strong></p>" ++ [LF] ++ js "<ul>" ++ [LF]
    ++ concat (map classItem (classes md))
    ++ js "</ul>" ++ [LF]
    ++ (if Nat.ltb 0 (length (relationships md))
        then js "<p><strong>Relationships:</strong></p>" ++ [LF] ++ js "<ul>" ++ [LF]
               ++ concat (map relItem (relationships md))
               ++ js "</ul>" ++ [LF]
        else []).

(** A class diagram with an inheritance, a dependency and a link. *)
Definition zoo : jsstring :=
  join_nl (map js ["classDiagram"; "class Animal"; "class Dog";
                   "Animal : +name"; "Animal : +eat()"; "Animal <|-- Dog";
                   "Dog --> Bone"; "Dog -- Cat"])%string.

End Class.

(** A text of word characters. *)
Definition wordText (s : jsstring) : Prop :=
  s <> [] /\ Forall (fun c => Class.isWord c = true) s.

(** A recorded relationship joins two words by one of the six arrows of
    the pattern. *)
Definition goodRelationship (rel : Class.relationship) : Prop :=
  wordText (Class.from rel) /\ wordText (Class.to rel) /\
  In (Class.type rel) Class.arrows.

(** A recorded class has a word as name, methods that hold a pair of
    parentheses and properties that hold none. *)
Definition goodClass (entry : jsstring * Class.classData) : Prop :=
  wordText (fst entry) /\
  Forall (fun m => includes m (js "()") = true) (Class.methods (snd entry)) /\
  Forall (fun p => includes p (js "()") = false) (Class.properties (snd entry)).

(** ** The fallback minifier ([optimizeSvg]) *)

(** [s.replace(re, rep)] for a pattern [re] with the [g] flag and a
    replacement text without [$] references: the matches are looked for
    from left to right, each one starting where the one before ended (one
    code unit further after an empty match).  [skip] counts the code
    units of the current match that are still to be dropped. *)
Fixpoint replaceFrom (r : regex) (rep : jsstring) (skip ps : nat) (s : jsstring)
  {struct s} : jsstring :=
  match skip with
  | S k =>
      match s with
      | [] => []
      | _ :: t => replaceFrom r rep k (S ps) t
      end
  | O =>
      match rmatch r (fun st => Some st) (MState ps s []) with
      | Some st =>
          match pos st - ps, s with
          | O, [] => rep
          | O, c :: t => rep ++ c :: replaceFrom r rep 0 (S ps) t
          | S k, _ :: t => rep ++ replaceFrom r rep k (S ps) t
          | S _, [] => rep
          end
      | None =>
          match s with
          | [] => []
          | c :: t => c :: replaceFrom r rep 0 (S ps) t
          end
      end
  end.

Definition replaceAll (r : regex) (rep s : jsstring) : jsstring :=
  replaceFrom r rep 0 0 s.

(** [/\s+/g], [/> </g] and [/\s*=\s*/g] *)
Definition runRe : regex := RPlus isWhiteSpace.
Definition gapRe : regex := lit (js "> <").
Definition equalsRe : regex := seq [RStar isWhiteSpace; RChar 61; RStar isWhiteSpace].

(** The basic minification. *)
Definition minify (svgString : jsstring) : jsstring :=
  trim (replaceAll equalsRe (js "=")
          (replaceAll gapRe (js "><")
             (replaceAll runRe (js " ") svgString))).

(** [optimizeSvg], given the optimizer library when it was loaded:
    [SVGO.optimize] returns the optimized text ([result.data]) or throws. *)
Definition optimizeSvg (SVGO : option (jsstring -> outcome jsstring))
  (svgString : jsstring) : jsstring :=
  match svgString with
  | [] => []
  | _ :: _ =>
      match SVGO with
      | Some optimize =>
          match optimize svgString with
          | Returned (c :: data) => c :: data
          | Returned [] => svgString
          | Thrown _ => svgString
          end
      | None => minify svgString
      end
  end.

(** The code units that show. *)
Definition visible (c : char) : bool := negb (isWhiteSpace c).

(** ** Random example ([pickRandomExample]) *)

(** [random] is the value of [Math.random()], [examples] the value of
    [manifest.examples], if the manifest has one.  Reading a list beyond
    its end gives [undefined], here [None]. *)
Definition pickRandomExample (A : Type) (random : Q) (examples : option (list A))
  : outcome (option A) :=
  let list := match examples with Some l => l | None => [] end in
  match list with
  | [] => Thrown (js "No examples available")
  | _ :: _ =>
      let idx := Qfloor (random * inject_Z (Z.of_nat (length list)))%Q in
      Returned (if (idx <? 0)%Z then None else nth_error list (Z.to_nat idx))
  end.

(** The only white space of a line of minified text: the space. *)
Definition spaceOrVisible (c : char) : Prop := isWhiteSpace c = true -> c = 32%N.

(** The three replacements of the minifier as scans of the text.
    [collapseFrom inRun]: a run of white space becomes one space ([inRun]
    tells that the scan is inside a run). *)
Fixpoint collapseFrom (inRun : bool) (s : jsstring) : jsstring :=
  match s with
  | [] => []
  | c :: t =>
      if isWhiteSpace c
      then if inRun then collapseFrom true t else 32%N :: collapseFrom true t
      else c :: collapseFrom false t
  end.

(** [ungap]: the space of each [> <] goes. *)
Fixpoint ungap (s : jsstring) : jsstring :=
  match s with
  | [] => []
  | c :: t =>
      if startsWith s (js "> <")
      then match t with
           | _ :: _ :: t' => 62%N :: 60%N :: ungap t'
           | _ => []
           end
      else c :: ungap t
  end.

(** Whether the white space at the start of [t] is followed by an equals
    sign. *)
Definition beforeEquals (t : jsstring) : bool :=
  match skipn (spanLen isWhiteSpace t) t with
  | c :: _ => (c =? 61)%N
  | [] => false
  end.

(** [tightenFrom afterEquals]: the runs of white space next to an equals
    sign go ([afterEquals] tells that only white space was seen since the
    last equals sign). *)
Fixpoint tightenFrom (afterEquals : bool) (s : jsstring) : jsstring :=
  match s with
  | [] => []
  | c :: t =>
      if (c =? 61)%N then 61%N :: tightenFrom true t
      else if isWhiteSpace c
           then if afterEquals || beforeEquals t then tightenFrom afterEquals t
                else c :: tightenFrom false t
           else c :: tightenFrom false t
  end.

(** The shape of minified text.  [tidy prevWs s]: the white space of [s]
    is single spaces, none next to another ([prevWs] tells that [s]
    follows a white-space code unit). *)
Fixpoint tidy (prevWs : bool) (s : jsstring) : Prop :=
  match s with
  | [] => True
  | c :: t =>
      if isWhiteSpace c then c = 32%N /\ prevWs = false /\ tidy true t
      else tidy false t
  end.

(** [snug afterEquals s]: no white space of [s] touches an equals sign. *)
Fixpoint snug (afterEquals : bool) (s : jsstring) : Prop :=
  match s with
  | [] => True
  | c :: t =>
      if (c =? 61)%N then snug true t
      else if isWhiteSpace c
           then afterEquals = false /\ beforeEquals t = false /\ snug false t
           else snug false t
  end.

(** The text [> <]. *)
Definition gap : jsstring := js "> <".

(** ** What the flowchart pass may change

    The attributes [role] and [aria-hidden], and [title] elements. *)
Definition a11yAttribute (k : jsstring) : bool :=
  str_eqb k (js "role") || str_eqb k ariaHidden.

(** The document without them. *)
Fixpoint withoutA11y (n : Node) : Node :=
  match n with
  | Element t a cs =>
      Element t (filter (fun kv => negb (a11yAttribute (fst kv))) a)
        ((fix go (cs : list Node) {struct cs} : list Node :=
            match cs with
            | [] => []
            | c :: cs' => if isTitle c then go cs' else withoutA11y c :: go cs'
            end) cs)
  | _ => n
  end.

(** The children of an element without them. *)
Definition childrenWithoutA11y (cs : list Node) : list Node :=
  flat_map (fun c => if isTitle c then [] else [withoutA11y c]) cs.

(** ** Patterns that end with [$]

    Without the [m] flag [$] holds at the end of the input only: a pattern
    [r$] is [r] followed by the test that nothing is left. *)
Definition atEnd : cont :=
  fun st => match rest st with [] => Some st | _ :: _ => None end.

(** Leftmost search for [r$]. *)
Fixpoint searchEnd (r : regex) (ps : nat) (s : jsstring) {struct s} : option Match :=
  match rmatch r atEnd (MState ps s []) with
  | Some st => Some (MkMatch ps (firstn (pos st - ps) s) (caps st))
  | None =>
      match s with
      | [] => None
      | _ :: t => searchEnd r (S ps) t
      end
  end.

(** [str.match(/r$/)] *)
Definition execEnd (r : regex) (s : jsstring) : option Match := searchEnd r 0 s.

(** [str.replace(re, '')] for a pattern without the [g] flag: the first
    match is taken out. *)
Definition removeFirst (r : regex) (s : jsstring) : jsstring :=
  match exec r s with
  | Some mt => firstn (index mt) s ++ skipn (index mt + length (matched mt)) s
  | None => s
  end.

(** One of the literals [ws], tried in order. *)
Fixpoint oneOf (ws : list jsstring) : regex :=
  match ws with
  | [] => RClass (fun _ => false)
  | [w] => lit w
  | w :: ws' => RAlt (lit w) (oneOf ws')
  end.

(** [[^:]] *)
Definition notColon (c : char) : bool := negb (c =? 58)%N.

(** [source.split('\n')] without comment lines and blank lines. *)
Definition sourceLines (source : jsstring) : list jsstring :=
  filter (fun line => negb (Nat.eqb (length (trim line)) 0))
    (filter (fun line => negb (startsWith (trim line) (js "%%")))
       (split_nl source)).

(** [/title\s+/] *)
Definition titleRe : regex := seq [lit (js "title"); RPlus isWhiteSpace].

(** The title paragraph of the Gantt and journey narratives: the first
    line that starts with [title], without its first [title] followed by
    white space. *)
Definition titleParagraph (lines : list jsstring) : jsstring :=
  match find (fun l => startsWith (trim l) (js "title")) lines with
  | Some titleLine =>
      if Nat.eqb (length titleLine) 0 then []
      else js "<p><em>" ++ escapeHtml (trim (removeFirst titleRe titleLine))
             ++ js "</em></p>" ++ [LF]
  | None => []
  end.

(** [/^section\s+(.+)$/], without the final [$] *)
Definition sectionRe : regex :=
  seq [RBol; lit (js "section"); RPlus isWhiteSpace; RGroup 1 (RPlus dot)].

(** ** Gantt narrative ([generateGanttNarrative]) *)

Module Gantt.

Record task : Type := MkTask {
  taskName : jsstring;             (* [task.name] *)
  tags : list jsstring
}.

Record section : Type := MkSection {
  name : jsstring;
  tasks : list task
}.

Definition keywords : list jsstring :=
  map js ["gantt"; "title"; "dateFormat"; "axisFormat"; "excludes";
          "tickInterval"; "weekend"]%string.

(** [/^(gantt|title|dateFormat|axisFormat|excludes|tickInterval|weekend)/] *)
Definition keywordRe : regex := seq [RBol; RGroup 1 (oneOf keywords)].

(** [/^([^:]+)\s*:\s*(.+)$/], without the final [$] *)
Definition taskRe : regex :=
  seq [RBol; RGroup 1 (RPlus notColon); RStar isWhiteSpace; RChar 58;
       RStar isWhiteSpace; RGroup 2 (RPlus dot)].

Definition tagsOf (params : jsstring) : list jsstring :=
  (if includes params (js "milestone") then [js "milestone"] else [])
    ++ (if includes params (js "done") then [js "completed"] else [])
    ++ (if includes params (js "active") then [js "in progress"] else [])
    ++ (if includes params (js "crit") then [js "critical"] else []).

(** [currentSection.tasks.push(t)]: [currentSection] is the object pushed
    last on [sections], so the task goes to the last entry; while
    [sections] is empty [currentSection] is null and nothing is pushed. *)
Fixpoint pushTask (t : task) (sections : list section) : list section :=
  match sections with
  | [] => []
  | [s] => [MkSection (name s) (tasks s ++ [t])]
  | s :: ss => s :: pushTask t ss
  end.

(** The body of [lines.forEach(line => ...)]. *)
Definition parseLine (sections : list section) (line : jsstring) : list section :=
  let trimmed := trim line in
  match execEnd sectionRe trimmed with
  | Some sectionMatch =>
      sections ++ [MkSection (trim (text_of (group 1 sectionMatch))) []]
  | None =>
      match exec keywordRe trimmed with
      | Some _ => sections
      | None =>
          match execEnd taskRe trimmed with
          | Some taskMatch =>
              let taskName := trim (text_of (group 1 taskMatch)) in
              let params := trim (text_of (group 2 taskMatch)) in
              pushTask (MkTask taskName (tagsOf params)) sections
          | None => sections
          end
      end
  end.

Definition parse (source : jsstring) : list section :=
  fold_left parseLine (sourceLines source) [].

Definition taskItem (t : task) : jsstring :=
  let tagText :=
    if Nat.ltb 0 (length (tags t))
    then js " <em>(" ++ joinWith (js ", ") (tags t) ++ js ")</em>"
    else [] in
  js "<li>" ++ escapeHtml (taskName t) ++ tagText ++ js "</li>" ++ [LF].

Definition sectionItem (s : section) : jsstring :=
  js "<li><strong>" ++ escapeHtml (name s) ++ js "</strong>"
    ++ (if Nat.ltb 0 (length (tasks s))
        then [LF] ++ js "<ul>" ++ [LF] ++ concat (map taskItem (tasks s))
               ++ js "</ul>" ++ [LF]
        else [])
    ++ js "</li>" ++ [LF].

Definition heading : jsstring := js "<p><strong>Project Timeline:</strong></p>" ++ [LF].

Definition generateGanttNarrative (source : jsstring) : jsstring :=
  let sections := parse source in
  heading ++ titleParagraph (sourceLines source)
    ++ (if Nat.ltb 0 (length sections)
        then js "<ul>" ++ [LF] ++ concat (map sectionItem sections)
               ++ js "</ul>" ++ [LF]
        else []).

(** A plan whose tasks come before any section. *)
Definition flatPlan : jsstring :=
  join_nl (map js ["gantt"; "title Release"; "Design : done, d1, 2024-01-01, 3d";
                   "Build : active, after d1, 5d"])%string.

(** A plan with two sections. *)
Definition plan : jsstring :=
  join_nl (map js ["gantt"; "  title Release plan"; "  dateFormat YYYY-MM-DD";
                   "  section Design"; "  Sketch : done, d1, 2024-01-01, 3d";
                   "  titles and credits : d2, after d1, 1d";
                   "  section Build"; "  Code : crit, active, after d2, 5d";
                   "  Ship : milestone, after d2, 0d"])%string.

End Gantt.

(** A section name or task name as the patterns can record it: not empty,
    trimmed. *)
Definition trimmedText (s : jsstring) : Prop := s <> [] /\ trim s = s.

(** A recorded task: a trimmed name without colon that starts with no
    keyword. *)
Definition goodTask (t : Gantt.task) : Prop :=
  trimmedText (Gantt.taskName t) /\ ~ In 58%N (Gantt.taskName t) /\
  forall kw, In kw Gantt.keywords -> startsWith (Gantt.taskName t) kw = false.

Definition goodGanttSection (s : Gantt.section) : Prop :=
  trimmedText (Gantt.name s) /\ Forall (fun c => dot c = true) (Gantt.name s) /\
  Forall goodTask (Gantt.tasks s).

(** [s.split(sep)] for a separator of one code unit: never empty. *)
Fixpoint splitOn (sep : char) (s : jsstring) : list jsstring :=
  match s with
  | [] => [[]]
  | c :: t =>
      if (c =? sep)%N then [] :: splitOn sep t
      else match splitOn sep t with
           | l :: ls => (c :: l) :: ls
           | [] => [[c]]
           end
  end.

(** ** User journey narrative ([generateUserJourneyNarrative]): the loop
    that fills [sections] *)

Module Journey.

Record step : Type := MkStep {
  stepName : jsstring;             (* [step.name] *)
  score : number;
  actors : list jsstring
}.

Record section : Type := MkSection {
  name : jsstring;
  steps : list step
}.

Definition keywords : list jsstring := map js ["journey"; "title"]%string.

(** [/^(journey|title)/] *)
Definition keywordRe : regex := seq [RBol; RGroup 1 (oneOf keywords)].

(** [/^([^:]+)\s*:\s*(\d+)\s*:\s*(.+)$/], without the final [$] *)
Definition taskRe : regex :=
  seq [RBol; RGroup 1 (RPlus notColon); RStar isWhiteSpace; RChar 58;
       RStar isWhiteSpace; RGroup 2 (RPlus isDigit); RStar isWhiteSpace;
       RChar 58; RStar isWhiteSpace; RGroup 3 (RPlus dot)].

(** [parseInt(ds, 10)] on a text of digits: the Number value for the
    integer written (converted exactly, as for [parseFloat]). *)
Definition parseInt (ds : jsstring) : number :=
  numberValue (inject_Z (Z.of_N (Pie.digitsValue ds))).

(** [currentSection.steps.push(s)]: as for the Gantt tasks, the step goes
    to the section pushed last, and nowhere while there is none. *)
Fixpoint pushStep (s : step) (sections : list section) : list section :=
  match sections with
  | [] => []
  | [x] => [MkSection (name x) (steps x ++ [s])]
  | x :: xs => x :: pushStep s xs
  end.

(** The body of [lines.forEach(line => ...)]. *)
Definition parseLine (sections : list section) (line : jsstring) : list section :=
  let trimmed := trim line in
  match execEnd sectionRe trimmed with
  | Some sectionMatch =>
      sections ++ [MkSection (trim (text_of (group 1 sectionMatch))) []]
  | None =>
      match exec keywordRe trimmed with
      | Some _ => sections
      | None =>
          match execEnd taskRe trimmed with
          | Some taskMatch =>
              let taskName := trim (text_of (group 1 taskMatch)) in
              let score := parseInt (text_of (group 2 taskMatch)) in
              let actors := map trim (splitOn 44 (text_of (group 3 taskMatch))) in
              pushStep (MkStep taskName score actors) sections
          | None => sections
          end
      end
  end.

Definition parse (source : jsstring) : list section :=
  fold_left parseLine (sourceLines source) [].

(** A journey with one section. *)
Definition shopping : jsstring :=
  join_nl (map js ["journey"; "  title Buying a book"; "  section Shop";
                   "    Find the book: 5: Reader";
                   "    Pay: 12: Reader, Cashier";
                   "    Queue: 2: Reader,"])%string.

End Journey.



(** ** XY chart narrative ([generateXyChartNarrative]) *)

(** [str.replace(pat, '')] with a text as pattern: its first occurrence
    is taken out. *)
Fixpoint removeStr (pat s : jsstring) : jsstring :=
  if startsWith s pat then skipn (length pat) s
  else match s with
       | [] => []
       | c :: t => c :: removeStr pat t
       end.

Module XyChart.

(** Lower and upper case of the letters A to Z; the texts that are
    converted below hold no other letters. *)
Definition lower (c : char) : char :=
  if ((65 <=? c) && (c <=? 90))%N then (c + 32)%N else c.

Definition upper (c : char) : char :=
  if ((97 <=? c) && (c <=? 122))%N then (c - 32)%N else c.

Definition toLowerCase (s : jsstring) : jsstring := map lower s.

(** A letter of a pattern with the [i] flag: the letter in either case. *)
Definition letter (c : char) : regex :=
  RClass (fun x => (x =? lower c) || (x =? upper c))%N.

Definition word (s : jsstring) : regex := seq (map letter s).

(** [/^(line|bar)\s+(.+)$/i], without the final [$] *)
Definition dataRe : regex :=
  seq [RBol; RGroup 1 (RAlt (word (js "line")) (word (js "bar")));
       RPlus isWhiteSpace; RGroup 2 (RPlus dot)].

Record dataset : Type := MkDataset {
  type : jsstring;
  dataStr : jsstring
}.

Record chart : Type := MkChart {
  xLabel : jsstring;
  yLabel : jsstring;
  datasets : list dataset
}.

(** [rest || fallback] *)
Definition orDefault (rest fallback : jsstring) : jsstring :=
  match rest with [] => fallback | _ :: _ => rest end.

(** The body of [lines.forEach(line => ...)]. *)
Definition parseLine (ch : chart) (line : jsstring) : chart :=
  let trimmed := trim line in
  if startsWith trimmed (js "x-axis") then
    let rest := trim (removeStr (js "x-axis") trimmed) in
    MkChart (orDefault rest (js "X-Axis")) (yLabel ch) (datasets ch)
  else if startsWith trimmed (js "y-axis") then
    let rest := trim (removeStr (js "y-axis") trimmed) in
    MkChart (xLabel ch) (orDefault rest (js "Y-Axis")) (datasets ch)
  else if startsWith trimmed (js "line") || startsWith trimmed (js "bar") then
    match execEnd dataRe trimmed with
    | Some mt =>
        MkChart (xLabel ch) (yLabel ch)
          (datasets ch ++ [MkDataset (toLowerCase (text_of (group 1 mt)))
                                     (text_of (group 2 mt))])
    | None => ch
    end
  else ch.

Definition parse (source : jsstring) : chart :=
  fold_left parseLine (sourceLines source) (MkChart (js "X-Axis") (js "Y-Axis") []).

(** [type.charAt(0).toUpperCase() + type.slice(1)] *)
Definition labelOf (d : dataset) : jsstring :=
  match type d with
  | [] => []
  | c :: t => upper c :: t
  end.

Definition datasetItem (d : dataset) : jsstring :=
  js "<li>" ++ labelOf d ++ js ": " ++ escapeHtml (dataStr d) ++ js "</li>" ++ [LF].

Definition generateXyChartNarrative (source : jsstring) : jsstring :=
  let ch := parse source in
  js "<p><strong>Chart Data:</strong></p>" ++ [LF]
    ++ js "<p>Axes: " ++ escapeHtml (xLabel ch) ++ js " vs "
    ++ escapeHtml (yLabel ch) ++ js "</p>" ++ [LF]
    ++ (if Nat.ltb 0 (length (datasets ch))
        then js "<p><strong>Datasets:</strong></p>" ++ [LF] ++ js "<ul>" ++ [LF]
               ++ concat (map datasetItem (datasets ch)) ++ js "</ul>" ++ [LF]
        else []).

(** A chart with a bar series, a line series and a series written in
    capitals. *)
Definition sales : jsstring :=
  join_nl (map js ["xychart-beta"; "  x-axis [jan, feb, mar]"; "  y-axis";
                   "  bar [5, 6, 7]"; "  line [5, 6, 7]"; "  LINE [1, 2, 3]"])%string.

End XyChart.

(** A recorded series: its type is [line] or [bar] as written, its data
    a non-empty text on one line. *)
Definition goodDataset (d : XyChart.dataset) : Prop :=
  (XyChart.type d = js "line" /\ XyChart.labelOf d = js "Line" \/
   XyChart.type d = js "bar" /\ XyChart.labelOf d = js "Bar") /\
  XyChart.dataStr d <> [] /\ Forall (fun c => dot c = true) (XyChart.dataStr d).
(* ================================================================== *)
(** * Part II: properties *)
(* ================================================================== *)

(** ** Strings *)

Lemma str_eqb_eq (a b : jsstring) : str_eqb a b = true <-> a = b.
Proof.
  revert b; induction a as [|x a IH]; intros [|y b]; simpl; split; intro H;
    try reflexivity; try discriminate.
  - apply andb_true_iff in H as [H1 H2]. apply N.eqb_eq in H1.
    apply IH in H2. now subst.
  - injection H as -> ->. rewrite N.eqb_refl. simpl. now apply IH.
Qed.

Lemma str_eqb_refl (a : jsstring) : str_eqb a a = true.
Proof. now apply str_eqb_eq. Qed.

Lemma split_nl_nonempty (s : jsstring) : split_nl s <> [].
Proof.
  destruct s as [|c t]; simpl; [discriminate|].
  destruct (c =? LF)%N; [discriminate|].
  destruct (split_nl t); discriminate.
Qed.

Lemma split_nl_cons (c : char) (t : jsstring) :
  c <> LF ->
  exists l ls, split_nl t = l :: ls /\ split_nl (c :: t) = (c :: l) :: ls.
Proof.
  intros Hc. simpl. apply N.eqb_neq in Hc. rewrite Hc.
  destruct (split_nl t) as [|l ls] eqn:E.
  - now apply split_nl_nonempty in E.
  - now exists l, ls.
Qed.

Lemma split_nl_noLF (s : jsstring) : Forall (fun l => ~ In LF l) (split_nl s).
Proof.
  induction s as [|c t IH]; simpl.
  - constructor; [intros []|constructor].
  - destruct (N.eqb_spec c LF) as [->|Hc].
    + constructor; [intros []|exact IH].
    + destruct (split_nl t) as [|l ls].
      { constructor; [intros [H|[]]; congruence|constructor]. }
      inversion IH as [|? ? Hl Hls]; subst. constructor; [|exact Hls].
      intros [H|H]; [congruence|contradiction].
Qed.

Lemma split_nl_line (l : jsstring) : ~ In LF l -> split_nl l = [l].
Proof.
  induction l as [|c t IH]; intros H; simpl; [reflexivity|].
  destruct (N.eqb_spec c LF) as [->|Hc]; [exfalso; apply H; now left|].
  rewrite IH; [reflexivity|]. intros Hin; apply H; now right.
Qed.

Lemma split_nl_app (l rest : jsstring) :
  ~ In LF l -> split_nl (l ++ LF :: rest) = l :: split_nl rest.
Proof.
  induction l as [|c t IH]; intros H; simpl.
  - reflexivity.
  - destruct (N.eqb_spec c LF) as [->|Hc]; [exfalso; apply H; now left|].
    rewrite IH; [reflexivity|]. intros Hin; apply H; now right.
Qed.

Lemma split_join_nl (r : list jsstring) :
  r <> [] -> Forall (fun l => ~ In LF l) r -> split_nl (join_nl r) = r.
Proof.
  induction r as [|l r IH]; intros Hne Hall; [congruence|].
  inversion Hall as [|? ? Hl Hr]; subst.
  destruct r as [|l' r'].
  - simpl. now apply split_nl_line.
  - change (join_nl (l :: l' :: r')) with (l ++ LF :: join_nl (l' :: r')).
    rewrite split_nl_app by assumption. f_equal. apply IH; [discriminate|assumption].
Qed.

Arguments isWhiteSpace : simpl never.
Arguments isFence : simpl never.

Lemma trimEnd_cons (c : char) (t : jsstring) :
  trimEnd (c :: t) =
  match trimEnd t with
  | [] => if isWhiteSpace c then [] else [c]
  | t' => c :: t'
  end.
Proof. reflexivity. Qed.

Lemma trim_commute (l : jsstring) : trimEnd (trimStart l) = trimStart (trimEnd l).
Proof.
  induction l as [|c t IH]; [reflexivity|].
  rewrite trimEnd_cons. simpl trimStart at 1.
  destruct (isWhiteSpace c) eqn:W.
  - rewrite IH. destruct (trimEnd t) as [|x t'] eqn:E; simpl; [reflexivity|].
    now rewrite W.
  - rewrite trimEnd_cons.
    destruct (trimEnd t) as [|x t'] eqn:E; simpl; now rewrite W.
Qed.

Lemma trimEnd_idem (l : jsstring) : trimEnd (trimEnd l) = trimEnd l.
Proof.
  induction l as [|c t IH]; [reflexivity|].
  rewrite trimEnd_cons.
  destruct (trimEnd t) as [|x t'] eqn:E.
  - destruct (isWhiteSpace c) eqn:W; [reflexivity|].
    simpl. now rewrite W.
  - rewrite trimEnd_cons, IH. reflexivity.
Qed.

Lemma trim_trimEnd (l : jsstring) : trim (trimEnd l) = trim l.
Proof.
  unfold trim. now rewrite !trim_commute, trimEnd_idem.
Qed.

Lemma isFence_trimEnd (l : jsstring) : isFence (trimEnd l) = isFence l.
Proof. unfold isFence. now rewrite trim_trimEnd. Qed.

Lemma isFence_ws_cons (c : char) (l : jsstring) :
  isWhiteSpace c = true -> isFence (c :: l) = isFence l.
Proof. intros W. unfold isFence, trim. simpl. now rewrite W. Qed.


Lemma fenceLines_trimStart (s : jsstring) :
  fenceLines (split_nl (trimStart s)) = fenceLines (split_nl s).
Proof.
  induction s as [|c t IH]; [reflexivity|].
  simpl trimStart. destruct (isWhiteSpace c) eqn:W; [|reflexivity].
  rewrite IH. destruct (N.eqb_spec c LF) as [->|Hc].
  - reflexivity.
  - destruct (split_nl_cons t Hc) as (l & ls & E1 & E2).
    rewrite E1, E2. unfold fenceLines. cbn [filter].
    rewrite isFence_ws_cons by assumption. now destruct (isFence l).
Qed.

Lemma trimEnd_nil_lines (t : jsstring) :
  trimEnd t = [] -> Forall (fun l => trimEnd l = []) (split_nl t).
Proof.
  induction t as [|c t IH]; intros H.
  - repeat constructor.
  - rewrite trimEnd_cons in H.
    destruct (trimEnd t) as [|x t'] eqn:E; [|discriminate].
    destruct (isWhiteSpace c) eqn:W; [|discriminate].
    specialize (IH eq_refl).
    destruct (N.eqb_spec c LF) as [->|Hc].
    + simpl. constructor; [reflexivity|exact IH].
    + destruct (split_nl_cons t Hc) as (l & ls & E1 & E2).
      rewrite E2. rewrite E1 in IH. inversion IH as [|? ? Hl Hls]; subst.
      constructor; [|exact Hls]. rewrite trimEnd_cons, Hl, W. reflexivity.
Qed.

Lemma fenceLines_of_trimEnd_eq (a b : list jsstring) :
  map trimEnd a = map trimEnd b -> fenceLines a = fenceLines b.
Proof.
  revert b; induction a as [|x a IH]; intros [|y b] H; try discriminate; [reflexivity|].
  simpl in H. injection H as Hxy Hab. unfold fenceLines in *. simpl.
  rewrite <- (isFence_trimEnd x), <- (isFence_trimEnd y), Hxy.
  destruct (isFence (trimEnd y)); simpl; [f_equal|]; now apply IH.
Qed.

Lemma fenceLines_blank (ls : list jsstring) :
  Forall (fun l => trimEnd l = []) ls -> fenceLines ls = 0.
Proof.
  induction 1 as [|l ls Hl _ IH]; [reflexivity|].
  unfold fenceLines in *. simpl. rewrite <- isFence_trimEnd, Hl. exact IH.
Qed.

Lemma fenceLines_app (a b : list jsstring) :
  fenceLines (a ++ b) = fenceLines a + fenceLines b.
Proof. unfold fenceLines. now rewrite filter_app, length_app. Qed.

(** Trimming the end of a text only blanks or drops trailing lines. *)
Lemma split_trimEnd (s : jsstring) :
  exists blank,
    Forall (fun l => trimEnd l = []) blank /\
    map trimEnd (split_nl s) = map trimEnd (split_nl (trimEnd s)) ++ map trimEnd blank.
Proof.
  induction s as [|c t IH].
  - exists []. split; [constructor|reflexivity].
  - rewrite trimEnd_cons. destruct (trimEnd t) as [|x t'] eqn:E.
    + pose proof (trimEnd_nil_lines t E) as Hb.
      destruct (N.eqb_spec c LF) as [->|Hc].
      * exists (split_nl t). split; [exact Hb|]. reflexivity.
      * destruct (split_nl_cons t Hc) as (l & ls & E1 & E2).
        rewrite E2. rewrite E1 in Hb. inversion Hb as [|? ? Hl Hls]; subst.
        exists ls. split; [exact Hls|].
        cbn [map]. rewrite trimEnd_cons, Hl.
        destruct (isWhiteSpace c) eqn:W; [reflexivity|].
        rewrite (split_nl_line [c]) by (intros [H|[]]; congruence).
        cbn [map app]. rewrite trimEnd_cons, W. reflexivity.
    + destruct IH as (blank & Hb & IH). exists blank. split; [exact Hb|].
      destruct (N.eqb_spec c LF) as [->|Hc].
      * simpl. now rewrite IH.
      * destruct (split_nl_cons t Hc) as (l & ls & E1 & E2).
        destruct (split_nl_cons (x :: t') Hc) as (l' & ls' & E1' & E2').
        rewrite E2, E2'. rewrite E1, E1' in IH. cbn [map app] in IH |- *.
        injection IH as Hl Hls. rewrite (trimEnd_cons c l), (trimEnd_cons c l'), Hl, Hls.
        reflexivity.
Qed.

Lemma fenceLines_trimEnd (s : jsstring) :
  fenceLines (split_nl (trimEnd s)) = fenceLines (split_nl s).
Proof.
  destruct (split_trimEnd s) as (blank & Hb & E).
  assert (H : fenceLines (split_nl s) = fenceLines (split_nl (trimEnd s) ++ blank)).
  { apply fenceLines_of_trimEnd_eq. now rewrite map_app. }
  rewrite H, fenceLines_app, (fenceLines_blank Hb). lia.
Qed.

Lemma fenceLines_trim (s : jsstring) :
  fenceLines (split_nl (trim s)) = fenceLines (split_nl s).
Proof. unfold trim. now rewrite fenceLines_trimEnd, fenceLines_trimStart. Qed.

Lemma afterClosing_fenceLines (ls r : list jsstring) :
  afterClosing ls = Some r -> fenceLines r + 1 <= fenceLines ls.
Proof.
  induction ls as [|l ls IH]; intros H; [discriminate|].
  simpl in H. unfold fenceLines in *. simpl.
  destruct (isFence l) eqn:F.
  - injection H as ->. simpl. lia.
  - apply IH in H. lia.
Qed.

Lemma afterClosing_Forall (P : jsstring -> Prop) (ls r : list jsstring) :
  afterClosing ls = Some r -> Forall P ls -> Forall P r.
Proof.
  induction ls as [|l ls IH]; intros H Hall; [discriminate|].
  inversion Hall; subst. simpl in H. destruct (isFence l).
  - now injection H as ->.
  - now apply IH.
Qed.

(** A text without fence lines is left alone. *)
Lemma skipFrontmatter_no_fence (y : jsstring) :
  fenceLines (split_nl y) = 0 -> skipFrontmatter y = y.
Proof.
  intros H. rewrite <- fenceLines_trim in H. unfold skipFrontmatter.
  destruct (split_nl (trim y)) as [|l0 rest]; [reflexivity|].
  unfold fenceLines in H. simpl in H.
  destruct (isFence l0); [discriminate|reflexivity].
Qed.

(** C2 (as amended): on a source with at most two fence lines, that is
    with at most one fenced block, stripping the frontmatter twice gives
    the same text as stripping it once. *)
Theorem skipFrontmatter_idempotent_one_block (x : jsstring) :
  fenceLines (split_nl x) <= 2 ->
  skipFrontmatter (skipFrontmatter x) = skipFrontmatter x.
Proof.
  intros Hx. rewrite <- fenceLines_trim in Hx.
  enough (H : skipFrontmatter x = x \/ fenceLines (split_nl (skipFrontmatter x)) = 0).
  { destruct H as [H|H]; [now rewrite !H|now apply skipFrontmatter_no_fence]. }
  unfold skipFrontmatter.
  pose proof (split_nl_noLF (trim x)) as Hlf.
  destruct (split_nl (trim x)) as [|l0 rest] eqn:E; [now left|].
  destruct (isFence l0) eqn:F0; [|now left].
  destruct (afterClosing rest) as [r|] eqn:Hc; [right|now left].
  pose proof (afterClosing_fenceLines _ Hc) as Hr.
  assert (H0 : fenceLines r = 0).
  { unfold fenceLines in *. cbn [filter] in Hx. rewrite F0 in Hx. simpl in Hx. lia. }
  destruct r as [|l r'].
  - reflexivity.
  - rewrite split_join_nl; [exact H0|discriminate|].
    inversion Hlf; subst. eapply afterClosing_Forall; eassumption.
Qed.


(** C2: stripping is not idempotent on a source with two fenced blocks in
    a row: the first pass removes the first block, the second pass the
    second one. *)
Lemma skipFrontmatter_not_idempotent :
  skipFrontmatter twoBlocks = join_nl (map js ["---"; "b"; "---"; "c"])%string /\
  skipFrontmatter (skipFrontmatter twoBlocks) = js "c" /\
  skipFrontmatter (skipFrontmatter twoBlocks) <> skipFrontmatter twoBlocks.
Proof. vm_compute. repeat split; discriminate. Qed.

Lemma skipFrontmatter_idempotent_one_block_witness :
  fenceLines (split_nl (join_nl (map js ["---"; "title: x"; "---"; "pie"])%string)) <= 2 /\
  skipFrontmatter (skipFrontmatter (join_nl (map js ["---"; "title: x"; "---"; "pie"])%string))
  = skipFrontmatter (join_nl (map js ["---"; "title: x"; "---"; "pie"])%string).
Proof.
  split.
  - vm_compute. lia.
  - apply skipFrontmatter_idempotent_one_block. vm_compute. lia.
Defined.

(** ** The classifier *)

Lemma startsWith_app (s p : jsstring) :
  startsWith s p = true -> exists r, s = p ++ r.
Proof.
  revert s; induction p as [|x p IH]; intros s H.
  - now exists s.
  - destruct s as [|y s]; [discriminate|]. simpl in H.
    apply andb_true_iff in H as [H1 H2]. apply N.eqb_eq in H1. subst y.
    destruct (IH _ H2) as [r ->]. now exists r.
Qed.

(** The classifier is total and returns one of eleven tags. *)
Lemma detectDiagramType_range (s : jsstring) :
  In (detectDiagramType s) (js "unknown" :: map snd recognised).
Proof.
  unfold detectDiagramType.
  repeat match goal with
         | |- context [if ?b then _ else _] => destruct b
         end; vm_compute; tauto.
Qed.

(** A source whose first line starts with a recognised keyword gets the
    type of that keyword. *)
Lemma detectDiagramType_recognised (p t s : jsstring) :
  In (p, t) recognised -> startsWith (firstLineOf s) p = true ->
  detectDiagramType s = t.
Proof.
  intros Hin H. apply startsWith_app in H as [r Hr].
  unfold detectDiagramType. rewrite Hr. clear Hr.
  vm_compute in Hin.
  repeat (destruct Hin as [Hin|Hin];
    [apply pair_equal_spec in Hin as [<- <-]; vm_compute; reflexivity|]).
  destruct Hin.
Qed.

(** A first line that starts with none of the recognised keywords is
    [unknown]. *)
Lemma detectDiagramType_other (s : jsstring) :
  (forall p t, In (p, t) recognised -> startsWith (firstLineOf s) p = false) ->
  detectDiagramType s = js "unknown".
Proof.
  intros H. unfold detectDiagramType.
  assert (Hp : forall p : string, In (js p) (map fst recognised) ->
                      startsWith (firstLineOf s) (js p) = false).
  { intros p Hin. apply in_map_iff in Hin as ([p' t] & E & Hin). simpl in E. subst p'.
    now apply (H _ t). }
  rewrite !Hp by (vm_compute; tauto). reflexivity.
Qed.

(** C3: the classifier knows eleven keywords only; an [erDiagram] source,
    which the test suite expects to be classified as [erDiagram], comes
    out as [unknown]. *)
Theorem detectDiagramType_erDiagram_unknown :
  detectDiagramType erDiagramSource = js "unknown".
Proof. vm_compute. reflexivity. Qed.

(** C4: the classifier looks at the first line of the source as it is,
    so a pie chart behind a frontmatter block is [unknown]; it is [pie]
    once [skipFrontmatter] has been applied by hand. *)
Theorem detectDiagramType_keeps_frontmatter :
  detectDiagramType frontmatterPie = js "unknown" /\
  detectDiagramType (skipFrontmatter frontmatterPie) = js "pie".
Proof. vm_compute. split; reflexivity. Qed.

(** ** The flowchart narrative *)

(** C5: on the minimal flowchart the classifier answers [flowchart], but
    the parser records the node [A] alone and no edge: the node pattern is
    anchored at the start of the line and the edge patterns want an
    identifier right before the arrow.  The narrative starts at [Start],
    never mentions [End] and reports one node and no connection. *)
Theorem minimalFlowchart_one_node_no_edge :
  detectDiagramType minimalFlowchart = js "flowchart" /\
  Flow.parse minimalFlowchart
  = Flow.MkModel [(js "A", Flow.MkNode (js "Start") false)] [] /\
  Flow.steps (Flow.parse minimalFlowchart)
  = js "<li>Start at: <strong>Start</strong></li>" ++ [LF] /\
  Flow.summary (Flow.parse minimalFlowchart)
  = js "<strong>Structure:</strong> 1 node, 0 connections".
Proof. vm_compute. repeat split; reflexivity. Qed.

(** ** The matcher *)

Lemma startsWith_app_same (p r : jsstring) : startsWith (p ++ r) p = true.
Proof. induction p as [|x p IH]; simpl; [reflexivity|]. now rewrite N.eqb_refl. Qed.

Lemma skipn_app_same (A : Type) (p r : list A) : skipn (length p) (p ++ r) = r.
Proof. induction p; simpl; auto. Qed.

Lemma rmatch_lit (q : jsstring) (k : cont) (ps : nat) (s : jsstring)
  (cs : list (nat * jsstring)) :
  rmatch (lit q) k (MState ps s cs) =
  if startsWith s q then k (MState (ps + length q) (skipn (length q) s) cs) else None.
Proof.
  revert ps s; induction q as [|x q IH]; intros ps s.
  - simpl. now rewrite Nat.add_0_r.
  - destruct s as [|y s]; [reflexivity|]. cbn [lit rmatch rest pos caps startsWith].
    rewrite (N.eqb_sym x y). destruct (y =? x)%N; [|reflexivity]. simpl andb.
    rewrite IH. cbn [length skipn]. now rewrite Nat.add_succ_r.
Qed.

Lemma spanLen_le (p : char -> bool) (s : jsstring) : spanLen p s <= length s.
Proof. induction s as [|c t IH]; simpl; [lia|]. destruct (p c); simpl; lia. Qed.

Lemma spanLen_firstn (p : char -> bool) (s : jsstring) (n : nat) :
  n <= spanLen p s -> Forall (fun c => p c = true) (firstn n s).
Proof.
  revert n; induction s as [|c t IH]; intros [|n] H; simpl in *;
    try (constructor; fail).
  destruct (p c) eqn:E; [|lia]. constructor; [exact E|apply IH; lia].
Qed.

Lemma spanLen_app_ge (p : char -> bool) (w r : jsstring) :
  Forall (fun c => p c = true) w -> length w <= spanLen p (w ++ r).
Proof.
  induction 1 as [|c w Hc _ IH]; simpl; [lia|]. rewrite Hc. lia.
Qed.

Lemma spanLen_all (p : char -> bool) (s : jsstring) :
  spanLen p s = length s -> Forall (fun c => p c = true) s.
Proof.
  intros H. rewrite <- (firstn_all s). apply spanLen_firstn. lia.
Qed.

Lemma spanLen_stop (p : char -> bool) (s : jsstring) :
  spanLen p s < length s ->
  exists c r, skipn (spanLen p s) s = c :: r /\ p c = false.
Proof.
  induction s as [|c t IH]; simpl; [lia|].
  destruct (p c) eqn:E; intros H.
  - apply IH. lia.
  - now exists c, t.
Qed.

(** A failed repetition means the continuation fails after every number
    of repetitions. *)
Lemma star_None (p : char -> bool) (k : cont) (cs : list (nat * jsstring))
  (s : jsstring) (ps : nat) :
  star p k ps cs s = None ->
  forall m, m <= spanLen p s -> k (MState (ps + m) (skipn m s) cs) = None.
Proof.
  revert ps; induction s as [|c t IH]; intros ps H m Hm.
  - simpl in Hm. assert (m = 0) by lia. subst. now rewrite Nat.add_0_r.
  - simpl in H, Hm. destruct (p c).
    + destruct (star p k (S ps) cs t) eqn:E; [discriminate|].
      destruct m as [|m]; [now rewrite Nat.add_0_r|].
      rewrite Nat.add_succ_r. apply (IH (S ps) E m). lia.
    + assert (m = 0) by lia. subst. now rewrite Nat.add_0_r.
Qed.

(** A successful repetition is the result of the continuation after the
    largest number of repetitions for which it succeeds. *)
Lemma star_Some (p : char -> bool) (k : cont) (cs : list (nat * jsstring))
  (s : jsstring) (ps : nat) (r : mstate) :
  star p k ps cs s = Some r ->
  exists n, n <= spanLen p s /\
    k (MState (ps + n) (skipn n s) cs) = Some r /\
    forall m, n < m -> m <= spanLen p s ->
              k (MState (ps + m) (skipn m s) cs) = None.
Proof.
  revert ps; induction s as [|c t IH]; intros ps H.
  - exists 0. simpl in *. rewrite Nat.add_0_r. repeat split; [lia|exact H|lia].
  - simpl in H. simpl spanLen. destruct (p c).
    + destruct (star p k (S ps) cs t) as [r'|] eqn:E.
      * injection H as ->. destruct (IH _ E) as (n & Hn & Hk & Hmax).
        exists (S n). rewrite Nat.add_succ_r. repeat split; [lia|exact Hk|].
        intros [|m] H1 H2; [lia|]. rewrite Nat.add_succ_r. apply Hmax; lia.
      * exists 0. rewrite Nat.add_0_r. repeat split; [lia|exact H|].
        intros [|m] H1 H2; [lia|]. rewrite Nat.add_succ_r.
        apply (@star_None p k cs t (S ps) E m). lia.
    + exists 0. rewrite Nat.add_0_r. repeat split; [lia|exact H|lia].
Qed.

Lemma star_not_None (p : char -> bool) (k : cont) (cs : list (nat * jsstring))
  (s : jsstring) (ps m : nat) :
  m <= spanLen p s -> k (MState (ps + m) (skipn m s) cs) <> None ->
  star p k ps cs s <> None.
Proof.
  intros Hm Hk H. apply Hk. now apply (@star_None p k cs s ps H m).
Qed.

(** When the continuation accepts the longest repetition, that is the
    one taken. *)
Lemma star_greedy (p : char -> bool) (k : cont) (cs : list (nat * jsstring))
  (s : jsstring) (ps : nat) :
  k (MState (ps + spanLen p s) (skipn (spanLen p s) s) cs) <> None ->
  star p k ps cs s = k (MState (ps + spanLen p s) (skipn (spanLen p s) s) cs).
Proof.
  revert ps; induction s as [|c t IH]; intros ps H.
  - simpl. now rewrite Nat.add_0_r.
  - simpl in *. destruct (p c).
    + rewrite Nat.add_succ_r in *. rewrite (IH (S ps) H).
      cbn [skipn]. destruct (k _); [reflexivity|congruence].
    + now rewrite Nat.add_0_r.
Qed.

(** *** Leftmost search *)

Lemma search_Some (r : regex) (s : jsstring) (ps : nat) (mt : Match) :
  search r ps s = Some mt ->
  exists pre u st, s = pre ++ u /\
    rmatch r (fun st => Some st) (MState (ps + length pre) u []) = Some st /\
    groups mt = caps st.
Proof.
  revert ps; induction s as [|c t IH]; intros ps H; cbn [search] in H.
  - destruct (rmatch r _ _) as [st|] eqn:E; [|discriminate].
    inversion H; subst. exists [], [], st. simpl. rewrite Nat.add_0_r. auto.
  - destruct (rmatch r _ _) as [st|] eqn:E.
    + inversion H; subst. exists [], (c :: t), st. simpl. rewrite Nat.add_0_r. auto.
    + destruct (IH _ H) as (pre & u & st & -> & Hm & Hg).
      exists (c :: pre), u, st. simpl. rewrite Nat.add_succ_r. auto.
Qed.

Lemma search_not_None (r : regex) (pre u : jsstring) (ps : nat) :
  rmatch r (fun st => Some st) (MState (ps + length pre) u []) <> None ->
  search r ps (pre ++ u) <> None.
Proof.
  revert ps; induction pre as [|c pre IH]; intros ps H.
  - cbn [app length] in *. rewrite Nat.add_0_r in H.
    destruct u; cbn [search];
      destruct (rmatch r (fun st => Some st) _); congruence.
  - cbn [app search].
    destruct (rmatch r (fun st => Some st) (MState ps (c :: pre ++ u) []));
      [discriminate|].
    apply IH. cbn [length] in H. now rewrite Nat.add_succ_r in H.
Qed.

(** ** Annotations *)


Lemma dot_of_not_ws (c : char) : isWhiteSpace c = false -> dot c = true.
Proof.
  intros H.
  assert (T : isLineTerminator c && negb (isWhiteSpace c) = false).
  { unfold isLineTerminator, isWhiteSpace. btauto. }
  rewrite H in T. unfold dot. now destruct (isLineTerminator c).
Qed.

(** The capturing tail [(.+)] of the annotation patterns. *)
Lemma capture_rest (ps : nat) (v : jsstring) (cs : list (nat * jsstring)) :
  rmatch (RGroup 1 (RPlus dot)) (fun st => Some st) (MState ps v cs) =
  match v with
  | x :: t =>
      if dot x
      then Some (MState (S ps + spanLen dot t) (skipn (spanLen dot t) t)
                   (setCap 1 (firstn (S (spanLen dot t)) v) cs))
      else None
  | [] => None
  end.
Proof.
  cbn [rmatch rest pos caps]. destruct v as [|x t]; [reflexivity|].
  destruct (dot x); [|reflexivity].
  rewrite star_greedy by discriminate. cbn [pos rest caps].
  now replace (S ps + spanLen dot t - ps) with (S (spanLen dot t)) by lia.
Qed.

Lemma rmatch_star (p : char -> bool) (k : cont) (ps : nat) (s : jsstring)
  (cs : list (nat * jsstring)) :
  rmatch (RStar p) k (MState ps s cs) = star p k ps cs s.
Proof. reflexivity. Qed.


Lemma annotationRe_unfold (kw : jsstring) (ps : nat) (u : jsstring) :
  rmatch (annotationRe kw) (fun st => Some st) (MState ps u []) =
  if startsWith u pct then
    star isWhiteSpace
      (rmatch (lit kw)
         (rmatch (RStar isWhiteSpace)
            (rmatch (RGroup 1 (RPlus dot)) (fun st => Some st))))
      (ps + 2) [] (skipn 2 u)
  else None.
Proof.
  unfold annotationRe. cbn [seq]. cbn [rmatch]. fold (rmatch (lit (js "%%"))).
  rewrite rmatch_lit. reflexivity.
Qed.

(** An annotation pattern matches at the start of [u] exactly when [u]
    is two percent signs, white space, the keyword, white space and one
    more code unit that is not a line terminator. *)
Lemma annotation_matches_iff (kw : jsstring) (ps : nat) (u : jsstring) :
  rmatch (annotationRe kw) (fun st => Some st) (MState ps u []) <> None <->
  annotationAt kw u.
Proof.
  unfold annotationAt. rewrite annotationRe_unfold. split.
  - destruct (startsWith u pct) eqn:P; [|congruence].
    apply startsWith_app in P as [u1 ->]. change (skipn 2 (pct ++ u1)) with u1.
    intros H. destruct (star _ _ _ _ _) as [st|] eqn:E; [clear H|congruence].
    apply star_Some in E as (n & Hn & Hk & _).
    rewrite rmatch_lit in Hk.
    destruct (startsWith (skipn n u1) kw) eqn:K; [|discriminate].
    apply startsWith_app in K as [v Hv]. rewrite Hv, skipn_app_same in Hk.
    rewrite rmatch_star in Hk.
    apply star_Some in Hk as (n2 & Hn2 & Hk2 & _).
    rewrite capture_rest in Hk2.
    destruct (skipn n2 v) as [|c r] eqn:V; [discriminate|].
    destruct (dot c) eqn:D; [|discriminate].
    exists (firstn n u1), (firstn n2 v), c, r. repeat split.
    + rewrite <- V, firstn_skipn, <- Hv, firstn_skipn. reflexivity.
    + now apply spanLen_firstn.
    + now apply spanLen_firstn.
    + exact D.
  - intros (w & w2 & c & r & -> & Hw & Hw2 & D).
    rewrite startsWith_app_same. change (skipn 2 (pct ++ ?x)) with x.
    apply star_not_None with (m := length w); [now apply spanLen_app_ge|].
    rewrite skipn_app_same, rmatch_lit, startsWith_app_same, skipn_app_same.
    rewrite rmatch_star.
    apply star_not_None with (m := length w2); [now apply spanLen_app_ge|].
    rewrite skipn_app_same, capture_rest, D. discriminate.
Qed.

Lemma trim_nonws_head (c : char) (t : jsstring) :
  isWhiteSpace c = false -> trim (c :: t) <> [].
Proof.
  intros W. unfold trim. cbn [trimStart]. rewrite W, trimEnd_cons.
  destruct (trimEnd t); [rewrite W|]; discriminate.
Qed.

(** When an annotation pattern matches at the start of [u], the text it
    captures is not blank, unless nothing but white space follows the
    keyword in [u]. *)
Lemma annotation_capture (kw : jsstring) (ps : nat) (u : jsstring) (st : mstate) :
  rmatch (annotationRe kw) (fun st => Some st) (MState ps u []) = Some st ->
  exists g, getCap 1 (caps st) = Some g /\
    (trim g <> [] \/ blankAnnotation kw u).
Proof.
  unfold blankAnnotation. rewrite annotationRe_unfold.
  destruct (startsWith u pct) eqn:P; [|discriminate].
  apply startsWith_app in P as [u1 ->]. change (skipn 2 (pct ++ u1)) with u1.
  intros E. apply star_Some in E as (n & Hn & Hk & _).
  rewrite rmatch_lit in Hk.
  destruct (startsWith (skipn n u1) kw) eqn:K; [|discriminate].
  apply startsWith_app in K as [v Hv]. rewrite Hv, skipn_app_same in Hk.
  rewrite rmatch_star in Hk.
  apply star_Some in Hk as (n2 & Hn2 & Hk2 & Hmax).
  rewrite capture_rest in Hk2.
  destruct (skipn n2 v) as [|c r] eqn:V; [discriminate|].
  destruct (dot c) eqn:D; [|discriminate].
  injection Hk2 as <-. cbn [caps setCap getCap Nat.eqb].
  eexists; split; [reflexivity|].
  destruct (Nat.eq_dec (spanLen isWhiteSpace v) (length v)) as [Hall|Hlt].
  - right. exists (firstn n u1), v. repeat split.
    + rewrite <- Hv, firstn_skipn. reflexivity.
    + now apply spanLen_firstn.
    + now apply spanLen_all.
  - left. pose proof (spanLen_le isWhiteSpace v) as Hle.
    destruct (spanLen_stop isWhiteSpace v) as (c' & r' & Hs & Hc'); [lia|].
    assert (n2 = spanLen isWhiteSpace v).
    { destruct (Nat.eq_dec n2 (spanLen isWhiteSpace v)) as [|Hne]; [assumption|].
      exfalso. specialize (Hmax (spanLen isWhiteSpace v)).
      rewrite capture_rest, Hs, (dot_of_not_ws _ Hc') in Hmax.
      specialize (Hmax ltac:(lia) ltac:(lia)). discriminate Hmax. }
    subst n2. rewrite Hs in V. injection V as <- <-.
    cbn [firstn]. now apply trim_nonws_head.
Qed.

Lemma annotation_Some_iff (kw s : jsstring) :
  annotation kw s <> None <-> hasAnnotation kw s.
Proof.
  unfold annotation, exec, hasAnnotation. split.
  - destruct (search (annotationRe kw) 0 s) as [mt|] eqn:E; [intros _|congruence].
    apply search_Some in E as (pre & u & st & -> & Hm & _).
    exists pre, u. split; [reflexivity|].
    apply (annotation_matches_iff kw (0 + length pre) u). congruence.
  - intros (pre & u & -> & Hu).
    apply (annotation_matches_iff kw (0 + length pre) u) in Hu.
    apply search_not_None in Hu.
    destruct (search (annotationRe kw) 0 (pre ++ u)) as [mt|] eqn:E; [|congruence].
    apply search_Some in E as (pre' & u' & st & _ & Hm & Hg).
    apply annotation_capture in Hm as (g & Hcap & _).
    unfold group. rewrite Hg, Hcap. discriminate.
Qed.

(** An annotation that occurs in the source, and never with a blank
    tail, is extracted with a non-empty text. *)
Lemma annotation_truthy (kw s : jsstring) :
  hasAnnotation kw s ->
  (forall pre u, s = pre ++ u -> ~ blankAnnotation kw u) ->
  truthy (annotation kw s) = true.
Proof.
  intros Hhas Hnb. apply annotation_Some_iff in Hhas.
  unfold annotation, exec in *.
  destruct (search (annotationRe kw) 0 s) as [mt|] eqn:E; [|congruence].
  apply search_Some in E as (pre & u & st & -> & Hm & Hg).
  apply annotation_capture in Hm as (g & Hcap & [Hg'|Hb]).
  - unfold group. rewrite Hg, Hcap. simpl. destruct (trim g); congruence.
  - exfalso. exact (Hnb pre u eq_refl Hb).
Qed.

Lemma truthy_not_None (v : option jsstring) : truthy v = true -> v <> None.
Proof. destruct v; [discriminate|discriminate]. Qed.

Lemma hasAnnotation_app (kw s x : jsstring) :
  hasAnnotation kw s -> hasAnnotation kw (s ++ x).
Proof.
  intros (pre & u & -> & w & w2 & c & r & -> & Hw & Hw2 & D).
  exists pre, ((pct ++ w ++ kw ++ w2 ++ c :: r) ++ x). split.
  - symmetry. apply app_assoc.
  - exists w, w2, c, (r ++ x). repeat split; try assumption.
    now rewrite <- !app_assoc.
Qed.

Lemma hasAnnotation_line (kw pre tail post : jsstring) (c : char) :
  dot c = true ->
  hasAnnotation kw (pre ++ (pct ++ kw ++ [32%N] ++ c :: tail) ++ post).
Proof.
  intros D. exists pre, ((pct ++ kw ++ [32%N] ++ c :: tail) ++ post).
  split; [reflexivity|]. exists [], [32%N], c, (tail ++ post).
  repeat split; [|constructor|repeat constructor|exact D].
  cbn [app]. now rewrite <- !app_assoc.
Qed.

Lemma trimEnd_allWs (w : jsstring) : allWs w -> trimEnd w = [].
Proof.
  induction 1 as [|c w Hc _ IH]; [reflexivity|]. now rewrite trimEnd_cons, IH, Hc.
Qed.

Lemma trimEnd_app (a b : jsstring) :
  trimEnd b <> [] -> trimEnd (a ++ b) = a ++ trimEnd b.
Proof.
  intros Hb. induction a as [|c a IH]; [reflexivity|].
  cbn [app]. rewrite trimEnd_cons, IH.
  destruct (a ++ trimEnd b) eqn:E; [|reflexivity].
  apply app_eq_nil in E as [_ E]. contradiction.
Qed.

Lemma trimEnd_nonws_end (a w : jsstring) (e : char) :
  isWhiteSpace e = false -> allWs w -> trimEnd (a ++ [e] ++ w) = a ++ [e].
Proof.
  intros He Hw.
  assert (E : trimEnd ([e] ++ w) = [e]).
  { cbn [app]. now rewrite trimEnd_cons, (trimEnd_allWs Hw), He. }
  rewrite trimEnd_app; rewrite E; [reflexivity|discriminate].
Qed.

Lemma last_app_nonempty (A : Type) (a b : list A) (d : A) :
  b <> [] -> last (a ++ b) d = last b d.
Proof.
  intros Hb. induction a as [|x a IH]; [reflexivity|].
  cbn [app]. destruct (a ++ b) eqn:E.
  - apply app_eq_nil in E as [_ E]. contradiction.
  - rewrite <- IH. reflexivity.
Qed.

(** A text whose last visible code unit is not the last letter of the
    keyword has no blank annotation. *)
Lemma no_blankAnnotation (k0 s : jsstring) (e : char) :
  isWhiteSpace e = false -> last (trimEnd s) 0%N <> e ->
  forall pre u, s = pre ++ u -> ~ blankAnnotation (k0 ++ [e]) u.
Proof.
  intros He Hlast pre u -> (w & w2 & -> & Hw & Hw2). apply Hlast.
  assert (E : trimEnd (pct ++ w ++ (k0 ++ [e]) ++ w2) = (pct ++ w ++ k0) ++ [e]).
  { rewrite <- (@trimEnd_nonws_end (pct ++ w ++ k0) w2 e He Hw2).
    now rewrite <- !app_assoc. }
  rewrite trimEnd_app; rewrite E; [|now destruct (pct ++ w ++ k0)].
  rewrite app_assoc. apply last_last.
Qed.

(** ** Annotation auto-insertion *)

Lemma appended_truthy (kw k0 : jsstring) (e : char) (y z : jsstring) :
  kw = k0 ++ [e] -> isWhiteSpace e = false ->
  trimEnd z <> [] -> last (trimEnd z) 0%N <> e ->
  hasAnnotation kw (y ++ z) -> truthy (annotation kw (y ++ z)) = true.
Proof.
  intros -> He Hz Hlast Hhas. apply annotation_truthy; [exact Hhas|].
  apply no_blankAnnotation; [exact He|].
  now rewrite trimEnd_app, last_app_nonempty.
Qed.

Lemma truthy_hasAnnotation (kw s : jsstring) :
  truthy (annotation kw s) = true -> hasAnnotation kw s.
Proof. intros H. now apply annotation_Some_iff, truthy_not_None. Qed.

Lemma accTitle_split : accTitle = js "accTitl" ++ [101%N].
Proof. reflexivity. Qed.

Lemma accDescr_split : accDescr = js "accDesc" ++ [114%N].
Proof. reflexivity. Qed.

Lemma defaultTitleLine_shape :
  defaultTitleLine = pct ++ accTitle ++ [32%N] ++ 85%N :: js "ntitled Diagram".
Proof. reflexivity. Qed.

Lemma defaultDescrLine_shape :
  defaultDescrLine
  = pct ++ accDescr ++ [32%N] ++ 65%N
      :: js "uto-generated description for accessibility. Please customize.".
Proof. reflexivity. Qed.

(** After an insertion both annotations are found, with a non-empty
    text. *)
Lemma ensureMetadata_fields_truthy (src : jsstring) :
  added (ensureMetadata src) = true ->
  truthy (title (metadata (ensureMetadata src))) = true /\
  truthy (description (metadata (ensureMetadata src))) = true.
Proof.
  unfold ensureMetadata, missingLines. cbn [added metadata source].
  set (sep := if endsWith src [LF] then [] else [LF]).
  cbn [parseMermaidMetadata title description].
  destruct (truthy (annotation accTitle src)) eqn:T;
    destruct (truthy (annotation accDescr src)) eqn:D;
    cbn [negb orb app join_nl]; intros Ha; [discriminate| | |].
  - (* the description line is appended *)
    replace (src ++ sep ++ defaultDescrLine ++ [LF])
      with ((src ++ sep) ++ defaultDescrLine ++ [LF]) by now rewrite <- app_assoc.
    split.
    + eapply appended_truthy; [apply accTitle_split|try (vm_compute; congruence)..].
      rewrite <- app_assoc. now apply hasAnnotation_app, truthy_hasAnnotation.
    + eapply appended_truthy; [apply accDescr_split|try (vm_compute; congruence)..].
      rewrite defaultDescrLine_shape. now apply hasAnnotation_line.
  - (* the title line is appended *)
    replace (src ++ sep ++ defaultTitleLine ++ [LF])
      with ((src ++ sep) ++ defaultTitleLine ++ [LF]) by now rewrite <- app_assoc.
    split.
    + eapply appended_truthy; [apply accTitle_split|try (vm_compute; congruence)..].
      rewrite defaultTitleLine_shape. now apply hasAnnotation_line.
    + eapply appended_truthy; [apply accDescr_split|try (vm_compute; congruence)..].
      rewrite <- app_assoc. now apply hasAnnotation_app, truthy_hasAnnotation.
  - (* both lines are appended *)
    split.
    + replace (src ++ sep ++ (defaultTitleLine ++ LF :: defaultDescrLine) ++ [LF])
        with ((src ++ sep) ++ defaultTitleLine ++ LF :: defaultDescrLine ++ [LF])
        by now rewrite <- !app_assoc.
      eapply appended_truthy; [apply accTitle_split|try (vm_compute; congruence)..].
      rewrite defaultTitleLine_shape. now apply hasAnnotation_line.
    + replace (src ++ sep ++ (defaultTitleLine ++ LF :: defaultDescrLine) ++ [LF])
        with ((src ++ sep ++ defaultTitleLine ++ [LF]) ++ defaultDescrLine ++ [LF])
        by now rewrite <- !app_assoc.
      eapply appended_truthy; [apply accDescr_split|try (vm_compute; congruence)..].
      rewrite defaultDescrLine_shape. now apply hasAnnotation_line.
Qed.

(** Whether or not anything was appended, the metadata returned has both
    fields, each with a non-empty text. *)
Lemma ensureMetadata_truthy (src : jsstring) :
  truthy (title (metadata (ensureMetadata src))) = true /\
  truthy (description (metadata (ensureMetadata src))) = true.
Proof.
  destruct (added (ensureMetadata src)) eqn:A.
  - now apply ensureMetadata_fields_truthy.
  - revert A. unfold ensureMetadata. cbn [added metadata source].
    cbn [parseMermaidMetadata title description].
    destruct (truthy (annotation accTitle src)) eqn:T;
      destruct (truthy (annotation accDescr src)) eqn:D;
      cbn [negb orb]; intros A; try discriminate.
    cbn [title description]. now rewrite T, D.
Qed.

Lemma endsWith_LF (s : jsstring) :
  endsWith s [LF] = true -> exists s0, s = s0 ++ [LF].
Proof.
  unfold endsWith. cbn [rev app]. intros H. apply startsWith_app in H as [r Hr].
  exists (rev r). apply (f_equal (@rev _)) in Hr. rewrite rev_involutive in Hr.
  now rewrite Hr.
Qed.




(** C10: applied to the source it returned, [ensureMetadata] appends
    nothing: it returns that source and the same metadata again, with
    [added] false. *)
Theorem ensureMetadata_idempotent (src : jsstring) :
  ensureMetadata (source (ensureMetadata src))
  = MkEnsured (source (ensureMetadata src)) (metadata (ensureMetadata src)) false.
Proof.
  destruct (ensureMetadata_truthy src) as [Ht Hd].
  assert (E : metadata (ensureMetadata src)
              = parseMermaidMetadata (source (ensureMetadata src))) by reflexivity.
  rewrite E in *. unfold ensureMetadata at 1.
  rewrite Ht, Hd. reflexivity.
Qed.

Lemma fold_left_inv (A B : Type) (f : A -> B -> A) (P : A -> Prop) (l : list B) (a : A) :
  P a -> (forall a b, P a -> In b l -> P (f a b)) -> P (fold_left f l a).
Proof.
  revert a. induction l as [|b l IH]; intros a Ha H; [exact Ha|].
  cbn [fold_left]. apply IH.
  - apply H; [exact Ha|now left].
  - intros a' b' Ha' Hb'. apply H; [exact Ha'|now right].
Qed.

(** ** Numbers *)

(** The Number values for a tenth, for the first integer that no double
    holds, for the largest double, and for the numbers half a step and a
    whole step beyond it. *)
Example numberValue_samples :
  numberValue (1 # 10) = Finite (3602879701896397 # 36028797018963968) /\
  numberValue (inject_Z (2 ^ 53 + 1)) = Finite (inject_Z (2 ^ 53)) /\
  numberValue (inject_Z (2 ^ 1024 - 2 ^ 971)) = Finite (inject_Z (2 ^ 1024 - 2 ^ 971)) /\
  numberValue (inject_Z (2 ^ 1024 - 2 ^ 970 - 1)) = Finite (inject_Z (2 ^ 1024 - 2 ^ 971)) /\
  numberValue (inject_Z (2 ^ 1024 - 2 ^ 970)) = PosInfinity /\
  numberValue (1 # 2 ^ 1075) = Finite 0 /\
  numberValue (3 # 2 ^ 1075) = Finite (1 # 2 ^ 1073).
Proof. vm_compute. repeat split; reflexivity. Qed.


Lemma pow2_pos (k : Z) : (0 < pow2 k)%Q.
Proof. unfold pow2. now apply Qpower_0_lt. Qed.

Lemma pow2_add (a b : Z) : (pow2 (a + b) == pow2 a * pow2 b)%Q.
Proof. unfold pow2. now apply Qpower_plus. Qed.

Lemma pow2_Z (k : Z) : (0 <= k)%Z -> (pow2 k == inject_Z (2 ^ k))%Q.
Proof. intros H. unfold pow2. now rewrite Zpower_Qpower. Qed.

Lemma pow2_ge_1 (k : Z) : (0 <= k)%Z -> (1 <= pow2 k)%Q.
Proof.
  intros H. rewrite (pow2_Z H). change 1%Q with (inject_Z 1). rewrite <- Zle_Qle.
  assert (0 < 2 ^ k)%Z by (apply Z.pow_pos_nonneg; lia). lia.
Qed.

Lemma pow2_le (a b : Z) : (a <= b)%Z -> (pow2 a <= pow2 b)%Q.
Proof.
  intros H. replace b with (a + (b - a))%Z by lia. rewrite pow2_add.
  pose proof (pow2_pos a). pose proof (@pow2_ge_1 (b - a) ltac:(lia)). nra.
Qed.

Lemma pow2_succ (a : Z) : (pow2 (a + 1) == 2 * pow2 a)%Q.
Proof. rewrite pow2_add. change (pow2 1) with 2%Q. ring. Qed.

Lemma pow2_pred (a : Z) : (pow2 (a - 1) == pow2 a / 2)%Q.
Proof.
  pose proof (pow2_succ (a - 1)) as H. replace (a - 1 + 1)%Z with a in H by lia.
  rewrite H. field.
Qed.

(** [ilog2] is the binary logarithm rounded down. *)
Lemma ilog2_spec (a : Q) :
  (0 < a)%Q -> (pow2 (ilog2 a) <= a < pow2 (ilog2 a + 1))%Q.
Proof.
  intros Ha. unfold ilog2. destruct a as [n d]. cbn [Qnum Qden].
  assert (Hn : (0 < n)%Z) by (unfold Qlt in Ha; cbn in Ha; lia).
  set (ln := Z.log2 n). set (ld := Z.log2 (Z.pos d)).
  assert (Ln : (2 ^ ln <= n < 2 ^ (ln + 1))%Z).
  { pose proof (Z.log2_spec n Hn). unfold ln. now rewrite <- Z.add_1_r in H. }
  assert (Ld : (2 ^ ld <= Z.pos d < 2 ^ (ld + 1))%Z).
  { pose proof (Z.log2_spec (Z.pos d) ltac:(lia)). unfold ld. now rewrite <- Z.add_1_r in H. }
  assert (N0 : (0 <= ln)%Z) by apply Z.log2_nonneg.
  assert (D0 : (0 <= ld)%Z) by apply Z.log2_nonneg.
  assert (Q1 : (n # d == inject_Z n / inject_Z (Z.pos d))%Q) by apply Qmake_Qdiv.
  assert (Dp : (0 < inject_Z (Z.pos d))%Q) by (change 0%Q with (inject_Z 0); rewrite <- Zlt_Qlt; lia).
  assert (Pn : (pow2 ln <= inject_Z n)%Q) by (rewrite (pow2_Z N0), <- Zle_Qle; lia).
  assert (Pn' : (inject_Z n < pow2 (ln + 1))%Q)
    by (rewrite (@pow2_Z (ln + 1) ltac:(lia)), <- Zlt_Qlt; lia).
  assert (Pd : (pow2 ld <= inject_Z (Z.pos d))%Q) by (rewrite (pow2_Z D0), <- Zle_Qle; lia).
  assert (Pd' : (inject_Z (Z.pos d) < pow2 (ld + 1))%Q)
    by (rewrite (@pow2_Z (ld + 1) ltac:(lia)), <- Zlt_Qlt; lia).
  assert (K : (pow2 ln == pow2 (ln - ld) * pow2 ld)%Q).
  { rewrite <- pow2_add. now replace (ln - ld + ld)%Z with ln by lia. }
  rewrite pow2_succ in Pn', Pd'.
  pose proof (pow2_pos (ln - ld)) as P0. pose proof (pow2_pos ld) as P1.
  set (A := inject_Z n) in *. set (D := inject_Z (Z.pos d)) in *.
  set (p := pow2 (ln - ld)) in *. set (q := pow2 ld) in *. set (pn := pow2 ln) in *.
  assert (Lo2 : (p * D <= 2 * A)%Q).
  { assert (p * D <= p * (2 * q))%Q by (apply Qmult_le_l; lra). lra. }
  assert (Lo : (p / 2 * D <= A)%Q).
  { assert (E2 : (p / 2 * D == (p * D) / 2)%Q) by field. rewrite E2.
    apply Qle_shift_div_r; lra. }
  assert (Hi : (A < 2 * p * D)%Q).
  { assert (p * q <= p * D)%Q by (apply Qmult_le_l; lra). lra. }
  destruct (Qle_bool p (n # d)) eqn:E.
  - apply Qle_bool_iff in E. split; [exact E|].
    rewrite pow2_succ, Q1. apply Qlt_shift_div_r; [exact Dp|]. exact Hi.
  - assert (E' : (n # d < p)%Q).
    { apply Qnot_le_lt. intros H. apply Qle_bool_iff in H. congruence. }
    replace (ln - ld - 1 + 1)%Z with (ln - ld)%Z by lia. split; [|exact E'].
    rewrite pow2_pred, Q1. apply Qle_shift_div_l; [exact Dp|]. exact Lo.
Qed.

Lemma roundHalfEven_near (x : Q) :
  (x - (1 # 2) <= inject_Z (roundHalfEven x) <= x + (1 # 2))%Q.
Proof.
  unfold roundHalfEven.
  pose proof (Qfloor_le x) as Lo. pose proof (Qlt_floor x) as Hi.
  rewrite inject_Z_plus in Hi. change (inject_Z 1) with 1%Q in Hi.
  destruct (Qcompare_spec (x - inject_Z (Qfloor x)) (1 # 2)) as [E|E|E].
  - destruct (Z.even (Qfloor x)); [|rewrite inject_Z_plus; change (inject_Z 1) with 1%Q];
      split; lra.
  - split; lra.
  - rewrite inject_Z_plus. change (inject_Z 1) with 1%Q. split; lra.
Qed.

Lemma roundHalfEven_integer (x : Q) (z : Z) :
  (x == inject_Z z)%Q -> roundHalfEven x = z.
Proof.
  intros E. unfold roundHalfEven.
  assert (F : Qfloor x = z) by (rewrite E; apply Qfloor_Z).
  rewrite F.
  destruct (Qcompare_spec (x - inject_Z z) (1 # 2)) as [H|H|H]; try reflexivity; lra.
Qed.

Lemma quantum_cases (a : Q) :
  (0 < a)%Q ->
  (quantum a = (-1074)%Z) \/ (pow2 (quantum a - 1) <= ulp * a)%Q.
Proof.
  intros Ha. unfold quantum.
  destruct (Z.max_spec (ilog2 a - 52) (-1074)) as [[_ ->]|[_ ->]]; [now left|right].
  destruct (ilog2_spec Ha) as [L _].
  replace (ilog2 a - 52 - 1)%Z with (-53 + ilog2 a)%Z by lia.
  rewrite pow2_add. unfold ulp. apply Qmult_le_l; [apply pow2_pos|exact L].
Qed.

Lemma roundPos_near (a : Q) :
  (0 < a)%Q -> (Qabs (roundPos a - a) <= pow2 (quantum a - 1))%Q.
Proof.
  intros Ha. unfold roundPos. set (e := quantum a).
  pose proof (pow2_pos e) as Pe.
  pose proof (roundHalfEven_near (a / pow2 e)) as [Lo Hi].
  set (m := inject_Z (roundHalfEven (a / pow2 e))) in *.
  assert (E : (a / pow2 e * pow2 e == a)%Q) by (field; lra).
  set (t := (a / pow2 e)%Q) in *. set (P := pow2 e) in *.
  assert (H1 : ((t - (1 # 2)) * P <= m * P)%Q) by (apply Qmult_le_compat_r; lra).
  assert (H2 : (m * P <= (t + (1 # 2)) * P)%Q) by (apply Qmult_le_compat_r; lra).
  assert (R1 : ((t - (1 # 2)) * P == a - P / 2)%Q) by (rewrite <- E; field).
  assert (R2 : ((t + (1 # 2)) * P == a + P / 2)%Q) by (rewrite <- E; field).
  rewrite R1 in H1. rewrite R2 in H2.
  rewrite pow2_pred. fold P. apply Qabs_Qle_condition. split; lra.
Qed.

Lemma roundPos_error (a : Q) :
  (0 < a)%Q -> (Qabs (roundPos a - a) <= ulp * a + tiny)%Q.
Proof.
  intros Ha. pose proof (roundPos_near Ha) as H.
  pose proof (pow2_pos (-53)). pose proof (pow2_pos (-1075)).
  destruct (quantum_cases Ha) as [E|E].
  - rewrite E in H. change (pow2 (-1074 - 1)) with tiny in H. unfold ulp, tiny in *. nra.
  - unfold ulp, tiny in *. lra.
Qed.


Lemma roundPos_grid_error (a : Q) :
  (0 < a)%Q -> onGrid a -> (Qabs (roundPos a - a) <= ulp * a)%Q.
Proof.
  intros Ha [k Hk]. destruct (quantum_cases Ha) as [E|E].
  - unfold roundPos. rewrite E.
    pose proof (pow2_pos (-1074)) as P.
    assert (I : (a / pow2 (-1074) == inject_Z k)%Q) by (rewrite Hk; field; lra).
    rewrite (roundHalfEven_integer I), <- Hk.
    assert (Z0 : (a - a == 0)%Q) by ring. rewrite Z0. cbn [Qabs Z.abs].
    pose proof (pow2_pos (-53)). unfold ulp. nra.
  - pose proof (roundPos_near Ha). lra.
Qed.

Lemma roundPos_onGrid (a : Q) : onGrid (roundPos a).
Proof.
  unfold roundPos. set (m := roundHalfEven _).
  assert (H : (-1074 <= quantum a)%Z) by (unfold quantum; lia).
  exists (m * 2 ^ (quantum a + 1074))%Z.
  rewrite inject_Z_mult, <- (@pow2_Z (quantum a + 1074) ltac:(lia)).
  rewrite <- Qmult_assoc, <- pow2_add.
  now replace (quantum a + 1074 + -1074)%Z with (quantum a) by lia.
Qed.

Lemma roundPos_nonneg (a : Q) : (0 < a)%Q -> (0 <= roundPos a)%Q.
Proof.
  intros Ha. unfold roundPos. pose proof (pow2_pos (quantum a)) as P.
  pose proof (roundHalfEven_near (a / pow2 (quantum a))) as [Lo _].
  assert (D : (0 < a / pow2 (quantum a))%Q) by (apply Qlt_shift_div_l; lra).
  set (m := roundHalfEven _) in *.
  assert (M : (0 <= m)%Z).
  { destruct (Z.lt_ge_cases m 0) as [N|N]; [|exact N]. exfalso.
    assert (inject_Z m <= inject_Z (-1))%Q by (rewrite <- Zle_Qle; lia).
    change (inject_Z (-1)) with (-1)%Q in H. lra. }
  assert (0 <= inject_Z m)%Q by (change 0%Q with (inject_Z 0); now rewrite <- Zle_Qle).
  nra.
Qed.

Lemma Qabs_pos_eq (x : Q) : (0 < x)%Q -> Qabs x = x.
Proof.
  destruct x as [n d]. unfold Qlt. cbn. intros H. unfold Qabs. f_equal.
  apply Z.abs_eq. lia.
Qed.

Lemma Qabs_neg_eq (x : Q) : (x < 0)%Q -> Qabs x = (- x)%Q.
Proof.
  destruct x as [n d]. unfold Qlt. cbn. intros H. unfold Qabs, Qopp. cbn. f_equal.
  apply Z.abs_neq. lia.
Qed.

(** What [numberValue] returns, by the sign of its argument. *)
Lemma numberValue_zero (x : Q) : (x == 0)%Q -> numberValue x = Finite 0.
Proof. intros H. unfold numberValue. apply Qeq_bool_iff in H. now rewrite H. Qed.

Lemma numberValue_pos (x : Q) :
  (0 < x)%Q ->
  (numberValue x = PosInfinity /\ (pow2 1024 <= roundPos x)%Q) \/
  (exists y, numberValue x = Finite y /\ (y == roundPos x)%Q /\
             (roundPos x < pow2 1024)%Q).
Proof.
  intros H. unfold numberValue.
  destruct (Qeq_bool x 0) eqn:Z; [apply Qeq_bool_iff in Z; lra|].
  rewrite (Qabs_pos_eq H).
  assert (P : Qle_bool 0 x = true) by (apply Qle_bool_iff; lra). rewrite P.
  destruct (Qle_bool (pow2 1024) (roundPos x)) eqn:O.
  - left. apply Qle_bool_iff in O. auto.
  - right. eexists. split; [reflexivity|]. split; [apply Qred_correct|].
    apply Qnot_le_lt. intros C. apply Qle_bool_iff in C. congruence.
Qed.

Lemma numberValue_neg (x : Q) :
  (x < 0)%Q ->
  (numberValue x = NegInfinity /\ (pow2 1024 <= roundPos (- x))%Q) \/
  (exists y, numberValue x = Finite y /\ (y == - roundPos (- x))%Q /\
             (roundPos (- x) < pow2 1024)%Q).
Proof.
  intros H. unfold numberValue.
  destruct (Qeq_bool x 0) eqn:Z; [apply Qeq_bool_iff in Z; lra|].
  rewrite (Qabs_neg_eq H).
  assert (P : Qle_bool 0 x = false).
  { destruct (Qle_bool 0 x) eqn:E; [|reflexivity]. apply Qle_bool_iff in E. lra. }
  rewrite P.
  destruct (Qle_bool (pow2 1024) (roundPos (- x))) eqn:O.
  - left. apply Qle_bool_iff in O. auto.
  - right. eexists. split; [reflexivity|]. split; [apply Qred_correct|].
    apply Qnot_le_lt. intros C. apply Qle_bool_iff in C. congruence.
Qed.

Lemma Q_sign_cases (x : Q) : (x < 0)%Q \/ (x == 0)%Q \/ (0 < x)%Q.
Proof.
  destruct (Q_dec x 0) as [[H|H]|H]; auto.
Qed.

Lemma onGrid_zero : onGrid 0.
Proof. exists 0%Z. ring. Qed.

Lemma onGrid_opp (x : Q) : onGrid x -> onGrid (- x).
Proof. intros [k H]. exists (- k)%Z. rewrite inject_Z_opp, H. ring. Qed.

Lemma onGrid_plus (x y : Q) : onGrid x -> onGrid y -> onGrid (x + y).
Proof.
  intros [k H] [l I]. exists (k + l)%Z. rewrite inject_Z_plus, H, I. ring.
Qed.

Lemma onGrid_eq (x y : Q) : (x == y)%Q -> onGrid x -> onGrid y.
Proof. intros E [k H]. exists k. now rewrite <- E. Qed.

(** The error of one rounding. *)
Lemma numberValue_error (x y : Q) :
  numberValue x = Finite y -> (Qabs (y - x) <= ulp * Qabs x + tiny)%Q.
Proof.
  intros H. pose proof (pow2_pos (-53)) as U. pose proof (pow2_pos (-1075)) as T.
  fold ulp in U. fold tiny in T.
  destruct (Q_sign_cases x) as [N|[Z|P]].
  - destruct (numberValue_neg N) as [[E _]|(y' & E & Ey & _)]; [congruence|].
    assert (y' = y) by congruence. subst y'.
    assert (P : (0 < - x)%Q) by lra. pose proof (roundPos_error P) as R.
    rewrite (Qabs_neg_eq N).
    apply Qabs_Qle_condition in R. apply Qabs_Qle_condition. split; lra.
  - rewrite (numberValue_zero Z) in H. injection H as <-.
    assert (E : (0 - x == 0)%Q) by lra. rewrite E, Z. cbn [Qabs Z.abs]. lra.
  - destruct (numberValue_pos P) as [[E _]|(y' & E & Ey & _)]; [congruence|].
    assert (y' = y) by congruence. subst y'.
    pose proof (roundPos_error P) as R. rewrite (Qabs_pos_eq P).
    apply Qabs_Qle_condition in R. apply Qabs_Qle_condition. split; lra.
Qed.

(** The sum and the difference of two doubles lie on the grid, where
    rounding has a relative error only. *)
Lemma numberValue_grid_error (x y : Q) :
  onGrid x -> numberValue x = Finite y -> (Qabs (y - x) <= ulp * Qabs x)%Q.
Proof.
  intros G H. pose proof (pow2_pos (-53)) as U. fold ulp in U.
  destruct (Q_sign_cases x) as [N|[Z|P]].
  - destruct (numberValue_neg N) as [[E _]|(y' & E & Ey & _)]; [congruence|].
    assert (y' = y) by congruence. subst y'.
    assert (P : (0 < - x)%Q) by lra.
    pose proof (roundPos_grid_error P (onGrid_opp G)) as R.
    rewrite (Qabs_neg_eq N).
    apply Qabs_Qle_condition in R. apply Qabs_Qle_condition. split; lra.
  - rewrite (numberValue_zero Z) in H. injection H as <-.
    assert (E : (0 - x == 0)%Q) by lra. rewrite E, Z. cbn [Qabs Z.abs]. lra.
  - destruct (numberValue_pos P) as [[E _]|(y' & E & Ey & _)]; [congruence|].
    assert (y' = y) by congruence. subst y'.
    pose proof (roundPos_grid_error P G) as R. rewrite (Qabs_pos_eq P).
    apply Qabs_Qle_condition in R. apply Qabs_Qle_condition. split; lra.
Qed.

Lemma numberValue_onGrid (x y : Q) : numberValue x = Finite y -> onGrid y.
Proof.
  intros H. destruct (Q_sign_cases x) as [N|[Z|P]].
  - destruct (numberValue_neg N) as [[E _]|(y' & E & Ey & _)]; [congruence|].
    assert (y' = y) by congruence. subst y'.
    apply (@onGrid_eq (- roundPos (- x))); [now symmetry|].
    apply onGrid_opp, roundPos_onGrid.
  - rewrite (numberValue_zero Z) in H. injection H as <-. apply onGrid_zero.
  - destruct (numberValue_pos P) as [[E _]|(y' & E & Ey & _)]; [congruence|].
    assert (y' = y) by congruence. subst y'.
    apply (@onGrid_eq (roundPos x)); [now symmetry|apply roundPos_onGrid].
Qed.

Lemma numberValue_sign (x y : Q) :
  numberValue x = Finite y ->
  ((0 <= x)%Q -> (0 <= y)%Q) /\ ((x <= 0)%Q -> (y <= 0)%Q).
Proof.
  intros H. destruct (Q_sign_cases x) as [N|[Z|P]].
  - destruct (numberValue_neg N) as [[E _]|(y' & E & Ey & _)]; [congruence|].
    assert (y' = y) by congruence. subst y'.
    assert (P : (0 < - x)%Q) by lra. pose proof (roundPos_nonneg P). split; lra.
  - rewrite (numberValue_zero Z) in H. injection H as <-. split; lra.
  - destruct (numberValue_pos P) as [[E _]|(y' & E & Ey & _)]; [congruence|].
    assert (y' = y) by congruence. subst y'.
    pose proof (roundPos_nonneg P). split; lra.
Qed.

(** A number that is not negative rounds to a finite double that is not
    negative, or to infinity. *)
Lemma numberValue_nonneg (x : Q) :
  (0 <= x)%Q ->
  numberValue x = PosInfinity \/ exists y, numberValue x = Finite y /\ (0 <= y)%Q.
Proof.
  intros H. destruct (Q_sign_cases x) as [N|[Z|P]]; [lra| |].
  - right. exists 0%Q. split; [now apply numberValue_zero|lra].
  - destruct (numberValue_pos P) as [[E _]|(y & E & Ey & _)]; [now left|right].
    exists y. split; [exact E|]. pose proof (roundPos_nonneg P). lra.
Qed.

(** No overflow below [2^1023]. *)
Lemma numberValue_finite (x : Q) :
  (Qabs x <= pow2 1023)%Q -> exists y, numberValue x = Finite y.
Proof.
  intros H.
  assert (B : forall a, (0 < a)%Q -> (a <= pow2 1023)%Q -> (roundPos a < pow2 1024)%Q).
  { intros a Ha Hb. pose proof (roundPos_error Ha) as R.
    apply Qabs_Qle_condition in R.
    assert (U : (ulp <= 1 # 2)%Q) by (vm_compute; discriminate).
    assert (T : (tiny <= 1 # 4)%Q) by (vm_compute; discriminate).
    assert (P : (pow2 1024 == 2 * pow2 1023)%Q) by (rewrite <- pow2_succ; reflexivity).
    assert (O : (1 <= pow2 1023)%Q) by (apply pow2_ge_1; lia).
    assert (ulp * a <= (1 # 2) * a)%Q by (apply Qmult_le_compat_r; lra).
    lra. }
  destruct (Q_sign_cases x) as [N|[Z|P]].
  - rewrite (Qabs_neg_eq N) in H.
    destruct (numberValue_neg N) as [[_ O]|(y & E & _)]; [|eauto].
    assert (P : (0 < - x)%Q) by lra. pose proof (B _ P H). lra.
  - exists 0%Q. now apply numberValue_zero.
  - rewrite (Qabs_pos_eq P) in H.
    destruct (numberValue_pos P) as [[_ O]|(y & E & _)]; [|eauto].
    pose proof (B _ P H). lra.
Qed.
(** *** The Number value does not depend on how the rational is written *)






(** ** The pie narrative *)

(** *** The values *)

Lemma numeral_nonneg (s : jsstring) : (0 <= Pie.numeral s)%Q.
Proof.
  unfold Pie.numeral.
  destruct (Pie.dropDigits s) as [|c f].
  - change 0%Q with (inject_Z 0). rewrite <- Zle_Qle. lia.
  - destruct (c =? 46)%N eqn:E.
    + apply N.eqb_eq in E. subst c. unfold Qle. cbn. lia.
    + assert (G : forall A (x y : A) (c : N), (c =? 46)%N = false ->
                  match c with 46%N => x | _ => y end = y).
      { intros A x y c0 H. destruct c0 as [|p]; [reflexivity|].
        do 6 (destruct p as [p|p|]; try reflexivity). discriminate. }
      rewrite (G _ _ _ _ E).
      change 0%Q with (inject_Z 0). rewrite <- Zle_Qle. lia.
Qed.

Lemma numberValue_unsigned (x : Q) : (0 <= x)%Q -> unsignedValue (numberValue x).
Proof.
  intros H. destruct (numberValue_nonneg H) as [E|(y & E & Hy)]; [now left|right].
  exists y. split; [exact E|]. split; [exact Hy|]. now apply numberValue_onGrid in E.
Qed.

Lemma parseFloat_unsigned (s : jsstring) : unsignedValue (Pie.parseFloat s).
Proof. apply numberValue_unsigned, numeral_nonneg. Qed.

Lemma segments_unsigned (src : jsstring) :
  Forall (fun it => unsignedValue (Pie.value it)) (Pie.segments src).
Proof.
  unfold Pie.segments.
  apply (@fold_left_inv _ _ Pie.parseLine
           (Forall (fun it => unsignedValue (Pie.value it)))); [constructor|].
  intros data line H _. unfold Pie.parseLine.
  destruct (exec Pie.dataRe (trim line)); [|exact H].
  apply Forall_app. split; [exact H|]. constructor; [|constructor].
  apply parseFloat_unsigned.
Qed.

(** *** The order of the segments *)

(** The difference of two doubles has the sign of their exact
    difference. *)
Lemma numSub_sign (x y : Q) :
  onGrid x -> onGrid y ->
  numGt (numSub (Finite y) (Finite x)) (Finite 0) = negb (Qle_bool y x).
Proof.
  intros Gx Gy. unfold numSub, numNeg, numAdd.
  assert (G : onGrid (y + - x)) by (apply onGrid_plus; [exact Gy|now apply onGrid_opp]).
  pose proof (pow2_pos (-53)) as U. fold ulp in U.
  assert (U1 : (ulp < 1)%Q) by (vm_compute; reflexivity).
  destruct (Qle_bool y x) eqn:L; cbn [negb].
  - apply Qle_bool_iff in L.
    destruct (numberValue (y + - x)) as [z| | |] eqn:E; cbn [numGt]; try reflexivity.
    + destruct (@numberValue_sign _ _ E) as [_ S].
      assert (Hz : (z <= 0)%Q) by (apply S; lra).
      apply Qle_bool_iff in Hz. now rewrite Hz.
    + exfalso. destruct (Q_sign_cases (y + - x)) as [N|[Z|P]]; [| |lra].
      * destruct (numberValue_neg N) as [[E' _]|(z & E' & _)]; congruence.
      * rewrite (numberValue_zero Z) in E. discriminate.
  - assert (P : (0 < y + - x)%Q).
    { apply Qnot_le_lt. intros C. assert (y <= x)%Q by lra.
      apply Qle_bool_iff in H. congruence. }
    destruct (numberValue_pos P) as [[E _]|(z & E & _)]; rewrite E; cbn [numGt];
      [reflexivity|].
    pose proof (numberValue_grid_error G E) as R. rewrite (Qabs_pos_eq P) in R.
    apply Qabs_Qle_condition in R.
    assert (M : (ulp * (y + - x) < y + - x)%Q).
    { assert (ulp * (y + - x) < 1 * (y + - x))%Q by (apply Qmult_lt_compat_r; lra). lra. }
    destruct (Qle_bool z 0) eqn:Z; [|reflexivity].
    apply Qle_bool_iff in Z. lra.
Qed.

Lemma compare_false (a b : Pie.item) :
  unsignedValue (Pie.value a) -> unsignedValue (Pie.value b) ->
  numGt (Pie.compare a b) (Finite 0) = false -> descending a b.
Proof.
  unfold Pie.compare, descending.
  intros [->|(x & -> & _ & Gx)] [->|(y & -> & _ & Gy)];
    [cbn; tauto|cbn; tauto|cbn; discriminate|].
  rewrite (numSub_sign Gx Gy). intros H. apply negb_false_iff, Qle_bool_iff in H. exact H.
Qed.

Lemma compare_true (a b : Pie.item) :
  unsignedValue (Pie.value a) -> unsignedValue (Pie.value b) ->
  numGt (Pie.compare a b) (Finite 0) = true ->
  descending b a /\ ~ descending a b.
Proof.
  unfold Pie.compare, descending.
  intros [->|(x & -> & _ & Gx)] [->|(y & -> & _ & Gy)];
    [cbn; discriminate|cbn; discriminate|cbn; tauto|].
  rewrite (numSub_sign Gx Gy). intros H. apply negb_true_iff in H. cbn [numLe].
  assert (N : ~ (y <= x)%Q) by (intros C; apply Qle_bool_iff in C; congruence).
  split; [lra|exact N].
Qed.

Lemma numLe_trans (a b c : number) : numLe a b -> numLe b c -> numLe a c.
Proof.
  destruct a, b, c; cbn; try tauto. apply Qle_trans.
Qed.

Lemma pie_insert_perm (x : Pie.item) (l : list Pie.item) :
  Permutation (Pie.insert x l) (x :: l).
Proof.
  induction l as [|y l IH]; simpl; [reflexivity|].
  destruct (numGt (Pie.compare x y) (Finite 0)); [|reflexivity].
  rewrite IH. apply perm_swap.
Qed.

Lemma pie_sort_perm (l : list Pie.item) : Permutation (Pie.sort l) l.
Proof.
  induction l as [|x l IH]; simpl; [reflexivity|].
  rewrite pie_insert_perm. now constructor.
Qed.

Lemma pie_insert_sorted (x : Pie.item) (l : list Pie.item) :
  unsignedValue (Pie.value x) ->
  Forall (fun it => unsignedValue (Pie.value it)) l ->
  StronglySorted descending l -> StronglySorted descending (Pie.insert x l).
Proof.
  intros Ux Ul. induction 1 as [|y l Hs IH Hy]; simpl.
  - repeat constructor.
  - inversion Ul as [|? ? Uy Ul']; subst.
    destruct (numGt (Pie.compare x y) (Finite 0)) eqn:E.
    + apply (@compare_true x y Ux Uy) in E as [Hyx _].
      constructor; [now apply IH|].
      eapply Permutation_Forall; [symmetry; apply pie_insert_perm|].
      now constructor.
    + apply (@compare_false x y Ux Uy) in E.
      constructor; [now constructor|]. constructor; [exact E|].
      eapply Forall_impl; [|exact Hy]. intros z Hz. unfold descending in *.
      now apply numLe_trans with (Pie.value y).
Qed.

Lemma pie_sort_sorted (l : list Pie.item) :
  Forall (fun it => unsignedValue (Pie.value it)) l ->
  StronglySorted descending (Pie.sort l).
Proof.
  induction 1 as [|x l Hx Hl IH]; simpl; [constructor|].
  apply pie_insert_sorted; [exact Hx| |exact IH].
  eapply Permutation_Forall; [symmetry; apply pie_sort_perm|exact Hl].
Qed.

Lemma sameValue_le (z a b : Pie.item) :
  sameValue z a = true -> sameValue z b = true -> descending a b.
Proof.
  unfold sameValue, descending.
  destruct (Pie.value z), (Pie.value a), (Pie.value b); cbn; try discriminate; try tauto.
  intros A B. apply Qeq_bool_iff in A, B. lra.
Qed.

(** Segments of the same value keep their order. *)
Lemma pie_insert_stable (z x : Pie.item) (l : list Pie.item) :
  unsignedValue (Pie.value x) ->
  Forall (fun it => unsignedValue (Pie.value it)) l ->
  filter (sameValue z) (Pie.insert x l) = filter (sameValue z) (x :: l).
Proof.
  intros Ux. induction 1 as [|y l Uy Ul IH]; [reflexivity|].
  cbn [Pie.insert]. destruct (numGt (Pie.compare x y) (Finite 0)) eqn:E; [|reflexivity].
  apply (@compare_true x y Ux Uy) in E as [_ N].
  cbn [filter] in *. rewrite IH.
  destruct (sameValue z x) eqn:Sx, (sameValue z y) eqn:Sy; try reflexivity.
  exfalso. apply N. exact (@sameValue_le z x y Sx Sy).
Qed.

Lemma pie_sort_stable (z : Pie.item) (l : list Pie.item) :
  Forall (fun it => unsignedValue (Pie.value it)) l ->
  filter (sameValue z) (Pie.sort l) = filter (sameValue z) l.
Proof.
  induction 1 as [|x l Hx Hl IH]; [reflexivity|]. cbn [Pie.sort].
  rewrite pie_insert_stable; [cbn [filter]; now rewrite IH|exact Hx|].
  eapply Permutation_Forall; [symmetry; apply pie_sort_perm|exact Hl].
Qed.

(** *** The total *)

Lemma numAdd_unsigned (a b : number) :
  unsignedValue a -> unsignedValue b -> unsignedValue (numAdd a b).
Proof.
  intros [->|(x & -> & Hx & _)] [->|(y & -> & Hy & _)]; try (left; reflexivity).
  cbn [numAdd]. apply numberValue_unsigned. lra.
Qed.

Lemma total_from_unsigned (l : list Pie.item) (a : number) :
  unsignedValue a -> Forall (fun it => unsignedValue (Pie.value it)) l ->
  unsignedValue (fold_left (fun t it => numAdd t (Pie.value it)) l a).
Proof.
  intros Ha H. revert a Ha. induction H as [|it l Hit Hl IH]; intros a Ha; [exact Ha|].
  cbn [fold_left]. apply IH. now apply numAdd_unsigned.
Qed.

Lemma unsigned_zero : unsignedValue (Finite 0).
Proof. right. exists 0%Q. split; [reflexivity|]. split; [lra|apply onGrid_zero]. Qed.

Lemma total_unsigned (src : jsstring) : unsignedValue (Pie.total (Pie.segments src)).
Proof. apply total_from_unsigned; [apply unsigned_zero|apply segments_unsigned]. Qed.

(** A total that is finite was finite all along. *)
Lemma fold_finite_inv (l : list Pie.item) (a : number) (T : Q) :
  fold_left (fun t it => numAdd t (Pie.value it)) l a = Finite T ->
  exists x, a = Finite x.
Proof.
  revert a. induction l as [|it l IH]; intros a H; cbn [fold_left] in H; [eauto|].
  apply IH in H as [x H]. destruct a as [q| | |]; [eauto|..];
    destruct (Pie.value it); discriminate.
Qed.

Lemma Qabs_le_iff (x y : Q) : (Qabs x <= y)%Q <-> (- y <= x <= y)%Q.
Proof. apply Qabs_Qle_condition. Qed.

Lemma inject_nat_succ (n : nat) :
  (inject_Z (Z.of_nat (S n)) == inject_Z (Z.of_nat n) + 1)%Q.
Proof. rewrite Nat2Z.inj_succ, <- Z.add_1_r, inject_Z_plus. reflexivity. Qed.

Lemma inject_nat_nonneg (n : nat) : (0 <= inject_Z (Z.of_nat n))%Q.
Proof. change 0%Q with (inject_Z 0). rewrite <- Zle_Qle. lia. Qed.

(** The error of the running total: each addition adds at most [2 * ulp]
    to its relative error. *)
Lemma total_error (l : list Pie.item) :
  forall (x E eps T : Q),
    Forall (fun it => unsignedValue (Pie.value it)) l ->
    (0 <= x)%Q -> onGrid x -> (0 <= E)%Q -> (0 <= eps)%Q ->
    (Qabs (x - E) <= eps * E)%Q ->
    (eps + 2 * ulp * inject_Z (Z.of_nat (length l)) <= 1)%Q ->
    fold_left (fun t it => numAdd t (Pie.value it)) l (Finite x) = Finite T ->
    Forall (fun it => exists v, Pie.value it = Finite v /\ (0 <= v)%Q) l /\
    (0 <= T)%Q /\
    (Qabs (T - (E + sumValues l))
     <= (eps + 2 * ulp * inject_Z (Z.of_nat (length l))) * (E + sumValues l))%Q.
Proof.
  pose proof (pow2_pos (-53)) as U. fold ulp in U.
  induction l as [|it l IH]; intros x E eps T Hl Hx Gx HE He Hxe Hn HT.
  - cbn [fold_left] in HT. injection HT as <-.
    split; [constructor|]. split; [exact Hx|].
    cbn [sumValues fold_right length Z.of_nat].
    apply Qabs_le_iff in Hxe. apply Qabs_le_iff.
    change (inject_Z 0) with 0%Q. split; nra.
  - inversion Hl as [|? ? Hit Hl']; subst. cbn [fold_left] in HT.
    destruct (fold_finite_inv _ _ HT) as [x' Hx'].
    destruct Hit as [Ev|(v & Ev & Hv & Gv)]; [rewrite Ev in Hx'; discriminate|].
    rewrite Ev in Hx', HT. cbn [numAdd] in Hx', HT. rewrite Hx' in HT.
    assert (Gs : onGrid (x + v)) by now apply onGrid_plus.
    pose proof (numberValue_grid_error Gs Hx') as R.
    assert (Px : (0 <= x + v)%Q) by lra.
    rewrite (Qabs_pos (x + v) Px) in R. apply Qabs_le_iff in R.
    destruct (@numberValue_sign _ _ Hx') as [S0 _]. specialize (S0 Px).
    apply Qabs_le_iff in Hxe.
    pose proof (inject_nat_nonneg (length l)) as Nn.
    assert (Hn' : (eps + 2 * ulp * (inject_Z (Z.of_nat (length l)) + 1) <= 1)%Q).
    { cbn [length] in Hn. now rewrite inject_nat_succ in Hn. }
    assert (E1 : (eps <= 1)%Q) by nra.
    assert (X2 : (ulp * x <= ulp * (2 * E))%Q) by (apply Qmult_le_l; [exact U|nra]).
    assert (Step : (Qabs (x' - (E + v)) <= (eps + 2 * ulp) * (E + v))%Q).
    { apply Qabs_le_iff. split; nra. }
    destruct (IH x' (E + v)%Q (eps + 2 * ulp)%Q T Hl' S0
                (@numberValue_onGrid _ _ Hx') ltac:(lra) ltac:(lra) Step ltac:(lra) HT)
      as (F & T0 & B).
    split; [constructor; [exists v; auto|exact F]|]. split; [exact T0|].
    cbn [sumValues fold_right length]. fold (sumValues l). rewrite Ev. cbn [exactValue].
    rewrite inject_nat_succ.
    apply Qabs_le_iff in B. apply Qabs_le_iff. split; lra.
Qed.

Lemma numGt_zero_iff (x : Q) :
  (0 <= x)%Q -> (numGt (Finite x) (Finite 0) = false <-> (x == 0)%Q).
Proof.
  intros H. cbn [numGt]. rewrite negb_false_iff, Qle_bool_iff. split; lra.
Qed.

(** A sum of two values is positive exactly when one of them is. *)
Lemma numAdd_zero_iff (a b : number) :
  unsignedValue a -> unsignedValue b ->
  (numGt (numAdd a b) (Finite 0) = false <->
   numGt a (Finite 0) = false /\ numGt b (Finite 0) = false).
Proof.
  intros [->|(x & -> & Hx & Gx)] [->|(y & -> & Hy & Gy)];
    try (cbn; split; [discriminate|intros [A B]; discriminate]).
  rewrite (numGt_zero_iff Hx), (numGt_zero_iff Hy). cbn [numAdd].
  destruct (Q_sign_cases (x + y)) as [N|[Z|P]]; [lra| |].
  - rewrite (numberValue_zero Z). cbn. split; [intros _; split; lra|reflexivity].
  - pose proof (pow2_pos (-53)) as U. fold ulp in U.
    assert (U1 : (ulp < 1)%Q) by (vm_compute; reflexivity).
    split; [|intros [A B]; lra].
    destruct (numberValue_pos P) as [[E _]|(z & E & _)]; rewrite E; [discriminate|].
    pose proof (numberValue_grid_error (onGrid_plus Gx Gy) E) as R.
    rewrite (Qabs_pos_eq P) in R. apply Qabs_le_iff in R.
    assert (M : (ulp * (x + y) < 1 * (x + y))%Q) by (apply Qmult_lt_compat_r; lra).
    cbn [numGt]. rewrite negb_false_iff, Qle_bool_iff. lra.
Qed.

Lemma total_zero_iff (l : list Pie.item) (a : number) :
  unsignedValue a -> Forall (fun it => unsignedValue (Pie.value it)) l ->
  (numGt (fold_left (fun t it => numAdd t (Pie.value it)) l a) (Finite 0) = false <->
   numGt a (Finite 0) = false /\
   Forall (fun it => numGt (Pie.value it) (Finite 0) = false) l).
Proof.
  intros Ha H. revert a Ha. induction H as [|it l Hit Hl IH]; intros a Ha.
  - cbn [fold_left]. split; [now split|tauto].
  - cbn [fold_left]. rewrite (IH _ (numAdd_unsigned Ha Hit)), (numAdd_zero_iff Ha Hit).
    split.
    + intros [[A B] C]. split; [exact A|now constructor].
    + intros [A C]. inversion C; subst. tauto.
Qed.

(** *** The percentages *)

Lemma tenths_near (x : Q) :
  (x * 10 - (1 # 2) < inject_Z (Pie.tenths x) /\
   inject_Z (Pie.tenths x) <= x * 10 + (1 # 2))%Q.
Proof.
  unfold Pie.tenths. split.
  - pose proof (Qlt_floor (x * 10 + (1 # 2))) as H.
    rewrite inject_Z_plus in H. change (inject_Z 1) with 1%Q in H. lra.
  - apply Qfloor_le.
Qed.

Lemma Qabs_nonneg_eq (x : Q) : (0 <= x)%Q -> (Qabs x == x)%Q.
Proof. apply Qabs_pos. Qed.

(** The double [(value / total) * 100] for a value [v] among values whose
    exact sum is [S], when the total [T] is [S] up to a relative error of
    [2^-32]: it is finite, and within [10^-7] of the exact percentage. *)
Lemma percentageNumber_near (T S v : Q) :
  (0 < S)%Q -> (Qabs (T - S) <= (1 # 4294967296) * S)%Q -> (0 <= v <= S)%Q ->
  exists r, Pie.percentageNumber (Finite T) (Finite v) = Finite r /\
            (0 <= r <= 301)%Q /\
            (Qabs (r - v / S * 100) <= 1 # 10000000)%Q.
Proof.
  intros HS HT [Hv0 HvS]. apply Qabs_le_iff in HT.
  assert (T2 : (S <= 2 * T)%Q) by lra.
  assert (Tp : (0 < T)%Q) by lra.
  pose proof (pow2_pos (-53)) as U. fold ulp in U.
  pose proof (pow2_pos (-1075)) as Ti. fold tiny in Ti.
  assert (Us : (ulp <= 1 # 1000000000000000)%Q) by (vm_compute; discriminate).
  assert (Ts : (tiny <= 1 # 1000000000000000)%Q) by (vm_compute; discriminate).
  assert (Big : (301 <= pow2 1023)%Q).
  { pose proof (@pow2_le 9 1023 ltac:(lia)) as H. change (pow2 9) with 512%Q in H. lra. }
  unfold Pie.percentageNumber, numDiv.
  assert (Tz : Qeq_bool T 0 = false).
  { destruct (Qeq_bool T 0) eqn:Z; [|reflexivity]. apply Qeq_bool_iff in Z. lra. }
  rewrite Tz.
  set (rho := (v / T)%Q). set (w := (v / S)%Q).
  assert (RT : (rho * T == v)%Q) by (unfold rho; field; lra).
  assert (WS : (w * S == v)%Q) by (unfold w; field; lra).
  assert (R0 : (0 <= rho)%Q) by (unfold rho; apply Qle_shift_div_l; lra).
  assert (R2 : (rho <= 2)%Q) by (unfold rho; apply Qle_shift_div_r; lra).
  assert (W0 : (0 <= w)%Q) by (unfold w; apply Qle_shift_div_l; lra).
  assert (W1 : (w <= 1)%Q) by (unfold w; apply Qle_shift_div_r; lra).
  assert (RW : (Qabs (rho - w) <= 2 * (1 # 4294967296))%Q).
  { assert (E : ((rho - w) * T == w * (S - T))%Q).
    { assert (((rho - w) * T == rho * T - w * T)%Q) by ring.
      assert ((w * (S - T) == w * S - w * T)%Q) by ring. lra. }
    assert (B1 : (w * (S - T) <= (1 # 4294967296) * S)%Q) by nra.
    assert (B2 : (- ((1 # 4294967296) * S) <= w * (S - T))%Q) by nra.
    apply Qabs_le_iff. split.
    - apply Qnot_lt_le. intros C.
      assert ((rho - w) * T < - (2 * (1 # 4294967296)) * T)%Q
        by (apply Qmult_lt_compat_r; lra). lra.
    - apply Qnot_lt_le. intros C.
      assert ((2 * (1 # 4294967296)) * T < (rho - w) * T)%Q
        by (apply Qmult_lt_compat_r; lra). lra. }
  destruct (@numberValue_finite rho) as [q Eq].
  { rewrite (Qabs_nonneg_eq R0). lra. }
  rewrite Eq. cbn [numMul].
  pose proof (@numberValue_error _ _ Eq) as Rq. rewrite (Qabs_nonneg_eq R0) in Rq.
  apply Qabs_le_iff in Rq.
  destruct (@numberValue_sign _ _ Eq) as [Sq _]. specialize (Sq R0).
  assert (Uq : (ulp * rho <= ulp * 2)%Q) by (apply Qmult_le_l; lra).
  assert (Q3 : (q <= 3)%Q) by lra.
  assert (P0 : (0 <= q * 100)%Q) by lra.
  destruct (@numberValue_finite (q * 100)) as [r Er].
  { rewrite (Qabs_nonneg_eq P0). lra. }
  exists r. split; [exact Er|].
  pose proof (@numberValue_error _ _ Er) as Rr. rewrite (Qabs_nonneg_eq P0) in Rr.
  apply Qabs_le_iff in Rr.
  destruct (@numberValue_sign _ _ Er) as [Sr _]. specialize (Sr P0).
  assert (Ur : (ulp * (q * 100) <= ulp * 300)%Q) by (apply Qmult_le_l; lra).
  apply Qabs_le_iff in RW.
  split; [split; lra|]. apply Qabs_le_iff. fold w. split; lra.
Qed.

(** What is printed for a finite double between 0 and 301. *)
Lemma toFixed1_small (show : number -> jsstring) (r : Q) :
  (0 <= r <= 301)%Q -> Pie.toFixed1 show (Finite r) = Pie.showTenths (Pie.tenths r).
Proof.
  intros [H0 H1]. unfold Pie.toFixed1.
  assert (A : Qle_bool (inject_Z (10 ^ 21)) (Qabs r) = false).
  { destruct (Qle_bool _ _) eqn:E; [|reflexivity]. apply Qle_bool_iff in E.
    rewrite (Qabs_nonneg_eq H0) in E.
    assert (301 < inject_Z (10 ^ 21))%Q by (vm_compute; reflexivity). lra. }
  rewrite A. apply Qle_bool_iff in H0. now rewrite H0.
Qed.

Lemma sumValues_perm (l l' : list Pie.item) :
  Permutation l l' -> (sumValues l == sumValues l')%Q.
Proof.
  induction 1; simpl; try lra.
Qed.

Lemma sumValues_In (l : list Pie.item) (it : Pie.item) :
  Forall (fun it => exists v, Pie.value it = Finite v /\ (0 <= v)%Q) l ->
  In it l ->
  (0 <= sumValues l)%Q /\
  exists v, Pie.value it = Finite v /\ (0 <= v <= sumValues l)%Q.
Proof.
  induction 1 as [|x l (vx & Ex & Hx) Hl IH]; [intros []|].
  cbn [sumValues fold_right]. fold (sumValues l). rewrite Ex. cbn [exactValue].
  assert (S0 : (0 <= sumValues l)%Q).
  { clear IH. induction Hl as [|y l (vy & Ey & Hy) _ IH']; cbn [sumValues fold_right];
      [lra|]. fold (sumValues l). rewrite Ey. cbn [exactValue]. lra. }
  intros [<-|Hin].
  - split; [lra|]. exists vx. split; [exact Ex|lra].
  - destruct (IH Hin) as (_ & v & Ev & Hv). split; [lra|]. exists v. split; [exact Ev|lra].
Qed.

Lemma reportedTenths_near (tot : number) (S c : Q) (l : list Pie.item) :
  Forall (fun it =>
            (Qabs (inject_Z (Pie.percentageTenths tot (Pie.value it))
                   - exactValue (Pie.value it) / S * 1000) <= c)%Q) l ->
  (Qabs (inject_Z (Pie.reportedTenths tot l) - sumValues l / S * 1000)
   <= inject_Z (Z.of_nat (length l)) * c)%Q.
Proof.
  induction 1 as [|x l Hx Hl IH].
  - cbn [Pie.reportedTenths fold_right sumValues length Z.of_nat].
    change (inject_Z 0) with 0%Q.
    assert (E : (0 - 0 / S * 1000 == 0)%Q) by (unfold Qdiv; ring).
    rewrite E. cbn [Qabs Z.abs]. lra.
  - cbn [Pie.reportedTenths fold_right sumValues length].
    fold (Pie.reportedTenths tot l). fold (sumValues l).
    rewrite inject_nat_succ, inject_Z_plus.
    assert (E : ((exactValue (Pie.value x) + sumValues l) / S * 1000
                 == exactValue (Pie.value x) / S * 1000 + sumValues l / S * 1000)%Q)
      by (unfold Qdiv; ring).
    rewrite E. apply Qabs_le_iff in Hx, IH. apply Qabs_le_iff. split; lra.
Qed.

(** C6: on a chart whose only segment is zero the segment set is not
    empty, the total is 0 and the single percentage reported is 0, so the
    reported percentages sum to 0, not to 100 within a tenth per
    segment. *)
Lemma pie_zero_total_sum :
  Pie.segments Pie.zeroPie = [Pie.MkItem (js "A") (Finite 0)] /\
  Pie.total (Pie.segments Pie.zeroPie) = Finite 0 /\
  map (fun it => Pie.percentage (fun _ => []) (Pie.total (Pie.segments Pie.zeroPie))
                   (Pie.value it))
      (Pie.sort (Pie.segments Pie.zeroPie)) = [js "0"] /\
  ~ (1000 - Z.of_nat (length (Pie.segments Pie.zeroPie))
     <= Pie.reportedTenths (Pie.total (Pie.segments Pie.zeroPie))
          (Pie.sort (Pie.segments Pie.zeroPie))
     <= 1000 + Z.of_nat (length (Pie.segments Pie.zeroPie)))%Z.
Proof. vm_compute. repeat split; try reflexivity. intros [H _]. now apply H. Qed.

(** C6 (as amended): the segments are narrated in descending order of
    value, segments of the same value in the order of the source (a
    stable sort of the parsed segments).  The total is never NaN and
    never negative; it is not positive exactly when no value is, and then
    every percentage is reported as 0.  When it is positive and finite
    (no numeral overflowed) and there are at most a million segments, the
    double total is the exact sum of the values up to a relative error of
    [2^-32]; each percentage is the double [(value / total) * 100]
    printed with one decimal place, a number of tenths within
    [0.5 + 10^-6] of the exact [value / sum * 1000]; and the reported
    percentages sum to 100 within [0.05 + 10^-7] per segment (stated in
    tenths of a percent). *)
Theorem pie_narration (show : number -> jsstring) (src : jsstring) :
  let data := Pie.segments src in
  let tot := Pie.total data in
  let shown := Pie.sort data in
  Permutation shown data /\
  StronglySorted descending shown /\
  (forall it, filter (sameValue it) shown = filter (sameValue it) data) /\
  unsignedValue tot /\
  (numGt tot (Finite 0) = false <->
   Forall (fun it => numGt (Pie.value it) (Finite 0) = false) data) /\
  (numGt tot (Finite 0) = false ->
   forall it, In it shown -> Pie.percentage show tot (Pie.value it) = js "0") /\
  (forall T, tot = Finite T -> (0 < T)%Q -> (Z.of_nat (length data) <= 1000000)%Z ->
     (0 < sumValues data)%Q /\
     (Qabs (T - sumValues data) <= (1 # 4294967296) * sumValues data)%Q /\
     (forall it, In it shown ->
        Pie.percentage show tot (Pie.value it)
        = Pie.showTenths (Pie.percentageTenths tot (Pie.value it)) /\
        (Qabs (inject_Z (Pie.percentageTenths tot (Pie.value it))
               - exactValue (Pie.value it) / sumValues data * 1000)
         <= (1 # 2) + (1 # 1000000))%Q) /\
     (Qabs (inject_Z (Pie.reportedTenths tot shown) - 1000)
      <= inject_Z (Z.of_nat (length shown)) * ((1 # 2) + (1 # 1000000)))%Q).
Proof.
  intros data tot shown.
  pose proof (segments_unsigned src) as Us. fold data in Us.
  split; [apply pie_sort_perm|]. split; [now apply pie_sort_sorted|].
  split; [intros it; now apply pie_sort_stable|].
  split; [apply total_unsigned|]. split.
  { unfold tot, Pie.total. rewrite (total_zero_iff unsigned_zero Us).
    split; [tauto|]. intros H. split; [reflexivity|exact H]. }
  split.
  { intros H it _. unfold Pie.percentage. now rewrite H. }
  intros T ET HT Hn.
  pose proof (pow2_pos (-53)) as U. fold ulp in U.
  assert (Nq : (inject_Z (Z.of_nat (length data)) <= 1000000)%Q).
  { change 1000000%Q with (inject_Z 1000000). now rewrite <- Zle_Qle. }
  assert (Ub : (2 * ulp * 1000000 <= 1 # 4294967296)%Q) by (vm_compute; discriminate).
  assert (Un : (2 * ulp * inject_Z (Z.of_nat (length data)) <= 1 # 4294967296)%Q).
  { assert (2 * ulp * inject_Z (Z.of_nat (length data)) <= 2 * ulp * 1000000)%Q
      by (apply Qmult_le_l; lra). lra. }
  assert (Z0 : (0 <= 0)%Q) by lra.
  destruct (@total_error data 0%Q 0%Q 0%Q T Us Z0 onGrid_zero Z0 Z0)
    as (F & T0 & B).
  { assert (E : (0 - 0 == 0)%Q) by ring. rewrite E. cbn [Qabs Z.abs]. lra. }
  { lra. }
  { exact ET. }
  set (S := sumValues data) in *.
  assert (S0 : (0 <= S)%Q).
  { unfold S. clear -F. induction F as [|y l (vy & Ey & Hy) _ IH];
      cbn [sumValues fold_right]; [lra|]. fold (sumValues l). rewrite Ey.
    cbn [exactValue]. lra. }
  apply Qabs_le_iff in B.
  assert (B' : (Qabs (T - S) <= (1 # 4294967296) * S)%Q).
  { apply Qabs_le_iff.
    assert (2 * ulp * inject_Z (Z.of_nat (length data)) * S <= (1 # 4294967296) * S)%Q
      by (apply Qmult_le_compat_r; lra).
    split; lra. }
  assert (Sp : (0 < S)%Q).
  { apply Qabs_le_iff in B'. destruct (Qlt_le_dec 0 S) as [H|H]; [exact H|].
    assert (S == 0)%Q by lra. rewrite H0 in B'. lra. }
  split; [exact Sp|]. split; [exact B'|].
  assert (Each : forall it, In it shown ->
            Pie.percentage show tot (Pie.value it)
            = Pie.showTenths (Pie.percentageTenths tot (Pie.value it)) /\
            (Qabs (inject_Z (Pie.percentageTenths tot (Pie.value it))
                   - exactValue (Pie.value it) / S * 1000)
             <= (1 # 2) + (1 # 1000000))%Q).
  { intros it Hin.
    assert (Hd : In it data).
    { eapply Permutation_in; [apply pie_sort_perm|exact Hin]. }
    destruct (@sumValues_In data it F Hd) as (_ & v & Ev & Hv). fold S in Hv.
    destruct (@percentageNumber_near T S v Sp B' Hv) as (r & Er & Hr & Rr).
    assert (G : numGt tot (Finite 0) = true).
    { rewrite ET. cbn [numGt]. apply negb_true_iff.
      destruct (Qle_bool T 0) eqn:Z; [|reflexivity]. apply Qle_bool_iff in Z. lra. }
    unfold Pie.percentage, Pie.percentageTenths. rewrite G, Ev, ET, Er.
    cbn [exactValue]. split; [now apply toFixed1_small|].
    destruct (tenths_near r) as [L H]. apply Qabs_le_iff in Rr. apply Qabs_le_iff.
    split; lra. }
  split; [exact Each|].
  assert (P : (sumValues shown / S * 1000 == 1000)%Q).
  { pose proof (sumValues_perm (pie_sort_perm data)) as PP. fold shown S in PP.
    rewrite PP. field. lra. }
  rewrite <- P. apply reportedTenths_near.
  apply Forall_forall. intros it Hin. apply (Each it Hin).
Qed.

(** A numeral too long for a double is parsed as infinity: the total is
    infinite and the percentage printed is not a number. *)
Example pie_overflow :
  map Pie.value (Pie.segments Pie.hugePie) = [PosInfinity] /\
  Pie.total (Pie.segments Pie.hugePie) = PosInfinity /\
  map (fun it => Pie.percentage (fun _ => []) (Pie.total (Pie.segments Pie.hugePie))
                   (Pie.value it))
      (Pie.sort (Pie.segments Pie.hugePie)) = [js "NaN"].
Proof. vm_compute. repeat split; reflexivity. Qed.

Lemma pie_narration_witness :
  Pie.total (Pie.segments Pie.unevenPie) = Finite 80 /\
  map Pie.label (Pie.sort (Pie.segments Pie.unevenPie)) = map js ["B"; "A"]%string /\
  map (fun it => Pie.percentage (fun _ => []) (Pie.total (Pie.segments Pie.unevenPie))
                   (Pie.value it))
      (Pie.sort (Pie.segments Pie.unevenPie)) = map js ["71.3"; "28.7"]%string /\
  (Qabs (inject_Z (Pie.reportedTenths (Pie.total (Pie.segments Pie.unevenPie))
                     (Pie.sort (Pie.segments Pie.unevenPie))) - 1000)
   <= inject_Z (Z.of_nat (length (Pie.sort (Pie.segments Pie.unevenPie))))
      * ((1 # 2) + (1 # 1000000)))%Q.
Proof.
  assert (E : Pie.total (Pie.segments Pie.unevenPie) = Finite 80)
    by (vm_compute; reflexivity).
  split; [exact E|]. split; [vm_compute; reflexivity|].
  split; [vm_compute; reflexivity|].
  refine (proj2 (proj2 (proj2
    (proj2 (proj2 (proj2 (proj2 (proj2 (proj2
       (pie_narration (fun _ => []) Pie.unevenPie))))))
       80%Q E _ _)))).
  - reflexivity.
  - vm_compute. discriminate.
Defined.
(** ** The document tree *)

Arguments str_eqb : simpl never.

Lemma Node_ind' (P : Node -> Prop) :
  (forall t a cs, Forall P cs -> P (Element t a cs)) ->
  (forall d, P (Text d)) -> (forall d, P (Comment d)) ->
  forall n, P n.
Proof.
  intros HE HT HC. fix IH 1. intros [t a cs|d|d]; [|apply HT|apply HC].
  apply HE. induction cs as [|c cs IHcs]; constructor; [apply IH|exact IHcs].
Qed.

Lemma lookupAttr_setAttr_same (k v : jsstring) (a : list (jsstring * jsstring)) :
  lookupAttr k (setAttr k v a) = Some v.
Proof.
  induction a as [|[k' v'] a IH]; simpl.
  - now rewrite str_eqb_refl.
  - destruct (str_eqb k k') eqn:E; simpl; rewrite E; [reflexivity|exact IH].
Qed.

Lemma lookupAttr_setAttr_other (k k0 v : jsstring) (a : list (jsstring * jsstring)) :
  str_eqb k k0 = false -> lookupAttr k (setAttr k0 v a) = lookupAttr k a.
Proof.
  intros Hk. induction a as [|[k' v'] a IH]; simpl.
  - now rewrite Hk.
  - destruct (str_eqb k0 k') eqn:E; simpl.
    + apply str_eqb_eq in E. subst k'. now rewrite Hk.
    + now rewrite IH.
Qed.

Lemma getAttribute_setAttribute_same (k v t : jsstring)
  (a : list (jsstring * jsstring)) (cs : list Node) :
  getAttribute k (setAttribute k v (Element t a cs)) = Some v.
Proof. apply lookupAttr_setAttr_same. Qed.

Lemma getAttribute_setAttribute_other (k k0 v : jsstring) (n : Node) :
  str_eqb k k0 = false -> getAttribute k (setAttribute k0 v n) = getAttribute k n.
Proof.
  intros Hk. destruct n; [|reflexivity..]. now apply lookupAttr_setAttr_other.
Qed.

(** *** Elements that only differ by [aria-hidden] *)

Lemma hiddenMore_refl (n : Node) : hiddenMore n n.
Proof.
  induction n as [t a cs IH|d|d] using Node_ind'; try constructor.
  induction IH; constructor; assumption.
Qed.

Lemma hiddenMore_inv (x y : Node) :
  hiddenMore x y ->
  match x with
  | Element t a cs =>
      exists a' cs', y = Element t a' cs' /\ Forall2 hiddenMore cs cs' /\
                     (a' = a \/ a' = setAttr ariaHidden true_ a)
  | _ => y = x
  end.
Proof.
  destruct 1; try reflexivity; eexists _, _; (split; [reflexivity|]); auto.
Qed.

Lemma hiddenMore_getAttribute (k : jsstring) (x y : Node) :
  str_eqb k ariaHidden = false -> hiddenMore x y ->
  getAttribute k y = getAttribute k x.
Proof.
  intros Hk H. destruct H; try reflexivity. simpl.
  now apply lookupAttr_setAttr_other.
Qed.

Lemma hiddenMore_isTag (s : jsstring) (x y : Node) :
  hiddenMore x y -> isTag s y = isTag s x.
Proof. now destruct 1. Qed.

Lemma hiddenMore_hasClass (c : jsstring) (x y : Node) :
  hiddenMore x y -> hasClass c y = hasClass c x.
Proof.
  intros H. unfold hasClass.
  now rewrite (hiddenMore_getAttribute (js "class") eq_refl H).
Qed.

Lemma hiddenMore_hidden (x y : Node) : hiddenMore x y -> hidden x -> hidden y.
Proof.
  unfold hidden. destruct 1; auto. intros _. apply lookupAttr_setAttr_same.
Qed.

Lemma hiddenMore_children (x y : Node) :
  hiddenMore x y -> Forall2 hiddenMore (children x) (children y).
Proof. destruct 1; simpl; auto. Qed.

Lemma hiddenMore_textContent (x y : Node) :
  hiddenMore x y -> textContent y = textContent x.
Proof.
  revert y. induction x as [t a cs IH|d|d] using Node_ind'; intros y H;
    apply hiddenMore_inv in H; [|now subst..].
  destruct H as (a' & cs' & -> & Hcs & _). simpl. f_equal.
  induction Hcs as [|c c' cs cs' Hc Hcs IHcs]; [reflexivity|].
  inversion IH; subst. simpl. f_equal; auto.
Qed.

Lemma hiddenMore_descendants (x y : Node) :
  hiddenMore x y -> Forall2 hiddenMore (descendants x) (descendants y).
Proof.
  revert y. induction x as [t a cs IH|d|d] using Node_ind'; intros y H;
    apply hiddenMore_inv in H; [|subst; constructor..].
  destruct H as (a' & cs' & -> & Hcs & _). simpl.
  induction Hcs as [|c c' cs cs' Hc Hcs IHcs]; [constructor|].
  inversion IH; subst. simpl. constructor; [exact Hc|].
  apply Forall2_app; auto.
Qed.

Lemma hiddenMore_trans (x y z : Node) :
  hiddenMore x y -> hiddenMore y z -> hiddenMore x z.
Proof.
  revert y z. induction x as [t a cs IH|d|d] using Node_ind'; intros y z Hxy Hyz;
    apply hiddenMore_inv in Hxy; [|now subst..].
  destruct Hxy as (a' & cs' & -> & Hcs & Ha).
  apply hiddenMore_inv in Hyz. destruct Hyz as (a'' & cs'' & -> & Hcs' & Ha').
  assert (Hall : Forall2 hiddenMore cs cs'').
  { clear Ha Ha'. revert cs'' Hcs'.
    induction Hcs as [|c c' cs cs' Hc Hcs IHcs]; intros cs'' Hcs'.
    - inversion Hcs'. constructor.
    - inversion Hcs'; subst. inversion IH; subst.
      constructor; [eauto|]. now apply IHcs. }
  assert (Hidem : setAttr ariaHidden true_ (setAttr ariaHidden true_ a)
                  = setAttr ariaHidden true_ a).
  { clear. induction a as [|[k v] a IHa]; simpl.
    - reflexivity.
    - destruct (str_eqb ariaHidden k) eqn:E; simpl; rewrite E; [reflexivity|].
      now rewrite IHa. }
  destruct Ha as [->| ->], Ha' as [->| ->]; rewrite ?Hidem;
    now constructor.
Qed.


Lemma stable_isTag (s : jsstring) : stable (isTag s).
Proof. intros x y H. now apply hiddenMore_isTag. Qed.

Lemma stable_isNodeGroup : stable isNodeGroup.
Proof.
  intros x y H. unfold isNodeGroup.
  now rewrite (hiddenMore_isTag _ H), (hiddenMore_hasClass _ H).
Qed.

Lemma stable_isShape : stable isShape.
Proof. intros x y H. unfold isShape. now rewrite !(hiddenMore_isTag _ H). Qed.

Lemma stable_isEdgeGroup : stable isEdgeGroup.
Proof.
  intros x y H. unfold isEdgeGroup.
  now rewrite (hiddenMore_isTag _ H), !(hiddenMore_hasClass _ H).
Qed.

Lemma Forall2_filter_stable (sel : Node -> bool) (l l' : list Node) :
  stable sel -> Forall2 hiddenMore l l' ->
  Forall2 hiddenMore (filter sel l) (filter sel l').
Proof.
  intros Hs. induction 1 as [|x y l l' Hxy Hl IH]; simpl; [constructor|].
  rewrite (Hs _ _ Hxy). destruct (sel x); [constructor|]; assumption.
Qed.

Lemma hiddenMore_query (sel : Node -> bool) (x y : Node) :
  stable sel -> hiddenMore x y ->
  Forall2 hiddenMore (querySelectorAll sel x) (querySelectorAll sel y).
Proof.
  intros Hs H. now apply Forall2_filter_stable, hiddenMore_descendants.
Qed.

(** *** The passes that hide elements *)

Lemma Forall2_map_r (A B : Type) (R : A -> B -> Prop) (f : A -> B) (l : list A) :
  Forall (fun x => R x (f x)) l -> Forall2 R l (map f l).
Proof. induction 1; simpl; constructor; assumption. Qed.

Lemma markAll_hiddenMore (sel : Node -> bool) (n : Node) :
  hiddenMore n (markAll sel ariaHidden true_ n).
Proof.
  induction n as [t a cs IH|d|d] using Node_ind'; try constructor.
  cbn [markAll]. destruct (sel (Element t a cs)); cbn [setAttribute];
    constructor; now apply Forall2_map_r.
Qed.

Lemma markDescendants_hiddenMore (sel : Node -> bool) (n : Node) :
  hiddenMore n (markDescendants sel ariaHidden true_ n).
Proof.
  destruct n as [t a cs|d|d]; try constructor. apply Forall2_map_r.
  apply Forall_forall. intros c _. apply markAll_hiddenMore.
Qed.

Lemma hideMarkers_hiddenMore (n : Node) (b : bool) :
  hiddenMore n (hideMarkers b n).
Proof.
  revert b. induction n as [t a cs IH|d|d] using Node_ind'; intros b;
    try constructor.
  cbn [hideMarkers].
  assert (H : Forall2 hiddenMore cs
                (map (hideMarkers (b || isTag (js "defs") (Element t a cs))) cs)).
  { apply Forall2_map_r. eapply Forall_impl; [|exact IH]. intros c Hc. apply Hc. }
  destruct (b && isTag (js "marker") (Element t a cs)); now constructor.
Qed.

Lemma hideMarkersBelow_hiddenMore (n : Node) : hiddenMore n (hideMarkersBelow n).
Proof.
  destruct n as [t a cs|d|d]; try constructor. apply Forall2_map_r.
  apply Forall_forall. intros c _. apply hideMarkers_hiddenMore.
Qed.

Lemma hideTexts_hiddenMore (n : Node) (k : bool) :
  hiddenMore n (snd (hideTexts k n)).
Proof.
  revert k. induction n as [t a cs IH|d|d] using Node_ind'; intros k;
    try constructor.
  cbn [hideTexts].
  set (go := fix go (cs : list Node) (k : bool) {struct cs} : bool * list Node :=
               match cs with
               | [] => (k, [])
               | c :: cs0 =>
                   let '(k1, c') := hideTexts k c in
                   let '(k2, cs1) := go cs0 k1 in (k2, c' :: cs1)
               end).
  assert (H : forall k0, Forall2 hiddenMore cs (snd (go cs k0))).
  { induction IH as [|c cs Hc _ IHcs]; intros k0; [constructor|].
    cbn [go]. specialize (Hc k0). destruct (hideTexts k0 c) as [k1 c'].
    specialize (IHcs k1). destruct (go cs k1) as [k2 cs1]. now constructor. }
  specialize (H (if isTextElement (Element t a cs) then false else k)).
  destruct (go cs _) as [k2 cs']. cbn [snd] in *.
  destruct (isTextElement (Element t a cs) && negb k); now constructor.
Qed.

(** After [markAll], every matching element of the subtree is hidden. *)
Lemma markAll_marks (sel : Node -> bool) (n : Node) :
  stable sel -> shallow sel ->
  Forall (fun d => sel d = true -> hidden d)
         (markAll sel ariaHidden true_ n :: descendants (markAll sel ariaHidden true_ n)).
Proof.
  intros Hs (_ & HsT & HsC). induction n as [t a cs IH|d|d] using Node_ind'.
  - constructor.
    + intros H. rewrite (Hs _ _ (markAll_hiddenMore sel (Element t a cs))) in H.
      cbn [markAll]. rewrite H. apply lookupAttr_setAttr_same.
    + assert (E : descendants (markAll sel ariaHidden true_ (Element t a cs))
                  = flat_map (fun c => c :: descendants c)
                      (map (markAll sel ariaHidden true_) cs)).
      { cbn [markAll]. now destruct (sel (Element t a cs)). }
      rewrite E. clear E. induction IH as [|c cs Hc _ IHcs]; [constructor|].
      cbn [map flat_map]. apply Forall_app. split; assumption.
  - repeat constructor. cbn [markAll]. rewrite HsT. discriminate.
  - repeat constructor. cbn [markAll]. rewrite HsC. discriminate.
Qed.

(** *** Queries and removal *)

Arguments removeAt : simpl never.
Arguments querySelectorAll : simpl never.

Lemma shallow_isTag (s : jsstring) : shallow (isTag s).
Proof. repeat split. Qed.

Lemma shallow_isNodeGroup : shallow isNodeGroup.
Proof. repeat split. Qed.

Lemma shallow_isShape : shallow isShape.
Proof. repeat split. Qed.

Lemma shallow_isEdgeGroup : shallow isEdgeGroup.
Proof. repeat split. Qed.

Lemma query_Element (sel : Node -> bool) (t : jsstring)
  (a : list (jsstring * jsstring)) (cs : list Node) :
  querySelectorAll sel (Element t a cs)
  = flat_map (fun c => (if sel c then [c] else []) ++ querySelectorAll sel c) cs.
Proof.
  unfold querySelectorAll. cbn [descendants].
  induction cs as [|c cs IH]; [reflexivity|].
  cbn [flat_map]. rewrite filter_app, IH. cbn [filter app].
  now destruct (sel c).
Qed.

Lemma query_cons (sel : Node -> bool) (t : jsstring)
  (a : list (jsstring * jsstring)) (c : Node) (cs : list Node) :
  querySelectorAll sel (Element t a (c :: cs))
  = (if sel c then [c] else []) ++ querySelectorAll sel c
    ++ querySelectorAll sel (Element t a cs).
Proof. rewrite !query_Element. cbn [flat_map]. now rewrite <- app_assoc. Qed.

Lemma findFirst_cons (sel : Node -> bool) (t : jsstring)
  (a : list (jsstring * jsstring)) (c : Node) (cs : list Node) :
  findFirst sel (Element t a (c :: cs))
  = if sel c then Some [0]
    else match findFirst sel c with
         | Some p => Some (0 :: p)
         | None => option_map shift (findFirst sel (Element t a cs))
         end.
Proof. reflexivity. Qed.

Lemma findFirst_nonempty (sel : Node -> bool) (n : Node) :
  findFirst sel n <> Some [].
Proof.
  destruct n as [t a cs|d|d]; try discriminate.
  induction cs as [|c cs IH]; [discriminate|].
  rewrite findFirst_cons. destruct (sel c); [discriminate|].
  destruct (findFirst sel c); [discriminate|].
  destruct (findFirst sel (Element t a cs)) as [[|i p]|]; simpl; congruence.
Qed.

Lemma findFirst_None (sel : Node -> bool) (n : Node) :
  findFirst sel n = None -> querySelectorAll sel n = [].
Proof.
  induction n as [t a cs IH|d|d] using Node_ind'; try reflexivity.
  induction IH as [|c cs Hc _ IHcs]; [reflexivity|].
  rewrite findFirst_cons, query_cons. destruct (sel c); [discriminate|].
  destruct (findFirst sel c); [discriminate|].
  destruct (findFirst sel (Element t a cs)); [discriminate|].
  intros _. now rewrite Hc, IHcs.
Qed.

Lemma removeAt_nil (n : Node) : removeAt [] n = n.
Proof. now destruct n. Qed.

Lemma removeAt_leaf (p : path) (n : Node) : children n = [] -> removeAt p n = n.
Proof.
  destruct n as [t a cs|d|d]; cbn [children]; intros H;
    destruct p as [|i [|j p]]; subst; reflexivity.
Qed.

Lemma removeAt_Element (p : path) (t : jsstring) (a : list (jsstring * jsstring))
  (cs : list Node) :
  exists cs', removeAt p (Element t a cs) = Element t a cs'.
Proof.
  destruct p as [|i [|j p]]; eexists; reflexivity.
Qed.

Lemma removeAt_shallow (sel : Node -> bool) (p : path) (n : Node) :
  shallow sel -> sel (removeAt p n) = sel n.
Proof.
  intros (Hs & _ & _). destruct n as [t a cs|d|d]; [|now destruct p as [|i [|j p]]..].
  destruct (removeAt_Element p t a cs) as [cs' ->]. apply Hs.
Qed.

Lemma removeAt_head (q : path) (t : jsstring) (a : list (jsstring * jsstring))
  (c : Node) (cs : list Node) :
  q <> [] ->
  removeAt (0 :: q) (Element t a (c :: cs)) = Element t a (removeAt q c :: cs).
Proof. destruct q; [congruence|reflexivity]. Qed.

Lemma removeAt_shift (p : path) (t : jsstring) (a : list (jsstring * jsstring))
  (c : Node) (cs : list Node) :
  p <> [] ->
  removeAt (shift p) (Element t a (c :: cs))
  = Element t a (c :: children (removeAt p (Element t a cs))).
Proof. destruct p as [|i [|j p]]; [congruence|reflexivity..]. Qed.

(** Removing a subtree never adds a match. *)
Lemma removeAt_query_le (sel : Node -> bool) (p : path) (n : Node) :
  shallow sel ->
  length (querySelectorAll sel (removeAt p n)) <= length (querySelectorAll sel n).
Proof.
  intros Hs. revert n. induction p as [|i p IH]; intros n;
    [now rewrite removeAt_nil|].
  destruct n as [t a cs|d|d]; [|now rewrite removeAt_leaf..].
  revert i. induction cs as [|c cs IHcs]; intros i.
  - now rewrite removeAt_leaf.
  - destruct i as [|i].
    + destruct p as [|j p].
      * change (removeAt [0] (Element t a (c :: cs))) with (Element t a cs).
        rewrite query_cons, !length_app. lia.
      * rewrite removeAt_head by discriminate. rewrite !query_cons, !length_app.
        rewrite (removeAt_shallow _ _ Hs). specialize (IH c).
        destruct (sel c); simpl; lia.
    + change (S i :: p) with (shift (i :: p)).
      rewrite removeAt_shift by discriminate.
      specialize (IHcs i).
      destruct (removeAt_Element (i :: p) t a cs) as [cs' E]. rewrite E in *.
      cbn [children]. rewrite !query_cons, !length_app. lia.
Qed.

(** Removing the first match takes at least one match away. *)
Lemma removeAt_first_lt (sel : Node -> bool) (n : Node) (p : path) :
  shallow sel -> findFirst sel n = Some p ->
  length (querySelectorAll sel (removeAt p n)) < length (querySelectorAll sel n).
Proof.
  intros Hs. revert p. induction n as [t a cs IH|d|d] using Node_ind';
    try discriminate.
  induction IH as [|c cs Hc _ IHcs]; intros p; [discriminate|].
  rewrite findFirst_cons. destruct (sel c) eqn:S.
  - intros [= <-]. change (removeAt [0] (Element t a (c :: cs))) with (Element t a cs).
    rewrite query_cons, S, !length_app.
    simpl. lia.
  - destruct (findFirst sel c) as [q|] eqn:F.
    + intros [= <-]. rewrite removeAt_head by (intros ->; now apply findFirst_nonempty in F).
      rewrite !query_cons, !length_app, (removeAt_shallow _ _ Hs), S.
      specialize (Hc q eq_refl). simpl. lia.
    + destruct (findFirst sel (Element t a cs)) as [p'|] eqn:G; [|discriminate].
      intros [= <-]. rewrite removeAt_shift by (intros ->; now apply findFirst_nonempty in G).
      specialize (IHcs p' eq_refl).
      destruct (removeAt_Element p' t a cs) as [cs' E]. rewrite E in *.
      cbn [children]. rewrite !query_cons, !length_app. lia.
Qed.

Lemma children_in_descendants (n c : Node) :
  In c (children n) -> In c (descendants n).
Proof.
  destruct n as [t a cs|d|d]; simpl; try tauto.
  induction cs as [|x cs IH]; simpl; [tauto|].
  intros [->|H]; [now left|]. right. apply in_or_app. right. now apply IH.
Qed.

(** ** Flowchart semantics *)

Arguments nodeTextOf : simpl never.

Lemma query_nil_children (sel : Node -> bool) (t : jsstring)
  (a : list (jsstring * jsstring)) (cs : list Node) :
  querySelectorAll sel (Element t a cs) = [] ->
  Forall (fun c => sel c = false /\ querySelectorAll sel c = []) cs.
Proof.
  induction cs as [|c cs IH]; [constructor|].
  rewrite query_cons. intros H. apply app_eq_nil in H as [H1 H2].
  apply app_eq_nil in H2 as [H2 H3].
  constructor; [|now apply IH]. split; [|exact H2]. now destruct (sel c).
Qed.

Lemma length_zero_nil (A : Type) (l : list A) : length l <= 0 -> l = [].
Proof. destruct l; simpl; [reflexivity|lia]. Qed.

Lemma Forall2_hidden (l l' : list Node) :
  Forall2 hiddenMore l l' -> Forall hidden l -> Forall hidden l'.
Proof.
  induction 1 as [|x y l l' Hxy _ IH]; intros H; [constructor|].
  inversion H; subst. constructor; [eapply hiddenMore_hidden; eassumption|auto].
Qed.

Lemma Forall2_untitled (l l' : list Node) :
  Forall2 hiddenMore l l' -> Forall (fun c => isTitle c = false) l ->
  Forall (fun c => isTitle c = false) l'.
Proof.
  induction 1 as [|x y l l' Hxy _ IH]; intros H; [constructor|].
  inversion H; subst. constructor; [|auto].
  unfold isTitle in *. now rewrite (hiddenMore_isTag _ Hxy).
Qed.

(** The shape of a retitled node group. *)
Lemma retitle_shape (t : jsstring) (a : list (jsstring * jsstring))
  (cs : list Node) :
  exists cs2,
    retitle (Element t a cs)
    = Element t (setAttr (js "role") (js "listitem") a)
        (match nodeTextOf (Element t a cs) with
         | [] => cs2
         | _ :: _ => titleElement [] (nodeTextOf (Element t a cs)) :: cs2
         end) /\
    (forall sel, shallow sel ->
       length (querySelectorAll sel (Element t a cs2))
       <= length (querySelectorAll sel (Element t a cs))) /\
    (length (querySelectorAll isTitle (Element t a cs)) <= 1 ->
     querySelectorAll isTitle (Element t a cs2) = []).
Proof.
  unfold retitle. cbn [setAttribute].
  set (a1 := setAttr (js "role") (js "listitem") a).
  change (nodeTextOf (Element t a1 cs)) with (nodeTextOf (Element t a cs)).
  destruct (findFirst isTitle (Element t a1 cs)) as [p|] eqn:F.
  - destruct (removeAt_Element p t a1 cs) as [cs2 E]. exists cs2. rewrite E.
    split; [now destruct (nodeTextOf (Element t a cs))|]. split.
    + intros sel Hs. pose proof (@removeAt_query_le sel p (Element t a1 cs) Hs) as H.
      rewrite E in H. exact H.
    + intros H1. pose proof (@removeAt_first_lt isTitle _ _ (shallow_isTag _) F) as H.
      rewrite E in H. apply length_zero_nil.
      change (querySelectorAll isTitle (Element t a1 cs))
        with (querySelectorAll isTitle (Element t a cs)) in H.
      change (querySelectorAll isTitle (Element t a1 cs2))
        with (querySelectorAll isTitle (Element t a cs2)) in H. lia.
  - exists cs. split; [now destruct (nodeTextOf (Element t a cs))|]. split.
    + intros sel _. lia.
    + intros _. now apply (findFirst_None isTitle (Element t a1 cs)).
Qed.

Lemma retitle_isNodeGroup (g : Node) : isNodeGroup (retitle g) = isNodeGroup g.
Proof.
  destruct g as [t a cs|d|d]; try reflexivity.
  destruct (retitle_shape t a cs) as (cs2 & -> & _).
  unfold isNodeGroup, hasClass. cbn [isTag getAttribute].
  now rewrite lookupAttr_setAttr_other.
Qed.

Lemma retitle_no_groups (g : Node) :
  querySelectorAll isNodeGroup g = [] ->
  querySelectorAll isNodeGroup (retitle g) = [].
Proof.
  destruct g as [t a cs|d|d]; try (intros _; reflexivity).
  destruct (retitle_shape t a cs) as (cs2 & -> & Hle & _). intros H.
  specialize (Hle _ shallow_isNodeGroup). rewrite H in Hle.
  apply length_zero_nil in Hle.
  destruct (nodeTextOf (Element t a cs)).
  - exact Hle.
  - rewrite query_cons.
    change (querySelectorAll isNodeGroup (Element t _ cs2))
      with (querySelectorAll isNodeGroup (Element t a cs2)).
    rewrite Hle. reflexivity.
Qed.

Lemma processNode_hiddenMore (g : Node) : hiddenMore (retitle g) (processNode g).
Proof.
  unfold processNode.
  destruct (Nat.ltb 1 _).
  - eapply hiddenMore_trans; [apply markDescendants_hiddenMore|].
    apply hideTexts_hiddenMore.
  - apply markDescendants_hiddenMore.
Qed.

Lemma processNode_isNodeGroup (g : Node) :
  isNodeGroup (processNode g) = isNodeGroup g.
Proof.
  now rewrite (stable_isNodeGroup (processNode_hiddenMore g)), retitle_isNodeGroup.
Qed.

Lemma Forall2_nil_l (A B : Type) (R : A -> B -> Prop) (l : list B) :
  Forall2 R [] l -> l = [].
Proof. now inversion 1. Qed.

Lemma processNode_no_groups (g : Node) :
  querySelectorAll isNodeGroup g = [] ->
  querySelectorAll isNodeGroup (processNode g) = [].
Proof.
  intros H. apply retitle_no_groups in H.
  pose proof (@hiddenMore_query isNodeGroup _ _ stable_isNodeGroup
                (processNode_hiddenMore g)) as F.
  rewrite H in F. now apply Forall2_nil_l in F.
Qed.

Lemma markDescendants_marks (sel : Node -> bool) (n : Node) :
  stable sel -> shallow sel ->
  Forall hidden (querySelectorAll sel (markDescendants sel ariaHidden true_ n)).
Proof.
  intros Hs Hsh. destruct n as [t a cs|d|d]; try constructor.
  cbn [markDescendants]. rewrite query_Element.
  induction cs as [|c cs IH]; [constructor|].
  cbn [map flat_map]. apply Forall_app. split; [|exact IH].
  pose proof (@markAll_marks sel c Hs Hsh) as H. inversion H as [|? ? Hc Hd]; subst.
  apply Forall_app. split.
  - destruct (sel (markAll sel ariaHidden true_ c)) eqn:E; constructor; auto.
  - unfold querySelectorAll. clear -Hd.
    induction Hd as [|x l Hx _ IHl]; simpl; [constructor|].
    destruct (sel x) eqn:E; [constructor|]; auto.
Qed.

Lemma processNode_shapes (g : Node) :
  Forall hidden (querySelectorAll isShape (processNode g)).
Proof.
  unfold processNode.
  pose proof (@markDescendants_marks isShape (retitle g) stable_isShape
                shallow_isShape) as H.
  destruct (Nat.ltb 1 _); [|exact H].
  eapply Forall2_hidden; [|exact H].
  apply hiddenMore_query; [apply stable_isShape|apply hideTexts_hiddenMore].
Qed.

Lemma shallow_isListItem : shallow isListItem.
Proof. repeat split. Qed.

Lemma stable_isListItem : stable isListItem.
Proof.
  intros x y H. unfold isListItem.
  now rewrite (hiddenMore_getAttribute (js "role") eq_refl H).
Qed.

Lemma forEach_root (f : nat) (t : jsstring) (a : list (jsstring * jsstring))
  (cs : list Node) :
  exists cs', forEachNodeGroup f (Element t a cs) = Element t a cs'.
Proof. destruct f; eexists; reflexivity. Qed.

Lemma forEach_shallow (sel : Node -> bool) (f : nat) (n : Node) :
  shallow sel -> sel (forEachNodeGroup f n) = sel n.
Proof.
  intros (Hs & _ & _). destruct n as [t a cs|d|d]; [|now destruct f..].
  destruct (forEach_root f t a cs) as [cs' ->]. apply Hs.
Qed.

(** Where there is no node group, the loop changes nothing. *)
Lemma forEach_no_groups (f : nat) (n : Node) :
  querySelectorAll isNodeGroup n = [] -> forEachNodeGroup f n = n.
Proof.
  revert n. induction f as [|f IH]; intros n H; [reflexivity|].
  destruct n as [t a cs|d|d]; try reflexivity.
  cbn [forEachNodeGroup]. f_equal.
  apply query_nil_children in H.
  induction H as [|c cs [Hc1 Hc2] _ IHcs]; [reflexivity|].
  cbn [map]. rewrite Hc1, (IH c Hc2). now f_equal.
Qed.

Lemma height_children (t : jsstring) (a : list (jsstring * jsstring))
  (cs : list Node) (f : nat) :
  height (Element t a cs) <= S f -> Forall (fun c => height c <= f) cs.
Proof.
  cbn [height]. intros H. apply le_S_n in H.
  induction cs as [|c cs IH]; [constructor|].
  cbn [fold_right] in H. constructor; [lia|]. apply IH. lia.
Qed.

Lemma noNested_children (t : jsstring) (a : list (jsstring * jsstring))
  (cs : list Node) :
  noNestedGroups (Element t a cs) ->
  Forall (fun c => (isNodeGroup c = true -> querySelectorAll isNodeGroup c = [])
                   /\ noNestedGroups c) cs.
Proof.
  unfold noNestedGroups. induction cs as [|c cs IH]; [constructor|].
  rewrite query_cons. intros H. apply Forall_app in H as [H1 H2].
  apply Forall_app in H2 as [H2 H3].
  constructor; [|now apply IH]. split; [|exact H2].
  intros Hc. rewrite Hc in H1. now inversion H1.
Qed.

(** The depth bound of the loop is enough: once it reaches the height of
    the tree, a larger bound gives the same document. *)
Lemma forEach_fuel (f1 f2 : nat) (n : Node) :
  noNestedGroups n -> height n <= f1 -> height n <= f2 ->
  forEachNodeGroup f1 n = forEachNodeGroup f2 n.
Proof.
  revert f2 n. induction f1 as [|f1 IH]; intros f2 n Hnn H1 H2.
  - destruct n as [t a cs|d|d]; [cbn [height] in H1; lia|now destruct f2..].
  - destruct n as [t a cs|d|d]; [|now destruct f2..].
    destruct f2 as [|f2]; [cbn [height] in H2; lia|].
    cbn [forEachNodeGroup]. f_equal.
    apply height_children in H1. apply height_children in H2.
    apply noNested_children in Hnn.
    induction cs as [|c cs IHcs]; [reflexivity|].
    inversion H1; inversion H2; inversion Hnn as [|? ? [Hc1 Hc2] ?]; subst.
    cbn [map]. f_equal; [|now apply IHcs].
    destruct (isNodeGroup c) eqn:G.
    + rewrite !forEach_no_groups; auto using processNode_no_groups.
    + now apply IH.
Qed.

Lemma retitle_query_nil (sel : Node -> bool) (g : Node) :
  shallow sel -> (forall txt, sel (titleElement [] txt) = false) ->
  querySelectorAll sel g = [] -> querySelectorAll sel (retitle g) = [].
Proof.
  intros Hsh Ht H. destruct g as [t a cs|d|d]; try reflexivity.
  destruct (retitle_shape t a cs) as (cs2 & -> & Hle & _).
  specialize (Hle sel Hsh). rewrite H in Hle. apply length_zero_nil in Hle.
  destruct Hsh as (_ & Hs2 & _).
  destruct (nodeTextOf (Element t a cs)) as [|x txt].
  - exact Hle.
  - rewrite query_cons, Ht.
    change (querySelectorAll sel (Element t _ cs2))
      with (querySelectorAll sel (Element t a cs2)).
    rewrite Hle. unfold titleElement. rewrite query_Element. cbn [flat_map].
    now rewrite Hs2.
Qed.

Lemma processNode_query_nil (sel : Node -> bool) (g : Node) :
  shallow sel -> stable sel -> (forall txt, sel (titleElement [] txt) = false) ->
  querySelectorAll sel g = [] -> querySelectorAll sel (processNode g) = [].
Proof.
  intros Hsh Hst Ht H.
  pose proof (@hiddenMore_query sel _ _ Hst (processNode_hiddenMore g)) as F.
  rewrite (@retitle_query_nil sel g Hsh Ht H) in F. now apply Forall2_nil_l in F.
Qed.

(** The matches of a selector after the loop, for a selector that holds
    of every processed node group, of nothing inside one and, in the
    document, of node groups only. *)
Lemma forEach_query (sel : Node -> bool) (f : nat) (n : Node) :
  shallow sel -> stable sel -> (forall txt, sel (titleElement [] txt) = false) ->
  (forall g, isNodeGroup g = true -> sel (processNode g) = true) ->
  Forall (fun d => sel d = true -> isNodeGroup d = true) (descendants n) ->
  Forall (fun g => querySelectorAll sel g = []) (querySelectorAll isNodeGroup n) ->
  noNestedGroups n -> height n <= f ->
  querySelectorAll sel (forEachNodeGroup f n)
  = map processNode (querySelectorAll isNodeGroup n).
Proof.
  intros Hsh Hst Ht Hpn. revert n.
  induction f as [|f IH]; intros n Honly Hin Hnn Hh.
  - destruct n as [t a cs|d|d]; try reflexivity. cbn [height] in Hh. lia.
  - destruct n as [t a cs|d|d]; try reflexivity.
    cbn [forEachNodeGroup].
    apply height_children in Hh. apply noNested_children in Hnn.
    revert Honly Hin Hnn Hh.
    induction cs as [|c cs IHcs]; intros Honly Hin Hnn Hh; [reflexivity|].
    inversion Hh as [|? ? Hhc Hhcs]; subst.
    inversion Hnn as [|? ? [Hnc1 Hnc2] Hncs]; subst.
    cbn [descendants flat_map] in Honly.
    change (flat_map (fun c => c :: descendants c) cs)
      with (descendants (Element t a cs)) in Honly.
    cbn [app] in Honly.
    inversion Honly as [|? ? Honly_c Honly']; subst.
    apply Forall_app in Honly' as [Honly_dc Honly_cs].
    rewrite query_cons in Hin. apply Forall_app in Hin as [Hin1 Hin2].
    apply Forall_app in Hin2 as [Hin2 Hin3].
    cbn [map]. rewrite !query_cons, !map_app.
    rewrite (IHcs Honly_cs Hin3 Hncs Hhcs). f_equal; [|f_equal].
    + destruct (isNodeGroup c) eqn:G.
      * rewrite forEach_no_groups by now apply processNode_no_groups, Hnc1.
        now rewrite (Hpn c G).
      * rewrite (@forEach_shallow sel f c Hsh).
        destruct (sel c) eqn:Hsel; [|reflexivity]. specialize (Honly_c eq_refl).
        congruence.
    + destruct (isNodeGroup c) eqn:G.
      * rewrite forEach_no_groups by now apply processNode_no_groups, Hnc1.
        rewrite (Hnc1 eq_refl). inversion Hin1 as [|? ? Hq _]; subst.
        now apply processNode_query_nil.
      * apply IH; assumption.
Qed.

Lemma hideMarkers_marks (n : Node) (b : bool) :
  Forall hidden (queryDefsMarkers b (hideMarkers b n)).
Proof.
  revert b. induction n as [t a cs IH|d|d] using Node_ind'; intros b;
    try constructor.
  assert (E : queryDefsMarkers b (hideMarkers b (Element t a cs))
              = flat_map (fun c =>
                  (if (b || isTag (js "defs") (Element t a cs))
                      && isTag (js "marker") c then [c] else [])
                  ++ queryDefsMarkers (b || isTag (js "defs") (Element t a cs)) c)
                  (map (hideMarkers (b || isTag (js "defs") (Element t a cs))) cs)).
  { cbn [hideMarkers]. now destruct (b && isTag (js "marker") (Element t a cs)). }
  rewrite E. clear E. set (below := b || isTag (js "defs") (Element t a cs)).
  induction IH as [|c cs Hc _ IHcs]; [constructor|].
  cbn [map flat_map]. apply Forall_app. split; [|exact IHcs].
  apply Forall_app. split; [|apply Hc].
  rewrite (hiddenMore_isTag _ (hideMarkers_hiddenMore c below)).
  destruct (below && isTag (js "marker") c) eqn:M; constructor; [|constructor].
  destruct c as [t' a' cs'|d|d]; try (now rewrite andb_false_r in M).
  unfold hidden. cbn [hideMarkers]. rewrite M. apply lookupAttr_setAttr_same.
Qed.

Lemma hideMarkersBelow_marks (n : Node) :
  Forall hidden (queryDefsMarkers false (hideMarkersBelow n)).
Proof.
  destruct n as [t a cs|d|d]; try constructor.
  cbn [hideMarkersBelow queryDefsMarkers orb].
  change (isTag (js "defs") (Element t a (map _ cs)))
    with (isTag (js "defs") (Element t a cs)).
  set (below := isTag (js "defs") (Element t a cs)).
  induction cs as [|c cs IH]; [constructor|].
  cbn [map flat_map]. apply Forall_app. split; [|exact IH].
  apply Forall_app. split; [|apply hideMarkers_marks].
  rewrite (hiddenMore_isTag _ (hideMarkers_hiddenMore c below)).
  destruct (below && isTag (js "marker") c) eqn:M; constructor; [|constructor].
  destruct c as [t' a' cs'|d|d]; try (now rewrite andb_false_r in M).
  unfold hidden. cbn [hideMarkers]. rewrite M. apply lookupAttr_setAttr_same.
Qed.

Lemma descendants_trans (n d : Node) :
  In d (descendants n) -> incl (descendants d) (descendants n).
Proof.
  induction n as [t a cs IH|x|x] using Node_ind'; try (intros []).
  cbn [descendants]. induction IH as [|c cs Hc _ IHcs]; [intros []|].
  cbn [flat_map]. intros H. apply in_app_or in H as [[->|H]|H].
  - intros x Hx. right. apply in_or_app. now left.
  - intros x Hx. right. apply in_or_app. left. now apply (Hc H).
  - intros x Hx. apply in_or_app. right. now apply (IHcs H).
Qed.

Lemma filter_nil_Forall (A : Type) (p : A -> bool) (l : list A) :
  filter p l = [] -> Forall (fun x => p x = false) l.
Proof.
  induction l as [|x l IH]; simpl; [constructor|].
  destruct (p x) eqn:E; [discriminate|]. constructor; auto.
Qed.

Lemma Forall_filter_nil (A : Type) (p : A -> bool) (l : list A) :
  Forall (fun x => p x = false) l -> filter p l = [].
Proof. induction 1 as [|x l Hx _ IH]; simpl; [reflexivity|]. now rewrite Hx. Qed.

Lemma query_nil_inside (sel : Node -> bool) (n d : Node) :
  querySelectorAll sel n = [] -> In d (descendants n) ->
  querySelectorAll sel d = [].
Proof.
  unfold querySelectorAll. intros H Hd. apply filter_nil_Forall in H.
  apply Forall_filter_nil. rewrite Forall_forall in *.
  intros x Hx. apply H. now apply (descendants_trans _ _ Hd).
Qed.

Lemma Forall2_length_eq (A B : Type) (R : A -> B -> Prop) (l : list A) (l' : list B) :
  Forall2 R l l' -> length l = length l'.
Proof. induction 1; simpl; congruence. Qed.

Lemma Forall2_map_l (A B C : Type) (R : B -> C -> Prop) (f : A -> B)
  (l : list A) (l' : list C) :
  Forall2 R (map f l) l' -> Forall2 (fun x y => R (f x) y) l l'.
Proof.
  revert l'. induction l as [|x l IH]; intros l' H; inversion H; subst;
    constructor; auto.
Qed.

Lemma Forall2_with (A B : Type) (P : A -> Prop) (R Q : A -> B -> Prop)
  (l : list A) (l' : list B) :
  (forall x y, P x -> R x y -> Q x y) ->
  Forall P l -> Forall2 R l l' -> Forall2 Q l l'.
Proof.
  intros H HP HR. induction HR; inversion HP; subst; constructor; auto.
Qed.

(** What a processed node group looks like, up to elements hidden later
    on. *)
Lemma processNode_done (g g' : Node) :
  isNodeGroup g = true -> hiddenMore (processNode g) g' -> nodeGroupDone g g'.
Proof.
  intros Hg Hm.
  assert (Hr : hiddenMore (retitle g) g').
  { eapply hiddenMore_trans; [apply processNode_hiddenMore|exact Hm]. }
  destruct g as [t a cs|d|d]; try discriminate.
  destruct (retitle_shape t a cs) as (cs2 & E & _ & Hone).
  split; [|split; [|split]].
  - rewrite (hiddenMore_getAttribute (js "role") eq_refl Hr), E.
    apply lookupAttr_setAttr_same.
  - eapply Forall2_hidden; [|apply processNode_shapes].
    apply hiddenMore_query; [apply stable_isShape|exact Hm].
  - intros Htxt. apply hiddenMore_children in Hr. rewrite E in Hr.
    cbn [children] in Hr.
    destruct (nodeTextOf (Element t a cs)) as [|x txt] eqn:T; [congruence|].
    inversion Hr as [|? c0 ? rest Hc0 Hrest]; subst.
    exists c0, rest. repeat split.
    + unfold isTitle. now rewrite (hiddenMore_isTag _ Hc0).
    + rewrite (hiddenMore_textContent Hc0). unfold titleElement.
      cbn [textContent map concat]. apply app_nil_r.
    + intros Hle. eapply Forall2_untitled; [exact Hrest|].
      specialize (Hone Hle). apply query_nil_children in Hone.
      eapply Forall_impl; [|exact Hone]. now intros c [Hc _].
  - intros Htxt Hle. apply hiddenMore_children in Hr. rewrite E, Htxt in Hr.
    cbn [children] in Hr. eapply Forall2_untitled; [exact Hr|].
    specialize (Hone Hle). apply query_nil_children in Hone.
    eapply Forall_impl; [|exact Hone]. now intros c [Hc _].
Qed.

Lemma processNode_isListItem (g : Node) :
  isNodeGroup g = true -> isListItem (processNode g) = true.
Proof.
  intros Hg. rewrite (stable_isListItem (processNode_hiddenMore g)).
  destruct g as [t a cs|d|d]; try discriminate.
  destruct (retitle_shape t a cs) as (cs2 & -> & _).
  unfold isListItem. cbn [getAttribute]. now rewrite lookupAttr_setAttr_same.
Qed.

(** What the pass does achieve: in a flowchart document that has at least
    one node group, none inside another, it leaves as many node groups as
    there were; each of them has the list-item role, its shapes hidden
    and, when its [text] elements hold text, a first child that is a
    title with that text, the only title child when the group had at most
    one title; no other element gets the list-item role; all edge groups
    and all [marker] elements below a [defs] element are hidden. *)
Theorem applyFlowchartSemantics_node_groups (svg : Node) :
  findFirst isFlowchartMarker svg <> None ->
  querySelectorAll isNodeGroup svg <> [] ->
  noNestedGroups svg ->
  let out := applyFlowchartSemantics svg in
  Forall2 nodeGroupDone (querySelectorAll isNodeGroup svg)
                        (querySelectorAll isNodeGroup out) /\
  (querySelectorAll isListItem svg = [] ->
   length (querySelectorAll isListItem out)
   = length (querySelectorAll isNodeGroup svg)) /\
  Forall hidden (querySelectorAll isEdgeGroup out) /\
  Forall hidden (queryDefsMarkers false out).
Proof.
  intros Hflow Hgroups Hnn out. subst out. unfold applyFlowchartSemantics.
  destruct (findFirst isFlowchartMarker svg); [clear Hflow|congruence].
  destruct (Nat.eqb_spec (length (querySelectorAll isNodeGroup svg)) 0) as [E|_].
  { apply length_zero_iff_nil in E. contradiction. }
  set (mid0 := forEachNodeGroup (height svg) svg).
  set (mid1 := markDescendants isEdgeGroup ariaHidden true_ mid0).
  assert (H01 : hiddenMore mid0 mid1) by apply markDescendants_hiddenMore.
  assert (H12 : hiddenMore mid1 (hideMarkersBelow mid1))
    by apply hideMarkersBelow_hiddenMore.
  assert (H02 : hiddenMore mid0 (hideMarkersBelow mid1))
    by (eapply hiddenMore_trans; eassumption).
  assert (Hall : Forall (fun g => isNodeGroup g = true)
                   (querySelectorAll isNodeGroup svg)).
  { apply Forall_forall. intros g Hg. now apply filter_In in Hg. }
  split; [|split; [|split]].
  - assert (E : querySelectorAll isNodeGroup mid0
                = map processNode (querySelectorAll isNodeGroup svg)).
    { apply forEach_query; try reflexivity.
      - apply shallow_isNodeGroup.
      - apply stable_isNodeGroup.
      - intros g Hg. now rewrite processNode_isNodeGroup.
      - apply Forall_forall. auto.
      - exact Hnn.
      - exact Hnn. }
    pose proof (@hiddenMore_query isNodeGroup _ _ stable_isNodeGroup H02) as F.
    rewrite E in F. apply Forall2_map_l in F.
    eapply Forall2_with; [|exact Hall|exact F].
    intros g g' Hg Hm. now apply processNode_done.
  - intros Hnone.
    assert (E : querySelectorAll isListItem mid0
                = map processNode (querySelectorAll isNodeGroup svg)).
    { apply forEach_query; try reflexivity.
      - apply shallow_isListItem.
      - apply stable_isListItem.
      - apply processNode_isListItem.
      - apply filter_nil_Forall in Hnone. eapply Forall_impl; [|exact Hnone].
        cbv beta. intros d Hd. congruence.
      - apply Forall_forall. intros g Hg. apply filter_In in Hg as [Hg _].
        exact (@query_nil_inside isListItem svg g Hnone Hg).
      - exact Hnn. }
    pose proof (@hiddenMore_query isListItem _ _ stable_isListItem H02) as F.
    apply Forall2_length_eq in F. rewrite <- F, E. apply length_map.
  - eapply Forall2_hidden;
      [apply hiddenMore_query; [apply stable_isEdgeGroup|exact H12]|].
    apply markDescendants_marks; [apply stable_isEdgeGroup|apply shallow_isEdgeGroup].
  - apply hideMarkersBelow_marks.
Qed.

(** A flowchart document without node groups comes back unchanged, its
    arrowhead marker and its edge group not hidden. *)
Lemma nodelessFlowchart_not_hidden :
  findFirst isFlowchartMarker nodelessFlowchart <> None /\
  length (querySelectorAll isNodeGroup nodelessFlowchart) = 0 /\
  applyFlowchartSemantics nodelessFlowchart = nodelessFlowchart /\
  map (getAttribute ariaHidden)
      (queryDefsMarkers false (applyFlowchartSemantics nodelessFlowchart)
       ++ querySelectorAll isEdgeGroup (applyFlowchartSemantics nodelessFlowchart))
  = [None; None] /\
  ~ Forall hidden (queryDefsMarkers false (applyFlowchartSemantics nodelessFlowchart)).
Proof.
  vm_compute. repeat split; try reflexivity; try discriminate.
  intros H. inversion H as [|? ? Hh _]. discriminate Hh.
Qed.

Lemma applyFlowchartSemantics_node_groups_witness :
  length (querySelectorAll isNodeGroup renderedFlowchart) = 2 /\
  Forall2 nodeGroupDone
    (querySelectorAll isNodeGroup renderedFlowchart)
    (querySelectorAll isNodeGroup (applyFlowchartSemantics renderedFlowchart)) /\
  length (querySelectorAll isListItem (applyFlowchartSemantics renderedFlowchart)) = 2 /\
  Forall hidden
    (querySelectorAll isEdgeGroup (applyFlowchartSemantics renderedFlowchart)) /\
  Forall hidden (queryDefsMarkers false (applyFlowchartSemantics renderedFlowchart)).
Proof.
  assert (H1 : findFirst isFlowchartMarker renderedFlowchart <> None)
    by (vm_compute; discriminate).
  assert (H2 : querySelectorAll isNodeGroup renderedFlowchart <> [])
    by (vm_compute; discriminate).
  assert (H3 : noNestedGroups renderedFlowchart)
    by (unfold noNestedGroups; vm_compute; repeat constructor).
  destruct (applyFlowchartSemantics_node_groups H1 H2 H3) as (A & B & C & D).
  split; [vm_compute; reflexivity|]. split; [exact A|].
  split; [exact (B eq_refl)|]. split; [exact C|exact D].
Defined.

(** C9: a flowchart rendered with HTML labels has node groups that hold
    text ("Start", "End") in a [foreignObject] and no [text] element.
    The pass gives both groups the list-item role and hides their shapes,
    but it reads the label from [text] elements only, finds none, and
    gives neither group a title. *)
Theorem applyFlowchartSemantics_html_labels_untitled :
  let groups := querySelectorAll isNodeGroup htmlFlowchart in
  let done := querySelectorAll isNodeGroup (applyFlowchartSemantics htmlFlowchart) in
  findFirst isFlowchartMarker htmlFlowchart <> None /\
  map textContent groups = [js "Start"; js "End"] /\
  map nodeTextOf groups = [[]; []] /\
  length done = 2 /\
  Forall (fun g => isListItem g = true /\ querySelectorAll isTitle g = []) done.
Proof.
  vm_compute. split; [discriminate|]. repeat split; repeat constructor.
Qed.

(** ** The accessibility transformer *)

Lemma removeExisting_Element (t : jsstring) (a : list (jsstring * jsstring))
  (cs : list Node) :
  exists rest, removeExisting (Element t a cs) = Element t a rest.
Proof.
  unfold removeExisting.
  destruct (findFirst isTitle (Element t a cs)) as [p|].
  - destruct (removeAt_Element p t a cs) as [cs2 E]. rewrite E.
    destruct (findFirst isDesc (Element t a cs)) as [q|]; [|eauto].
    destruct (inside p q); [eauto|].
    destruct (findFirst isDesc (Element t a cs2)) as [q'|]; [|eauto].
    apply removeAt_Element.
  - destruct (findFirst isDesc (Element t a cs)) as [q|]; [|eauto].
    apply removeAt_Element.
Qed.

(** On its own output the removal takes away the title and the desc that
    were inserted, and nothing else. *)
Lemma removeExisting_fresh (t : jsstring) (a at_ ad : list (jsstring * jsstring))
  (x y : jsstring) (rest : list Node) :
  removeExisting (Element t a (titleElement at_ x :: descElement ad y :: rest))
  = Element t a rest.
Proof. reflexivity. Qed.

Lemma removeExisting_fresh_swapped (t : jsstring)
  (a at_ ad : list (jsstring * jsstring)) (x y : jsstring) :
  removeExisting (Element t a [descElement ad y; titleElement at_ x])
  = Element t a [].
Proof. reflexivity. Qed.

Lemma processNode_isTag (s : jsstring) (c : Node) :
  isTag s (processNode c) = isTag s c.
Proof.
  rewrite (hiddenMore_isTag s (processNode_hiddenMore c)).
  destruct c as [t a cs|d|d]; try reflexivity.
  now destruct (retitle_shape t a cs) as (cs2 & -> & _).
Qed.

(** The flowchart pass keeps the root and maps its children one by one,
    keeping their names and leaving alone the elements that hold nothing
    but a text. *)
Lemma applyFlowchartSemantics_shape (t : jsstring)
  (a : list (jsstring * jsstring)) (cs : list Node) :
  exists G : Node -> Node,
    applyFlowchartSemantics (Element t a cs) = Element t a (map G cs) /\
    (forall s c, isTag s (G c) = isTag s c) /\
    (forall tg at_ x, isTag (js "g") (Element tg at_ [Text x]) = false ->
                      isTag (js "marker") (Element tg at_ [Text x]) = false ->
                      G (Element tg at_ [Text x]) = Element tg at_ [Text x]).
Proof.
  unfold applyFlowchartSemantics.
  destruct (findFirst isFlowchartMarker (Element t a cs));
    [destruct (Nat.eqb _ 0)|];
    try (exists (fun c => c); split; [now rewrite map_id|split; reflexivity]).
  set (f := fold_right (fun c h => Nat.max (height c) h) 0 cs).
  set (b := isTag (js "defs") (Element t a cs)).
  exists (fun c => hideMarkers b
                     (markAll isEdgeGroup ariaHidden true_
                        (forEachNodeGroup f
                           (if isNodeGroup c then processNode c else c)))).
  split; [|split].
  - cbn [height forEachNodeGroup markDescendants hideMarkersBelow].
    now rewrite !map_map.
  - intros s c.
    rewrite (hiddenMore_isTag s (hideMarkers_hiddenMore _ b)).
    rewrite (hiddenMore_isTag s (markAll_hiddenMore isEdgeGroup _)).
    rewrite (@forEach_shallow (isTag s) f _ (shallow_isTag s)).
    destruct (isNodeGroup c); [apply processNode_isTag|reflexivity].
  - intros tg at_ x Hg Hm.
    assert (E1 : isNodeGroup (Element tg at_ [Text x]) = false).
    { unfold isNodeGroup. now rewrite Hg. }
    assert (E2 : isEdgeGroup (Element tg at_ [Text x]) = false).
    { unfold isEdgeGroup. now rewrite Hg. }
    rewrite E1, forEach_no_groups by reflexivity.
    cbn [markAll map]. rewrite E2. cbn [hideMarkers map]. rewrite Hm.
    now rewrite andb_false_r.
Qed.


Lemma countTag_map (s : jsstring) (G : Node -> Node) (cs : list Node) :
  (forall c, isTag s (G c) = isTag s c) -> countTag s (map G cs) = countTag s cs.
Proof.
  intros H. unfold countTag. induction cs as [|c cs IH]; [reflexivity|].
  cbn [map filter]. rewrite H. destruct (isTag s c); simpl; congruence.
Qed.

Lemma countTag_cons (s : jsstring) (c : Node) (cs : list Node) :
  countTag s (c :: cs) = (if isTag s c then 1 else 0) + countTag s cs.
Proof. unfold countTag. cbn [filter]. now destruct (isTag s c). Qed.

(** The document a run with a title returns: the root with its three
    attributes set and, in front of what was left of its children, the new
    title and the new desc. *)
Lemma transformRoot_shape (e1 e2 : Entropy) (t : jsstring)
  (a : list (jsstring * jsstring)) (cs rest : list Node) (md : Metadata) :
  truthy (title md) = true ->
  removeExisting (Element t (setAttr (js "role") (js "img") a) cs)
  = Element t (setAttr (js "role") (js "img") a) rest ->
  exists G : Node -> Node,
    (forall s c, isTag s (G c) = isTag s c) /\
    transformRoot e1 e2 (Element t a cs) md
    = Returned
        (Element t
           (setAttr (js "xmlns") svgNS
              (setAttr labelledby (labelOf e1 e2 md)
                 (setAttr (js "role") (js "img") a)))
           (let T := titleElement [(js "id", titleIdOf e1)] (text_of (title md)) in
            let D := descElement [(js "id", descIdOf e2)]
                       (text_of (description md)) in
            if truthy (description md)
            then match rest with
                 | [] => [D; T]
                 | _ :: _ => T :: D :: map G rest
                 end
            else T :: map G rest)).
Proof.
  intros Ht Hrem. unfold transformRoot, labelOf. cbn [setAttribute].
  rewrite Hrem, Ht. cbn [insertChild insertAt firstn skipn app andb].
  fold (titleIdOf e1). fold (descIdOf e2).
  set (T := titleElement [(js "id", titleIdOf e1)] (text_of (title md))).
  set (D := descElement [(js "id", descIdOf e2)] (text_of (description md))).
  set (a1 := setAttr (js "role") (js "img") a).
  destruct (truthy (description md)).
  - destruct rest as [|r rest].
    + change (insertDesc D (Element t a1 [T])) with (Returned (Element t a1 [D; T])).
      cbv iota beta. cbn [setAttribute].
      destruct (applyFlowchartSemantics_shape t
                  (setAttr labelledby (titleIdOf e1 ++ js " " ++ descIdOf e2) a1)
                  [D; T]) as (G & -> & Htag & Hleaf).
      exists G. split; [exact Htag|]. cbn [setAttribute map].
      unfold D, T, descElement, titleElement. now rewrite !Hleaf.
    + change (insertDesc D (Element t a1 (T :: r :: rest)))
        with (Returned (Element t a1 (T :: D :: r :: rest))).
      cbv iota beta. cbn [setAttribute].
      destruct (applyFlowchartSemantics_shape t
                  (setAttr labelledby (titleIdOf e1 ++ js " " ++ descIdOf e2) a1)
                  (T :: D :: r :: rest)) as (G & -> & Htag & Hleaf).
      exists G. split; [exact Htag|]. cbn [setAttribute map].
      unfold D, T, descElement, titleElement. now rewrite !Hleaf.
  - cbn [setAttribute].
    destruct (applyFlowchartSemantics_shape t (setAttr labelledby (titleIdOf e1) a1)
                (T :: rest)) as (G & -> & Htag & Hleaf).
    exists G. split; [exact Htag|]. cbn [setAttribute map].
    unfold T, titleElement. now rewrite !Hleaf.
Qed.

(** C1 (as amended): with a title that is neither null nor empty, the
    transformer returns a document whose root has the role [img] and an
    [aria-labelledby] made of the generated title id, followed by the
    generated desc id when the description is neither null nor empty; the
    title (and desc) elements with these ids are children of the root.
    Run again on this document, with a title and a description, it
    returns a document whose root has as many title children and as many
    desc children as before. *)
Theorem transformRoot_labels (e1 e2 : Entropy) (t : jsstring)
  (a : list (jsstring * jsstring)) (cs : list Node) (md : Metadata) :
  truthy (title md) = true ->
  exists out,
    transformRoot e1 e2 (Element t a cs) md = Returned out /\
    getAttribute (js "role") out = Some (js "img") /\
    getAttribute labelledby out = Some (labelOf e1 e2 md) /\
    In (titleElement [(js "id", titleIdOf e1)] (text_of (title md))) (children out) /\
    (truthy (description md) = true ->
     In (descElement [(js "id", descIdOf e2)] (text_of (description md)))
        (children out) /\
     forall e3 e4 md',
       truthy (title md') = true -> truthy (description md') = true ->
       exists out2,
         transformRoot e3 e4 out md' = Returned out2 /\
         getAttribute labelledby out2
         = Some (titleIdOf e3 ++ js " " ++ descIdOf e4) /\
         countTag (js "title") (children out2) = countTag (js "title") (children out) /\
         countTag (js "desc") (children out2) = countTag (js "desc") (children out)).
Proof.
  intros Ht.
  destruct (removeExisting_Element t (setAttr (js "role") (js "img") a) cs)
    as [rest Hrem].
  destruct (@transformRoot_shape e1 e2 t a cs rest md Ht Hrem) as (G & Htag & E).
  eexists. split; [exact E|]. clear E.
  split; [|split; [|split]].
  - cbn [getAttribute]. rewrite !lookupAttr_setAttr_other by reflexivity.
    apply lookupAttr_setAttr_same.
  - cbn [getAttribute]. rewrite lookupAttr_setAttr_other by reflexivity.
    apply lookupAttr_setAttr_same.
  - cbn [children]. destruct (truthy (description md)); [destruct rest|];
      cbn [In]; auto.
  - intros Hd. rewrite Hd. split.
    + cbn [children]. destruct rest; cbn [In]; auto.
    + intros e3 e4 md' Ht' Hd'.
      set (a3 := setAttr (js "xmlns") svgNS
                   (setAttr labelledby (labelOf e1 e2 md)
                      (setAttr (js "role") (js "img") a))).
      set (T := titleElement [(js "id", titleIdOf e1)] (text_of (title md))).
      set (D := descElement [(js "id", descIdOf e2)] (text_of (description md))).
      assert (Hlab : forall (x : list (jsstring * jsstring)) v,
                 lookupAttr labelledby
                   (setAttr (js "xmlns") svgNS (setAttr labelledby v x)) = Some v).
      { intros x v. rewrite lookupAttr_setAttr_other by reflexivity.
        apply lookupAttr_setAttr_same. }
      destruct rest as [|r rest]; cbv zeta iota beta.
      * pose proof (removeExisting_fresh_swapped t
                      (setAttr (js "role") (js "img") a3)
                      [(js "id", titleIdOf e1)] [(js "id", descIdOf e2)]
                      (text_of (title md)) (text_of (description md))) as Hrem'.
        destruct (@transformRoot_shape e3 e4 t a3 [D; T] [] md' Ht' Hrem')
          as (G' & Htag' & E').
        eexists. split; [exact E'|]. rewrite Hd'. unfold labelOf. rewrite Hd'.
        split; [apply Hlab|]. cbv zeta iota beta. split; reflexivity.
      * pose proof (removeExisting_fresh t
                      (setAttr (js "role") (js "img") a3)
                      [(js "id", titleIdOf e1)] [(js "id", descIdOf e2)]
                      (text_of (title md)) (text_of (description md))
                      (map G (r :: rest))) as Hrem'.
        destruct (@transformRoot_shape e3 e4 t a3 (T :: D :: map G (r :: rest))
                    (map G (r :: rest)) md' Ht' Hrem') as (G' & Htag' & E').
        eexists. split; [exact E'|]. rewrite Hd'. unfold labelOf. rewrite Hd'.
        split; [apply Hlab|].
        cbn [map]. cbv zeta iota beta. cbn [children].
        rewrite !(countTag_cons _ (titleElement _ _)), !(countTag_cons _ (descElement _ _)).
        subst T D. rewrite !(countTag_cons _ (titleElement _ _)),
          !(countTag_cons _ (descElement _ _)).
        change (G' (G r) :: map G' (map G rest)) with (map G' (G r :: map G rest)).
        rewrite !(countTag_map _ _ _ (Htag' _)). split; reflexivity.
Qed.

(** C1: a title that is the empty string is not null, but the transformer
    treats it as absent: no title element is inserted and the root gets no
    [aria-labelledby], although the description is there. *)
Lemma transformRoot_empty_title :
  title emptyTitleMetadata <> None /\
  description emptyTitleMetadata <> None /\
  exists out,
    transformRoot sampleEntropy1 sampleEntropy2 renderedFlowchart emptyTitleMetadata
    = Returned out /\
    getAttribute labelledby out = None /\
    countTag (js "title") (children out) = 0 /\
    countTag (js "desc") (children out) = 1.
Proof.
  split; [discriminate|]. split; [discriminate|].
  eexists. split; [vm_compute; reflexivity|]. vm_compute. repeat split.
Qed.

Lemma transformRoot_labels_witness :
  truthy (title sampleMetadata) = true /\
  exists out,
    transformRoot sampleEntropy1 sampleEntropy2 renderedFlowchart sampleMetadata
    = Returned out /\
    getAttribute (js "role") out = Some (js "img") /\
    getAttribute labelledby out
    = Some (js "title-1767225600000-k3j9x2q7a desc-1767225600001-p0m4z8c1b") /\
    exists out2,
      transformRoot sampleEntropy3 sampleEntropy4 out sampleMetadata = Returned out2 /\
      countTag (js "title") (children out2) = countTag (js "title") (children out) /\
      countTag (js "desc") (children out2) = countTag (js "desc") (children out).
Proof.
  split; [reflexivity|].
  destruct (transformRoot_labels sampleEntropy1 sampleEntropy2 (js "svg")
              [(js "id", js "mermaid-diagram")] (children renderedFlowchart)
              sampleMetadata eq_refl) as (out & E & R & L & _ & H).
  destruct (H eq_refl) as (_ & Hrun).
  destruct (Hrun sampleEntropy3 sampleEntropy4 sampleMetadata eq_refl eq_refl)
    as (out2 & E2 & _ & C1 & C2).
  exists out. split; [exact E|]. split; [exact R|]. split; [exact L|].
  exists out2. split; [exact E2|]. split; [exact C1|exact C2].
Defined.

(** With a title the transformer never throws, whatever the document. *)
Lemma transformRoot_returns (e1 e2 : Entropy) (root : Node) (md : Metadata) :
  truthy (title md) = true ->
  exists out, transformRoot e1 e2 root md = Returned out.
Proof.
  intros Ht. destruct root as [t a cs|d|d].
  - destruct (removeExisting_Element t (setAttr (js "role") (js "img") a) cs)
      as [rest Hrem].
    destruct (@transformRoot_shape e1 e2 t a cs rest md Ht Hrem) as (G & _ & E).
    eauto.
  - unfold transformRoot. rewrite Ht.
    destruct (truthy (description md)); eexists; reflexivity.
  - unfold transformRoot. rewrite Ht.
    destruct (truthy (description md)); eexists; reflexivity.
Qed.

(** C7: when the markup does not parse, which [parseSvgSafely] detects by
    the [parsererror] element of the document it gets, the transformer
    does not check for that element: it decorates the error document and
    returns its serialization like any other result. *)
Theorem transformer_ignores_parse_error (B : Browser) (e1 e2 : Entropy)
  (svgString : jsstring) (md : Metadata) :
  ok (parseSvgSafely B svgString) = false ->
  truthy (title md) = true ->
  exists doc,
    transformRoot e1 e2 (parseFromString B svgString) md = Returned doc /\
    applyAccessibilityTransformations B e1 e2 svgString md
    = Returned (serializeToString B doc).
Proof.
  intros _ Ht.
  destruct (transformRoot_returns e1 e2 (parseFromString B svgString) md Ht)
    as (doc & E).
  exists doc. split; [exact E|].
  unfold applyAccessibilityTransformations. now rewrite E.
Qed.

Lemma transformer_ignores_parse_error_witness :
  ok (parseSvgSafely failingBrowser brokenMarkup) = false /\
  truthy (title sampleMetadata) = true /\
  exists doc,
    transformRoot sampleEntropy1 sampleEntropy2
      (parseFromString failingBrowser brokenMarkup) sampleMetadata = Returned doc /\
    applyAccessibilityTransformations failingBrowser sampleEntropy1 sampleEntropy2
      brokenMarkup sampleMetadata
    = Returned (serializeToString failingBrowser doc).
Proof.
  split; [reflexivity|]. split; [reflexivity|].
  apply (transformer_ignores_parse_error failingBrowser sampleEntropy1
           sampleEntropy2 brokenMarkup sampleMetadata); reflexivity.
Defined.

(** On broken markup the transformer returns the text of the decorated
    error document. *)
Example transformer_on_broken_markup :
  applyAccessibilityTransformations failingBrowser sampleEntropy1 sampleEntropy2
    brokenMarkup sampleMetadata
  = Returned (js "Login flowFrom start to end.error on line 1 at column 13: Opening and ending tag mismatch").
Proof. vm_compute. reflexivity. Qed.

(* ================================================================== *)
(** * Part III: further properties of the code *)
(* ================================================================== *)

(** ** Escaping ([escapeHtml]) *)

(** The four code units the serializer replaces. *)
Lemma escapeHtml_cons (c : char) (t : jsstring) :
  escapeHtml (c :: t) =
  (if (c =? 38)%N then js "&amp;"
   else if (c =? 160)%N then js "&nbsp;"
   else if (c =? 60)%N then js "&lt;"
   else if (c =? 62)%N then js "&gt;"
   else [c]) ++ escapeHtml t.
Proof. reflexivity. Qed.

Lemma escapeHtml_app (a b : jsstring) :
  escapeHtml (a ++ b) = escapeHtml a ++ escapeHtml b.
Proof.
  induction a as [|c a IH]; [reflexivity|].
  cbn [app]. rewrite !escapeHtml_cons, IH. now rewrite app_assoc.
Qed.

(** An occurrence of [x] in [body ++ e], where [x] is not in [body], is an
    occurrence in [e]. *)
Lemma split_past (A : Type) (x : A) (body e pre post : list A) :
  ~ In x body -> pre ++ x :: post = body ++ e ->
  exists pre', pre = body ++ pre' /\ pre' ++ x :: post = e.
Proof.
  revert pre. induction body as [|b body IH]; intros pre Hn H.
  - now exists pre.
  - destruct pre as [|p pre]; cbn [app] in H; injection H as Hh Ht.
    + subst. exfalso. apply Hn. now left.
    + subst p. destruct (IH pre) as (pre' & -> & E); [|exact Ht|].
      * intros Hi. apply Hn. now right.
      * now exists pre'.
Qed.

Lemma escapeHtml_ampersand (s pre post : jsstring) :
  escapeHtml s = pre ++ 38%N :: post -> entityTail post.
Proof.
  revert pre. induction s as [|c t IH]; intros pre H.
  - destruct pre; discriminate.
  - rewrite escapeHtml_cons in H.
    assert (Hent : forall body : jsstring,
               ~ In 38%N body -> startsWith (body ++ escapeHtml t) body = true ->
               (38%N :: body) ++ escapeHtml t = pre ++ 38%N :: post ->
               startsWith post body = true \/ entityTail post).
    { intros body Hb Hs E. destruct pre as [|p pre]; cbn [app] in E.
      - injection E as <-. now left.
      - injection E as _ E. symmetry in E.
        destruct (@split_past _ 38%N body (escapeHtml t) pre post Hb E) as (pre' & _ & E').
        right. now apply (IH pre'). }
    destruct (c =? 38)%N eqn:C1; [|destruct (c =? 160)%N eqn:C2;
      [|destruct (c =? 60)%N eqn:C3; [|destruct (c =? 62)%N eqn:C4]]].
    + destruct (Hent (js "amp;")) as [Hs|Hs];
        [vm_compute; intuition discriminate|apply startsWith_app_same|exact H| |exact Hs].
      now left.
    + destruct (Hent (js "nbsp;")) as [Hs|Hs];
        [vm_compute; intuition discriminate|apply startsWith_app_same|exact H| |exact Hs].
      right. now left.
    + destruct (Hent (js "lt;")) as [Hs|Hs];
        [vm_compute; intuition discriminate|apply startsWith_app_same|exact H| |exact Hs].
      right. right. now left.
    + destruct (Hent (js "gt;")) as [Hs|Hs];
        [vm_compute; intuition discriminate|apply startsWith_app_same|exact H| |exact Hs].
      right. right. now right.
    + destruct pre as [|p pre]; cbn [app] in H.
      * injection H as -> _. now rewrite N.eqb_refl in C1.
      * injection H as _ H. now apply (IH pre).
Qed.

Lemma escapeHtml_no (x : char) (s : jsstring) :
  In x [60%N; 62%N; 160%N] -> ~ In x (escapeHtml s).
Proof.
  intros Hx. induction s as [|c t IH]; [intros []|].
  rewrite escapeHtml_cons. intros Hin. apply in_app_or in Hin as [Hin|Hin]; [|auto].
  destruct (c =? 38)%N eqn:C1; [|destruct (c =? 160)%N eqn:C2;
    [|destruct (c =? 60)%N eqn:C3; [|destruct (c =? 62)%N eqn:C4]]].
  1-4: vm_compute in Hin, Hx; intuition congruence.
  destruct Hin as [<-|[]]. apply N.eqb_neq in C2, C3, C4.
  cbn [In] in Hx. intuition congruence.
Qed.

(** The escaped text holds no [<], no [>] and no no-break space, and each
    of its ampersands starts one of the four entities [&amp;], [&nbsp;],
    [&lt;], [&gt;]: read as HTML it is text only. *)
Theorem escapeHtml_is_text (s : jsstring) :
  ~ In 60%N (escapeHtml s) /\ ~ In 62%N (escapeHtml s) /\
  ~ In 160%N (escapeHtml s) /\
  forall pre post, escapeHtml s = pre ++ 38%N :: post ->
    startsWith post (js "amp;") = true \/ startsWith post (js "nbsp;") = true \/
    startsWith post (js "lt;") = true \/ startsWith post (js "gt;") = true.
Proof.
  repeat split; try (apply escapeHtml_no; cbn [In]; tauto).
  intros pre post H. exact (@escapeHtml_ampersand s pre post H).
Qed.

Lemma escapeHtml_inj (a b : jsstring) :
  escapeHtml a = escapeHtml b -> a = b.
Proof.
  revert b. induction a as [|c a IH]; intros [|d b] H.
  - reflexivity.
  - rewrite escapeHtml_cons in H.
    destruct (d =? 38)%N; [|destruct (d =? 160)%N;
      [|destruct (d =? 60)%N; [|destruct (d =? 62)%N]]]; discriminate.
  - rewrite escapeHtml_cons in H.
    destruct (c =? 38)%N; [|destruct (c =? 160)%N;
      [|destruct (c =? 60)%N; [|destruct (c =? 62)%N]]]; discriminate.
  - rewrite !escapeHtml_cons in H.
    destruct (N.eqb_spec c 38); [|destruct (N.eqb_spec c 160);
      [|destruct (N.eqb_spec c 60); [|destruct (N.eqb_spec c 62)]]];
    (destruct (N.eqb_spec d 38); [|destruct (N.eqb_spec d 160);
      [|destruct (N.eqb_spec d 60); [|destruct (N.eqb_spec d 62)]]]);
    unfold js in H; cbn [map list_ascii_of_string N_of_ascii N_of_digits app] in H;
    cbn in H; try discriminate;
    injection H; intros; subst; try congruence; f_equal; auto.
Qed.

(** Escaping loses nothing: two different texts have different escaped
    forms. *)
Theorem escapeHtml_injective (a b : jsstring) :
  a <> b -> escapeHtml a <> escapeHtml b.
Proof. intros N E. apply N. now apply escapeHtml_inj. Qed.

Lemma escapeHtml_injective_witness :
  escapeHtml (js "<") <> escapeHtml (js "&lt;").
Proof. apply escapeHtml_injective. discriminate. Defined.

Lemma escapeHtml_length (s : jsstring) : length s <= length (escapeHtml s).
Proof.
  induction s as [|c t IH]; [reflexivity|].
  rewrite escapeHtml_cons, length_app. cbn [length].
  destruct (c =? 38)%N; [|destruct (c =? 160)%N;
    [|destruct (c =? 60)%N; [|destruct (c =? 62)%N]]]; cbn [js length map list_ascii_of_string]; lia.
Qed.

(** A text comes back unchanged exactly when it holds none of the four
    replaced code units; quotes, in particular, are never escaped. *)
Theorem escapeHtml_unchanged_iff (s : jsstring) :
  escapeHtml s = s <-> Forall (fun c => escaped c = false) s.
Proof.
  split.
  - induction s as [|c t IH]; [constructor|].
    rewrite escapeHtml_cons. unfold escaped. intros H.
    pose proof (escapeHtml_length t) as L.
    destruct (c =? 38)%N eqn:C1; [|destruct (c =? 160)%N eqn:C2;
      [|destruct (c =? 60)%N eqn:C3; [|destruct (c =? 62)%N eqn:C4]]].
    1-4: exfalso; apply (f_equal (@length _)) in H;
         rewrite length_app in H; cbn in H; lia.
    injection H as H. constructor; [now rewrite C1, C2, C3, C4|auto].
  - induction 1 as [|c t Hc _ IH]; [reflexivity|].
    rewrite escapeHtml_cons. unfold escaped in Hc.
    apply orb_false_iff in Hc as [Hc C4]. apply orb_false_iff in Hc as [Hc C3].
    apply orb_false_iff in Hc as [C1 C2]. rewrite C1, C2, C3, C4. cbn [app].
    now rewrite IH.
Qed.

(** ** Frontmatter and classification *)

Lemma trimEnd_blank_app (a b : jsstring) :
  trimEnd b = [] -> trimEnd (a ++ b) = trimEnd a.
Proof.
  intros Hb. induction a as [|c a IH]; [exact Hb|].
  cbn [app]. now rewrite !trimEnd_cons, IH.
Qed.

Lemma trimStart_app (a r : jsstring) :
  trimStart a <> [] -> trimStart (a ++ r) = trimStart a ++ r.
Proof.
  induction a as [|c a IH]; intros H; [contradiction|].
  cbn [app trimStart] in *. destruct (isWhiteSpace c); [now apply IH|reflexivity].
Qed.

Lemma trimStart_allWs (w r : jsstring) : allWs w -> trimStart (w ++ r) = trimStart r.
Proof. induction 1 as [|c w Hc _ IH]; [reflexivity|]. cbn [app trimStart]. now rewrite Hc. Qed.

Lemma trimStart_idem (s : jsstring) : trimStart (trimStart s) = trimStart s.
Proof.
  induction s as [|c s IH]; [reflexivity|]. cbn [trimStart].
  destruct (isWhiteSpace c) eqn:E; [exact IH|]. cbn [trimStart]. now rewrite E.
Qed.

Lemma trimStart_suffix (s : jsstring) : exists w, s = w ++ trimStart s /\ allWs w.
Proof.
  induction s as [|c s (w & E & Hw)]; [exists []; split; [reflexivity|constructor]|].
  cbn [trimStart]. destruct (isWhiteSpace c) eqn:C.
  - exists (c :: w). split; [cbn [app]; now rewrite <- E|now constructor].
  - exists []. split; [reflexivity|constructor].
Qed.

Lemma trim_idem (s : jsstring) : trim (trim s) = trim s.
Proof.
  unfold trim. rewrite (trim_commute s), trimStart_idem, <- (trim_commute s).
  apply trimEnd_idem.
Qed.

Lemma isFence_trimStart (l : jsstring) : isFence (trimStart l) = isFence l.
Proof. unfold isFence, trim. now rewrite trimStart_idem. Qed.

Lemma isFence_nonblank (l : jsstring) :
  isFence l = true -> trimStart l <> [] /\ trimEnd l <> [].
Proof.
  unfold isFence. intros H. apply str_eqb_eq in H. split; intros E.
  - unfold trim in H. rewrite E in H. discriminate.
  - unfold trim in H. rewrite trim_commute, E in H. discriminate.
Qed.

Lemma join_nl_cons (l : jsstring) (ls : list jsstring) :
  ls <> [] -> join_nl (l :: ls) = l ++ LF :: join_nl ls.
Proof. destruct ls; [contradiction|reflexivity]. Qed.

Lemma join_nl_snoc (ls : list jsstring) (z : jsstring) :
  ls <> [] -> join_nl (ls ++ [z]) = join_nl ls ++ LF :: z.
Proof.
  induction ls as [|l ls IH]; intros H; [contradiction|].
  destruct ls as [|l' ls]; [reflexivity|].
  change ((l :: l' :: ls) ++ [z]) with (l :: (l' :: ls) ++ [z]).
  rewrite join_nl_cons by (destruct ls; discriminate).
  rewrite IH by discriminate. rewrite (@join_nl_cons l (l' :: ls)) by discriminate.
  now rewrite <- app_assoc.
Qed.

Lemma join_split_nl (s : jsstring) : join_nl (split_nl s) = s.
Proof.
  induction s as [|c t IH]; [reflexivity|].
  cbn [split_nl]. destruct (c =? LF)%N eqn:C.
  - apply N.eqb_eq in C. subst c.
    rewrite join_nl_cons by apply split_nl_nonempty. now rewrite IH.
  - destruct (split_nl t) as [|l ls] eqn:E; [now destruct (split_nl_nonempty t)|].
    destruct ls as [|l' ls]; cbn [join_nl app] in *; now rewrite IH.
Qed.

Lemma split_nl_join_app (ls : list jsstring) (r : jsstring) :
  ls <> [] -> Forall (fun l => ~ In LF l) ls ->
  split_nl (join_nl ls ++ LF :: r) = ls ++ split_nl r.
Proof.
  induction ls as [|l ls IH]; intros Hne H; [contradiction|].
  inversion H as [|? ? Hl Hls]; subst.
  destruct ls as [|l' ls].
  - cbn [join_nl app]. now apply split_nl_app.
  - rewrite join_nl_cons by discriminate. rewrite <- app_assoc. cbn [app].
    rewrite split_nl_app by exact Hl. cbn [app]. f_equal.
    apply IH; [discriminate|exact Hls].
Qed.

Lemma afterClosing_app (yaml : list jsstring) (f2 : jsstring) (r : list jsstring) :
  Forall (fun l => isFence l = false) yaml -> isFence f2 = true ->
  afterClosing (yaml ++ f2 :: r) = Some r.
Proof.
  intros Hy Hf. induction Hy as [|l yaml Hl _ IH]; cbn [app afterClosing].
  - now rewrite Hf.
  - now rewrite Hl.
Qed.

Lemma trimStart_noLF (l : jsstring) : ~ In LF l -> ~ In LF (trimStart l).
Proof.
  destruct (trimStart_suffix l) as (w & E & _). intros H Hin. apply H.
  rewrite E. apply in_or_app. now right.
Qed.

Lemma trimEnd_noLF (l : jsstring) : ~ In LF l -> ~ In LF (trimEnd l).
Proof.
  induction l as [|c l IH]; [auto|]. rewrite trimEnd_cons. intros H.
  assert (Hl : ~ In LF l) by (intros Hi; apply H; now right).
  assert (Hc : c <> LF) by (intros ->; apply H; now left).
  destruct (trimEnd l) eqn:E.
  - destruct (isWhiteSpace c); [auto|]. intros [Hi|[]]. congruence.
  - intros [Hi|Hi]; [congruence|]. now apply IH.
Qed.

(** What [skipFrontmatter] returns for a text that starts with a fenced
    block. *)
Lemma skipFrontmatter_block_eq (f1 f2 : jsstring) (yaml : list jsstring)
  (b : jsstring) :
  isFence f1 = true -> isFence f2 = true -> ~ In LF f1 -> ~ In LF f2 ->
  Forall (fun l => ~ In LF l /\ isFence l = false) yaml ->
  skipFrontmatter (join_nl (f1 :: yaml ++ [f2]) ++ LF :: b) = trimEnd b.
Proof.
  intros F1 F2 N1 N2 Hy.
  assert (Hy1 : Forall (fun l => ~ In LF l) yaml)
    by (eapply Forall_impl; [|exact Hy]; cbv beta; tauto).
  assert (Hy2 : Forall (fun l => isFence l = false) yaml)
    by (eapply Forall_impl; [|exact Hy]; cbv beta; tauto).
  destruct (isFence_nonblank _ F1) as [S1 _].
  destruct (isFence_nonblank _ F2) as [_ E2].
  unfold skipFrontmatter, trim.
  rewrite join_nl_cons by (destruct yaml; discriminate).
  rewrite <- app_assoc. rewrite trimStart_app by exact S1.
  set (g1 := trimStart f1).
  assert (G1 : isFence g1 = true) by (unfold g1; now rewrite isFence_trimStart).
  assert (NG : ~ In LF g1) by now apply trimStart_noLF.
  destruct (trimEnd b) as [|x b'] eqn:B.
  - (* nothing visible after the block *)
    change (g1 ++ (LF :: join_nl (yaml ++ [f2])) ++ LF :: b)
      with (g1 ++ LF :: join_nl (yaml ++ [f2]) ++ LF :: b).
    assert (E : trimEnd (g1 ++ LF :: join_nl (yaml ++ [f2]) ++ LF :: b)
                = join_nl (g1 :: yaml ++ [trimEnd f2])).
    { replace (g1 ++ LF :: join_nl (yaml ++ [f2]) ++ LF :: b)
        with ((join_nl (g1 :: yaml) ++ LF :: f2) ++ LF :: b).
      2:{ rewrite <- join_nl_snoc by discriminate. cbn [app].
          rewrite join_nl_cons by (destruct yaml; discriminate).
          now rewrite <- app_assoc. }
      rewrite trimEnd_blank_app
        by (rewrite trimEnd_cons, B; reflexivity).
      change (join_nl (g1 :: yaml) ++ LF :: f2)
        with (join_nl (g1 :: yaml) ++ [LF] ++ f2).
      rewrite app_assoc, trimEnd_app by exact E2.
      rewrite <- app_assoc. cbn [app].
      rewrite <- join_nl_snoc by discriminate. reflexivity. }
    rewrite E. rewrite split_join_nl; [|discriminate|].
    2:{ constructor; [exact NG|]. apply Forall_app. split; [exact Hy1|].
        constructor; [now apply trimEnd_noLF|constructor]. }
    rewrite G1. rewrite afterClosing_app; [reflexivity|exact Hy2|].
    now rewrite isFence_trimEnd.
  - change (g1 ++ (LF :: join_nl (yaml ++ [f2])) ++ LF :: b)
      with (g1 ++ LF :: join_nl (yaml ++ [f2]) ++ LF :: b).
    replace (g1 ++ LF :: join_nl (yaml ++ [f2]) ++ LF :: b)
      with (join_nl (g1 :: yaml ++ [f2]) ++ LF :: b).
    2:{ rewrite join_nl_cons by (destruct yaml; discriminate).
        now rewrite <- app_assoc. }
    change (LF :: b) with ([LF] ++ b).
    rewrite app_assoc, trimEnd_app by (rewrite B; discriminate).
    rewrite <- app_assoc. cbn [app].
    rewrite split_nl_join_app; [|discriminate|].
    2:{ constructor; [exact NG|]. apply Forall_app. split; [exact Hy1|].
        constructor; [exact N2|constructor]. }
    cbn [app]. rewrite G1. rewrite <- app_assoc. cbn [app].
    rewrite afterClosing_app by assumption.
    rewrite B. apply join_split_nl.
Qed.

(** A leading block of lines between two fence lines is removed whole:
    what is left is the text after the closing fence, without its
    trailing white space.  The fence lines may be indented, the block may
    be empty, and no line of the block is itself a fence. *)
Theorem skipFrontmatter_strips_block (f1 f2 : jsstring) (yaml : list jsstring)
  (b : jsstring) :
  isFence f1 = true -> isFence f2 = true -> ~ In LF f1 -> ~ In LF f2 ->
  Forall (fun l => ~ In LF l /\ isFence l = false) yaml ->
  skipFrontmatter (join_nl (f1 :: yaml ++ [f2]) ++ LF :: b) = trimEnd b.
Proof. exact (@skipFrontmatter_block_eq f1 f2 yaml b). Qed.

Lemma skipFrontmatter_strips_block_witness :
  skipFrontmatter
    (join_nl (js "---" :: map js ["config:"; "  theme: dark"]%string ++ [js " ---"])
       ++ LF :: js "pie title Pets ")
  = js "pie title Pets".
Proof.
  change (js "pie title Pets") with (trimEnd (js "pie title Pets ")).
  apply (@skipFrontmatter_strips_block (js "---") (js " ---")
           (map js ["config:"; "  theme: dark"]%string) (js "pie title Pets "));
    try reflexivity; try (vm_compute; intuition discriminate).
  repeat constructor; vm_compute; intuition discriminate.
Defined.

Lemma firstLineOf_trimEnd (b : jsstring) : firstLineOf (trimEnd b) = firstLineOf b.
Proof. unfold firstLineOf. now rewrite trim_trimEnd. Qed.

(** Classifying what [skipFrontmatter] leaves of a text with a leading
    fenced block gives the type of the text behind the block. *)
Theorem detectDiagramType_after_skipFrontmatter (f1 f2 : jsstring)
  (yaml : list jsstring) (b : jsstring) :
  isFence f1 = true -> isFence f2 = true -> ~ In LF f1 -> ~ In LF f2 ->
  Forall (fun l => ~ In LF l /\ isFence l = false) yaml ->
  detectDiagramType (skipFrontmatter (join_nl (f1 :: yaml ++ [f2]) ++ LF :: b))
  = detectDiagramType b.
Proof.
  intros F1 F2 N1 N2 Hy. rewrite skipFrontmatter_block_eq by assumption.
  unfold detectDiagramType. now rewrite firstLineOf_trimEnd.
Qed.

Lemma detectDiagramType_after_skipFrontmatter_witness :
  detectDiagramType (skipFrontmatter frontmatterPie) = js "pie".
Proof.
  change (js "pie")
    with (detectDiagramType
            (LF :: js "pie" ++ LF :: [34%N] ++ js "Dogs" ++ [34%N] ++ js ":1")).
  apply (@detectDiagramType_after_skipFrontmatter (js "---") (js "---")
           (map js ["config:"; "  theme: dark"]%string));
    try reflexivity; try (vm_compute; intuition discriminate).
  repeat constructor; vm_compute; intuition discriminate.
Defined.

Lemma firstLineOf_line (line : jsstring) :
  ~ In LF line -> firstLineOf line = trim line.
Proof.
  intros H. unfold firstLineOf.
  rewrite split_nl_line by (unfold trim; now apply trimEnd_noLF, trimStart_noLF).
  apply trim_idem.
Qed.

Lemma firstLineOf_first (ws line rest : jsstring) :
  allWs ws -> ~ In LF line -> trim line <> [] ->
  firstLineOf (ws ++ line ++ LF :: rest) = trim line.
Proof.
  intros Hws Hl Hv. unfold firstLineOf.
  assert (S1 : trimStart line <> []).
  { intros E. apply Hv. unfold trim. now rewrite E. }
  unfold trim at 2. rewrite trimStart_allWs by exact Hws.
  rewrite trimStart_app by exact S1.
  pose proof (@trimStart_noLF line Hl) as Hl1.
  destruct (trimEnd rest) as [|x r'] eqn:R.
  - rewrite trimEnd_blank_app by (rewrite trimEnd_cons, R; reflexivity).
    fold (trim line). rewrite split_nl_line by (now apply trimEnd_noLF).
    apply trim_idem.
  - change (LF :: rest) with ([LF] ++ rest).
    rewrite app_assoc, trimEnd_app by (rewrite R; discriminate).
    rewrite <- app_assoc. cbn [app]. rewrite split_nl_app by exact Hl1.
    cbn [hd]. unfold trim. now rewrite trimStart_idem.
Qed.

(** Only the first line that shows something counts: white space and
    blank lines before it and everything after its line break are
    ignored by the classifier. *)
Theorem detectDiagramType_first_line (ws line rest : jsstring) :
  allWs ws -> ~ In LF line -> trim line <> [] ->
  detectDiagramType (ws ++ line ++ LF :: rest) = detectDiagramType line.
Proof.
  intros Hws Hl Hv. unfold detectDiagramType.
  now rewrite firstLineOf_first, firstLineOf_line.
Qed.

Lemma detectDiagramType_first_line_witness :
  detectDiagramType (js "  " ++ LF :: js " gantt" ++ LF :: js "pie") = js "gantt".
Proof.
  change (js "gantt") with (detectDiagramType (js " gantt")).
  apply (@detectDiagramType_first_line (js "  " ++ [LF]) (js " gantt") (js "pie")).
  - repeat constructor.
  - vm_compute. intuition discriminate.
  - vm_compute. discriminate.
Defined.

(** ** What the annotation patterns extract *)

Lemma spanLen_app_stop (p : char -> bool) (w r : jsstring) :
  Forall (fun c => p c = true) w ->
  (r = [] \/ exists c r', r = c :: r' /\ p c = false) ->
  spanLen p (w ++ r) = length w.
Proof.
  intros Hw Hr. induction Hw as [|c w Hc _ IH]; cbn [app spanLen length].
  - destruct Hr as [->|(c & r' & -> & Hc)]; [reflexivity|]. cbn [spanLen]. now rewrite Hc.
  - now rewrite Hc, IH.
Qed.

Lemma trimStart_allWs_nil (w : jsstring) : allWs w -> trimStart w = [].
Proof. induction 1 as [|c w Hc _ IH]; [reflexivity|]. cbn [trimStart]. now rewrite Hc. Qed.

Lemma trim_allWs (w : jsstring) : allWs w -> trim w = [].
Proof. intros H. unfold trim. now rewrite trimStart_allWs_nil. Qed.

Lemma Forall_firstn_ (A : Type) (P : A -> Prop) (n : nat) (l : list A) :
  Forall P l -> Forall P (firstn n l).
Proof.
  intros H. revert n. induction H as [|x l Hx _ IH]; intros [|n]; cbn [firstn];
    constructor; auto.
Qed.

Lemma Forall_skipn_ (A : Type) (P : A -> Prop) (n : nat) (l : list A) :
  Forall P l -> Forall P (skipn n l).
Proof.
  intros H. revert n. induction H as [|x l Hx Hl IH]; intros [|n]; cbn [skipn];
    try constructor; auto.
Qed.

Lemma allWs_firstn (n : nat) (w : jsstring) : allWs w -> allWs (firstn n w).
Proof. apply Forall_firstn_. Qed.

Lemma allWs_skipn (n : nat) (w : jsstring) : allWs w -> allWs (skipn n w).
Proof. apply Forall_skipn_. Qed.

(** The end of a captured line: nothing, or a line terminator. *)
Lemma spanLen_rest (p : char -> bool) (r : jsstring) :
  skipn (spanLen p r) r = [] \/
  exists c r', skipn (spanLen p r) r = c :: r' /\ p c = false.
Proof.
  induction r as [|c r IH]; [now left|]. cbn [spanLen].
  destruct (p c) eqn:E; [exact IH|]. right. now exists c, r.
Qed.

(** A match of an annotation pattern at the start of [u], read as a
    decomposition of [u]. *)
Lemma annotation_at_sound (kw : jsstring) (ps : nat) (u : jsstring) (st : mstate) :
  rmatch (annotationRe kw) (fun st => Some st) (MState ps u []) = Some st ->
  exists w w2 g post,
    u = pct ++ w ++ kw ++ w2 ++ g ++ post /\ allWs w /\ allWs w2 /\
    g <> [] /\ Forall (fun c => dot c = true) g /\
    (post = [] \/ exists c r, post = c :: r /\ dot c = false) /\
    getCap 1 (caps st) = Some g /\
    (trim g <> [] -> exists c g', g = c :: g' /\ isWhiteSpace c = false).
Proof.
  rewrite annotationRe_unfold.
  destruct (startsWith u pct) eqn:P; [|discriminate].
  apply startsWith_app in P as [u1 ->]. change (skipn 2 (pct ++ u1)) with u1.
  intros E. apply star_Some in E as (n & Hn & Hk & _).
  rewrite rmatch_lit in Hk.
  destruct (startsWith (skipn n u1) kw) eqn:K; [|discriminate].
  apply startsWith_app in K as [v Hv]. rewrite Hv, skipn_app_same in Hk.
  rewrite rmatch_star in Hk.
  apply star_Some in Hk as (n2 & Hn2 & Hk2 & Hmax).
  rewrite capture_rest in Hk2.
  destruct (skipn n2 v) as [|c r] eqn:V; [discriminate|].
  destruct (dot c) eqn:D; [|discriminate].
  injection Hk2 as <-. cbn [caps setCap getCap Nat.eqb].
  exists (firstn n u1), (firstn n2 v), (c :: firstn (spanLen dot r) r),
         (skipn (spanLen dot r) r).
  split; [|split; [|split; [|split; [|split; [|split; [|split]]]]]].
  - cbn [app]. rewrite firstn_skipn, <- V, firstn_skipn, <- Hv, firstn_skipn.
    reflexivity.
  - now apply spanLen_firstn.
  - now apply spanLen_firstn.
  - discriminate.
  - constructor; [exact D|]. now apply spanLen_firstn.
  - apply spanLen_rest.
  - reflexivity.
  - intros Hvis. exists c, (firstn (spanLen dot r) r). split; [reflexivity|].
    destruct (isWhiteSpace c) eqn:W; [exfalso|reflexivity].
    pose proof (spanLen_le isWhiteSpace v) as Hle.
    assert (Hlt : n2 < spanLen isWhiteSpace v).
    { destruct (Nat.eq_dec n2 (spanLen isWhiteSpace v)) as [->|]; [|lia].
      destruct (Nat.eq_dec (spanLen isWhiteSpace v) (length v)) as [Hall|Hne].
      - rewrite Hall, skipn_all in V. discriminate.
      - destruct (spanLen_stop isWhiteSpace v) as (c' & r' & Hs & Hc'); [lia|].
        rewrite Hs in V. injection V as -> ->. congruence. }
    assert (Hall : spanLen isWhiteSpace v = length v).
    { destruct (Nat.eq_dec (spanLen isWhiteSpace v) (length v)) as [|Hne];
        [assumption|exfalso].
      destruct (spanLen_stop isWhiteSpace v) as (c' & r' & Hs & Hc'); [lia|].
      specialize (Hmax (spanLen isWhiteSpace v) Hlt (le_n _)).
      rewrite capture_rest, Hs, (dot_of_not_ws _ Hc') in Hmax. discriminate. }
    apply spanLen_all in Hall. apply Hvis, trim_allWs.
    assert (Hcr : allWs (c :: r)) by (rewrite <- V; now apply allWs_skipn).
    inversion Hcr; subst. constructor; [assumption|]. now apply allWs_firstn.
Qed.

(** Conversely, the text of a line that starts with something visible is
    what the pattern captures. *)
Lemma annotation_at_complete (kw : jsstring) (ps : nat)
  (w w2 g post : jsstring) (a : char) (kw' : jsstring) (c : char) (g' : jsstring) :
  kw = a :: kw' -> isWhiteSpace a = false ->
  allWs w -> allWs w2 -> g = c :: g' -> isWhiteSpace c = false ->
  Forall (fun c => dot c = true) g ->
  (post = [] \/ exists c r, post = c :: r /\ dot c = false) ->
  exists st,
    rmatch (annotationRe kw) (fun st => Some st)
      (MState ps (pct ++ w ++ kw ++ w2 ++ g ++ post) []) = Some st /\
    getCap 1 (caps st) = Some g.
Proof.
  intros Hkw Ha Hw Hw2 Hg Hc Hdot Hpost.
  rewrite annotationRe_unfold, startsWith_app_same.
  change (skipn 2 (pct ++ ?x)) with x.
  assert (S2 : spanLen isWhiteSpace (w2 ++ g ++ post) = length w2).
  { apply spanLen_app_stop; [exact Hw2|]. right. subst g. cbn [app]. eauto. }
  assert (S1 : spanLen isWhiteSpace (w ++ kw ++ w2 ++ g ++ post) = length w).
  { apply spanLen_app_stop; [exact Hw|]. right. subst kw. cbn [app]. eauto. }
  assert (S3 : spanLen dot (g' ++ post) = length g').
  { apply spanLen_app_stop; [|exact Hpost]. subst g. now inversion Hdot. }
  assert (K2 : rmatch (RGroup 1 (RPlus dot)) (fun st => Some st)
                 (MState (ps + 2 + length w + length kw + length w2) (g ++ post) [])
               = Some (MState (S (ps + 2 + length w + length kw + length w2)
                                + length g') post (setCap 1 g []))).
  { rewrite capture_rest. subst g. cbn [app]. inversion Hdot as [|? ? Dc Dg]; subst.
    rewrite Dc, S3, skipn_app_same. do 2 f_equal.
    change (c :: g' ++ post) with ((c :: g') ++ post).
    rewrite firstn_app. change (S (length g')) with (length (c :: g')).
    now rewrite firstn_all, Nat.sub_diag, firstn_O, app_nil_r. }
  assert (K1 : rmatch (RStar isWhiteSpace)
                 (rmatch (RGroup 1 (RPlus dot)) (fun st => Some st))
                 (MState (ps + 2 + length w + length kw) (w2 ++ g ++ post) [])
               = Some (MState (S (ps + 2 + length w + length kw + length w2)
                                + length g') post (setCap 1 g []))).
  { rewrite rmatch_star, star_greedy; rewrite S2, skipn_app_same, K2;
      [reflexivity|discriminate]. }
  assert (K0 : rmatch (lit kw)
                 (rmatch (RStar isWhiteSpace)
                    (rmatch (RGroup 1 (RPlus dot)) (fun st => Some st)))
                 (MState (ps + 2 + length w) (kw ++ w2 ++ g ++ post) [])
               = Some (MState (S (ps + 2 + length w + length kw + length w2)
                                + length g') post (setCap 1 g []))).
  { now rewrite rmatch_lit, startsWith_app_same, skipn_app_same, K1. }
  eexists. split.
  - rewrite star_greedy; rewrite S1, skipn_app_same, K0; [reflexivity|discriminate].
  - cbn [caps setCap getCap Nat.eqb]. reflexivity.
Qed.

(** Positions at which the pattern cannot match are skipped by the
    search. *)
Lemma search_skip (r : regex) (pre u : jsstring) (ps : nat) :
  (forall a b, pre = a ++ b -> b <> [] ->
     rmatch r (fun st => Some st) (MState (ps + length a) (b ++ u) []) = None) ->
  search r ps (pre ++ u) = search r (ps + length pre) u.
Proof.
  revert ps. induction pre as [|c pre IH]; intros ps H.
  - cbn [app length]. now rewrite Nat.add_0_r.
  - cbn [app search].
    pose proof (H [] (c :: pre) eq_refl ltac:(discriminate)) as H0.
    cbn [length app] in H0. rewrite Nat.add_0_r in H0. rewrite H0.
    cbn [length]. rewrite Nat.add_succ_r. apply IH.
    intros a b -> Hb. specialize (H (c :: a) b eq_refl Hb).
    cbn [length] in H. now rewrite Nat.add_succ_r in H.
Qed.

Lemma search_here (r : regex) (u : jsstring) (ps : nat) (st : mstate) :
  rmatch r (fun st => Some st) (MState ps u []) = Some st ->
  search r ps u = Some (MkMatch ps (firstn (pos st - ps) u) (caps st)).
Proof. intros H. destruct u; cbn [search]; now rewrite H. Qed.

(** A value found by an annotation pattern is the rest of a line: it
    follows two percent signs, the keyword and white space in the source,
    runs up to the end of the line, and is returned trimmed. *)
Lemma annotation_sound (kw s t : jsstring) :
  annotation kw s = Some t ->
  exists pre w w2 g post,
    s = pre ++ pct ++ w ++ kw ++ w2 ++ g ++ post /\ allWs w /\ allWs w2 /\
    g <> [] /\ Forall (fun c => dot c = true) g /\
    (post = [] \/ exists c r, post = c :: r /\ dot c = false) /\
    t = trim g.
Proof.
  unfold annotation, exec.
  destruct (search (annotationRe kw) 0 s) as [mt|] eqn:E; [|discriminate].
  apply search_Some in E as (pre & u & st & -> & Hm & Hg).
  apply annotation_at_sound in Hm
    as (w & w2 & g & post & -> & Hw & Hw2 & Hne & Hd & Hp & Hcap & _).
  unfold group. rewrite Hg, Hcap. intros [= <-].
  exists pre, w, w2, g, post. repeat split; assumption.
Qed.

Lemma Forall_trimStart (P : char -> Prop) (l : jsstring) :
  Forall P l -> Forall P (trimStart l).
Proof.
  induction 1 as [|c l Hc Hl IH]; [constructor|]. cbn [trimStart].
  destruct (isWhiteSpace c); [exact IH|now constructor].
Qed.

Lemma Forall_trimEnd (P : char -> Prop) (l : jsstring) :
  Forall P l -> Forall P (trimEnd l).
Proof.
  induction 1 as [|c l Hc Hl IH]; [constructor|]. rewrite trimEnd_cons.
  destruct (trimEnd l); [destruct (isWhiteSpace c); repeat constructor; auto|].
  now constructor.
Qed.

Lemma Forall_trim (P : char -> Prop) (l : jsstring) : Forall P l -> Forall P (trim l).
Proof. intros H. now apply Forall_trimEnd, Forall_trimStart. Qed.

Lemma trimStart_head (t : jsstring) (c : char) (g : jsstring) :
  trimStart t = c :: g -> isWhiteSpace c = false.
Proof.
  induction t as [|x t IH]; [discriminate|]. cbn [trimStart].
  destruct (isWhiteSpace x) eqn:E; [exact IH|]. now intros [= <- _].
Qed.

(** The extractor finds a title exactly when the source holds, anywhere,
    two percent signs, optional white space (line breaks included), the
    word accTitle, optional white space and one more code unit on the
    same line; likewise for the description and accDescr. *)
Theorem parseMermaidMetadata_found_iff (s : jsstring) :
  (title (parseMermaidMetadata s) <> None <-> hasAnnotation accTitle s) /\
  (description (parseMermaidMetadata s) <> None <-> hasAnnotation accDescr s).
Proof. split; apply annotation_Some_iff. Qed.

(** A title or description the extractor returns is the trimmed rest of
    an annotation line of the source: it holds no line terminator and has
    no white space at either end. *)
Theorem parseMermaidMetadata_values (s t : jsstring) :
  (title (parseMermaidMetadata s) = Some t -> annotationValue accTitle s t) /\
  (description (parseMermaidMetadata s) = Some t -> annotationValue accDescr s t) /\
  (title (parseMermaidMetadata s) = Some t \/
   description (parseMermaidMetadata s) = Some t ->
   Forall (fun c => dot c = true) t /\ trim t = t).
Proof.
  assert (H : forall kw, annotation kw s = Some t ->
                annotationValue kw s t /\ Forall (fun c => dot c = true) t /\ trim t = t).
  { intros kw E. pose proof (annotation_sound _ _ E) as V. split; [exact V|].
    destruct V as (pre & w & w2 & g & post & _ & _ & _ & _ & Hd & _ & ->).
    split; [now apply Forall_trim|apply trim_idem]. }
  cbn [parseMermaidMetadata title description].
  split; [|split].
  - intros E. now apply H.
  - intros E. now apply H.
  - intros [E|E]; now apply H in E.
Qed.

Lemma parseMermaidMetadata_values_witness :
  annotationValue accTitle (js "pie" ++ LF :: js "%% accTitle  Pets " ++ LF :: js "x: 1")
    (js "Pets").
Proof.
  apply (parseMermaidMetadata_values
           (js "pie" ++ LF :: js "%% accTitle  Pets " ++ LF :: js "x: 1") (js "Pets")).
  vm_compute. reflexivity.
Defined.

Lemma annotation_written (kw src t tail : jsstring) (a : char) (kw' : jsstring) :
  kw = a :: kw' -> isWhiteSpace a = false ->
  ~ In 37%N src -> Forall (fun c => dot c = true) t -> trim t <> [] ->
  (tail = [] \/ exists c r, tail = c :: r /\ dot c = false) ->
  annotation kw (src ++ pct ++ kw ++ [32%N] ++ t ++ tail) = Some (trim t).
Proof.
  intros Hkw Ha Hsrc Ht Hv Htail. unfold annotation, exec.
  rewrite search_skip.
  2:{ intros x b -> Hb. rewrite annotationRe_unfold.
      destruct b as [|c b]; [contradiction|]. cbn [app startsWith pct js map
        list_ascii_of_string].
      destruct (N.eqb_spec (N_of_ascii "%") c) as [E|_]; [|reflexivity].
      exfalso. apply Hsrc. apply in_or_app. right. left. now rewrite <- E. }
  destruct (trimStart_suffix t) as (wl & Et & Hwl).
  destruct (trimStart t) as [|c g'] eqn:TS.
  { exfalso. apply Hv. unfold trim. now rewrite TS. }
  pose proof (trimStart_head _ TS) as Hc.
  assert (Hd : Forall (fun c => dot c = true) (c :: g')).
  { rewrite <- TS. now apply Forall_trimStart. }
  destruct (@annotation_at_complete kw (0 + length src) [] (32%N :: wl) (c :: g') tail
              a kw' c g' Hkw Ha (Forall_nil _)
              ltac:(constructor; [reflexivity|exact Hwl]) eq_refl Hc Hd Htail)
    as (st & Hm & Hcap).
  replace (pct ++ kw ++ [32%N] ++ t ++ tail)
    with (pct ++ [] ++ kw ++ (32%N :: wl) ++ (c :: g') ++ tail).
  2:{ cbn [app]. rewrite Et. now rewrite <- app_assoc. }
  pose proof (search_here _ _ _ Hm) as HS.
  match goal with
  | |- match ?X with _ => _ end = _ =>
      match type of HS with _ = ?Y => replace X with Y by (symmetry; exact HS) end
  end.
  unfold group. cbn [groups]. rewrite Hcap.
  f_equal. unfold trim. rewrite <- TS. now rewrite trimStart_idem.
Qed.

(** An annotation written at the end of a source without percent signs
    is read back: after two percent signs, the keyword and a space, the
    text of the rest of the line comes back trimmed. *)
Theorem parseMermaidMetadata_reads_written (src t tail : jsstring) :
  ~ In 37%N src -> Forall (fun c => dot c = true) t -> trim t <> [] ->
  (tail = [] \/ exists c r, tail = c :: r /\ dot c = false) ->
  title (parseMermaidMetadata (src ++ js "%%accTitle " ++ t ++ tail)) = Some (trim t) /\
  description (parseMermaidMetadata (src ++ js "%%accDescr " ++ t ++ tail))
  = Some (trim t).
Proof.
  intros Hsrc Ht Hv Htail. cbn [parseMermaidMetadata title description]. split.
  - apply (@annotation_written accTitle src t tail 97%N (js "ccTitle"));
      auto; reflexivity.
  - apply (@annotation_written accDescr src t tail 97%N (js "ccDescr"));
      auto; reflexivity.
Qed.

Lemma parseMermaidMetadata_reads_written_witness :
  title (parseMermaidMetadata
           (js "pie" ++ [LF] ++ js "%%accTitle " ++ js " Pets we keep " ++ [LF]))
  = Some (js "Pets we keep").
Proof.
  apply (@parseMermaidMetadata_reads_written (js "pie" ++ [LF]) (js " Pets we keep ") [LF]).
  - vm_compute. intuition discriminate.
  - repeat constructor.
  - vm_compute. discriminate.
  - right. exists LF, []. split; reflexivity.
Defined.

(** ** User-written annotations survive [ensureMetadata] *)

Lemma Forall_last (A : Type) (P : A -> Prop) (l : list A) (d : A) :
  l <> [] -> Forall P l -> P (last l d).
Proof.
  intros Hne H. induction H as [|x l Hx Hl IH]; [contradiction|].
  destruct l as [|y l]; [exact Hx|]. apply IH. discriminate.
Qed.

Lemma rmatch_extend (kw : jsstring) (a : char) (kw' : jsstring) (ps : nat)
  (u x : jsstring) (st : mstate) (g : jsstring) :
  kw = a :: kw' -> isWhiteSpace a = false ->
  rmatch (annotationRe kw) (fun st => Some st) (MState ps u []) = Some st ->
  getCap 1 (caps st) = Some g -> trim g <> [] -> closesLine u x ->
  exists st',
    rmatch (annotationRe kw) (fun st => Some st) (MState ps (u ++ x) []) = Some st' /\
    getCap 1 (caps st') = Some g.
Proof.
  intros Hkw Ha Hm Hcap Hvis Hx.
  apply annotation_at_sound in Hm
    as (w & w2 & g0 & post & -> & Hw & Hw2 & Hne & Hd & Hp & Hcap0 & Hhead).
  rewrite Hcap in Hcap0. injection Hcap0 as <-.
  destruct (Hhead Hvis) as (c & g' & Hg & Hc).
  assert (Hpost : post ++ x = [] \/ exists c r, post ++ x = c :: r /\ dot c = false).
  { destruct Hp as [->|(c0 & r & -> & Hc0)]; [|right; cbn [app]; eauto].
    cbn [app]. destruct Hx as [->|[Hx|(s0 & e & Hs & He)]]; [now left|now right|].
    exfalso. rewrite app_nil_r in Hs.
    assert (L : last (pct ++ w ++ kw ++ w2 ++ g) 0%N = e)
      by (rewrite Hs; apply last_last).
    rewrite !app_assoc, last_app_nonempty in L by exact Hne.
    pose proof (@Forall_last _ _ g 0%N Hne Hd) as D. cbv beta in D. congruence. }
  destruct (@annotation_at_complete kw ps w w2 g (post ++ x) a kw' c g'
              Hkw Ha Hw Hw2 Hg Hc Hd Hpost) as (st' & Hm' & Hcap').
  exists st'. split; [|exact Hcap'].
  rewrite <- Hm'. f_equal. f_equal. now rewrite <- !app_assoc.
Qed.

Lemma annotationAt_not_later (kw y z x : jsstring) :
  kw <> [] -> ~ In 37%N kw ->
  y <> [] -> annotationAt kw z -> annotationAt kw ((y ++ z) ++ x) ->
  annotationAt kw (y ++ z).
Proof.
  intros Hkw Hno Hy (w' & w2' & c' & r' & Hz & _) (w & w2 & c & r & E & Hw & Hw2 & Dc).
  assert (HM : ~ In 37%N (w ++ kw ++ w2)).
  { intros Hin. apply in_app_or in Hin as [Hin|Hin].
    - unfold allWs in Hw. rewrite Forall_forall in Hw. now specialize (Hw _ Hin).
    - apply in_app_or in Hin as [Hin|Hin]; [auto|].
      unfold allWs in Hw2. rewrite Forall_forall in Hw2. now specialize (Hw2 _ Hin). }
  assert (HMne : w ++ kw ++ w2 <> []).
  { destruct w; [|discriminate]. destruct kw; [contradiction|discriminate]. }
  set (M := w ++ kw ++ w2) in *.
  assert (E' : (y ++ z) ++ x = 37%N :: 37%N :: M ++ c :: r).
  { rewrite E. unfold M. cbn [pct js map list_ascii_of_string app].
    now rewrite <- !app_assoc. }
  subst z. destruct y as [|y0 y']; [contradiction|].
  set (z' := w' ++ kw ++ w2' ++ c' :: r') in *.
  change (pct ++ z') with (37%N :: 37%N :: z') in *.
  rewrite <- app_assoc in E'. cbn [app] in E'. injection E' as -> E'.
  destruct y' as [|y1 y'']; cbn [app] in E'.
  - exfalso. injection E' as E'. destruct M as [|m0 M']; [contradiction|].
    cbn [app] in E'. injection E' as <- _. apply HM. now left.
  - injection E' as -> E'.
    destruct (@split_past _ 37%N M (c :: r) y'' (37%N :: z' ++ x) HM E')
      as (pre' & -> & E2).
    assert (Hc : exists c2 r2, pre' ++ 37%N :: 37%N :: z' = c2 :: r2 /\ dot c2 = true).
    { destruct pre' as [|p pre'']; cbn [app] in *.
      - injection E2 as <- _. eauto.
      - injection E2 as -> _. eauto. }
    destruct Hc as (c2 & r2 & Ec & Dc2).
    exists w, w2, c2, r2. repeat split; try assumption.
    apply (f_equal (fun t => pct ++ w ++ kw ++ w2 ++ t)) in Ec. cbv beta in Ec.
    etransitivity; [|exact Ec]. unfold M.
    cbn [pct js map list_ascii_of_string app]. now rewrite <- !app_assoc.
Qed.

Lemma captured_extend (kw : jsstring) (a : char) (kw' : jsstring)
  (s x : jsstring) (ps : nat) (g : jsstring) :
  kw = a :: kw' -> isWhiteSpace a = false -> ~ In 37%N kw ->
  captured (annotationRe kw) ps s = Some g -> trim g <> [] -> closesLine s x ->
  captured (annotationRe kw) ps (s ++ x) = Some g.
Proof.
  intros Hkw Ha Hno. revert ps.
  induction s as [|c t IH]; intros ps Hg Hvis Hx; unfold captured in *.
  - cbn [search] in Hg. rewrite annotationRe_unfold in Hg. discriminate.
  - cbn [search] in Hg.
    destruct (rmatch (annotationRe kw) (fun st => Some st) (MState ps (c :: t) []))
      as [st|] eqn:Hm.
    + unfold group in Hg. cbn [groups] in Hg.
      destruct (@rmatch_extend kw a kw' ps (c :: t) x st g Hkw Ha Hm Hg Hvis Hx)
        as (st' & Hm' & Hcap').
      rewrite (search_here _ _ _ Hm'). exact Hcap'.
    + destruct (search (annotationRe kw) (S ps) t) as [mt|] eqn:Hs; [|discriminate].
      assert (Hx' : closesLine t x).
      { destruct Hx as [Hx|[Hx|(s0 & e & Hs0 & He)]]; [now left|right; now left|].
        right. right. destruct s0 as [|c0 s0]; cbn [app] in Hs0.
        - injection Hs0 as -> ->. cbn [search] in Hs.
          rewrite annotationRe_unfold in Hs. discriminate.
        - injection Hs0 as -> ->. eauto. }
      specialize (IH (S ps)). rewrite Hs in IH. specialize (IH Hg Hvis Hx').
      cbn [app search].
      destruct (rmatch (annotationRe kw) (fun st => Some st)
                  (MState ps (c :: t ++ x) [])) as [st'|] eqn:Hm'; [exfalso|exact IH].
      pose proof Hs as Hs2.
      apply search_Some in Hs2 as (pre & u & st & -> & Hu & _).
      assert (A1 : annotationAt kw u).
      { apply (annotation_matches_iff kw (S ps + length pre) u). congruence. }
      assert (A2 : annotationAt kw (((c :: pre) ++ u) ++ x)).
      { apply (annotation_matches_iff kw ps). cbn [app]. rewrite <- app_assoc.
        rewrite <- app_assoc in Hm'. congruence. }
      assert (A3 : annotationAt kw ((c :: pre) ++ u)).
      { apply (@annotationAt_not_later kw (c :: pre) u x); try assumption;
          try discriminate. subst kw. discriminate. }
      apply (annotation_matches_iff kw ps) in A3. cbn [app] in A3. congruence.
Qed.

Lemma annotation_extend (kw : jsstring) (a : char) (kw' : jsstring) (s x : jsstring) :
  kw = a :: kw' -> isWhiteSpace a = false -> ~ In 37%N kw ->
  truthy (annotation kw s) = true -> closesLine s x ->
  annotation kw (s ++ x) = annotation kw s.
Proof.
  intros Hkw Ha Hno Ht Hx.
  assert (E : forall y, annotation kw y = option_map trim (captured (annotationRe kw) 0 y)).
  { intros y. unfold annotation, captured, exec.
    destruct (search _ 0 y) as [mt|]; [|reflexivity]. now destruct (group 1 mt). }
  rewrite !E. rewrite E in Ht.
  destruct (captured (annotationRe kw) 0 s) as [g|] eqn:G; [|discriminate].
  rewrite (@captured_extend kw a kw' s x 0 g); auto.
  cbn [option_map truthy] in Ht. destruct (trim g); [discriminate|discriminate].
Qed.

(** A title or description that the author wrote, and that is not blank,
    is the one [ensureMetadata] returns, whatever it appends for the other
    field. *)
Theorem ensureMetadata_keeps_written (src : jsstring) :
  (truthy (title (parseMermaidMetadata src)) = true ->
   title (metadata (ensureMetadata src)) = title (parseMermaidMetadata src)) /\
  (truthy (description (parseMermaidMetadata src)) = true ->
   description (metadata (ensureMetadata src)) = description (parseMermaidMetadata src)).
Proof.
  unfold ensureMetadata. cbn [metadata].
  set (current := parseMermaidMetadata src).
  destruct (negb (truthy (title current)) || negb (truthy (description current)));
    [|split; reflexivity].
  assert (Hx : closesLine src
                 ((if endsWith src [LF] then [] else [LF])
                    ++ join_nl (missingLines current) ++ [LF])).
  { destruct (endsWith src [LF]) eqn:E.
    - right. right. apply endsWith_LF in E as [s0 ->]. now exists s0, LF.
    - right. left. cbn [app]. eauto. }
  cbn [parseMermaidMetadata title description]. split; intros Ht.
  - apply (@annotation_extend accTitle 97%N (js "ccTitle")); auto;
      try reflexivity. vm_compute. intuition discriminate.
  - apply (@annotation_extend accDescr 97%N (js "ccDescr")); auto;
      try reflexivity. vm_compute. intuition discriminate.
Qed.

Lemma ensureMetadata_keeps_written_witness :
  title (metadata (ensureMetadata (js "pie" ++ LF :: js "%%accTitle Pets")))
  = Some (js "Pets").
Proof.
  change (Some (js "Pets"))
    with (title (parseMermaidMetadata (js "pie" ++ LF :: js "%%accTitle Pets"))).
  apply (ensureMetadata_keeps_written (js "pie" ++ LF :: js "%%accTitle Pets")).
  reflexivity.
Defined.

(** ** Soundness of the matcher *)

Lemma mstate_eta (st : mstate) : MState (pos st) (rest st) (caps st) = st.
Proof. now destruct st. Qed.

(** Whatever the matcher returns went through a state that the pattern
    denotes. *)
Lemma rmatch_sound (r : regex) :
  forall (k : cont) (st res : mstate),
    rmatch r k st = Some res -> exists st', denotes r st st' /\ k st' = Some res.
Proof.
  induction r as [|c|p|r1 IH1 r2 IH2|r1 IH1 r2 IH2|p|p|r1 IH1|i r1 IH1|];
    intros k st res H; cbn [rmatch denotes] in *.
  - now exists st.
  - destruct (rest st) as [|x t] eqn:R; [discriminate|].
    destruct (N.eqb_spec x c) as [->|]; [|discriminate].
    eexists. split; [|exact H]. cbn [rest pos caps]. auto.
  - destruct (rest st) as [|x t] eqn:R; [discriminate|].
    destruct (p x) eqn:P; [|discriminate].
    eexists. split; [|exact H]. exists x. cbn [rest pos caps]. auto.
  - destruct (IH1 _ _ _ H) as (m & D1 & H2).
    destruct (IH2 _ _ _ H2) as (st' & D2 & H3). exists st'. eauto.
  - destruct (rmatch r1 k st) as [x|] eqn:E.
    + injection H as ->. destruct (IH1 _ _ _ E) as (st' & D & K). eauto.
    + destruct (IH2 _ _ _ H) as (st' & D & K). eauto.
  - apply star_Some in H as (n & Hn & Hk & _).
    eexists. split; [|exact Hk]. exists (firstn n (rest st)). cbn [rest pos caps].
    rewrite firstn_skipn, length_firstn.
    pose proof (spanLen_le p (rest st)).
    repeat split; [now apply spanLen_firstn|f_equal; lia].
  - destruct (rest st) as [|x t] eqn:R; [discriminate|].
    destruct (p x) eqn:P; [|discriminate].
    apply star_Some in H as (n & Hn & Hk & _).
    eexists. split; [|exact Hk]. exists (x :: firstn n t). cbn [rest pos caps].
    pose proof (spanLen_le p t).
    repeat split.
    + discriminate.
    + constructor; [exact P|now apply spanLen_firstn].
    + cbn [app]. now rewrite firstn_skipn.
    + cbn [length]. rewrite length_firstn. lia.
  - destruct (rmatch r1 k st) as [x|] eqn:E.
    + injection H as ->. destruct (IH1 _ _ _ E) as (st' & D & K). eauto.
    + exists st. auto.
  - destruct (IH1 _ _ _ H) as (m & D & K). eexists. split; [|exact K]. eauto.
  - destruct (Nat.eqb_spec (pos st) 0); [|discriminate]. exists st. auto.
Qed.

(** A pattern consumes a prefix of the input. *)
Lemma denotes_consumes (r : regex) :
  forall st st', denotes r st st' ->
    exists w, rest st = w ++ rest st' /\ pos st' = pos st + length w.
Proof.
  induction r as [|c|p|r1 IH1 r2 IH2|r1 IH1 r2 IH2|p|p|r1 IH1|i r1 IH1|];
    intros st st' H; cbn [denotes] in H.
  - subst. exists []. cbn. split; [reflexivity|lia].
  - destruct H as (R & P & _). exists [c]. cbn. split; [exact R|lia].
  - destruct H as (x & _ & R & P & _). exists [x]. cbn. split; [exact R|lia].
  - destruct H as (m & D1 & D2).
    destruct (IH1 _ _ D1) as (w1 & R1 & P1). destruct (IH2 _ _ D2) as (w2 & R2 & P2).
    exists (w1 ++ w2). rewrite <- app_assoc, <- R2, length_app. split; [exact R1|lia].
  - destruct H as [H|H]; eauto.
  - destruct H as (w & _ & R & P & _). eauto.
  - destruct H as (w & _ & _ & R & P & _). eauto.
  - destruct H as [H| ->]; [eauto|]. exists []. cbn. split; [reflexivity|lia].
  - destruct H as (m & D & ->). cbn [rest pos]. eauto.
  - destruct H as [_ ->]. exists []. cbn. split; [reflexivity|lia].
Qed.

(** A group records the text its pattern consumed. *)
Lemma denotes_group (i : nat) (r : regex) (st st' : mstate) :
  denotes (RGroup i r) st st' ->
  exists m w, denotes r st m /\ rest st = w ++ rest m /\
              rest st' = rest m /\ pos st' = pos m /\ pos m = pos st + length w /\
              caps st' = setCap i w (caps m).
Proof.
  cbn [denotes]. intros (m & D & ->).
  destruct (denotes_consumes _ _ _ D) as (w & R & P).
  exists m, w. cbn [rest pos caps]. repeat split; try assumption.
  rewrite R, P. replace (pos st + length w - pos st) with (length w) by lia.
  rewrite firstn_app, firstn_all, Nat.sub_diag, firstn_O. now rewrite app_nil_r.
Qed.

(** A group around a repeated character class. *)
Lemma denotes_group_plus (i : nat) (p : char -> bool) (st st' : mstate) :
  denotes (RGroup i (RPlus p)) st st' ->
  exists w, w <> [] /\ Forall (fun c => p c = true) w /\
            rest st = w ++ rest st' /\ pos st' = pos st + length w /\
            caps st' = setCap i w (caps st).
Proof.
  intros H. apply denotes_group in H as (m & w & D & R & R' & P' & P & C).
  cbn [denotes] in D. destruct D as (w' & Hne & Hp & Rw & _ & Cm).
  assert (w = w') by (rewrite Rw in R; now apply app_inv_tail in R).
  subst w'. exists w. rewrite R', P', C, Cm. auto.
Qed.

Lemma denotes_lit (q : jsstring) (st st' : mstate) :
  denotes (lit q) st st' ->
  rest st = q ++ rest st' /\ pos st' = pos st + length q /\ caps st' = caps st.
Proof.
  revert st. induction q as [|c q IH]; intros st H; cbn [lit denotes] in H.
  - subst. cbn. repeat split. lia.
  - destruct H as (m & (R & P & C) & D). destruct (IH _ D) as (R2 & P2 & C2).
    cbn [app length]. rewrite R, R2, P2, P, C2, C. repeat split. lia.
Qed.

Lemma getCap_setCap_same (i : nat) (v : jsstring) (cs : list (nat * jsstring)) :
  getCap i (setCap i v cs) = Some v.
Proof.
  induction cs as [|[j w] cs IH]; cbn [setCap getCap].
  - now rewrite Nat.eqb_refl.
  - destruct (Nat.eqb_spec i j) as [->|N]; cbn [getCap].
    + now rewrite Nat.eqb_refl.
    + destruct (Nat.eqb_spec i j); [contradiction|exact IH].
Qed.


(** The first match found by [exec], as a state the pattern denotes. *)
Lemma exec_sound (r : regex) (s : jsstring) (mt : Match) :
  exec r s = Some mt ->
  exists pre u st', s = pre ++ u /\
    denotes r (MState (length pre) u []) st' /\ groups mt = caps st'.
Proof.
  unfold exec. intros H. apply search_Some in H as (pre & u & st & -> & Hm & Hg).
  apply rmatch_sound in Hm as (st' & D & [= ->]). exists pre, u, st. auto.
Qed.

(** ** The flowchart narrative *)

Lemma denotes_seq (a b : regex) (st st' : mstate) :
  denotes (RSeq a b) st st' -> exists m, denotes a st m /\ denotes b m st'.
Proof. exact (fun H => H). Qed.

Lemma flow_set_Forall (P : jsstring * Flow.node -> Prop) (k : jsstring)
  (v : Flow.node) (m : Flow.nodeMap) :
  P (k, v) -> Forall P m -> Forall P (Flow.set k v m).
Proof.
  intros Hkv H. induction H as [|[k' v'] m Hx Hm IH]; cbn [Flow.set].
  - now constructor.
  - destruct (str_eqb k k'); constructor; auto.
Qed.

(** What the node pattern captures. *)
Lemma nodeRe_captures (line : jsstring) (mt : Match) :
  exec Flow.nodeRe line = Some mt ->
  exists id txt,
    idText id /\ txt <> [] /\ (In 91%N line \/ In 123%N line) /\
    orElse (group 1 mt) (group 3 mt) = Some id /\
    orElse (group 2 mt) (group 4 mt) = Some txt.
Proof.
  intros H. apply exec_sound in H as (pre & u & st' & -> & D & Hg).
  unfold group. rewrite Hg. clear Hg mt.
  unfold Flow.nodeRe in D. cbn [seq] in D.
  destruct D as [D|D].
  - apply denotes_seq in D as (m0 & D0 & D). destruct D0 as [_ ->].
    apply denotes_seq in D as (m1 & D1 & D).
    apply denotes_group_plus in D1 as (w1 & N1 & P1 & R1 & _ & C1).
    apply denotes_seq in D as (m2 & D2 & D). destruct D2 as (R2 & _ & C2).
    apply denotes_seq in D as (m3 & D3 & D).
    apply denotes_group_plus in D3 as (w2 & N2 & P2 & R3 & _ & C3).
    destruct D as (_ & _ & C4).
    cbn [rest caps] in *. rewrite C4, C3, C2, C1. cbn [setCap Nat.eqb getCap].
    exists w1, w2. unfold orElse.
    destruct w1 as [|a w1]; [contradiction|]. destruct w2 as [|b w2]; [contradiction|].
    cbn [truthy]. repeat split; try assumption; try discriminate.
    left. apply in_or_app. right. rewrite R1. apply in_or_app. right.
    rewrite R2. now left.
  - apply denotes_seq in D as (m0 & D0 & D). destruct D0 as [_ ->].
    apply denotes_seq in D as (m1 & D1 & D).
    apply denotes_group_plus in D1 as (w1 & N1 & P1 & R1 & _ & C1).
    apply denotes_seq in D as (m2 & D2 & D). destruct D2 as (R2 & _ & C2).
    apply denotes_seq in D as (m3 & D3 & D).
    apply denotes_group_plus in D3 as (w2 & N2 & P2 & R3 & _ & C3).
    destruct D as (_ & _ & C4).
    cbn [rest caps] in *. rewrite C4, C3, C2, C1. cbn [setCap Nat.eqb getCap].
    exists w1, w2. unfold orElse.
    destruct w1 as [|a w1]; [contradiction|]. destruct w2 as [|b w2]; [contradiction|].
    cbn [truthy]. repeat split; try assumption; try discriminate.
    right. apply in_or_app. right. rewrite R1. apply in_or_app. right.
    rewrite R2. now left.
Qed.

Lemma edgeLabelRe_captures (line : jsstring) (mt : Match) :
  exec Flow.edgeLabelRe line = Some mt ->
  exists a l b, idText a /\ idText b /\ l <> [] /\ ~ In 124%N l /\
    group 1 mt = Some a /\ group 2 mt = Some l /\ group 3 mt = Some b.
Proof.
  intros H. apply exec_sound in H as (pre & u & st' & -> & D & Hg).
  unfold group. rewrite Hg. clear Hg mt.
  unfold Flow.edgeLabelRe in D. cbn [seq] in D.
  apply denotes_seq in D as (m1 & D1 & D).
  apply denotes_group_plus in D1 as (w1 & N1 & P1 & _ & _ & C1).
  apply denotes_seq in D as (m2 & D2 & D). destruct D2 as (_ & _ & _ & _ & C2).
  apply denotes_seq in D as (m3 & D3 & D). apply denotes_lit in D3 as (_ & _ & C3).
  apply denotes_seq in D as (m4 & D4 & D). destruct D4 as (_ & _ & _ & _ & C4).
  apply denotes_seq in D as (m5 & D5 & D). destruct D5 as (_ & _ & C5).
  apply denotes_seq in D as (m6 & D6 & D).
  apply denotes_group_plus in D6 as (w2 & N2 & P2 & _ & _ & C6).
  apply denotes_seq in D as (m7 & D7 & D). destruct D7 as (_ & _ & C7).
  apply denotes_seq in D as (m8 & D8 & D). destruct D8 as (_ & _ & _ & _ & C8).
  apply denotes_group_plus in D as (w3 & N3 & P3 & _ & _ & C9).
  cbn [caps] in *. rewrite C9, C8, C7, C6, C5, C4, C3, C2, C1.
  cbn [setCap Nat.eqb getCap].
  exists w1, w2, w3. repeat split; try assumption.
  intros Hin. rewrite Forall_forall in P2. specialize (P2 _ Hin). discriminate.
Qed.

Lemma edgeRe_captures (line : jsstring) (mt : Match) :
  exec Flow.edgeRe line = Some mt ->
  exists a b, idText a /\ idText b /\ group 1 mt = Some a /\ group 2 mt = Some b.
Proof.
  intros H. apply exec_sound in H as (pre & u & st' & -> & D & Hg).
  unfold group. rewrite Hg. clear Hg mt.
  unfold Flow.edgeRe in D. cbn [seq] in D.
  apply denotes_seq in D as (m1 & D1 & D).
  apply denotes_group_plus in D1 as (w1 & N1 & P1 & _ & _ & C1).
  apply denotes_seq in D as (m2 & D2 & D). destruct D2 as (_ & _ & _ & _ & C2).
  apply denotes_seq in D as (m3 & D3 & D). apply denotes_lit in D3 as (_ & _ & C3).
  apply denotes_seq in D as (m4 & D4 & D). destruct D4 as (_ & _ & _ & _ & C4).
  apply denotes_group_plus in D as (w2 & N2 & P2 & _ & _ & C5).
  cbn [caps] in *. rewrite C5, C4, C3, C2, C1. cbn [setCap Nat.eqb getCap].
  exists w1, w2. repeat split; assumption.
Qed.

Lemma In_trimStart (c : char) (l : jsstring) : In c (trimStart l) -> In c l.
Proof.
  destruct (trimStart_suffix l) as (w & E & _). intros H. rewrite E.
  apply in_or_app. now right.
Qed.

Lemma In_trimEnd (c : char) (l : jsstring) : In c (trimEnd l) -> In c l.
Proof.
  induction l as [|x l IH]; [auto|]. rewrite trimEnd_cons.
  destruct (trimEnd l) eqn:E.
  - destruct (isWhiteSpace x); [intros []|]. intros [->|[]]. now left.
  - intros [->|H]; [now left|]. right. now apply IH.
Qed.

Lemma In_trim (c : char) (l : jsstring) : In c (trim l) -> In c l.
Proof. intros H. now apply In_trimStart, In_trimEnd. Qed.

Lemma NoDup_snoc (A : Type) (x : A) (l : list A) :
  NoDup l -> ~ In x l -> NoDup (l ++ [x]).
Proof.
  induction 1 as [|y l Hy Hl IH]; intros Hx; cbn [app].
  - constructor; [intros []|constructor].
  - constructor.
    + intros Hin. apply in_app_or in Hin as [Hin|[<-|[]]]; [contradiction|].
      apply Hx. now left.
    + apply IH. intros Hin. apply Hx. now right.
Qed.

Lemma flow_set_keys (k : jsstring) (v : Flow.node) (m : Flow.nodeMap) :
  map fst (Flow.set k v m) = map fst m /\ In k (map fst m) \/
  map fst (Flow.set k v m) = map fst m ++ [k] /\ ~ In k (map fst m).
Proof.
  induction m as [|[k' v'] m IH]; cbn [Flow.set map fst].
  - right. split; [reflexivity|intros []].
  - destruct (str_eqb k k') eqn:E.
    + apply str_eqb_eq in E. subst k'. left. split; [reflexivity|now left].
    + assert (N : k <> k').
      { intros ->. now rewrite str_eqb_refl in E. }
      cbn [map fst]. destruct IH as [[E1 I1]|[E1 I1]].
      * left. split; [now rewrite E1|now right].
      * right. split; [cbn [app]; now rewrite E1|].
        intros [H|H]; [congruence|contradiction].
Qed.

Lemma flow_set_NoDup (k : jsstring) (v : Flow.node) (m : Flow.nodeMap) :
  NoDup (map fst m) -> NoDup (map fst (Flow.set k v m)).
Proof.
  intros H. destruct (flow_set_keys k v m) as [[-> _]|[-> N]]; [exact H|].
  now apply NoDup_snoc.
Qed.

(** Identifiers are runs of capital letters and digits: every node the
    parser records has such a key and a text, no key is recorded twice,
    every connection joins two such identifiers, and a connection label is
    never empty. *)
Theorem flow_parse_identifiers (src : jsstring) :
  (Forall goodNode (Flow.nodes (Flow.parse src)) /\
   NoDup (map fst (Flow.nodes (Flow.parse src)))) /\
  Forall goodEdge (Flow.edges (Flow.parse src)).
Proof.
  unfold Flow.parse.
  apply (@fold_left_inv _ _ Flow.parseLine
           (fun md => (Forall goodNode (Flow.nodes md) /\
                       NoDup (map fst (Flow.nodes md))) /\
                      Forall goodEdge (Flow.edges md))).
  - repeat split; constructor.
  - intros md line [[Hn Hd] He] _. unfold Flow.parseLine.
    cbn [Flow.nodes Flow.edges]. split.
    { destruct (exec Flow.nodeRe (trim line)) as [mt|] eqn:E; [|now split].
      apply nodeRe_captures in E as (id & txt & Hid & Htxt & _ & -> & ->).
      split; [|now apply flow_set_NoDup].
      apply flow_set_Forall; [|exact Hn]. split; assumption. }
    destruct (exec Flow.edgeLabelRe (trim line)) as [mt|] eqn:E.
    + apply edgeLabelRe_captures in E
        as (a & l & b & Ha & Hb & Hl & Hbar & -> & -> & ->).
      apply Forall_app. split; [exact He|]. constructor; [|constructor].
      split; [assumption|split; [assumption|]]. cbn [Flow.label].
      intros l0 [= <-]. split; assumption.
    + destruct (exec Flow.edgeRe (trim line)) as [mt|] eqn:E2; [|exact He].
      apply edgeRe_captures in E2 as (a & b & Ha & Hb & -> & ->).
      apply Forall_app. split; [exact He|]. constructor; [|constructor].
      split; [assumption|split; [assumption|]]. cbn [Flow.label].
      intros l0 [=].
Qed.

Lemma flow_set_length (k : jsstring) (v : Flow.node) (m : Flow.nodeMap) :
  length (Flow.set k v m) <= S (length m).
Proof.
  induction m as [|[k' v'] m IH]; cbn [Flow.set length]; [lia|].
  destruct (str_eqb k k'); cbn [length]; lia.
Qed.

Lemma fold_left_parseLine_length (ls : list jsstring) (md : Flow.model) :
  length (Flow.nodes (fold_left Flow.parseLine ls md))
  <= length (Flow.nodes md) + length ls /\
  length (Flow.edges (fold_left Flow.parseLine ls md))
  <= length (Flow.edges md) + length ls.
Proof.
  revert md. induction ls as [|l ls IH]; intros md; cbn [fold_left length]; [lia|].
  destruct (IH (Flow.parseLine md l)) as [H1 H2].
  assert (N : length (Flow.nodes (Flow.parseLine md l)) <= S (length (Flow.nodes md))).
  { unfold Flow.parseLine. cbn [Flow.nodes].
    destruct (exec Flow.nodeRe (trim l)); [apply flow_set_length|lia]. }
  assert (E : length (Flow.edges (Flow.parseLine md l)) <= S (length (Flow.edges md))).
  { unfold Flow.parseLine. cbn [Flow.edges].
    destruct (exec Flow.edgeLabelRe (trim l));
      [|destruct (exec Flow.edgeRe (trim l))];
      rewrite ?length_app; cbn [length]; lia. }
  lia.
Qed.

(** A line gives at most one node and at most one connection, so a chain
    of arrows on one line counts once: neither count of the summary
    exceeds the number of content lines. *)
Theorem flow_counts_bounded (src : jsstring) :
  length (Flow.nodes (Flow.parse src)) <= length (contentLines src) /\
  length (Flow.edges (Flow.parse src)) <= length (contentLines src).
Proof.
  unfold Flow.parse.
  destruct (fold_left_parseLine_length (contentLines src) (Flow.MkModel [] [])) as [H1 H2].
  cbn [Flow.nodes Flow.edges length] in *. lia.
Qed.

(** Without a bracketed or braced text no node is recorded: a flowchart
    written with bare identifiers only is narrated as having no steps,
    whatever its connections. *)
Theorem flow_bare_identifiers_no_steps (src : jsstring) :
  (forall line, In line (contentLines src) -> ~ In 91%N line /\ ~ In 123%N line) ->
  Flow.nodes (Flow.parse src) = [] /\
  Flow.steps (Flow.parse src) = js "<li>No flowchart steps detected.</li>" ++ [LF].
Proof.
  intros H.
  assert (E : Flow.nodes (Flow.parse src) = []).
  { unfold Flow.parse.
    apply (@fold_left_inv _ _ Flow.parseLine (fun md => Flow.nodes md = []));
      [reflexivity|].
    intros md line Hn Hin. unfold Flow.parseLine. cbn [Flow.nodes].
    destruct (exec Flow.nodeRe (trim line)) as [mt|] eqn:E; [exfalso|exact Hn].
    apply nodeRe_captures in E as (_ & _ & _ & _ & [Hb|Hb] & _);
      apply In_trim in Hb; destruct (H _ Hin); contradiction. }
  split; [exact E|]. unfold Flow.steps. now rewrite E.
Qed.

Lemma flow_bare_identifiers_no_steps_witness :
  length (Flow.edges (Flow.parse bareFlowchart)) = 2 /\
  Flow.nodes (Flow.parse bareFlowchart) = [] /\
  Flow.steps (Flow.parse bareFlowchart)
  = js "<li>No flowchart steps detected.</li>" ++ [LF].
Proof.
  split; [vm_compute; reflexivity|].
  apply (flow_bare_identifiers_no_steps bareFlowchart).
  intros line Hin. vm_compute in Hin.
  destruct Hin as [<-|[<-|[]]]; vm_compute; intuition discriminate.
Defined.

(** ** The pie segments *)










(** ** The class diagram narrative *)

Example zoo_narrative :
  Class.generateClassDiagramNarrative Class.zoo
  = js "<p><strong>Class structure:</strong></p>" ++ [LF] ++ js "<ul>" ++ [LF]
      ++ js "<li><strong>Animal</strong> with methods: eat()</li>" ++ [LF]
      ++ js "<li><strong>Dog</strong></li>" ++ [LF]
      ++ js "</ul>" ++ [LF]
      ++ js "<p><strong>Relationships:</strong></p>" ++ [LF] ++ js "<ul>" ++ [LF]
      ++ js "<li><strong>Dog</strong> relates to <strong>Cat</strong></li>" ++ [LF]
      ++ js "</ul>" ++ [LF].
Proof. vm_compute. reflexivity. Qed.

Lemma relRe_captures (line : jsstring) (mt : Match) :
  exec Class.relRe line = Some mt ->
  exists a t b, wordText a /\ wordText b /\ In t Class.arrows /\
    group 1 mt = Some a /\ group 2 mt = Some t /\ group 3 mt = Some b.
Proof.
  intros H. apply exec_sound in H as (pre & u & st' & -> & D & Hg).
  unfold group. rewrite Hg. clear Hg mt.
  unfold Class.relRe in D. cbn [seq] in D.
  apply denotes_seq in D as (m1 & D1 & D).
  apply denotes_group_plus in D1 as (w1 & N1 & P1 & _ & _ & C1).
  apply denotes_seq in D as (m2 & D2 & D). destruct D2 as (_ & _ & _ & _ & C2).
  apply denotes_seq in D as (m3 & D3 & D).
  apply denotes_group in D3 as (m & t & Dt & Rt & _ & _ & _ & C3).
  assert (Ht : In t Class.arrows /\ caps m = caps m2).
  { repeat (destruct Dt as [Dt|Dt]);
      apply denotes_lit in Dt as (R & _ & C); rewrite R in Rt;
      apply app_inv_tail in Rt; subst t; (split; [|exact C]);
      unfold Class.arrows; cbn [map In]; tauto. }
  destruct Ht as [Ht Cm].
  apply denotes_seq in D as (m4 & D4 & D). destruct D4 as (_ & _ & _ & _ & C4).
  apply denotes_group_plus in D as (w3 & N3 & P3 & _ & _ & C5).
  cbn [caps] in *. rewrite C5, C4, C3, Cm, C2, C1. cbn [setCap Nat.eqb getCap].
  exists w1, t, w3. repeat split; assumption.
Qed.

Lemma classRe_captures (line : jsstring) (mt : Match) :
  exec Class.classRe line = Some mt ->
  exists w, wordText w /\ group 1 mt = Some w.
Proof.
  intros H. apply exec_sound in H as (pre & u & st' & -> & D & Hg).
  unfold group. rewrite Hg. clear Hg mt.
  unfold Class.classRe in D. cbn [seq] in D.
  apply denotes_seq in D as (m1 & D1 & D). apply denotes_lit in D1 as (_ & _ & C1).
  apply denotes_seq in D as (m2 & D2 & D). destruct D2 as (_ & _ & _ & _ & _ & C2).
  apply denotes_group_plus in D as (w & N & P & _ & _ & C3).
  cbn [caps] in *. rewrite C3, C2, C1. cbn [setCap getCap Nat.eqb].
  exists w. repeat split; assumption.
Qed.

(** The relationship pattern knows six arrows, none of which is the
    inheritance arrow [<|--] or the dependency arrow [-->] that the
    narrative tests for: every relationship that is recorded joins two
    words by one of the six and is narrated as "relates to", never as
    "inherits from" or "uses". *)
Theorem class_relationships_wording (src : jsstring) :
  Forall (fun rel => goodRelationship rel /\ Class.relType rel = js "relates to")
    (Class.relationships (Class.parse src)).
Proof.
  unfold Class.parse.
  apply (@fold_left_inv _ _ Class.parseLine
           (fun md => Forall (fun rel => goodRelationship rel /\
                                         Class.relType rel = js "relates to")
                        (Class.relationships md))); [constructor|].
  intros md line H _. unfold Class.parseLine. cbn [Class.relationships].
  destruct (exec Class.relRe (trim line)) as [mt|] eqn:E; [|exact H].
  apply relRe_captures in E as (a & t & b & Ha & Hb & Ht & -> & -> & ->).
  apply Forall_app. split; [exact H|]. constructor; [|constructor].
  cbn [text_of]. split; [unfold goodRelationship; cbn [Class.from Class.to Class.type]; auto|].
  unfold Class.relType. cbn [Class.type].
  unfold Class.arrows in Ht. cbn [map In] in Ht.
  repeat (destruct Ht as [<-|Ht]; [reflexivity|]). destruct Ht.
Qed.

Lemma has_In (k : jsstring) (m : Class.classMap) :
  Class.has k m = true <-> In k (map fst m).
Proof.
  induction m as [|[k' d] m IH]; cbn [Class.has map In fst].
  - split; [discriminate|tauto].
  - rewrite orb_true_iff, IH, str_eqb_eq. split; intros [H|H]; auto.
Qed.

Lemma pushMember_keys (k member : jsstring) (m : Class.classMap) :
  map fst (Class.pushMember k member m) = map fst m.
Proof.
  induction m as [|[k' d] m IH]; [reflexivity|]. cbn [Class.pushMember].
  destruct (str_eqb k k'); cbn [map fst]; [reflexivity|now rewrite IH].
Qed.

Lemma pushMember_good (k member : jsstring) (m : Class.classMap) :
  Forall goodClass m -> Forall goodClass (Class.pushMember k member m).
Proof.
  induction 1 as [|[k' d] m Hd Hm IH]; [constructor|]. cbn [Class.pushMember].
  destruct (str_eqb k k'); [|now constructor].
  constructor; [|exact Hm]. destruct Hd as (Hw & Hme & Hpr).
  unfold goodClass. cbn [fst snd] in *.
  destruct (includes member (js "()")) eqn:I; cbn [Class.methods Class.properties];
    (split; [exact Hw|split]); try assumption;
    apply Forall_app; (split; [assumption|]); constructor; auto.
Qed.

(** A class is listed once, however often it is declared, under a name
    made of word characters; the members recorded as its methods are
    those that hold a pair of parentheses. *)
Theorem class_entries (src : jsstring) :
  NoDup (map fst (Class.classes (Class.parse src))) /\
  Forall goodClass (Class.classes (Class.parse src)).
Proof.
  unfold Class.parse.
  apply (@fold_left_inv _ _ Class.parseLine
           (fun md => NoDup (map fst (Class.classes md)) /\
                      Forall goodClass (Class.classes md))).
  { split; constructor. }
  intros md line [Hnd Hg] _. unfold Class.parseLine. cbn [Class.classes].
  set (classes1 :=
         match exec Class.classRe (trim line) with
         | Some classMatch =>
             if Class.has (text_of (group 1 classMatch)) (Class.classes md)
             then Class.classes md
             else Class.classes md
                    ++ [(text_of (group 1 classMatch), Class.MkClassData [] [])]
         | None => Class.classes md
         end).
  assert (H1 : NoDup (map fst classes1) /\ Forall goodClass classes1).
  { unfold classes1.
    destruct (exec Class.classRe (trim line)) as [mt|] eqn:E; [|now split].
    apply classRe_captures in E as (w & Hw & ->). cbn [text_of].
    destruct (Class.has w (Class.classes md)) eqn:Hh; [now split|]. split.
    - rewrite map_app. cbn [map fst]. apply NoDup_snoc; [exact Hnd|].
      intros Hin. apply has_In in Hin. congruence.
    - apply Forall_app. split; [exact Hg|]. constructor; [|constructor].
      repeat split; try apply Hw; constructor. }
  destruct H1 as [Hnd1 Hg1].
  destruct (exec Class.memberRe (trim line)) as [mt|]; [|now split].
  destruct (Class.has _ classes1); [|now split].
  split; [now rewrite pushMember_keys|now apply pushMember_good].
Qed.

(** ** The fallback minifier *)

Example minify_example :
  minify (js "<svg  width = '10' >" ++ LF :: js "  <g> <text>a  =  b</text> </g>"
            ++ LF :: js "</svg> ")
  = js "<svg width='10' ><g><text>a=b</text></g></svg>".
Proof. vm_compute. reflexivity. Qed.

(** A global replacement whose pattern matches only texts with the
    visible code units of the replacement text leaves the visible code
    units of the subject as they were. *)
Lemma replaceFrom_visible (r : regex) (rep : jsstring) :
  (forall st st' w, denotes r st st' -> rest st = w ++ rest st' ->
                    filter visible w = filter visible rep) ->
  forall s k ps, k <= length s ->
    filter visible (replaceFrom r rep k ps s) = filter visible (skipn k s).
Proof.
  intros H. induction s as [|c t IH]; intros k ps Hk.
  - cbn [length] in Hk. assert (k = 0) by lia. subst k. cbn [replaceFrom skipn].
    destruct (rmatch r _ _) as [st|] eqn:E; [|reflexivity].
    apply rmatch_sound in E as (st' & D & [= ->]).
    destruct (denotes_consumes _ _ _ D) as (w & R & P). cbn [rest pos] in *.
    destruct w; [|discriminate]. pose proof (H _ _ [] D R) as Hw.
    destruct (pos st - ps); now rewrite <- Hw.
  - destruct k as [|k]; cbn [replaceFrom skipn].
    + destruct (rmatch r _ _) as [st|] eqn:E.
      * apply rmatch_sound in E as (st' & D & [= ->]).
        destruct (denotes_consumes _ _ _ D) as (w & R & P). cbn [rest pos] in *.
        pose proof (H _ _ w D R) as Hw.
        replace (pos st - ps) with (length w) by lia.
        destruct w as [|x w]; cbn [length].
        -- rewrite filter_app. cbn [filter]. rewrite IH by lia. cbn [skipn].
           rewrite <- Hw. reflexivity.
        -- rewrite filter_app, IH, <- Hw.
           ++ cbn [app] in R. injection R as -> ->.
              rewrite skipn_app_same, <- filter_app. reflexivity.
           ++ cbn [app] in R. injection R as _ ->. rewrite length_app. lia.
      * cbn [filter]. rewrite IH by lia. reflexivity.
    + apply IH. cbn [length] in Hk. lia.
Qed.

Lemma filter_visible_ws (w : jsstring) :
  Forall (fun c => isWhiteSpace c = true) w -> filter visible w = [].
Proof.
  induction 1 as [|c w Hc _ IH]; [reflexivity|]. cbn [filter]. unfold visible.
  now rewrite Hc.
Qed.

Lemma filter_visible_trimStart (s : jsstring) :
  filter visible (trimStart s) = filter visible s.
Proof.
  destruct (trimStart_suffix s) as (w & E & Hw). rewrite E at 2.
  now rewrite filter_app, (filter_visible_ws Hw).
Qed.

Lemma filter_visible_trimEnd (s : jsstring) :
  filter visible (trimEnd s) = filter visible s.
Proof.
  induction s as [|c s IH]; [reflexivity|]. rewrite trimEnd_cons.
  destruct (trimEnd s) as [|x t] eqn:E.
  - change (filter visible (c :: s))
      with (if visible c then c :: filter visible s else filter visible s).
    rewrite <- IH. unfold visible. cbn [filter].
    destruct (isWhiteSpace c) eqn:W; cbn [filter negb]; [reflexivity|].
    now rewrite W.
  - cbn [filter]. now rewrite <- IH.
Qed.

Lemma equalsRe_visible (st st' : mstate) (w : jsstring) :
  denotes equalsRe st st' -> rest st = w ++ rest st' ->
  filter visible w = filter visible (js "=").
Proof.
  intros D R. unfold equalsRe in D. cbn [seq] in D.
  apply denotes_seq in D as (m1 & (w1 & P1 & R1 & _) & D).
  apply denotes_seq in D as (m2 & (R2 & _) & (w2 & P2 & R3 & _)).
  rewrite R1, R2, R3 in R.
  change (w1 ++ 61%N :: w2 ++ rest st') with (w1 ++ (61%N :: w2) ++ rest st') in R.
  rewrite app_assoc in R. apply app_inv_tail in R. subst w.
  rewrite filter_app. change (61%N :: w2) with ([61%N] ++ w2). rewrite filter_app.
  pose proof (filter_visible_ws P1) as E1. pose proof (filter_visible_ws P2) as E2.
  etransitivity; [apply f_equal2; [exact E1|apply f_equal2; [reflexivity|exact E2]]|].
  reflexivity.
Qed.

Lemma gapRe_visible (st st' : mstate) (w : jsstring) :
  denotes gapRe st st' -> rest st = w ++ rest st' ->
  filter visible w = filter visible (js "><").
Proof.
  intros D R. apply denotes_lit in D as (R1 & _).
  rewrite R1 in R. apply app_inv_tail in R. subst w. reflexivity.
Qed.

Lemma runRe_visible (st st' : mstate) (w : jsstring) :
  denotes runRe st st' -> rest st = w ++ rest st' ->
  filter visible w = filter visible (js " ").
Proof.
  intros D R. destruct D as (w1 & _ & P1 & R1 & _).
  rewrite R1 in R. apply app_inv_tail in R. subst w.
  exact (filter_visible_ws P1).
Qed.

(** The fallback minifier removes or replaces white space only: the code
    units that show come out as they went in, in the same order. *)
Theorem optimizeSvg_keeps_visible (svgString : jsstring) :
  filter visible (optimizeSvg None svgString) = filter visible svgString.
Proof.
  destruct svgString as [|c s]; [reflexivity|]. cbn [optimizeSvg].
  set (x := c :: s). unfold minify, trim.
  rewrite filter_visible_trimEnd, filter_visible_trimStart.
  unfold replaceAll.
  rewrite (@replaceFrom_visible equalsRe (js "=") equalsRe_visible) by lia. cbn [skipn].
  rewrite (@replaceFrom_visible gapRe (js "><") gapRe_visible) by lia. cbn [skipn].
  rewrite (@replaceFrom_visible runRe (js " ") runRe_visible) by lia. reflexivity.
Qed.

(** ** Random example *)



(** Without a list of examples, or with an empty one, nothing is picked:
    the function throws. *)
Example pickRandomExample_empty (A : Type) (random : Q) :
  pickRandomExample random (@None (list A)) = Thrown (js "No examples available") /\
  pickRandomExample random (Some (@nil A)) = Thrown (js "No examples available").
Proof. split; reflexivity. Qed.

(** ** Documents that are not flowcharts *)

Lemma findFirst_of_query_nil (sel : Node -> bool) (n : Node) :
  querySelectorAll sel n = [] -> findFirst sel n = None.
Proof.
  induction n as [t a cs IH|d|d] using Node_ind'; try reflexivity.
  induction IH as [|c cs Hc _ IHcs]; [reflexivity|].
  rewrite findFirst_cons, query_cons. intros H.
  apply app_eq_nil in H as [H1 H2]. apply app_eq_nil in H2 as [H2 H3].
  destruct (sel c); [discriminate|]. rewrite (Hc H2), (IHcs H3). reflexivity.
Qed.

Lemma shallow_isFlowchartMarker : shallow isFlowchartMarker.
Proof. repeat split. Qed.

Lemma removeAt_query_nil (sel : Node -> bool) (p : path) (n : Node) :
  shallow sel -> querySelectorAll sel n = [] ->
  querySelectorAll sel (removeAt p n) = [].
Proof.
  intros Hs H. pose proof (@removeAt_query_le sel p n Hs) as L.
  rewrite H in L. now apply length_zero_nil in L.
Qed.

Lemma removeExisting_query_nil (sel : Node -> bool) (n : Node) :
  shallow sel -> querySelectorAll sel n = [] ->
  querySelectorAll sel (removeExisting n) = [].
Proof.
  intros Hs H. unfold removeExisting.
  destruct (findFirst isTitle n) as [p|]; destruct (findFirst isDesc n) as [q|];
    try destruct (inside p q); try destruct (findFirst isDesc (removeAt p n));
    auto using removeAt_query_nil.
Qed.

Lemma applyFlowchartSemantics_plain (svg : Node) :
  querySelectorAll isFlowchartMarker svg = [] -> applyFlowchartSemantics svg = svg.
Proof.
  intros H. unfold applyFlowchartSemantics.
  now rewrite (findFirst_of_query_nil _ _ H).
Qed.

Lemma titleId_not_marker (e : Entropy) (x : jsstring) :
  isFlowchartMarker (titleElement [(js "id", titleIdOf e)] x) = false.
Proof. reflexivity. Qed.

Lemma descId_not_marker (e : Entropy) (x : jsstring) :
  isFlowchartMarker (descElement [(js "id", descIdOf e)] x) = false.
Proof. reflexivity. Qed.

Lemma removeAt_attrs (p : path) (t : jsstring) (a a' : list (jsstring * jsstring))
  (cs : list Node) :
  removeAt p (Element t a cs)
  = Element t a (children (removeAt p (Element t a' cs))).
Proof. destruct p as [|i [|j p]]; reflexivity. Qed.

Lemma findFirst_attrs (sel : Node -> bool) (t : jsstring)
  (a a' : list (jsstring * jsstring)) (cs : list Node) :
  findFirst sel (Element t a cs) = findFirst sel (Element t a' cs).
Proof. reflexivity. Qed.

Lemma removeExisting_attrs (t : jsstring) (a a' : list (jsstring * jsstring))
  (cs : list Node) :
  removeExisting (Element t a cs)
  = Element t a (children (removeExisting (Element t a' cs))).
Proof.
  unfold removeExisting.
  rewrite (findFirst_attrs isTitle t a a' cs).
  destruct (findFirst isTitle (Element t a' cs)) as [p|].
  - rewrite (findFirst_attrs isDesc t a a' cs).
    destruct (findFirst isDesc (Element t a' cs)) as [q|]; [|apply removeAt_attrs].
    destruct (inside p q); [apply removeAt_attrs|].
    destruct (removeAt_Element p t a' cs) as [cs2 E2].
    rewrite (removeAt_attrs p t a a' cs), E2. cbn [children].
    rewrite (findFirst_attrs isDesc t a a' cs2).
    destruct (findFirst isDesc (Element t a' cs2)) as [q'|]; [|reflexivity].
    apply removeAt_attrs.
  - rewrite (findFirst_attrs isDesc t a a' cs).
    destruct (findFirst isDesc (Element t a' cs)) as [q|]; [|reflexivity].
    apply removeAt_attrs.
Qed.

(** For a document without flowchart ids (a pie chart, say) the
    transformer touches the root only: it sets the role, the label and the
    namespace, takes out the first title and the first desc, and puts the
    new title and desc in front of what is left; no other node changes. *)
Theorem transformRoot_plain_document (e1 e2 : Entropy) (t : jsstring)
  (a : list (jsstring * jsstring)) (cs : list Node) (md : Metadata) :
  truthy (title md) = true ->
  querySelectorAll isFlowchartMarker (Element t a cs) = [] ->
  let rest := children (removeExisting (Element t a cs)) in
  let T := titleElement [(js "id", titleIdOf e1)] (text_of (title md)) in
  let D := descElement [(js "id", descIdOf e2)] (text_of (description md)) in
  transformRoot e1 e2 (Element t a cs) md
  = Returned
      (Element t
         (setAttr (js "xmlns") svgNS
            (setAttr labelledby (labelOf e1 e2 md)
               (setAttr (js "role") (js "img") a)))
         (if truthy (description md)
          then match rest with
               | [] => [D; T]
               | _ :: _ => T :: D :: rest
               end
          else T :: rest)).
Proof.
  intros Ht Hq rest T D.
  set (a1 := setAttr (js "role") (js "img") a).
  assert (Hrem : removeExisting (Element t a1 cs) = Element t a1 rest)
    by apply removeExisting_attrs.
  assert (Hrest : querySelectorAll isFlowchartMarker (Element t a1 rest) = []).
  { rewrite <- Hrem. apply removeExisting_query_nil; [apply shallow_isFlowchartMarker|].
    rewrite query_Element. rewrite query_Element in Hq. exact Hq. }
  assert (Hplain : forall a' front,
             Forall (fun c => isFlowchartMarker c = false /\
                              querySelectorAll isFlowchartMarker c = []) front ->
             applyFlowchartSemantics (Element t a' (front ++ rest))
             = Element t a' (front ++ rest)).
  { intros a' front Hf. apply applyFlowchartSemantics_plain.
    rewrite query_Element, flat_map_app. rewrite query_Element in Hrest.
    rewrite Hrest, app_nil_r.
    induction Hf as [|c front [Hc1 Hc2] _ IH]; [reflexivity|].
    cbn [flat_map]. now rewrite Hc1, Hc2, IH. }
  assert (HT : isFlowchartMarker T = false /\ querySelectorAll isFlowchartMarker T = [])
    by (split; reflexivity).
  assert (HD : isFlowchartMarker D = false /\ querySelectorAll isFlowchartMarker D = [])
    by (split; reflexivity).
  unfold transformRoot, labelOf. cbn [setAttribute]. fold a1.
  rewrite Hrem, Ht. cbn [insertChild insertAt firstn skipn app andb].
  fold (titleIdOf e1). fold (descIdOf e2). fold T. fold D.
  destruct (truthy (description md)).
  - destruct rest as [|r rest'] eqn:Er.
    + change (insertDesc D (Element t a1 [T])) with (Returned (Element t a1 [D; T])).
      cbv iota beta. cbn [setAttribute].
      rewrite (Hplain _ [D; T]) by (repeat constructor). reflexivity.
    + change (insertDesc D (Element t a1 (T :: r :: rest')))
        with (Returned (Element t a1 (T :: D :: r :: rest'))).
      cbv iota beta. cbn [setAttribute].
      rewrite (Hplain _ [T; D]) by (repeat constructor). reflexivity.
  - cbn [setAttribute].
    rewrite (Hplain _ [T]) by (repeat constructor). reflexivity.
Qed.

Lemma transformRoot_plain_document_witness :
  transformRoot sampleEntropy1 sampleEntropy2
    (elem "svg" [("id", "pie-1")]%string
       [elem "title" [] [Text (js "old")]; elem "g" [("class", "pie")]%string []])
    sampleMetadata
  = Returned
      (Element (js "svg")
         [(js "id", js "pie-1"); (js "role", js "img");
          (labelledby, titleIdOf sampleEntropy1 ++ js " " ++ descIdOf sampleEntropy2);
          (js "xmlns", svgNS)]
         [titleElement [(js "id", titleIdOf sampleEntropy1)] (js "Login flow");
          descElement [(js "id", descIdOf sampleEntropy2)] (js "From start to end.");
          elem "g" [("class", "pie")]%string []]).
Proof.
  apply (@transformRoot_plain_document sampleEntropy1 sampleEntropy2 (js "svg")
           [(js "id", js "pie-1")]
           [elem "title" [] [Text (js "old")]; elem "g" [("class", "pie")]%string []]
           sampleMetadata); reflexivity.
Defined.

(** The code units of a global replacement come from the replacement
    text or are code units of the subject at which the pattern matches
    nothing or the empty text only. *)
Lemma replaceFrom_Forall (P : char -> Prop) (r : regex) (rep : jsstring) :
  Forall P rep ->
  forall s k ps,
    (forall pre c t, s = pre ++ c :: t ->
       (forall st, rmatch r (fun st => Some st) (MState (ps + length pre) (c :: t) [])
                   = Some st -> pos st - (ps + length pre) = 0) ->
       P c) ->
    Forall P (replaceFrom r rep k ps s).
Proof.
  intros Hrep. induction s as [|c t IH]; intros k ps H.
  - destruct k; cbn [replaceFrom]; [|constructor].
    destruct (rmatch r _ _); [|constructor]. now destruct (pos m - ps).
  - assert (Ht : forall k', Forall P (replaceFrom r rep k' (S ps) t)).
    { intros k'. apply IH. intros pre c' t' -> Hn.
      apply (H (c :: pre) c' t' eq_refl). cbn [length].
      now rewrite Nat.add_succ_r. }
    assert (H0 : (forall st, rmatch r (fun st => Some st) (MState ps (c :: t) [])
                             = Some st -> pos st - ps = 0) -> P c).
    { intros Hm. apply (H [] c t eq_refl). cbn [length]. now rewrite Nat.add_0_r. }
    destruct k as [|k]; cbn [replaceFrom]; [|apply Ht].
    destruct (rmatch r _ _) as [st|] eqn:E.
    + destruct (pos st - ps) eqn:N.
      * apply Forall_app. split; [exact Hrep|]. constructor; [|apply Ht].
        apply H0. now intros st' [= <-].
      * apply Forall_app. split; [exact Hrep|apply Ht].
    + constructor; [|apply Ht]. apply H0. discriminate.
Qed.

Lemma replaceAll_Forall (P : char -> Prop) (r : regex) (rep s : jsstring) :
  Forall P rep -> Forall P s -> Forall P (replaceAll r rep s).
Proof.
  intros Hrep Hs. apply replaceFrom_Forall; [exact Hrep|].
  intros pre c t -> _. apply Forall_app in Hs as [_ Hs]. now inversion Hs.
Qed.

Lemma replaceAll_runRe_spaces (s : jsstring) :
  Forall spaceOrVisible (replaceAll runRe (js " ") s).
Proof.
  apply replaceFrom_Forall.
  - constructor; [intros _; reflexivity|constructor].
  - intros pre c t _ H W. exfalso. unfold runRe in H. cbn [rmatch rest pos caps] in H.
    rewrite W in H.
    destruct (star isWhiteSpace (fun st => Some st) (S (0 + length pre)) [] t)
      as [st|] eqn:E.
    + specialize (H st eq_refl). apply star_Some in E as (n & _ & [= <-] & _).
      cbn [pos] in H. lia.
    + apply (@star_not_None isWhiteSpace (fun st => Some st) [] t
               (S (0 + length pre)) 0); [lia|discriminate|exact E].
Qed.

(** Without the SVGO library the result of [optimizeSvg] is one trimmed
    line: its only white space is the space (no line break, no tab), and
    it has none at either end. *)
Theorem optimizeSvg_single_line (svgString : jsstring) :
  Forall spaceOrVisible (optimizeSvg None svgString) /\
  trim (optimizeSvg None svgString) = optimizeSvg None svgString.
Proof.
  destruct svgString as [|c s]; [split; [constructor|reflexivity]|].
  cbn [optimizeSvg]. unfold minify. split; [|apply trim_idem].
  apply Forall_trim. apply replaceAll_Forall; [repeat constructor; discriminate|].
  apply replaceAll_Forall; [repeat constructor; discriminate|].
  apply replaceAll_runRe_spaces.
Qed.

(** ** The minifier, replacement by replacement *)

Lemma replace_runRe_collapse (s : jsstring) :
  forall ps,
    replaceFrom runRe (js " ") 0 ps s = collapseFrom false s /\
    replaceFrom runRe (js " ") (spanLen isWhiteSpace s) ps s = collapseFrom true s.
Proof.
  induction s as [|c t IH]; intros ps; [split; reflexivity|].
  destruct (IH (S ps)) as [IH1 IH2].
  assert (H1 : replaceFrom runRe (js " ") 0 ps (c :: t) = collapseFrom false (c :: t)).
  { cbn [replaceFrom collapseFrom]. unfold runRe at 1. cbn [rmatch rest pos caps].
    destruct (isWhiteSpace c) eqn:W.
    - rewrite star_greedy by discriminate. cbn [pos].
      replace (S ps + spanLen isWhiteSpace t - ps) with (S (spanLen isWhiteSpace t)) by lia.
      cbv beta iota. now rewrite IH2.
    - now rewrite IH1. }
  split; [exact H1|].
  cbn [spanLen]. destruct (isWhiteSpace c) eqn:W.
  - cbn [replaceFrom collapseFrom]. now rewrite W, IH2.
  - rewrite H1. cbn [collapseFrom]. now rewrite W.
Qed.

Lemma replaceAll_runRe (s : jsstring) :
  replaceAll runRe (js " ") s = collapseFrom false s.
Proof. apply replace_runRe_collapse. Qed.

Lemma replace_gapRe_ungap (n : nat) :
  forall s ps, length s <= n -> replaceFrom gapRe (js "><") 0 ps s = ungap s.
Proof.
  induction n as [|n IH]; intros s ps Hn.
  - destruct s; [reflexivity|cbn [length] in Hn; lia].
  - destruct s as [|c t]; [reflexivity|].
    cbn [replaceFrom ungap]. unfold gapRe at 1. rewrite rmatch_lit.
    destruct (startsWith (c :: t) (js "> <")) eqn:S.
    + apply startsWith_app in S as [r Hr]. cbn [pos].
      replace (ps + length (js "> <") - ps) with 3 by (cbn; lia).
      cbn [js map list_ascii_of_string app] in Hr. injection Hr as -> ->.
      cbn [replaceFrom js map list_ascii_of_string app]. do 2 f_equal.
      apply IH. cbn [length] in Hn. lia.
    + f_equal. apply IH. cbn [length] in Hn. lia.
Qed.

Lemma replaceAll_gapRe (s : jsstring) : replaceAll gapRe (js "><") s = ungap s.
Proof. exact (@replace_gapRe_ungap (length s) s 0 (le_n _)). Qed.

Lemma star_all_None (p : char -> bool) (k : cont) (cs : list (nat * jsstring))
  (s : jsstring) (ps : nat) :
  (forall m, m <= spanLen p s -> k (MState (ps + m) (skipn m s) cs) = None) ->
  star p k ps cs s = None.
Proof.
  intros H. destruct (star p k ps cs s) as [r|] eqn:E; [|reflexivity].
  apply star_Some in E as (n & Hn & Hk & _). now rewrite H in Hk.
Qed.

Lemma spanLen_inside (p : char -> bool) (s : jsstring) (m : nat) :
  m < spanLen p s -> exists c r, skipn m s = c :: r /\ p c = true.
Proof.
  revert m. induction s as [|c t IH]; intros m H; cbn [spanLen] in H; [lia|].
  destruct (p c) eqn:E; [|lia]. destruct m as [|m]; [now exists c, t|].
  cbn [skipn]. apply IH. lia.
Qed.

Lemma ws_not_equals (c : char) : isWhiteSpace c = true -> (c =? 61)%N = false.
Proof.
  intros H. destruct (N.eqb_spec c 61) as [->|]; [discriminate|reflexivity].
Qed.

(** Where [/\s*=\s*/] matches and what it takes. *)
Lemma equalsRe_match (s : jsstring) (ps : nat) :
  match rmatch equalsRe (fun st => Some st) (MState ps s []) with
  | Some st =>
      beforeEquals s = true /\
      pos st = ps + spanLen isWhiteSpace s + 1
               + spanLen isWhiteSpace (tl (skipn (spanLen isWhiteSpace s) s))
  | None => beforeEquals s = false
  end.
Proof.
  unfold equalsRe, beforeEquals. cbn [seq rmatch pos rest caps].
  destruct (skipn (spanLen isWhiteSpace s) s) as [|c r1] eqn:U.
  - rewrite star_all_None; [reflexivity|]. intros m Hm. cbn [rest].
    destruct (Nat.eq_dec m (spanLen isWhiteSpace s)) as [->|N]; [now rewrite U|].
    destruct (@spanLen_inside isWhiteSpace s m) as (x & r & -> & W); [lia|].
    now rewrite (ws_not_equals _ W).
  - destruct (N.eqb_spec c 61) as [->|N].
    + rewrite star_greedy; rewrite U; cbn [rest pos caps]; rewrite N.eqb_refl.
      * rewrite star_greedy by discriminate. cbn [pos tl]. split; [reflexivity|lia].
      * rewrite star_greedy; discriminate.
    + rewrite star_all_None; [reflexivity|]. intros m Hm. cbn [rest].
      destruct (Nat.eq_dec m (spanLen isWhiteSpace s)) as [->|N'].
      * rewrite U. destruct (N.eqb_spec c 61); [contradiction|reflexivity].
      * destruct (@spanLen_inside isWhiteSpace s m) as (x & r & -> & W); [lia|].
        now rewrite (ws_not_equals _ W).
Qed.

Lemma replaceFrom_skip (r : regex) (rep : jsstring) (s : jsstring) :
  forall k ps, k <= length s ->
    replaceFrom r rep k ps s = replaceFrom r rep 0 (ps + k) (skipn k s).
Proof.
  induction s as [|c t IH]; intros k ps Hk.
  - cbn [length] in Hk. assert (k = 0) by lia. subst. now rewrite Nat.add_0_r.
  - destruct k as [|k]; [now rewrite Nat.add_0_r|].
    cbn [replaceFrom skipn]. rewrite IH by (cbn [length] in Hk; lia).
    now rewrite Nat.add_succ_r.
Qed.

Lemma beforeEquals_ws (c : char) (t : jsstring) :
  isWhiteSpace c = true -> beforeEquals (c :: t) = beforeEquals t.
Proof. intros W. unfold beforeEquals. cbn [spanLen]. now rewrite W. Qed.

Lemma beforeEquals_run (w x : jsstring) :
  allWs w -> beforeEquals (w ++ 61%N :: x) = true.
Proof.
  induction 1 as [|c w Hc _ IH]; [reflexivity|].
  cbn [app]. now rewrite beforeEquals_ws.
Qed.

Lemma tighten_run_equals (b : bool) (w x : jsstring) :
  allWs w -> tightenFrom b (w ++ 61%N :: x) = 61%N :: tightenFrom true x.
Proof.
  induction 1 as [|c w Hc Hw IH]; [reflexivity|].
  cbn [app tightenFrom]. rewrite (ws_not_equals _ Hc), Hc.
  rewrite (beforeEquals_run x Hw), orb_true_r. exact IH.
Qed.

Lemma tighten_after_run (w x : jsstring) :
  allWs w -> tightenFrom true (w ++ x) = tightenFrom true x.
Proof.
  induction 1 as [|c w Hc Hw IH]; [reflexivity|].
  cbn [app tightenFrom]. now rewrite (ws_not_equals _ Hc), Hc.
Qed.

Lemma tighten_flag (x : jsstring) :
  (x = [] \/ exists c r, x = c :: r /\ isWhiteSpace c = false) ->
  tightenFrom true x = tightenFrom false x.
Proof.
  intros [->|(c & r & -> & W)]; [reflexivity|]. cbn [tightenFrom]. now rewrite W.
Qed.

Lemma replace_equalsRe_tighten (n : nat) :
  forall s ps, length s <= n ->
    replaceFrom equalsRe (js "=") 0 ps s = tightenFrom false s.
Proof.
  induction n as [|n IH]; intros s ps Hn.
  - destruct s; [|cbn [length] in Hn; lia]. cbn [replaceFrom].
    pose proof (equalsRe_match [] ps) as M.
    destruct (rmatch equalsRe _ _); [now destruct M|reflexivity].
  - destruct s as [|c t].
    { cbn [replaceFrom]. pose proof (equalsRe_match [] ps) as M.
      destruct (rmatch equalsRe _ _); [now destruct M|reflexivity]. }
    cbn [replaceFrom]. pose proof (equalsRe_match (c :: t) ps) as M.
    destruct (rmatch equalsRe _ _) as [st|].
    + destruct M as [B P].
      set (n1 := spanLen isWhiteSpace (c :: t)) in *.
      set (n2 := spanLen isWhiteSpace (tl (skipn n1 (c :: t)))) in *.
      replace (pos st - ps) with (S (n1 + n2)) by lia.
      pose proof (spanLen_le isWhiteSpace (c :: t)) as L1. fold n1 in L1.
      unfold beforeEquals in B. fold n1 in B.
      destruct (skipn n1 (c :: t)) as [|e r1] eqn:U; [discriminate|].
      apply N.eqb_eq in B. subst e. cbn [tl] in n2.
      pose proof (spanLen_le isWhiteSpace r1) as L2. fold n2 in L2.
      assert (Es : c :: t = firstn n1 (c :: t) ++ 61%N :: firstn n2 r1 ++ skipn n2 r1).
      { transitivity (firstn n1 (c :: t) ++ skipn n1 (c :: t));
          [symmetry; apply firstn_skipn|].
        rewrite U. now rewrite (firstn_skipn n2 r1). }
      assert (Ln : length (c :: t) = n1 + S (length r1)).
      { rewrite Es at 1. rewrite (firstn_skipn n2 r1), length_app, length_firstn.
        cbn [length] in L1 |- *. lia. }
      rewrite replaceFrom_skip by (cbn [length] in Ln |- *; lia).
      replace (skipn (n1 + n2) t) with (skipn n2 r1).
      2:{ change (skipn (n1 + n2) t) with (skipn (S (n1 + n2)) (c :: t)).
          replace (S (n1 + n2)) with (n2 + 1 + n1) by lia.
          rewrite <- !skipn_skipn, U. reflexivity. }
      rewrite IH.
      2:{ rewrite length_skipn. cbn [length] in Hn, Ln. lia. }
      rewrite Es at 1.
      rewrite tighten_run_equals by (apply spanLen_firstn; unfold n1; lia).
      rewrite tighten_after_run by (apply spanLen_firstn; unfold n2; lia).
      rewrite tighten_flag by (unfold n2; apply spanLen_rest). reflexivity.
    + rewrite IH by (cbn [length] in Hn; lia).
      cbn [tightenFrom]. destruct (N.eqb_spec c 61) as [->|N]; [discriminate M|].
      destruct (isWhiteSpace c) eqn:W; [|reflexivity].
      rewrite beforeEquals_ws in M by exact W. now rewrite M.
Qed.

Lemma replaceAll_equalsRe (s : jsstring) :
  replaceAll equalsRe (js "=") s = tightenFrom false s.
Proof. exact (@replace_equalsRe_tighten (length s) s 0 (le_n _)). Qed.

(** The minifier as a composition of scans. *)
Lemma minify_scans (s : jsstring) :
  minify s = trim (tightenFrom false (ungap (collapseFrom false s))).
Proof.
  unfold minify. now rewrite replaceAll_runRe, replaceAll_gapRe, replaceAll_equalsRe.
Qed.

(** ** Minifying twice *)

Lemma tidy_collapse (s : jsstring) : forall b, tidy b (collapseFrom b s).
Proof.
  induction s as [|c t IH]; intros b; [exact I|]. cbn [collapseFrom].
  destruct (isWhiteSpace c) eqn:W.
  - destruct b; [apply IH|]. cbn [tidy].
    change (isWhiteSpace 32) with true. cbv iota. auto.
  - cbn [tidy]. rewrite W. apply IH.
Qed.

Lemma collapse_tidy (x : jsstring) : forall b, tidy b x -> collapseFrom b x = x.
Proof.
  induction x as [|c t IH]; intros b H; [reflexivity|]. cbn [tidy collapseFrom] in *.
  destruct (isWhiteSpace c).
  - destruct H as (-> & -> & H). now rewrite (IH true H).
  - now rewrite (IH false H).
Qed.

Lemma tidy_weaken (x : jsstring) : tidy true x -> tidy false x.
Proof.
  destruct x as [|c t]; [auto|]. cbn [tidy]. destruct (isWhiteSpace c); [|auto].
  intros (_ & E & _). discriminate.
Qed.

Lemma tidy_ungap (n : nat) :
  forall x b, length x <= n -> tidy b x -> tidy b (ungap x).
Proof.
  induction n as [|n IH]; intros x b Hn H.
  - destruct x; [exact I|cbn [length] in Hn; lia].
  - destruct x as [|c t]; [exact I|]. cbn [ungap].
    destruct (startsWith (c :: t) (js "> <")) eqn:S.
    + apply startsWith_app in S as [r Hr].
      cbn [js map list_ascii_of_string app] in Hr. injection Hr as -> ->.
      cbn [tidy] in *. change (isWhiteSpace 62) with false in *.
      change (isWhiteSpace 60) with false in *. change (isWhiteSpace 32) with true in *.
      cbv iota in *. destruct H as (_ & _ & H).
      apply IH; [cbn [length] in Hn; lia|exact H].
    + cbn [tidy] in *. cbn [length] in Hn. destruct (isWhiteSpace c).
      * destruct H as (E1 & E2 & H). repeat split; auto. apply IH; [lia|exact H].
      * apply IH; [lia|exact H].
Qed.

Lemma tidy_tighten (x : jsstring) :
  forall b f, tidy b x -> tidy b (tightenFrom f x).
Proof.
  induction x as [|c t IH]; intros b f H; [exact I|]. cbn [tightenFrom].
  destruct (N.eqb_spec c 61) as [->|N].
  - cbn [tidy] in *. change (isWhiteSpace 61) with false in *. cbv iota in *.
    now apply IH.
  - cbn [tidy] in H. destruct (isWhiteSpace c) eqn:W.
    + destruct H as (E1 & E2 & H). subst b.
      destruct (f || beforeEquals t).
      * apply IH. now apply tidy_weaken.
      * cbn [tidy]. rewrite W. repeat split; auto.
    + cbn [tidy]. rewrite W. now apply IH.
Qed.

Lemma tidy_trimStart (x : jsstring) : tidy false x -> tidy false (trimStart x).
Proof.
  induction x as [|c t IH]; intros H; [exact I|]. cbn [trimStart].
  destruct (isWhiteSpace c) eqn:W; [|exact H].
  cbn [tidy] in H. rewrite W in H. destruct H as (_ & _ & H).
  apply IH. now apply tidy_weaken.
Qed.

Lemma tidy_trimEnd (x : jsstring) : forall b, tidy b x -> tidy b (trimEnd x).
Proof.
  induction x as [|c t IH]; intros b H; [exact I|]. rewrite trimEnd_cons.
  cbn [tidy] in H. destruct (isWhiteSpace c) eqn:W.
  - destruct H as (E1 & E2 & H). specialize (IH true H).
    destruct (trimEnd t) eqn:E; [exact I|]. cbn [tidy]. rewrite W. auto.
  - specialize (IH false H).
    destruct (trimEnd t) eqn:E; cbn [tidy]; rewrite W; auto.
Qed.

Lemma tidy_minify (s : jsstring) : tidy false (minify s).
Proof.
  rewrite minify_scans. unfold trim. apply tidy_trimEnd, tidy_trimStart.
  apply tidy_tighten. apply (@tidy_ungap (length (collapseFrom false s))); [lia|].
  apply tidy_collapse.
Qed.

Lemma includes_cons (c : char) (t sub : jsstring) :
  includes (c :: t) sub = startsWith (c :: t) sub || includes t sub.
Proof. reflexivity. Qed.

Lemma ungap_head (t : jsstring) (h : char) (r : jsstring) :
  ungap t = h :: r -> h <> 62%N -> exists t', t = h :: t' /\ r = ungap t'.
Proof.
  destruct t as [|c t']; [discriminate|]. cbn [ungap].
  destruct (startsWith (c :: t') (js "> <")) eqn:S.
  - apply startsWith_app in S as [r' Hr].
    cbn [js map list_ascii_of_string app] in Hr. injection Hr as -> ->.
    intros [= <- _] N. contradiction.
  - intros [= <- <-] _. eauto.
Qed.

Lemma noGap_ungap (n : nat) :
  forall x, length x <= n -> includes (ungap x) gap = false.
Proof.
  induction n as [|n IH]; intros x Hn.
  - destruct x; [reflexivity|cbn [length] in Hn; lia].
  - destruct x as [|c t]; [reflexivity|]. cbn [ungap]. cbn [length] in Hn.
    destruct (startsWith (c :: t) (js "> <")) eqn:S.
    + apply startsWith_app in S as [r Hr].
      cbn [js map list_ascii_of_string app] in Hr. injection Hr as -> ->.
      rewrite !includes_cons, IH by (cbn [length] in Hn; lia). reflexivity.
    + rewrite includes_cons, IH by lia. rewrite orb_false_r.
      destruct (startsWith (c :: ungap t) gap) eqn:S2; [exfalso|reflexivity].
      apply startsWith_app in S2 as [r Hr].
      cbn [gap js map list_ascii_of_string app] in Hr. injection Hr as -> Hr.
      apply ungap_head in Hr as (t1 & -> & Hr); [|discriminate].
      symmetry in Hr. apply ungap_head in Hr as (t2 & -> & _); [|discriminate].
      cbn in S. discriminate.
Qed.

Lemma ungap_noGap (x : jsstring) : includes x gap = false -> ungap x = x.
Proof.
  induction x as [|c t IH]; intros H; [reflexivity|].
  rewrite includes_cons in H. apply orb_false_iff in H as [H1 H2].
  cbn [ungap]. fold gap. rewrite H1. now rewrite IH.
Qed.

Lemma tighten_visible_head (f : bool) (c : char) (t : jsstring) :
  isWhiteSpace c = false ->
  exists f', tightenFrom f (c :: t) = c :: tightenFrom f' t.
Proof.
  intros W. cbn [tightenFrom]. destruct (N.eqb_spec c 61) as [->|_]; rewrite ?W; eauto.
Qed.

Lemma noGap_tighten (x : jsstring) :
  forall b f, tidy b x -> includes x gap = false ->
              includes (tightenFrom f x) gap = false.
Proof.
  induction x as [|c t IH]; intros b f T H; [reflexivity|].
  rewrite includes_cons in H. apply orb_false_iff in H as [H1 H2].
  assert (Tt : exists b', tidy b' t).
  { cbn [tidy] in T. destruct (isWhiteSpace c); [destruct T as (_ & _ & T)|]; eauto. }
  destruct Tt as [b' Tt].
  assert (IHt : forall f', includes (tightenFrom f' t) gap = false)
    by (intros f'; now apply (IH b')).
  cbn [tightenFrom]. destruct (N.eqb_spec c 61) as [->|N].
  { rewrite includes_cons, IHt. reflexivity. }
  destruct (isWhiteSpace c) eqn:W.
  { destruct (f || beforeEquals t); [apply IHt|].
    rewrite includes_cons, IHt, orb_false_r.
    destruct (N.eqb_spec c 62) as [->|N2]; [discriminate W|].
    cbn [gap js map list_ascii_of_string startsWith].
    destruct (N.eqb_spec (N_of_ascii ">") c) as [E|_]; [|reflexivity].
    exfalso. apply N2. now rewrite <- E. }
  rewrite includes_cons, IHt, orb_false_r.
  destruct (startsWith (c :: tightenFrom false t) gap) eqn:S; [exfalso|reflexivity].
  apply startsWith_app in S as [r Hr].
  cbn [gap js map list_ascii_of_string app] in Hr. injection Hr as -> Hr.
  cbn [tidy] in T. change (isWhiteSpace (N_of_ascii ">")) with false in T.
  cbv iota in T.
  (* the space after [>] is a code unit of [t] that was kept *)
  destruct t as [|d t1]; [discriminate|].
  cbn [tightenFrom] in Hr. destruct (N.eqb_spec d 61) as [->|Nd]; [discriminate|].
  cbn [tidy] in T. destruct (isWhiteSpace d) eqn:Wd.
  - destruct T as (-> & _ & T1).
    destruct t1 as [|e t2].
    { destruct (false || beforeEquals []); discriminate. }
    assert (We : isWhiteSpace e = false).
    { cbn [tidy] in T1. destruct (isWhiteSpace e); [|reflexivity].
      destruct T1 as (_ & E & _). discriminate. }
    destruct (@tighten_visible_head false e t2 We) as (f1 & E1).
    destruct (false || beforeEquals (e :: t2)).
    + rewrite E1 in Hr. injection Hr as -> _. discriminate We.
    + rewrite E1 in Hr. injection Hr as -> _.
      cbn in H1. discriminate.
  - injection Hr as -> _. discriminate Wd.
Qed.

Lemma includes_app_l (a b sub : jsstring) :
  includes a sub = true -> includes (a ++ b) sub = true.
Proof.
  induction a as [|c a IH]; intros H.
  - cbn [includes] in H. rewrite orb_false_r in H.
    destruct sub; [|discriminate]. destruct b; reflexivity.
  - rewrite includes_cons in H. cbn [app]. rewrite includes_cons.
    apply orb_true_iff in H as [H|H]; [|rewrite (IH H); apply orb_true_r].
    apply startsWith_app in H as [r Hr]. change (c :: a ++ b) with ((c :: a) ++ b).
    rewrite Hr, <- app_assoc, startsWith_app_same. reflexivity.
Qed.

Lemma includes_app_r (a b sub : jsstring) :
  includes b sub = true -> includes (a ++ b) sub = true.
Proof.
  induction a as [|c a IH]; intros H; [exact H|].
  cbn [app]. rewrite includes_cons, (IH H). apply orb_true_r.
Qed.

Lemma trimEnd_prefix (x : jsstring) : exists w, x = trimEnd x ++ w.
Proof.
  induction x as [|c t (w & E)]; [now exists []|]. rewrite trimEnd_cons.
  destruct (trimEnd t) eqn:Et.
  - destruct (isWhiteSpace c); [exists (c :: t)|exists t]; reflexivity.
  - exists w. cbn [app]. f_equal. exact E.
Qed.

Lemma noGap_trim (x : jsstring) :
  includes x gap = false -> includes (trim x) gap = false.
Proof.
  intros H. destruct (includes (trim x) gap) eqn:E; [|reflexivity].
  rewrite <- H. symmetry.
  destruct (trimStart_suffix x) as (w & Ex & _).
  destruct (trimEnd_prefix (trimStart x)) as (w' & Ex').
  rewrite Ex. apply includes_app_r. rewrite Ex'. now apply includes_app_l.
Qed.

Lemma noGap_minify (s : jsstring) : includes (minify s) gap = false.
Proof.
  rewrite minify_scans. apply noGap_trim.
  apply (@noGap_tighten _ false false).
  - apply (@tidy_ungap (length (collapseFrom false s))); [lia|apply tidy_collapse].
  - apply (@noGap_ungap (length (collapseFrom false s))). lia.
Qed.

Lemma tighten_snug (x : jsstring) : forall f, snug f x -> tightenFrom f x = x.
Proof.
  induction x as [|c t IH]; intros f H; [reflexivity|]. cbn [snug tightenFrom] in *.
  destruct (c =? 61)%N eqn:E.
  - apply N.eqb_eq in E. subst c. now rewrite (IH true H).
  - destruct (isWhiteSpace c).
    + destruct H as (-> & -> & H). cbn [orb]. now rewrite (IH false H).
    + now rewrite (IH false H).
Qed.

Lemma beforeEquals_visible (c : char) (t : jsstring) :
  isWhiteSpace c = false -> beforeEquals (c :: t) = (c =? 61)%N.
Proof. intros W. unfold beforeEquals. cbn [spanLen]. now rewrite W. Qed.

Lemma snug_tighten (x : jsstring) :
  forall b f, tidy b x -> snug f (tightenFrom f x).
Proof.
  induction x as [|c t IH]; intros b f T; [exact I|]. cbn [tightenFrom].
  assert (Tt : forall f', snug f' (tightenFrom f' t)).
  { intros f'. cbn [tidy] in T.
    destruct (isWhiteSpace c); [destruct T as (_ & _ & T)|]; eapply IH; exact T. }
  destruct (N.eqb_spec c 61) as [->|N].
  { cbn [snug]. apply Tt. }
  destruct (isWhiteSpace c) eqn:W.
  - destruct f; [apply Tt|]. cbn [orb].
    destruct (beforeEquals t) eqn:B; [apply Tt|].
    cbn [snug]. destruct (N.eqb_spec c 61); [contradiction|]. rewrite W.
    split; [reflexivity|]. split; [|apply Tt].
    cbn [tidy] in T. rewrite W in T. destruct T as (_ & _ & T).
    destruct t as [|e t1]; [reflexivity|].
    assert (We : isWhiteSpace e = false).
    { cbn [tidy] in T. destruct (isWhiteSpace e); [|reflexivity].
      destruct T as (_ & E & _). discriminate. }
    rewrite beforeEquals_visible in B by exact We.
    destruct (@tighten_visible_head false e t1 We) as (f1 & ->).
    now rewrite beforeEquals_visible.
  - cbn [snug]. destruct (N.eqb_spec c 61); [contradiction|]. rewrite W. apply Tt.
Qed.

Lemma snug_trimStart (x : jsstring) : snug false x -> snug false (trimStart x).
Proof.
  induction x as [|c t IH]; intros H; [exact I|]. cbn [trimStart].
  destruct (isWhiteSpace c) eqn:W; [|exact H].
  cbn [snug] in H. rewrite (ws_not_equals _ W), W in H. apply IH, H.
Qed.

Lemma beforeEquals_trimEnd (t : jsstring) :
  beforeEquals t = false -> beforeEquals (trimEnd t) = false.
Proof.
  induction t as [|c t IH]; intros H; [reflexivity|]. rewrite trimEnd_cons.
  destruct (isWhiteSpace c) eqn:W.
  - rewrite beforeEquals_ws in H by exact W.
    destruct (trimEnd t) eqn:E; [reflexivity|].
    rewrite beforeEquals_ws by exact W. now apply IH.
  - rewrite beforeEquals_visible in H by exact W.
    destruct (trimEnd t); now rewrite beforeEquals_visible.
Qed.

Lemma snug_trimEnd (x : jsstring) : forall f, snug f x -> snug f (trimEnd x).
Proof.
  induction x as [|c t IH]; intros f H; [exact I|]. rewrite trimEnd_cons.
  cbn [snug] in H. destruct (N.eqb_spec c 61) as [->|N].
  - specialize (IH true H). change (isWhiteSpace 61) with false.
    destruct (trimEnd t) eqn:E; cbn [snug]; auto.
  - destruct (isWhiteSpace c) eqn:W.
    + destruct H as (-> & B & H). specialize (IH false H).
      destruct (trimEnd t) eqn:E; [exact I|]. cbn [snug].
      destruct (N.eqb_spec c 61); [contradiction|]. rewrite W.
      repeat split; auto. rewrite <- E. now apply beforeEquals_trimEnd.
    + specialize (IH false H).
      destruct (trimEnd t) eqn:E; cbn [snug];
        (destruct (N.eqb_spec c 61); [contradiction|]); rewrite W; auto.
Qed.

Lemma snug_minify (s : jsstring) : snug false (minify s).
Proof.
  rewrite minify_scans. unfold trim. apply snug_trimEnd, snug_trimStart.
  apply (@snug_tighten _ false false).
  apply (@tidy_ungap (length (collapseFrom false s))); [lia|apply tidy_collapse].
Qed.

(** The fallback minifier is idempotent: minified text is left as it is
    by a second pass. *)
Theorem optimizeSvg_idempotent (svgString : jsstring) :
  optimizeSvg None (optimizeSvg None svgString) = optimizeSvg None svgString.
Proof.
  destruct svgString as [|c s]; [reflexivity|]. cbn [optimizeSvg].
  set (m := minify (c :: s)).
  assert (E : minify m = m).
  { rewrite (minify_scans m).
    rewrite (collapse_tidy m false) by apply tidy_minify.
    rewrite ungap_noGap by apply noGap_minify.
    rewrite tighten_snug by apply snug_minify.
    unfold m. rewrite minify_scans. apply trim_idem. }
  destruct m as [|d m'] eqn:Em; [reflexivity|]. exact E.
Qed.

(** ** The flowchart pass adds accessibility markup only *)

Lemma withoutA11y_Element (t : jsstring) (a : list (jsstring * jsstring))
  (cs : list Node) :
  withoutA11y (Element t a cs)
  = Element t (filter (fun kv => negb (a11yAttribute (fst kv))) a)
      (childrenWithoutA11y cs).
Proof.
  cbn [withoutA11y]. f_equal. unfold childrenWithoutA11y.
  induction cs as [|c cs IH]; [reflexivity|]. cbn [flat_map].
  destruct (isTitle c); cbn [app]; now rewrite IH.
Qed.

Lemma filter_setAttr (k v : jsstring) (a : list (jsstring * jsstring)) :
  a11yAttribute k = true ->
  filter (fun kv => negb (a11yAttribute (fst kv))) (setAttr k v a)
  = filter (fun kv => negb (a11yAttribute (fst kv))) a.
Proof.
  intros H. induction a as [|[k' v'] a IH]; cbn [setAttr filter fst].
  - now rewrite H.
  - destruct (str_eqb k k') eqn:E; cbn [filter fst].
    + apply str_eqb_eq in E. subst k'. now rewrite H.
    + now rewrite IH.
Qed.

Lemma withoutA11y_setAttribute (k v : jsstring) (n : Node) :
  a11yAttribute k = true -> withoutA11y (setAttribute k v n) = withoutA11y n.
Proof.
  intros H. destruct n as [t a cs|d|d]; try reflexivity.
  cbn [setAttribute]. rewrite !withoutA11y_Element. now rewrite filter_setAttr.
Qed.

Lemma withoutA11y_hiddenMore (x y : Node) :
  hiddenMore x y -> withoutA11y y = withoutA11y x.
Proof.
  revert y. induction x as [t a cs IH|d|d] using Node_ind'; intros y H;
    apply hiddenMore_inv in H; [|now subst..].
  destruct H as (a' & cs' & -> & Hcs & Ha). rewrite !withoutA11y_Element. f_equal.
  - destruct Ha as [->| ->]; [reflexivity|]. now apply filter_setAttr.
  - unfold childrenWithoutA11y.
    induction Hcs as [|c c' cs cs' Hc Hcs IHcs]; [reflexivity|].
    inversion IH as [|? ? IHc IHcs']; subst. cbn [flat_map].
    unfold isTitle. rewrite (hiddenMore_isTag _ Hc), (IHc _ Hc). f_equal. auto.
Qed.

Lemma childrenWithoutA11y_removeAt (p : path) (t : jsstring)
  (a : list (jsstring * jsstring)) (cs : list Node) :
  findFirst isTitle (Element t a cs) = Some p ->
  withoutA11y (removeAt p (Element t a cs)) = withoutA11y (Element t a cs).
Proof.
  revert p. induction (Element t a cs) as [t0 a0 cs0 IH|d|d] using Node_ind';
    try discriminate.
  clear t a cs. induction IH as [|c cs Hc _ IHcs]; intros p; [discriminate|].
  rewrite findFirst_cons. destruct (isTitle c) eqn:T.
  - intros [= <-].
    change (removeAt [0] (Element t0 a0 (c :: cs))) with (Element t0 a0 cs).
    rewrite !withoutA11y_Element. unfold childrenWithoutA11y. cbn [flat_map].
    now rewrite T.
  - destruct (findFirst isTitle c) as [q|] eqn:F.
    + intros [= <-].
      rewrite removeAt_head by (intros ->; now apply findFirst_nonempty in F).
      rewrite !withoutA11y_Element. unfold childrenWithoutA11y. cbn [flat_map].
      rewrite (removeAt_shallow _ _ (shallow_isTag (js "title"))).
      fold isTitle. rewrite T. now rewrite (Hc q eq_refl).
    + destruct (findFirst isTitle (Element t0 a0 cs)) as [p'|] eqn:G; [|discriminate].
      intros [= <-].
      rewrite removeAt_shift by (intros ->; now apply findFirst_nonempty in G).
      specialize (IHcs p' eq_refl).
      destruct (removeAt_Element p' t0 a0 cs) as [cs' E]. rewrite E in *.
      cbn [children]. rewrite !withoutA11y_Element in *.
      unfold childrenWithoutA11y in *. cbn [flat_map].
      injection IHcs as IHcs. now rewrite IHcs.
Qed.

Lemma withoutA11y_retitle (g : Node) : withoutA11y (retitle g) = withoutA11y g.
Proof.
  destruct g as [t a cs|d|d]; try reflexivity.
  unfold retitle. cbn [setAttribute].
  set (a1 := setAttr (js "role") (js "listitem") a).
  assert (E1 : withoutA11y (Element t a1 cs) = withoutA11y (Element t a cs)).
  { apply (@withoutA11y_setAttribute (js "role") (js "listitem") (Element t a cs)).
    reflexivity. }
  assert (E2 : withoutA11y
                 (match findFirst isTitle (Element t a1 cs) with
                  | Some p => removeAt p (Element t a1 cs)
                  | None => Element t a1 cs
                  end) = withoutA11y (Element t a cs)).
  { destruct (findFirst isTitle (Element t a1 cs)) as [p|] eqn:F; [|exact E1].
    now rewrite (@childrenWithoutA11y_removeAt p t a1 cs F). }
  destruct (nodeTextOf (Element t a1 cs)) as [|c s]; [exact E2|].
  rewrite <- E2.
  destruct (match findFirst isTitle (Element t a1 cs) with
            | Some p => removeAt p (Element t a1 cs)
            | None => Element t a1 cs
            end) as [t2 a2 cs2|d|d]; reflexivity.
Qed.

Lemma withoutA11y_processNode (g : Node) :
  withoutA11y (processNode g) = withoutA11y g.
Proof.
  rewrite (withoutA11y_hiddenMore (processNode_hiddenMore g)).
  apply withoutA11y_retitle.
Qed.

Lemma withoutA11y_forEach (f : nat) (n : Node) :
  withoutA11y (forEachNodeGroup f n) = withoutA11y n.
Proof.
  revert n. induction f as [|f IH]; intros n; [reflexivity|].
  destruct n as [t a cs|d|d]; try reflexivity.
  cbn [forEachNodeGroup]. rewrite !withoutA11y_Element. f_equal.
  unfold childrenWithoutA11y. induction cs as [|c cs IHcs]; [reflexivity|].
  cbn [map flat_map]. rewrite IHcs. f_equal.
  rewrite (forEach_shallow f _ (shallow_isTag (js "title"))), IH.
  destruct (isNodeGroup c); [|reflexivity].
  unfold isTitle. now rewrite processNode_isTag, withoutA11y_processNode.
Qed.

(** The flowchart pass changes nothing but accessibility markup:
    with the [role] and [aria-hidden] attributes and the [title] elements
    left out, the document it returns is the document it was given. *)
Theorem applyFlowchartSemantics_markup_only (svg : Node) :
  withoutA11y (applyFlowchartSemantics svg) = withoutA11y svg.
Proof.
  unfold applyFlowchartSemantics.
  destruct (findFirst isFlowchartMarker svg); [|reflexivity].
  destruct (Nat.eqb _ 0); [reflexivity|].
  rewrite (withoutA11y_hiddenMore (hideMarkersBelow_hiddenMore _)).
  rewrite (withoutA11y_hiddenMore (markDescendants_hiddenMore _ _)).
  apply withoutA11y_forEach.
Qed.

(** ** The Gantt narrative *)

Example gantt_plan_narrative :
  Gantt.generateGanttNarrative Gantt.plan
  = Gantt.heading ++ js "<p><em>Release plan</em></p>" ++ [LF]
      ++ js "<ul>" ++ [LF]
      ++ js "<li><strong>Design</strong>" ++ [LF] ++ js "<ul>" ++ [LF]
      ++ js "<li>Sketch <em>(completed)</em></li>" ++ [LF]
      ++ js "</ul>" ++ [LF] ++ js "</li>" ++ [LF]
      ++ js "<li><strong>Build</strong>" ++ [LF] ++ js "<ul>" ++ [LF]
      ++ js "<li>Code <em>(in progress, critical)</em></li>" ++ [LF]
      ++ js "<li>Ship <em>(milestone)</em></li>" ++ [LF]
      ++ js "</ul>" ++ [LF] ++ js "</li>" ++ [LF]
      ++ js "</ul>" ++ [LF].
Proof. vm_compute. reflexivity. Qed.

Lemma searchEnd_Some (r : regex) (s : jsstring) (ps : nat) (mt : Match) :
  searchEnd r ps s = Some mt ->
  exists pre u st, s = pre ++ u /\
    rmatch r atEnd (MState (ps + length pre) u []) = Some st /\
    groups mt = caps st.
Proof.
  revert ps; induction s as [|c t IH]; intros ps H; cbn [searchEnd] in H.
  - destruct (rmatch r _ _) as [st|] eqn:E; [|discriminate].
    inversion H; subst. exists [], [], st. simpl. rewrite Nat.add_0_r. auto.
  - destruct (rmatch r _ _) as [st|] eqn:E.
    + inversion H; subst. exists [], (c :: t), st. simpl. rewrite Nat.add_0_r. auto.
    + destruct (IH _ H) as (pre & u & st & -> & Hm & Hg).
      exists (c :: pre), u, st. simpl. rewrite Nat.add_succ_r. auto.
Qed.

(** A match of [r$] is a match of [r] that leaves nothing. *)
Lemma execEnd_sound (r : regex) (s : jsstring) (mt : Match) :
  execEnd r s = Some mt ->
  exists pre u st', s = pre ++ u /\
    denotes r (MState (length pre) u []) st' /\ rest st' = [] /\
    groups mt = caps st'.
Proof.
  unfold execEnd. intros H. apply searchEnd_Some in H as (pre & u & st & -> & Hm & Hg).
  apply rmatch_sound in Hm as (st' & D & K). unfold atEnd in K.
  destruct (rest st') eqn:R; [|discriminate]. injection K as ->.
  exists pre, u, st. auto.
Qed.

(** A pattern that starts with [^] matches at the start only. *)
Lemma execEnd_bol (r : regex) (s : jsstring) (mt : Match) :
  execEnd (RSeq RBol r) s = Some mt ->
  exists st', denotes r (MState 0 s []) st' /\ rest st' = [] /\
              groups mt = caps st'.
Proof.
  intros H. apply execEnd_sound in H as (pre & u & st' & -> & D & R & Hg).
  apply denotes_seq in D as (m & [P ->] & D). cbn [pos] in P.
  apply length_zero_iff_nil in P. subst pre. exists st'. auto.
Qed.

Lemma sectionRe_captures (t : jsstring) (mt : Match) :
  execEnd sectionRe t = Some mt ->
  exists w g, t = js "section" ++ w ++ g /\ g <> [] /\
              Forall (fun c => dot c = true) g /\ group 1 mt = Some g.
Proof.
  intros H. apply execEnd_bol in H as (st' & D & R & Hg).
  unfold group. rewrite Hg. clear Hg mt.
  apply denotes_seq in D as (m1 & D1 & D). apply denotes_lit in D1 as (R1 & _ & C1).
  apply denotes_seq in D as (m2 & D2 & D).
  destruct D2 as (w & _ & _ & R2 & _ & C2).
  apply denotes_group_plus in D as (g & N & P & R3 & _ & C3).
  cbn [rest caps] in *. rewrite R in R3. rewrite app_nil_r in R3.
  exists w, g. rewrite R1, R2, R3, C3. rewrite getCap_setCap_same. auto.
Qed.

Lemma taskRe_captures (t : jsstring) (mt : Match) :
  execEnd Gantt.taskRe t = Some mt ->
  exists n r p, t = n ++ r /\ n <> [] /\ Forall (fun c => notColon c = true) n /\
                group 1 mt = Some n /\ group 2 mt = Some p.
Proof.
  intros H. apply execEnd_bol in H as (st' & D & R & Hg).
  unfold group. rewrite Hg. clear Hg mt.
  apply denotes_seq in D as (m1 & D1 & D).
  apply denotes_group_plus in D1 as (n & N & P & R1 & _ & C1).
  apply denotes_seq in D as (m2 & D2 & D). destruct D2 as (_ & _ & _ & _ & C2).
  apply denotes_seq in D as (m3 & D3 & D). destruct D3 as (_ & _ & C3).
  apply denotes_seq in D as (m4 & D4 & D). destruct D4 as (_ & _ & _ & _ & C4).
  apply denotes_group_plus in D as (p & _ & _ & _ & _ & C5).
  cbn [rest caps] in *.
  exists n, (rest m1), p. rewrite C5, C4, C3, C2, C1.
  cbn [setCap getCap Nat.eqb]. auto.
Qed.

Lemma trim_head (l : jsstring) (c : char) (r : jsstring) :
  trim l = c :: r -> isWhiteSpace c = false.
Proof. unfold trim. rewrite trim_commute. apply trimStart_head. Qed.

Lemma trimEnd_suffix (a b : jsstring) :
  trimEnd (a ++ b) = a ++ b -> b <> [] -> trimEnd b = b.
Proof.
  intros H Hb. induction a as [|c a IH]; [exact H|]. apply IH.
  cbn [app] in H. rewrite trimEnd_cons in H.
  destruct (trimEnd (a ++ b)) eqn:E.
  - destruct (isWhiteSpace c); [discriminate|]. injection H as H.
    symmetry in H. apply app_eq_nil in H as [_ H]. contradiction.
  - now injection H.
Qed.

Lemma trimEnd_trim (l : jsstring) : trimEnd (trim l) = trim l.
Proof. unfold trim. apply trimEnd_idem. Qed.

(** The end of a trimmed text is trimmed text. *)
Lemma trimmedText_suffix (l a g : jsstring) :
  trim l = a ++ g -> g <> [] -> trimmedText (trim g).
Proof.
  intros E Hg. split; [|apply trim_idem].
  assert (Te : trimEnd g = g).
  { apply (@trimEnd_suffix a g); [|exact Hg]. rewrite <- E. apply trimEnd_trim. }
  unfold trim. rewrite trim_commute, Te.
  destruct (trimStart_suffix g) as (w & Ew & Hw). intros Z. rewrite Z, app_nil_r in Ew.
  subst w. rewrite (trimEnd_allWs Hw) in Te. now subst g.
Qed.

(** The start of a trimmed text, trimmed, is a start of it. *)
Lemma trim_prefix (l n r : jsstring) :
  trim l = n ++ r -> n <> [] ->
  trimmedText (trim n) /\ exists r', trim l = trim n ++ r'.
Proof.
  intros E Hn. destruct n as [|c n]; [contradiction|].
  assert (W : isWhiteSpace c = false) by (apply (@trim_head l c (n ++ r)); exact E).
  split; [split; [now apply trim_nonws_head|apply trim_idem]|].
  unfold trim at 2. cbn [trimStart]. rewrite W.
  destruct (trimEnd_prefix (c :: n)) as [w Ew].
  exists (w ++ r). rewrite E, app_assoc. now rewrite <- Ew.
Qed.

Lemma oneOf_not_None (k : cont) (ws : list jsstring) (w : jsstring)
  (ps : nat) (s : jsstring) (cs : list (nat * jsstring)) :
  (forall st, k st <> None) -> In w ws -> startsWith s w = true ->
  rmatch (oneOf ws) k (MState ps s cs) <> None.
Proof.
  intros Hk. induction ws as [|x ws IH]; [contradiction|]. intros Hin Hs.
  assert (Hx : x = w -> rmatch (lit x) k (MState ps s cs) <> None).
  { intros ->. rewrite rmatch_lit, Hs. apply Hk. }
  destruct ws as [|y ws].
  - destruct Hin as [Hin|[]]. cbn [oneOf]. auto.
  - change (oneOf (x :: y :: ws)) with (RAlt (lit x) (oneOf (y :: ws))).
    cbn [rmatch]. destruct (rmatch (lit x) k (MState ps s cs)) eqn:E; [discriminate|].
    destruct Hin as [Hin|Hin]; [now apply Hx in Hin|auto].
Qed.

(** A line that starts with a keyword matches the keyword pattern. *)
Lemma keywordRe_complete (t kw : jsstring) :
  In kw Gantt.keywords -> startsWith t kw = true -> exec Gantt.keywordRe t <> None.
Proof.
  intros Hin Hs. unfold exec. apply (@search_not_None Gantt.keywordRe [] t 0).
  cbn [length Nat.add]. unfold Gantt.keywordRe. cbn [seq rmatch pos Nat.eqb].
  apply oneOf_not_None with (w := kw); [discriminate|exact Hin|exact Hs].
Qed.

Lemma pushTask_good (t : Gantt.task) (ss : list Gantt.section) :
  goodTask t -> Forall goodGanttSection ss ->
  Forall goodGanttSection (Gantt.pushTask t ss).
Proof.
  intros Ht. induction 1 as [|s ss Hs Hss IH]; [constructor|].
  cbn [Gantt.pushTask]. destruct ss as [|s' ss].
  - constructor; [|constructor]. destruct Hs as (H1 & H2 & H3).
    repeat split; try apply H1; [exact H2|].
    cbn [Gantt.tasks]. apply Forall_app. split; [exact H3|now constructor].
  - constructor; [exact Hs|exact IH].
Qed.

(** Invariant of the Gantt parser: a section name is the trimmed,
    non-empty rest of a section line; a task name is trimmed, not empty,
    holds no colon and starts with none of the keywords [gantt], [title],
    [dateFormat], [axisFormat], [excludes], [tickInterval], [weekend]: a
    task whose name starts with one of them is not recorded. *)
Theorem gantt_sections_and_tasks (source : jsstring) :
  Forall goodGanttSection (Gantt.parse source).
Proof.
  unfold Gantt.parse.
  apply (@fold_left_inv _ _ Gantt.parseLine (Forall goodGanttSection));
    [constructor|].
  intros ss line H _. unfold Gantt.parseLine.
  destruct (execEnd sectionRe (trim line)) as [mt|] eqn:E.
  { apply sectionRe_captures in E as (w & g & Et & Ng & Pg & ->). cbn [text_of].
    apply Forall_app. split; [exact H|]. constructor; [|constructor].
    rewrite app_assoc in Et. repeat split; cbn [Gantt.name Gantt.tasks].
    - exact (proj1 (@trimmedText_suffix line _ g Et Ng)).
    - apply trim_idem.
    - now apply Forall_trim.
    - constructor. }
  destruct (exec Gantt.keywordRe (trim line)) as [mk|] eqn:K; [exact H|].
  destruct (execEnd Gantt.taskRe (trim line)) as [mt|] eqn:T; [|exact H].
  apply taskRe_captures in T as (n & r & p & Et & Nn & Pn & -> & ->). cbn [text_of].
  apply pushTask_good; [|exact H].
  destruct (@trim_prefix line n r Et Nn) as [Ht (r' & Er)].
  repeat split; cbn [Gantt.taskName]; try apply Ht.
  - intros Hin. apply In_trim in Hin. rewrite Forall_forall in Pn.
    apply Pn in Hin. discriminate.
  - intros kw Hkw. destruct (startsWith (trim n) kw) eqn:S; [|reflexivity].
    exfalso. apply (@keywordRe_complete (trim line) kw Hkw); [|exact K].
    apply startsWith_app in S as [q Eq]. rewrite Er, Eq, <- app_assoc.
    apply startsWith_app_same.
Qed.

Lemma sectionRe_needs_word (t : jsstring) :
  startsWith t (js "section") = false -> execEnd sectionRe t = None.
Proof.
  intros H. destruct (execEnd sectionRe t) as [mt|] eqn:E; [|reflexivity].
  apply sectionRe_captures in E as (w & g & -> & _). 
  now rewrite startsWith_app_same in H.
Qed.

(** Tasks are narrated inside sections only: when no line starts with
    [section], every task is dropped and the narrative is the heading and,
    if there is a title line, the title. *)
Theorem gantt_tasks_need_section (source : jsstring) :
  (forall l, In l (split_nl source) -> startsWith (trim l) (js "section") = false) ->
  Gantt.generateGanttNarrative source
  = Gantt.heading ++ titleParagraph (sourceLines source).
Proof.
  intros H. unfold Gantt.generateGanttNarrative.
  assert (P : Gantt.parse source = []).
  { unfold Gantt.parse.
    apply (@fold_left_inv _ _ Gantt.parseLine (fun ss => ss = [])); [reflexivity|].
    intros ss l -> Hl. unfold Gantt.parseLine.
    rewrite sectionRe_needs_word.
    - destruct (exec Gantt.keywordRe (trim l)); [reflexivity|].
      now destruct (execEnd Gantt.taskRe (trim l)).
    - apply H. unfold sourceLines in Hl. now do 2 apply filter_In, proj1 in Hl. }
  rewrite P. cbn [length Nat.ltb Nat.leb]. now rewrite app_nil_r.
Qed.

Lemma gantt_tasks_need_section_witness :
  Gantt.generateGanttNarrative Gantt.flatPlan
  = Gantt.heading ++ js "<p><em>Release</em></p>" ++ [LF].
Proof.
  change (Gantt.heading ++ js "<p><em>Release</em></p>" ++ [LF])
    with (Gantt.heading ++ titleParagraph (sourceLines Gantt.flatPlan)).
  apply (@gantt_tasks_need_section Gantt.flatPlan).
  intros l Hl. vm_compute in Hl.
  repeat (destruct Hl as [<-|Hl]; [reflexivity|]). destruct Hl.
Defined.

(** ** The user journey steps *)

Example journey_shopping :
  Journey.parse Journey.shopping
  = [Journey.MkSection (js "Shop")
       [Journey.MkStep (js "Find the book") (Finite 5) [js "Reader"];
        Journey.MkStep (js "Pay") (Finite 12) [js "Reader"; js "Cashier"];
        Journey.MkStep (js "Queue") (Finite 2) [js "Reader"; []]]].
Proof. vm_compute. reflexivity. Qed.

(** ** The XY chart *)

Example xychart_sales :
  XyChart.generateXyChartNarrative XyChart.sales
  = js "<p><strong>Chart Data:</strong></p>" ++ [LF]
      ++ js "<p>Axes: [jan, feb, mar] vs Y-Axis</p>" ++ [LF]
      ++ js "<p><strong>Datasets:</strong></p>" ++ [LF] ++ js "<ul>" ++ [LF]
      ++ js "<li>Bar: [5, 6, 7]</li>" ++ [LF]
      ++ js "<li>Line: [5, 6, 7]</li>" ++ [LF]
      ++ js "</ul>" ++ [LF].
Proof. vm_compute. reflexivity. Qed.






Lemma lower_letter (x c : char) :
  ((x =? XyChart.lower c) || (x =? XyChart.upper c))%N = true ->
  XyChart.lower x = XyChart.lower c.
Proof.
  unfold XyChart.lower, XyChart.upper. intros H.
  apply orb_true_iff in H as [H|H]; apply N.eqb_eq in H; subst x;
    repeat match goal with
           | |- context [(?a <=? ?b)%N] => destruct (N.leb_spec a b)
           end; cbn [andb] in *; try lia; try reflexivity.
Qed.

Lemma denotes_word (s : jsstring) :
  forall st st', denotes (XyChart.word s) st st' ->
    exists w, rest st = w ++ rest st' /\ caps st' = caps st /\
              XyChart.toLowerCase w = XyChart.toLowerCase s.
Proof.
  induction s as [|c s IH]; intros st st' D.
  - cbn in D. subst. now exists [].
  - destruct s as [|c' s].
    + cbn in D. destruct D as (x & Hx & R & _ & C). exists [x]. cbn [app].
      repeat split; auto. cbn. f_equal. now apply lower_letter.
    + change (XyChart.word (c :: c' :: s))
        with (RSeq (XyChart.letter c) (XyChart.word (c' :: s))) in D.
      apply denotes_seq in D as (m & (x & Hx & R & _ & C) & D).
      apply IH in D as (w & Rw & Cw & Lw). exists (x :: w). cbn [app].
      rewrite R, Rw, Cw, C. repeat split.
      change (XyChart.lower x :: XyChart.toLowerCase w
              = XyChart.lower c :: XyChart.toLowerCase (c' :: s)).
      f_equal; [now apply lower_letter|exact Lw].
Qed.

Lemma xychart_dataRe_captures (t : jsstring) (mt : Match) :
  execEnd XyChart.dataRe t = Some mt ->
  exists w g, (XyChart.toLowerCase w = js "line" \/ XyChart.toLowerCase w = js "bar") /\
              g <> [] /\ Forall (fun c => dot c = true) g /\
              group 1 mt = Some w /\ group 2 mt = Some g.
Proof.
  intros H. apply execEnd_bol in H as (st' & D & R & Hg).
  unfold group. rewrite Hg. clear Hg mt.
  apply denotes_seq in D as (m1 & D1 & D).
  apply denotes_group in D1 as (m & w & Dw & Rw & _ & _ & _ & C1).
  assert (Hw : (XyChart.toLowerCase w = js "line" \/ XyChart.toLowerCase w = js "bar")
               /\ caps m = []).
  { destruct Dw as [Dw|Dw]; apply denotes_word in Dw as (w' & Rw' & Cw & Lw);
      cbn [rest caps] in *; rewrite Rw' in Rw; apply app_inv_tail in Rw; subst w';
      (split; [|exact Cw]); [left|right]; exact Lw. }
  destruct Hw as [Hw Cm].
  apply denotes_seq in D as (m2 & D2 & D). destruct D2 as (_ & _ & _ & _ & _ & C2).
  apply denotes_group_plus in D as (g & Ng & Pg & _ & _ & C3).
  exists w, g. rewrite C3, C2, C1, Cm. cbn [setCap getCap Nat.eqb]. auto.
Qed.

(** The summary of an XY chart is never blank: both axis labels are
    non-empty (the defaults stand in for an axis line without text), and
    every series is recorded as [line] or [bar] in lower case, narrated as
    [Line] or [Bar], with a non-empty text on one line as its data. *)
Theorem xychart_summary (source : jsstring) :
  XyChart.xLabel (XyChart.parse source) <> [] /\
  XyChart.yLabel (XyChart.parse source) <> [] /\
  Forall goodDataset (XyChart.datasets (XyChart.parse source)).
Proof.
  unfold XyChart.parse.
  apply (@fold_left_inv _ _ XyChart.parseLine
           (fun ch => XyChart.xLabel ch <> [] /\ XyChart.yLabel ch <> [] /\
                      Forall goodDataset (XyChart.datasets ch))).
  { repeat split; [discriminate|discriminate|constructor]. }
  intros ch line (Hx & Hy & Hd) _. unfold XyChart.parseLine.
  assert (O : forall r f, f <> [] -> XyChart.orDefault r f <> []).
  { intros [|c r] f Hf; [exact Hf|discriminate]. }
  destruct (startsWith (trim line) (js "x-axis")).
  { cbn [XyChart.xLabel XyChart.yLabel XyChart.datasets].
    repeat split; [apply O; discriminate|exact Hy|exact Hd]. }
  destruct (startsWith (trim line) (js "y-axis")).
  { cbn [XyChart.xLabel XyChart.yLabel XyChart.datasets].
    repeat split; [exact Hx|apply O; discriminate|exact Hd]. }
  destruct (startsWith (trim line) (js "line") || startsWith (trim line) (js "bar"));
    [|now repeat split].
  destruct (execEnd XyChart.dataRe (trim line)) as [mt|] eqn:E; [|now repeat split].
  apply xychart_dataRe_captures in E as (w & g & Hw & Ng & Pg & -> & ->).
  cbn [XyChart.xLabel XyChart.yLabel XyChart.datasets text_of].
  split; [exact Hx|]. split; [exact Hy|]. apply Forall_app. split; [exact Hd|].
  constructor; [|constructor]. unfold goodDataset, XyChart.labelOf.
  cbn [XyChart.type XyChart.dataStr].
  split; [|now split]. destruct Hw as [-> | ->]; [left|right]; split; reflexivity.
Qed.
